(** * rsm memory subsystem: buddy page manager, translation cache, kernel heap

    A shallow embedding of [src/mem_mm.c] (rmm), [src/vm.c] (vm) and the
    kernel-style allocator (kmem), followed by the properties established
    about them.

    Conventions
    - [uintptr], [usize] and [u64] are 64-bit: values are [Z] in
      [0, 2^64) and every C operation that can wrap is written with
      [wrap64].
    - [assert]/[assertf] are compiled out of non-DEBUG builds
      ([#define assert(cond) ((void)0)]) and are left out of the
      definitions; [safecheckf] and [panic] abort and are modelled by
      [None]. *)

From Stdlib Require Import ZArith List Lia Bool Permutation.
Import ListNotations.
Open Scope Z_scope.

(* ===================================================================== *)
(** * Part I: definitions                                                *)
(* ===================================================================== *)

(** ** Machine integers and the macros of rsmimpl.h *)

Definition wrap64 (x : Z) : Z := x mod 2^64.

Definition wrap32 (x : Z) : Z := x mod 2^32.

Definition UINTPTR_MAX : Z := 2^64 - 1.

(** Modelled from the spec: [RSM_PAGE_SIZE] (rsm.h) is not among the
    sources; the page is 4096 bytes, the value the comments of mem_mm.c
    assume ("0 4096, 1 8192, 2 16384"). *)
Definition PAGE_SIZE_BITS : Z := 12.
Definition PAGE_SIZE : Z := 4096.

(** [~x] on a 64-bit operand. *)
Definition not64 (x : Z) : Z := wrap64 (Z.lnot x).

(** [ALIGN2(x,a)]: [atmp = a - 1; (x + atmp) & ~atmp]. *)
Definition ALIGN2 (x a : Z) : Z :=
  let atmp := wrap64 (a - 1) in
  Z.land (wrap64 (x + atmp)) (not64 atmp).

(** [ALIGN2_FLOOR(x,a)]: [atmp = a - 1; ((x - (atmp - 1)) + atmp) & ~atmp]. *)
Definition ALIGN2_FLOOR (x a : Z) : Z :=
  let atmp := wrap64 (a - 1) in
  Z.land (wrap64 (wrap64 (x - wrap64 (atmp - 1)) + atmp)) (not64 atmp).

(** [IS_ALIGN2(x,a)]: [!(x & (a - 1))]. *)
Definition IS_ALIGN2 (x a : Z) : bool :=
  Z.land x (wrap64 (a - 1)) =? 0.

(** [IS_POW2(x)]: [(x & (x - 1)) == 0]. *)
Definition IS_POW2 (x : Z) : bool :=
  Z.land x (wrap64 (x - 1)) =? 0.

(** ** mem_mm.c: the buddy page manager *)

Definition MAX_ORDER : nat := 20.

(** [MAX_ORDER_NPAGES = 1lu << MAX_ORDER]. *)
Definition MAX_ORDER_NPAGES : Z := Z.shiftl 1 (Z.of_nat MAX_ORDER).

(** [rmm_t] without its lock.  [bitsets k] is the use bitset of order [k],
    indexed by bit number; [freelists k] is the free list of order [k], the
    host addresses of its nodes from first to last.  (The list nodes live in
    the free blocks themselves and the bitsets in the managed region: the
    memory layout is not part of the model.) *)
Record rmm_t : Type := mk_rmm {
  start_addr : Z;
  end_addr : Z;
  free_size : Z;
  bitsets : nat -> Z -> bool;
  freelists : nat -> list Z
}.

Definition upd {A : Type} (f : nat -> A) (k : nat) (v : A) : nat -> A :=
  fun j => if Nat.eqb j k then v else f j.

Definition set_freelist (mm : rmm_t) (order : nat) (l : list Z) : rmm_t :=
  mk_rmm (start_addr mm) (end_addr mm) (free_size mm) (bitsets mm)
         (upd (freelists mm) order l).

Definition set_bitset (mm : rmm_t) (order : nat) (b : Z -> bool) : rmm_t :=
  mk_rmm (start_addr mm) (end_addr mm) (free_size mm)
         (upd (bitsets mm) order b) (freelists mm).

Definition set_free_size (mm : rmm_t) (n : Z) : rmm_t :=
  mk_rmm (start_addr mm) (end_addr mm) n (bitsets mm) (freelists mm).

(** Modelled from the spec: bits.h is not among the sources; [bit_get],
    [bit_set] and [bit_clear] read, set and clear one bit of a bitset. *)
Definition bit_get (bits : Z -> bool) (bit : Z) : bool := bits bit.
Definition bit_set (bits : Z -> bool) (bit : Z) : Z -> bool :=
  fun i => if i =? bit then true else bits i.
Definition bit_clear (bits : Z -> bool) (bit : Z) : Z -> bool :=
  fun i => if i =? bit then false else bits i.

(** Modelled from the spec: list.h is not among the sources.  A free list is
    a list of blocks; [ilist_append] links an entry at the tail, [ilist_pop]
    unlinks and returns the last entry ([None] for the NULL of an empty
    list), [ilist_del] unlinks an entry from the list it is on. *)
Definition ilist_append (l : list Z) (entry : Z) : list Z := l ++ [entry].

Definition ilist_pop (l : list Z) : option (Z * list Z) :=
  match rev l with
  | [] => None
  | entry :: r => Some (entry, rev r)
  end.

Definition ilist_del (mm : rmm_t) (entry : Z) : rmm_t :=
  mk_rmm (start_addr mm) (end_addr mm) (free_size mm) (bitsets mm)
         (fun k => remove Z.eq_dec entry (freelists mm k)).

(** [(usize)PAGE_SIZE << order]. *)
Definition order_size (order : nat) : Z :=
  wrap64 (Z.shiftl PAGE_SIZE (Z.of_nat order)).

(** Conversion of a 64-bit value to [int]. *)
Definition to_int (x : Z) : Z := (x + 2^31) mod 2^32 - 2^31.

(** [rmm_allocpages1(mm, order)]: the state after the call and the offset
    of the block from [start_addr], or [UINTPTR_MAX].  The recursion climbs
    the orders and stops above [MAX_ORDER]; [fuel] counts the orders left. *)
Fixpoint rmm_allocpages1 (fuel : nat) (mm : rmm_t) (order : nat) : rmm_t * Z :=
  if (MAX_ORDER <? order)%nat then (mm, UINTPTR_MAX) else
  let size := order_size order in
  let use_block (mm : rmm_t) (addr : Z) : rmm_t * Z :=
    let bit := addr / size in
    (set_bitset mm order (bit_set (bitsets mm order) bit), addr) in
  let split_next (mm : rmm_t) : rmm_t * Z :=
    match fuel with
    | O => (mm, UINTPTR_MAX)
    | S fuel' =>
        let '(mm, addr) := rmm_allocpages1 fuel' mm (S order) in
        if addr =? UINTPTR_MAX then (mm, UINTPTR_MAX) else
        let buddy1 := wrap64 (addr + start_addr mm) in
        let buddy2 := wrap64 (buddy1 + size) in
        use_block
          (set_freelist mm order (ilist_append (freelists mm order) buddy2))
          addr
    end in
  match ilist_pop (freelists mm order) with
  | Some (entry, rest) =>
      let mm := set_freelist mm order rest in
      if entry =? 0 then split_next mm
      else use_block mm (wrap64 (entry - start_addr mm))
  | None => split_next mm
  end.

(** [for (usize n = npages; n && !(n & 1); n >>= 1) order++]. *)
Fixpoint order_of_npages (fuel : nat) (n : Z) (order : nat) : nat :=
  match fuel with
  | O => order
  | S fuel' =>
      if negb (n =? 0) && (Z.land n 1 =? 0)
      then order_of_npages fuel' (Z.shiftr n 1) (S order)
      else order
  end.

(** [rmm_allocpages(mm, npages)]: [None] when [safecheckf] aborts, else the
    state after the call and the returned pointer (0 for NULL). *)
Definition rmm_allocpages (mm : rmm_t) (npages : Z) : option (rmm_t * Z) :=
  if npages =? 0 then Some (mm, 0) else
  if negb (IS_POW2 npages) then None else
  let order := order_of_npages 64 npages 0 in
  let '(mm, addr) := rmm_allocpages1 (S MAX_ORDER) mm order in
  if addr =? UINTPTR_MAX then Some (mm, 0)
  else
    Some (set_free_size mm
            (wrap64 (free_size mm - wrap64 (npages * PAGE_SIZE))),
          wrap64 (addr + start_addr mm)).

(** [rmm_freepages1(mm, addr, order)]: the state after the call and the
    [int] result. *)
Fixpoint rmm_freepages1 (fuel : nat) (mm : rmm_t) (addr : Z) (order : nat)
  : rmm_t * Z :=
  if (MAX_ORDER <? order)%nat then (mm, -1) else
  let size := order_size order in
  let bit := to_int (addr / size) in
  if negb (bit_get (bitsets mm order) bit) then
    match fuel with
    | O => (mm, -1)
    | S fuel' => rmm_freepages1 fuel' mm addr (S order)
    end
  else
    let buddy_addr := Z.lxor addr size in
    let buddy_bit := to_int (buddy_addr / size) in
    let mm := set_bitset mm order (bit_clear (bitsets mm order) bit) in
    if negb (bit_get (bitsets mm order) buddy_bit) then
      let buddy := wrap64 (buddy_addr + start_addr mm) in
      let mm := ilist_del mm buddy in
      let mm :=
        match fuel with
        | O => mm
        | S fuel' =>
            fst (rmm_freepages1 fuel' mm
                   (if addr <? buddy_addr then addr else buddy_addr)
                   (S order))
        end in
      (mm, Z.of_nat order)
    else
      let block := wrap64 (addr + start_addr mm) in
      (set_freelist mm order (ilist_append (freelists mm order) block),
       Z.of_nat order).

Definition rmm_freepages (mm : rmm_t) (ptr : Z) : rmm_t :=
  let '(mm, order) :=
    rmm_freepages1 (S MAX_ORDER) mm (wrap64 (ptr - start_addr mm)) 0 in
  if 0 <=? order
  then set_free_size mm
         (wrap64 (free_size mm + order_size (Z.to_nat order)))
  else mm.

(** [sizeof(rmm_t)] and [_Alignof(rmm_t)]: the struct holds a lock, three
    words, and [MAX_ORDER + 1] bitset pointers and list heads; mem_mm.c
    documents 544 bytes for [MAX_ORDER] 20. *)
Definition sizeof_rmm_t : Z := 544.
Definition alignof_rmm_t : Z := 8.

(** Modelled from the spec: [_rsm_floor_pow2_64] is declared in rsmimpl.h
    and defined elsewhere; [FLOOR_POW2(x)] "rounds down x to nearest power
    of two. Returns 1 when x is 0." *)
Definition FLOOR_POW2 (x : Z) : Z :=
  let x := if x =? 0 then 1 else x in 2 ^ Z.log2 x.

(** [BITSET_SIZE(order)]: [(bset_nbytes >> order) + bset_extra_nbytes]. *)
Definition BITSET_SIZE (bset_nbytes : Z) (order : Z) : Z :=
  wrap64 (Z.shiftr bset_nbytes order + 2).

(** [for (u8 order = 1; order <= MAX_ORDER; order++)
       bset_total_size += BITSET_SIZE(order)], [n] orders being left. *)
Fixpoint bset_total (n : nat) (bset_nbytes order acc : Z) : Z :=
  match n with
  | O => acc
  | S n' =>
      bset_total n' bset_nbytes (order + 1)
                 (wrap64 (acc + BITSET_SIZE bset_nbytes order))
  end.

(** [int order = -1; for (usize n = npages; n; n >>= 1) order++]. *)
Fixpoint order_of_block (fuel : nat) (n : Z) (order : Z) : Z :=
  match fuel with
  | O => order
  | S fuel' =>
      if n =? 0 then order
      else order_of_block fuel' (Z.shiftr n 1) (order + 1)
  end.

(** The seeding loop of [rmm_create]: [while (npages_total) { ... }]. *)
Fixpoint rmm_seed (fuel : nat) (mm : rmm_t) (npages_total start : Z) : rmm_t :=
  match fuel with
  | O => mm
  | S fuel' =>
      if npages_total =? 0 then mm else
      let npages := Z.min (FLOOR_POW2 npages_total) MAX_ORDER_NPAGES in
      let npages_total := wrap64 (npages_total - npages) in
      let order := Z.to_nat (order_of_block 64 npages (-1)) in
      let block_size := order_size order in
      let mm :=
        set_freelist mm order (ilist_append (freelists mm order) start) in
      let bit := wrap64 (start - start_addr mm) / block_size in
      let mm := set_bitset mm order (bit_clear (bitsets mm order) bit) in
      let mm := set_bitset mm order (bit_set (bitsets mm order) (bit + 1)) in
      rmm_seed fuel' mm npages_total (wrap64 (start + block_size))
  end.

(** A bound on the iterations of the seeding loop: every pass takes either
    a whole [MAX_ORDER] block or the leading bit of what is left. *)
Definition seed_fuel (npages_total : Z) : nat :=
  (Z.to_nat (npages_total / MAX_ORDER_NPAGES) + 64)%nat.

(** [rmm_create(memp, memsize)]; [None] is the NULL of [out_of_memory]. *)
Definition rmm_create (memp memsize : Z) : option rmm_t :=
  let start := ALIGN2 memp PAGE_SIZE in
  let end_ := wrap64 (memp + memsize) in
  let mm_addr := ALIGN2_FLOOR (wrap64 (end_ - sizeof_rmm_t)) alignof_rmm_t in
  (* check_sub_overflow((uintptr)mm, start, &memsize) *)
  if mm_addr <? start then None else
  let memsize := mm_addr - start in
  let nchunks := memsize / PAGE_SIZE in
  let bset_nbytes := nchunks / 8 in
  let bset_total_size :=
    bset_total MAX_ORDER bset_nbytes 1 (wrap64 (bset_nbytes + 2)) in
  (* check_sub_overflow(memsize, bset_total_size + PAGE_SIZE, &memsize) *)
  let need := wrap64 (bset_total_size + PAGE_SIZE) in
  if memsize <? need then None else
  let memsize := memsize - need in
  let memsize := ALIGN2_FLOOR memsize PAGE_SIZE in
  if memsize =? 0 then None else
  let mm :=
    {| start_addr := start;
       end_addr := wrap64 (start + memsize);
       free_size := memsize;
       bitsets := fun _ _ => false;
       freelists := fun _ => [] |} in
  let npages_total := memsize / PAGE_SIZE in
  Some (rmm_seed (seed_fuel npages_total) mm npages_total start).

(** *** Well-formed states and ghost state of the page manager *)

(** The bytes on the free lists of orders [0..MAX_ORDER]. *)
Definition free_bytes (mm : rmm_t) : Z :=
  fold_right Z.add 0
    (map (fun k => order_size k * Z.of_nat (length (freelists mm k)))
         (seq 0 (S MAX_ORDER))).

(** A state whose free blocks lie in the managed range
    [[start_addr, end_addr)] and whose [free_size] accounts for them. *)
Record rmm_wf (mm : rmm_t) : Prop := mk_rmm_wf {
  wf_start : 0 < start_addr mm;
  wf_end : end_addr mm <= 2^64;
  wf_entries : forall k e, (k <= MAX_ORDER)%nat ->
      In e (freelists mm k) -> start_addr mm <= e < end_addr mm;
  wf_free_size : free_bytes mm <= free_size mm < 2^64
}.

(** No free block at any order from [k] up to [MAX_ORDER]. *)
Definition no_free_block (mm : rmm_t) (k : nat) : Prop :=
  forall j, (k <= j <= MAX_ORDER)%nat -> freelists mm j = [].

(** *** The buddy tree behind a state

    A block is named by its order [k] and its byte offset [a] from
    [start_addr]; it covers [[a, a + bsize k)].  The blocks the manager
    deals with are the seed blocks placed by [rmm_create] (the roots) and
    the halves obtained by splitting them. *)

Definition bsize (k : nat) : Z := PAGE_SIZE * 2 ^ Z.of_nat k.

Definition node (k : nat) (a : Z) : Prop :=
  (k <= MAX_ORDER)%nat /\ exists i, 0 <= i /\ a = i * bsize k.

(** Block [(k, a)] lies inside block [(K, A)]. *)
Definition within (k : nat) (a : Z) (K : nat) (A : Z) : Prop :=
  (k <= K)%nat /\ A <= a /\ a + bsize k <= A + bsize K.

(** [buddy(a, k) = a XOR (PAGE_SIZE << k)]. *)
Definition buddy_of (k : nat) (a : Z) : Z := Z.lxor a (bsize k).

(** The blocks handed out and not yet freed: order and pointer. *)
Definition live_t : Type := list (nat * Z).

Definition isfree (mm : rmm_t) (k : nat) (a : Z) : Prop :=
  In (start_addr mm + a) (freelists mm k).

Definition isset (mm : rmm_t) (k : nat) (a : Z) : Prop :=
  bitsets mm k (a / bsize k) = true.

Definition islive (mm : rmm_t) (L : live_t) (k : nat) (a : Z) : Prop :=
  In (k, start_addr mm + a) L.

(** Nothing is recorded for the block or for any block inside it. *)
Fixpoint blank (mm : rmm_t) (L : live_t) (k : nat) (a : Z) : Prop :=
  ~ isset mm k a /\ ~ isfree mm k a /\ ~ islive mm L k a
  /\ match k with
     | O => True
     | S k' => blank mm L k' a /\ blank mm L k' (a + bsize k')
     end.

Definition below_blank (mm : rmm_t) (L : live_t) (k : nat) (a : Z) : Prop :=
  match k with
  | O => True
  | S k' => blank mm L k' a /\ blank mm L k' (a + bsize k')
  end.

(** The block is free (on its free list, bit clear), or handed out (bit
    set), or split (bit set) into two halves that are again in order. *)
Fixpoint ok (mm : rmm_t) (L : live_t) (k : nat) (a : Z) : Prop :=
  (isfree mm k a /\ ~ isset mm k a /\ ~ islive mm L k a
   /\ below_blank mm L k a)
  \/ (islive mm L k a /\ isset mm k a /\ ~ isfree mm k a
      /\ below_blank mm L k a)
  \/ (isset mm k a /\ ~ isfree mm k a /\ ~ islive mm L k a
      /\ match k with
         | O => False
         | S k' => ok mm L k' a /\ ok mm L k' (a + bsize k')
         end).

(** The three facts recorded about a block are the same in two states. *)
Definition same_at (mm : rmm_t) (L : live_t) (mm' : rmm_t) (L' : live_t)
  (k : nat) (a : Z) : Prop :=
  (isfree mm k a <-> isfree mm' k a)
  /\ (isset mm k a <-> isset mm' k a)
  /\ (islive mm L k a <-> islive mm' L' k a).

Definition in_tree (R : list (nat * Z)) (k : nat) (a : Z) : Prop :=
  node k a /\ exists K A, In (K, A) R /\ within k a K A.

Definition live_bytes (L : live_t) : Z :=
  fold_right Z.add 0 (map (fun e => bsize (fst e)) L).

(** The invariant of the page manager, for the live blocks [L] and the
    seed blocks [R]. *)
Record rmm_inv (mm : rmm_t) (L : live_t) (R : list (nat * Z)) : Prop :=
  mk_rmm_inv {
  inv_start : 0 < start_addr mm /\ start_addr mm mod PAGE_SIZE = 0;
  inv_range : start_addr mm <= end_addr mm < 2^64
              /\ end_addr mm - start_addr mm < 2^43;
  inv_roots : forall K A, In (K, A) R ->
      node K A /\ A + bsize K <= end_addr mm - start_addr mm;
  inv_disjoint : forall K1 A1 K2 A2,
      In (K1, A1) R -> In (K2, A2) R ->
      A1 < A2 + bsize K2 -> A2 < A1 + bsize K1 -> K1 = K2 /\ A1 = A2;
  (** a seed block is in order, or lost as a whole *)
  inv_ok : forall K A, In (K, A) R -> ok mm L K A \/ blank mm L K A;
  (** the buddy of a seed block is the imaginary end buddy, whose bit stays
      set, unless both are seed blocks of the largest order *)
  inv_sentinel : forall K A, In (K, A) R ->
      (K = MAX_ORDER /\ In (K, buddy_of K A) R)
      \/ (isset mm K (buddy_of K A)
          /\ forall K' A', In (K', A') R -> ~ within K (buddy_of K A) K' A');
  inv_free_cover : forall k e, (k <= MAX_ORDER)%nat ->
      In e (freelists mm k) ->
      exists a, e = start_addr mm + a /\ in_tree R k a;
  inv_live_cover : forall k p, In (k, p) L ->
      exists a, p = start_addr mm + a /\ in_tree R k a;
  inv_free_nodup : forall k, (k <= MAX_ORDER)%nat -> NoDup (freelists mm k);
  inv_live_nodup : NoDup L
}.

(** The accounting of [free_size]: it covers the blocks on the free lists,
    and together with the blocks handed out it makes up the managed
    range. *)
Definition rmm_acct (mm : rmm_t) (L : live_t) : Prop :=
  free_bytes mm <= free_size mm
  /\ free_size mm + live_bytes L = end_addr mm - start_addr mm.

(** A region of host memory handed to [rmm_create]: not at address 0, at
    least a page long, not wrapping round the address space, and below
    8 TiB, so that the bit numbers fit the [int] of [rmm_freepages1]. *)
Definition host_region (memp memsize : Z) : Prop :=
  0 < memp /\ PAGE_SIZE <= memsize < 2^43 /\ memp + memsize <= 2^64.

Definition live_eq_dec (x y : nat * Z) : {x = y} + {x <> y}.
Proof. decide equality; [apply Z.eq_dec | apply Nat.eq_dec]. Defined.

(** The states reached from [rmm_create] over such a region (less than
    8 TiB) by allocating power-of-two page counts and freeing blocks that
    were handed out and not freed since, together with the blocks currently
    handed out. *)
Inductive rmm_reachable : rmm_t -> live_t -> Prop :=
| reach_create memp memsize mm :
    host_region memp memsize ->
    rmm_create memp memsize = Some mm ->
    rmm_reachable mm []
| reach_alloc mm L k mm' p :
    rmm_reachable mm L -> (k < 64)%nat ->
    rmm_allocpages mm (2 ^ Z.of_nat k) = Some (mm', p) -> p <> 0 ->
    rmm_reachable mm' ((k, p) :: L)
| reach_alloc_null mm L k mm' :
    rmm_reachable mm L -> (k < 64)%nat ->
    rmm_allocpages mm (2 ^ Z.of_nat k) = Some (mm', 0) ->
    rmm_reachable mm' L
| reach_free mm L k p :
    rmm_reachable mm L -> In (k, p) L ->
    rmm_reachable (rmm_freepages mm p) (remove live_eq_dec (k, p) L).


(** The state of the seeding loop of [rmm_create] after it has placed the
    seed blocks [R]: [c] is the offset of the cursor [start] from
    [start_addr] and [last] the order of the block placed last
    ([MAX_ORDER] before the first). *)
Record seed_inv (mm : rmm_t) (R : list (nat * Z)) (c : Z) (last : nat) : Prop :=
  mk_seed_inv {
  s_free : forall k e, In e (freelists mm k) <->
      exists A, e = start_addr mm + A /\ In (k, A) R;
  s_nodup : forall k, NoDup (freelists mm k);
  s_bits : forall k i, bitsets mm k i = true <->
      exists A, In (k, A) R /\ i = A / bsize k + 1 /\ ~ In (k, A + bsize k) R;
  s_node : forall K A, In (K, A) R ->
      node K A /\ A + bsize K <= c /\ (last <= K)%nat;
  s_ord : forall K A K' A', In (K, A) R -> In (K', A') R -> (K < K')%nat ->
      A' + bsize K' <= A;
  s_uniq : forall K A A', In (K, A) R -> In (K, A') R ->
      (K < MAX_ORDER)%nat -> A = A';
  s_even : forall K A, In (K, A) R -> (K < MAX_ORDER)%nat -> node (S K) A;
  s_chain : forall A, In (MAX_ORDER, A) R ->
      A = 0 \/ In (MAX_ORDER, A - bsize MAX_ORDER) R;
  s_cur : node last c;
  s_curmax : last = MAX_ORDER ->
      c = 0 \/ In (MAX_ORDER, c - bsize MAX_ORDER) R;
  s_fb : free_bytes mm = c
}.

(** *** The queries *)

(** [rmm_cap(mm)]: the pages of the managed range. *)
Definition rmm_cap (mm : rmm_t) : Z :=
  wrap64 (end_addr mm - start_addr mm) / PAGE_SIZE.

(** [rmm_avail_total(mm)]. *)
Definition rmm_avail_total (mm : rmm_t) : Z := free_size mm / PAGE_SIZE.

(** [rmm_avail_maxregion(mm)]: the largest, over the orders, of
    [ilist_count(&mm->freelists[order]) * (1lu << order)]. *)
Definition rmm_avail_maxregion (mm : rmm_t) : Z :=
  fold_left
    (fun npages order =>
       let n := wrap64 (Z.of_nat (length (freelists mm order))
                        * Z.shiftl 1 (Z.of_nat order)) in
       if npages <? n then n else npages)
    (seq 0 (S MAX_ORDER)) 0.

Definition rmm_startaddr (mm : rmm_t) : Z := start_addr mm.

(** The pages of the blocks handed out. *)
Definition live_pages (L : live_t) : Z :=
  fold_right Z.add 0 (map (fun e => 2 ^ Z.of_nat (fst e)) L).

(** ** kmem: the kernel-style allocator (sub-heaps and slab heaps) *)

Definition SLABHEAP_COUNT : nat := 4.
(** [SLABHEAP_MIN_SIZE = sizeof(void* )]. *)
Definition SLABHEAP_MIN_SIZE : Z := 8.
Definition SLABHEAP_BLOCK_SIZE : Z := PAGE_SIZE * 16.
Definition SLABHEAP_BLOCK_MASK : Z := not64 (SLABHEAP_BLOCK_SIZE - 1).
Definition CHUNK_SIZE : Z := 64.
Definition CHUNK_MASK : Z := not64 (CHUNK_SIZE - 1).
Definition BEST_FIT_THRESHOLD : Z := 128.
(** [sizeof(slabblock_t)]: two pointers and two [u32]. *)
Definition sizeof_slabblock_t : Z := 24.

(** [bitset_t] (bits.h, not among the sources): [bs_len] bits. *)
Record bitset_t : Type := mk_bitset {
  bs_len : Z;
  bs_bits : Z -> bool
}.

Record heap_t : Type := mk_heap {
  chunk_cap : Z;
  chunk_len : Z;
  chunks : Z;           (* address of the first chunk *)
  chunk_use : bitset_t
}.

Definition bitset_get (bs : bitset_t) (i : Z) : bool := bs_bits bs i.

Definition bitset_set_range (bs : bitset_t) (start len : Z) (on : bool)
  : bitset_t :=
  mk_bitset (bs_len bs)
    (fun i => if (start <=? i) && (i <? start + len) then on
              else bs_bits bs i).

(** The bits [i, i+n) are clear. *)
Fixpoint run_clear (bs : bitset_t) (i : Z) (n : nat) : bool :=
  match n with
  | O => true
  | S n' => negb (bs_bits bs i) && run_clear bs (i + 1) n'
  end.

(** The number of clear bits from [i] upwards, and from [i] downwards, up
    to the first set bit or the end of the bitset. *)
Fixpoint run_length (fuel : nat) (bs : bitset_t) (i : Z) : Z :=
  match fuel with
  | O => 0
  | S fuel' =>
      if (i <? bs_len bs) && negb (bs_bits bs i)
      then 1 + run_length fuel' bs (i + 1)
      else 0
  end.

Fixpoint run_length_down (fuel : nat) (bs : bitset_t) (i : Z) : Z :=
  match fuel with
  | O => 0
  | S fuel' =>
      if (0 <=? i) && negb (bs_bits bs i)
      then 1 + run_length_down fuel' bs (i - 1)
      else 0
  end.

(** Modelled from the spec: [bitset_find_first_fit] (bits.h): "Search the
    bitset for a run of nchunks clear bits starting at an index that is a
    multiple of chunks_align ... first fit -- return the first qualifying
    run."  The result is the start index, the run found having [minlen]
    bits. *)
Fixpoint first_fit_from (fuel : nat) (bs : bitset_t) (i minlen stride : Z)
  : option Z :=
  match fuel with
  | O => None
  | S fuel' =>
      if bs_len bs <? i + minlen then None
      else if run_clear bs i (Z.to_nat minlen) then Some i
      else first_fit_from fuel' bs (i + stride) minlen stride
  end.

Definition bitset_find_first_fit (bs : bitset_t) (minlen stride : Z)
  : option Z :=
  first_fit_from (Z.to_nat (bs_len bs / stride + 1)) bs 0 minlen stride.

(** Modelled from the spec: [bitset_find_best_fit] (bits.h): "best fit --
    return the smallest qualifying run (ties broken by lowest index)".  A
    candidate start is measured by the whole run of clear bits around it. *)
Fixpoint best_fit_from (fuel : nat) (bs : bitset_t) (i minlen stride : Z)
  (best : option (Z * Z)) : option (Z * Z) :=
  match fuel with
  | O => best
  | S fuel' =>
      if bs_len bs <? i + minlen then best
      else
        let best' :=
          if run_clear bs i (Z.to_nat minlen) then
            let n := run_length (Z.to_nat (bs_len bs - i)) bs i
                     + run_length_down (Z.to_nat i) bs (i - 1) in
            match best with
            | Some (_, m) => if n <? m then Some (i, n) else best
            | None => Some (i, n)
            end
          else best in
        best_fit_from fuel' bs (i + stride) minlen stride best'
  end.

Definition bitset_find_best_fit (bs : bitset_t) (minlen stride : Z)
  : option Z :=
  option_map fst
    (best_fit_from (Z.to_nat (bs_len bs / stride + 1)) bs 0 minlen stride None).

(** [KMEM_ALLOC_SCRUB_BYTE] and [KMEM_FREE_SCRUB_BYTE]: not zero, so the
    regions handed out and the regions freed are filled. *)
Definition KMEM_ALLOC_SCRUB_BYTE : Z := 0xbb.
Definition KMEM_FREE_SCRUB_BYTE : Z := 0xaa.

(** Host memory by bytes: [load n m a] is the little-endian value of the
    [n] bytes at [a], [store n m a v] writes the [n] low bytes of [v]
    there, and [memset m a c n] fills [n] bytes with [c]. *)
Fixpoint load (n : nat) (m : Z -> Z) (a : Z) : Z :=
  match n with
  | O => 0
  | S n' => m a mod 256 + 256 * load n' m (a + 1)
  end.

Definition store (n : nat) (m : Z -> Z) (a v : Z) : Z -> Z :=
  fun x => if (a <=? x) && (x <? a + Z.of_nat n)
           then (v / 256 ^ (x - a)) mod 256 else m x.

Definition memset (m : Z -> Z) (a c n : Z) : Z -> Z :=
  fun x => if (a <=? x) && (x <? a + n) then c mod 256 else m x.

Definition load64 := load 8.
Definition load32 := load 4.
Definition store64 := store 8.
Definition store32 := store 4.

(** [heap_alloc(h, sizep, alignment)]: the heap and the memory after the
    call, the pointer and the effective size; [None] for NULL. *)
Definition heap_alloc (h : heap_t) (m : Z -> Z) (size alignment : Z)
  : option (heap_t * (Z -> Z) * Z * Z) :=
  let nchunks := wrap64 (size + CHUNK_SIZE - 1) / CHUNK_SIZE in
  let chunks_align := alignment / CHUNK_SIZE in
  let chunks_align := chunks_align + (if chunks_align =? 0 then 1 else 0) in
  if wrap64 (chunk_cap h - chunk_len h) <? nchunks then None else
  let found :=
    if nchunks <? BEST_FIT_THRESHOLD
    then bitset_find_first_fit (chunk_use h) nchunks chunks_align
    else bitset_find_best_fit (chunk_use h) nchunks chunks_align in
  match found with
  | None => None
  | Some chunk_index =>
      if nchunks =? 0 then None else
      let h' :=
        mk_heap (chunk_cap h) (chunk_len h + nchunks) (chunks h)
                (bitset_set_range (chunk_use h) chunk_index nchunks true) in
      let ptr := wrap64 (chunks h + chunk_index * CHUNK_SIZE) in
      let size := wrap64 (nchunks * CHUNK_SIZE) in
      Some (h', memset m ptr KMEM_ALLOC_SCRUB_BYTE size, ptr, size)
  end.

Definition heap_contains (h : heap_t) (ptr size : Z) : bool :=
  let max_addr := wrap64 (chunks h + wrap64 (chunk_cap h * CHUNK_SIZE)) in
  (chunks h <=? ptr) && (wrap64 (ptr + size) <=? max_addr).


(** [heap_free(h, ptr, size)]: the heap and the memory after the call. *)
Definition heap_free (h : heap_t) (m : Z -> Z) (ptr size : Z)
  : heap_t * (Z -> Z) :=
  let chunk_addr := Z.land ptr CHUNK_MASK in
  let chunk_index := wrap64 (chunk_addr - chunks h) / CHUNK_SIZE in
  let n := size / CHUNK_SIZE in
  (mk_heap (chunk_cap h) (wrap64 (chunk_len h - n)) (chunks h)
           (bitset_set_range (chunk_use h) chunk_index n false),
   memset m ptr KMEM_FREE_SCRUB_BYTE size).

Record slabheap_t : Type := mk_slabheap {
  sh_size : Z;
  sh_usable : Z;              (* head of the usable list, 0 for NULL *)
  sh_full : Z                 (* head of the full list, 0 for NULL *)
}.

(** [rmemalloc_t]: the sub-heaps in list order, the slab heaps by index,
    and the bytes of the memory the sub-heaps hand out.  The headers of the
    slab blocks and the [next] links of the freed chunks live in that
    memory.  (The allocator struct itself, with [slabheaps], and the
    bitsets of the sub-heaps are kept apart from it.) *)
Record rmemalloc_t : Type := mk_rmemalloc {
  subheaps : list heap_t;
  slabheaps : nat -> slabheap_t;
  mem : Z -> Z
}.

(** [slabblock_t]: [next] at offset 0, [recycle] at 8, [cap] and [len]
    ([u32]) at 16 and 20.  [blockmem a block] is the header read from
    memory at [block]. *)
Record slabblock_t : Type := mk_slabblock {
  blk_next : Z;
  blk_recycle : Z;
  blk_cap : Z;
  blk_len : Z
}.

Definition blockmem (a : rmemalloc_t) (block : Z) : slabblock_t :=
  mk_slabblock (load64 (mem a) block) (load64 (mem a) (block + 8))
               (load32 (mem a) (block + 16)) (load32 (mem a) (block + 20)).

Record rmem2_t : Type := mk_rmem2 { r_start : Z; r_size : Z }.

(** [kmem_heapalloc]: the first sub-heap, in list order, that has room. *)
Fixpoint heapalloc_list (hs : list heap_t) (m : Z -> Z) (size alignment : Z)
  : option (list heap_t * (Z -> Z) * Z * Z) :=
  match hs with
  | [] => None
  | h :: rest =>
      match heap_alloc h m size alignment with
      | Some (h', m', ptr, sz) => Some (h' :: rest, m', ptr, sz)
      | None =>
          match heapalloc_list rest m size alignment with
          | Some (rest', m', ptr, sz) => Some (h :: rest', m', ptr, sz)
          | None => None
          end
      end
  end.

Definition kmem_heapalloc (a : rmemalloc_t) (size alignment : Z)
  : option (rmemalloc_t * Z * Z) :=
  match heapalloc_list (subheaps a) (mem a) size alignment with
  | Some (hs, m, ptr, sz) => Some (mk_rmemalloc hs (slabheaps a) m, ptr, sz)
  | None => None
  end.

Definition set_slabheap (a : rmemalloc_t) (i : nat) (sh : slabheap_t)
  : rmemalloc_t :=
  mk_rmemalloc (subheaps a) (upd (slabheaps a) i sh) (mem a).

Definition set_mem (a : rmemalloc_t) (m : Z -> Z) : rmemalloc_t :=
  mk_rmemalloc (subheaps a) (slabheaps a) m.

(** [slabheap_grow(a, sh)] for the slab heap of index [i].  [kmem_expand]
    is [panic("TODO expand memory")]: when the sub-heaps have no room the
    call aborts ([None]). *)
Definition slabheap_grow (a : rmemalloc_t) (i : nat)
  : option (rmemalloc_t * Z) :=
  match kmem_heapalloc a SLABHEAP_BLOCK_SIZE SLABHEAP_BLOCK_SIZE with
  | None => None
  | Some (a, block, _) =>
      let sh := slabheaps a i in
      let m := store32 (mem a) (block + 16)
                 (wrap32 (SLABHEAP_BLOCK_SIZE / sh_size sh)) in
      let m := store32 m (block + 20) 0 in
      let m := store64 m (block + 8) 0 in
      let m := store64 m block 0 in
      Some (set_slabheap (set_mem a m) i
              (mk_slabheap (sh_size sh) block (sh_full sh)),
            block)
  end.

(** [slabheap_alloc(a, sh)] for the slab heap of index [i]: the allocator
    after the call and the chunk.  [chunk->next] is read once for
    [block->recycle = chunk->next] and once more for the test that
    follows. *)
Definition slabheap_alloc (a : rmemalloc_t) (i : nat)
  : option (rmemalloc_t * Z) :=
  let grown :=
    if sh_usable (slabheaps a i) =? 0 then slabheap_grow a i
    else Some (a, sh_usable (slabheaps a i)) in
  match grown with
  | None => None
  | Some (a, block) =>
      let sh := slabheaps a i in
      let m := mem a in
      let chunk := load64 m (block + 8) in
      let '(m, chunk) :=
        if chunk =? 0 then
          let data_addr :=
            ALIGN2 (wrap64 (block + sizeof_slabblock_t)) (sh_size sh) in
          let chunk :=
            wrap64 (data_addr + wrap64 (load32 m (block + 20) * sh_size sh)) in
          let m := store64 m chunk 0 in
          let m := store32 m (block + 20)
                     (wrap32 (load32 m (block + 20) + 1)) in
          (m, chunk)
        else (m, chunk) in
      let m := store64 m (block + 8) (load64 m chunk) in
      if (load64 m chunk =? 0)
         && (load32 m (block + 20) =? load32 m (block + 16))
      then
        let usable := load64 m block in
        let m := store64 m block (sh_full sh) in
        Some (set_slabheap (set_mem a m) i
                (mk_slabheap (sh_size sh) usable block),
              chunk)
      else Some (set_mem a m, chunk)
  end.

(** [slabheap_free(a, sh, ptr)] for the slab heap of index [i]: the chunk
    is filled with the scrub byte, then the header of the block found by
    masking [ptr] is read and the chunk is linked in front of the recycle
    list. *)
Definition slabheap_free (a : rmemalloc_t) (i : nat) (ptr : Z) : rmemalloc_t :=
  let sh := slabheaps a i in
  let m := memset (mem a) ptr KMEM_FREE_SCRUB_BYTE (sh_size sh) in
  let block := Z.land ptr SLABHEAP_BLOCK_MASK in
  let block_full :=
    (load64 m (block + 8) =? 0)
    && (load32 m (block + 20) =? load32 m (block + 16)) in
  let m := store64 m ptr (load64 m (block + 8)) in
  let m := store64 m (block + 8) ptr in
  if block_full then
    let full := load64 m block in
    let m := store64 m block (sh_usable sh) in
    set_slabheap (set_mem a m) i (mk_slabheap (sh_size sh) block full)
  else set_mem a m.

(** The first slab heap, from index [i] on, whose chunks hold [n] bytes:
    [for (i = 0; i < SLABHEAP_COUNT; i++) if (n <= slabheaps[i].size)]. *)
Fixpoint find_slabheap (a : rmemalloc_t) (n : Z) (i count : nat) : option nat :=
  match count with
  | O => None
  | S count' =>
      if n <=? sh_size (slabheaps a i) then Some i
      else find_slabheap a n (S i) count'
  end.

(** [kmem_alloc_aligned(a, size, alignment)]; [None] when [kmem_expand]
    aborts. *)
Definition kmem_alloc_aligned (a : rmemalloc_t) (size alignment : Z)
  : option (rmemalloc_t * rmem2_t) :=
  let slabsize := ALIGN2 size alignment in
  match find_slabheap a slabsize 0 SLABHEAP_COUNT with
  | Some i =>
      match slabheap_alloc a i with
      | Some (a, ptr) => Some (a, mk_rmem2 ptr (sh_size (slabheaps a i)))
      | None => None
      end
  | None =>
      match kmem_heapalloc a size alignment with
      | Some (a, ptr, sz) => Some (a, mk_rmem2 ptr sz)
      | None => None
      end
  end.

Fixpoint heapfree_list (hs : list heap_t) (m : Z -> Z) (ptr size : Z)
  : option (list heap_t * (Z -> Z)) :=
  match hs with
  | [] => None
  | h :: rest =>
      if heap_contains h ptr size then
        let '(h', m') := heap_free h m ptr size in Some (h' :: rest, m')
      else
        match heapfree_list rest m ptr size with
        | Some (rest', m') => Some (h :: rest', m')
        | None => None
        end
  end.

(** [kmem_free(a, region)]; [None] when no sub-heap owns the region
    ([safecheckf]). *)
Definition kmem_free (a : rmemalloc_t) (region : rmem2_t)
  : option rmemalloc_t :=
  match find_slabheap a (r_size region) 0 SLABHEAP_COUNT with
  | Some i => Some (slabheap_free a i (r_start region))
  | None =>
      match heapfree_list (subheaps a) (mem a) (r_start region)
              (r_size region) with
      | Some (hs, m) => Some (mk_rmemalloc hs (slabheaps a) m)
      | None => None
      end
  end.

(** [CEIL_POW2(x)] on a 64-bit operand; for [x > 1] the shift count is
    [64 - clz(x - 1)], one more than the position of the leading bit of
    [x - 1]. *)
Definition CEIL_POW2 (x : Z) : Z :=
  if x <=? 1 then 1
  else if wrap64 (Z.shiftl x 1) <? x then 2^64 - 1
  else wrap64 (Z.shiftl 1 (Z.log2 (x - 1) + 1)).

(** [ILOG2(n) = rsm_fls(n) - 1]. *)
Definition ILOG2 (n : Z) : Z := Z.log2 n.

Definition kmem_alloc_size (size : Z) : Z :=
  let max_slab_size :=
    Z.shiftl 1 ((Z.of_nat SLABHEAP_COUNT - 1) + ILOG2 SLABHEAP_MIN_SIZE) in
  if size <=? max_slab_size then CEIL_POW2 size
  else ALIGN2 size CHUNK_SIZE.

(** The slab heaps as [kmem_allocator_create] initialises them:
    [slabheaps[i].size = 1 << (i + ILOG2(SLABHEAP_MIN_SIZE))], both lists
    empty. *)
Definition slabheaps_init : nat -> slabheap_t :=
  fun i => mk_slabheap (Z.shiftl 1 (Z.of_nat i + ILOG2 SLABHEAP_MIN_SIZE)) 0 0.

(** The blocks of a list, following [next] from [head]. *)
Fixpoint slab_list (fuel : nat) (mem : Z -> slabblock_t) (head : Z) : list Z :=
  match fuel with
  | O => []
  | S fuel' =>
      if head =? 0 then []
      else head :: slab_list fuel' mem (blk_next (mem head))
  end.

(** [n] allocations of [size] bytes in a row, the regions in order. *)
Fixpoint kmem_alloc_n (n : nat) (a : rmemalloc_t) (size : Z)
  : option (rmemalloc_t * list rmem2_t) :=
  match n with
  | O => Some (a, [])
  | S n' =>
      match kmem_alloc_aligned a size 1 with
      | None => None
      | Some (a, r) =>
          match kmem_alloc_n n' a size with
          | None => None
          | Some (a, rs) => Some (a, r :: rs)
          end
      end
  end.

(** An allocator as [kmem_allocator_create] leaves it: no slab block yet and
    one empty sub-heap, here of 8000 chunks at [0x200000] (a multiple of
    [SLABHEAP_BLOCK_SIZE]). *)
Definition kmem_sample : rmemalloc_t :=
  mk_rmemalloc
    [mk_heap 8000 0 0x200000 (mk_bitset 8000 (fun _ => false))]
    slabheaps_init
    (fun _ => 0).

(** The usable and the full list of the slab heap of index [i]. *)
Definition usable_list (a : rmemalloc_t) (i : nat) : list Z :=
  slab_list 64 (blockmem a) (sh_usable (slabheaps a i)).
Definition full_list (a : rmemalloc_t) (i : nat) : list Z :=
  slab_list 64 (blockmem a) (sh_full (slabheaps a i)).

(** *** The slab classes and the layout of a sub-heap *)

(** The chunk sizes of the slab heaps are those [kmem_allocator_create]
    sets; no function of the allocator writes [size] afterwards. *)
Definition slab_sizes (a : rmemalloc_t) : Prop :=
  forall i, (i < SLABHEAP_COUNT)%nat ->
  sh_size (slabheaps a i) = sh_size (slabheaps_init i).

Definition HEAP_MIN_SIZE : Z := CHUNK_SIZE * 2.

(** The search of [heap_init] for the number of chunks: [bitset_end] is
    computed before the loop and at the end of its body, here at the head
    of each round.  [None]: the loop is still running when the fuel is
    spent. *)
Fixpoint heap_init_loop (fuel : nat) (p p_end chunk_cap chunk_cap_sub : Z)
  : option Z :=
  match fuel with
  | O => None
  | S fuel' =>
      let bitset_end :=
        wrap64 (wrap64 (p + wrap64 (chunk_cap * CHUNK_SIZE)) + chunk_cap / 8) in
      if p_end <? bitset_end then
        heap_init_loop fuel' p p_end (wrap64 (chunk_cap - chunk_cap_sub))
                       (wrap64 (chunk_cap_sub * 2))
      else Some chunk_cap
  end.

(** [heap_init(h, p, size)]: the value stored in [h->chunk_cap]. *)
Definition heap_init_chunk_cap (fuel : nat) (p size : Z) : option Z :=
  let p_end := wrap64 (p + size) in
  let chunk_cap := wrap64 (size / CHUNK_SIZE - 1) in
  heap_init_loop fuel p p_end chunk_cap 1.

(** ** mem_mm.c: [rmm_allocpages_min] *)

(** How a call of [rmm_allocpages_min] ends: it returns (the state, the
    pointer, 0 for NULL, and the value left in [*req_npages]), it aborts in
    [safecheckf], or its loop is still running when the fuel is spent. *)
Inductive min_result : Type :=
| MinReturned (mm : rmm_t) (p : Z) (req_npages : Z)
| MinAborted
| MinRunning.

(** The loop of [rmm_allocpages_min]: [for (;;) { ... npages >>= 1; }]. *)
Fixpoint allocpages_min_loop (fuel : nat) (mm : rmm_t)
  (req_npages npages min_npages : Z) : min_result :=
  match fuel with
  | O => MinRunning
  | S fuel' =>
      match rmm_allocpages mm npages with
      | None => MinAborted
      | Some (mm, p) =>
          if negb (p =? 0) then MinReturned mm p npages
          else if npages =? min_npages then MinReturned mm 0 req_npages
          else allocpages_min_loop fuel' mm req_npages
                 (Z.shiftr npages 1) min_npages
      end
  end.

(** [rmm_allocpages_min(mm, req_npages, min_npages)], the loop running for
    at most [fuel] rounds. *)
Definition rmm_allocpages_min (fuel : nat) (mm : rmm_t)
  (req_npages min_npages : Z) : min_result :=
  let npages := CEIL_POW2 req_npages in
  let min_npages := if min_npages =? 0 then 1 else min_npages in
  allocpages_min_loop fuel mm req_npages npages min_npages.
(** ** vm.c: the translation cache *)

Record vm_cache_ent_t : Type := mk_cache_ent {
  tag : Z;         (* virtual page address that filled the entry *)
  haddr_diff : Z   (* host page address - virtual page address (64-bit) *)
}.

(** [vm_cache_t] is an array of [VM_CACHE_LEN] entries; only indices below
    [VM_CACHE_LEN] are ever used. *)
Definition vm_cache_t : Type := Z -> vm_cache_ent_t.

(** Modelled from the spec: the address macros of vm.h, which is not among
    the sources.  "VFN = virtual address >> page-size bits"; the page mask
    clears the offset bits (vm.c's own test computes the page address as
    [vaddr & VM_ADDR_PAGE_MASK]). *)
Definition VM_ADDR_PAGE_MASK : Z := Z.lxor (2^64 - 1) (PAGE_SIZE - 1).
Definition VM_ADDR_OFFS_MASK : Z := PAGE_SIZE - 1.
Definition VM_VFN (vaddr : Z) : Z := Z.shiftr vaddr PAGE_SIZE_BITS.
Definition VM_PAGE_ADDR (vaddr : Z) : Z := Z.land vaddr VM_ADDR_PAGE_MASK.
Definition VM_ADDR_OFFSET (vaddr : Z) : Z := Z.land vaddr VM_ADDR_OFFS_MASK.

(** An entry as left by [memset(cache, 0xff, sizeof(vm_cache_t))]. *)
Definition ent_ones : vm_cache_ent_t := mk_cache_ent (2^64 - 1) (2^64 - 1).

Section VmCache.

(** [VM_CACHE_INDEX_VFN_MASK = VM_CACHE_LEN - 1] (vm.h, not among the
    sources): the cache is keyed by [VFN mod VM_CACHE_LEN].  Nothing
    below depends on its value. *)
Variable VM_CACHE_INDEX_VFN_MASK : Z.

Definition vm_cache_index (vaddr : Z) : Z :=
  Z.land (VM_VFN vaddr) VM_CACHE_INDEX_VFN_MASK.

Definition vm_cache_init : vm_cache_t := fun _ => ent_ones.

Definition vm_cache_invalidate (cache : vm_cache_t) : vm_cache_t :=
  fun _ => ent_ones.

(** Modelled from the spec: [vm_cache_invalidate_one] lives in vm.h; it
    "clears the single entry at VFN(vaddr) mod VM_CACHE_LEN", where a
    cleared entry is the all-ones entry [vm_cache_invalidate] writes. *)
Definition vm_cache_invalidate_one (cache : vm_cache_t) (vaddr : Z)
  : vm_cache_t :=
  fun i => if i =? vm_cache_index vaddr then ent_ones else cache i.

Definition vm_cache_lookup (cache : vm_cache_t) (vaddr alignment : Z) : Z :=
  let index := vm_cache_index vaddr in
  let actual_tag := tag (cache index) in
  let expected_tag :=
    Z.land vaddr (Z.lxor VM_ADDR_PAGE_MASK (wrap64 (alignment - 1))) in
  let is_valid := if actual_tag =? expected_tag then 1 else 0 in
  wrap64 (wrap64 (haddr_diff (cache index) + vaddr) * is_valid).

(** Returns the updated cache and [entry->haddr_diff]. *)
Definition vm_cache_add (cache : vm_cache_t) (vpaddr hpaddr : Z)
  : vm_cache_t * Z :=
  let d := wrap64 (hpaddr - vpaddr) in
  let index := vm_cache_index vpaddr in
  (fun i => if i =? index then mk_cache_ent vpaddr d else cache i, d).

(** Cache states built by the entry points of vm.c, [vm_cache_add] being
    called as its assertions demand: with page addresses. *)
Inductive cache_reachable : vm_cache_t -> Prop :=
| cr_init : cache_reachable vm_cache_init
| cr_invalidate c :
    cache_reachable c -> cache_reachable (vm_cache_invalidate c)
| cr_invalidate_one c vaddr :
    cache_reachable c -> cache_reachable (vm_cache_invalidate_one c vaddr)
| cr_add c vpaddr hpaddr :
    cache_reachable c ->
    0 <= vpaddr < 2^64 -> 0 <= hpaddr < 2^64 ->
    IS_ALIGN2 vpaddr PAGE_SIZE = true ->
    IS_ALIGN2 hpaddr PAGE_SIZE = true ->
    cache_reachable (fst (vm_cache_add c vpaddr hpaddr)).

(** What every reachable cache satisfies: an entry is either the all-ones
    entry or holds a page address as its tag. *)
Definition cache_inv (c : vm_cache_t) : Prop :=
  forall i, tag (c i) = 2^64 - 1
            \/ (0 <= tag (c i) < 2^64 /\ tag (c i) mod PAGE_SIZE = 0).

End VmCache.

(** ** vm.c: the page directory and the miss handler *)

(** [getbits(x, p, n) = (x >> (p+1-n)) & ~(~0llu << n)], [p] and [n]
    being [u32]. *)
Definition getbits (x p n : Z) : Z :=
  Z.land (Z.shiftr x (wrap32 (p + 1 - n)))
         (not64 (wrap64 (Z.shiftl (2^64 - 1) n))).

(** Modelled from the spec: vm.h is not among the sources.  A page-table
    entry is "a 64-bit quantity whose sole informative field is outaddr";
    a page table is "a VM_PTAB_LEN-entry array of PTEs, sized to exactly one
    page" (vm.c asserts [VM_PTAB_SIZE == VM_PTAB_LEN * sizeof(vm_pte_t)]);
    [VM_ADDR_MIN] "is itself PAGE_SIZE". *)
Definition vm_pte_t : Type := Z.
Definition outaddr (pte : vm_pte_t) : Z := pte.
Definition vm_pte_make (outaddr : Z) : vm_pte_t := outaddr.
Definition sizeof_vm_pte_t : Z := 8.
Definition VM_PTAB_SIZE : Z := PAGE_SIZE.
Definition VM_PTAB_LEN : Z := VM_PTAB_SIZE / sizeof_vm_pte_t.
Definition VM_PTAB_BITS : Z := 9.
Definition VM_ADDR_MIN : Z := PAGE_SIZE.

(** Modelled from the spec: the operation tag "encodes both the access size
    (which determines required alignment) and the direction";
    [VM_OP_ALIGNMENT(op)] is the access size in bytes. *)
Inductive vm_op_type : Type := VM_OP_LOAD | VM_OP_STORE.
Record vm_op_t : Type := VM_OP_MAKE { VM_OP_TYPE : vm_op_type; op_size : Z }.
Definition VM_OP_ALIGNMENT (op : vm_op_t) : Z := op_size op.

(** [vm_pagedir_t] without its lock, together with what its pointers reach:
    the page manager [pagedir->mm] and the host memory that holds the page
    tables, as the 64-bit word stored at each (8-byte aligned) address. *)
Record vm_pagedir_t : Type := mk_pagedir {
  pd_root : Z;
  pd_mm : rmm_t;
  pd_mem : Z -> Z
}.

Definition mem_store (mem : Z -> Z) (addr v : Z) : Z -> Z :=
  fun x => if x =? addr then v else mem x.

(** [memset(p, 0, size)]. *)
Definition mem_zero (mem : Z -> Z) (p size : Z) : Z -> Z :=
  fun x => if (p <=? x) && (x <? p + size) then 0 else mem x.

(** The page tables of a directory: [lvl t] is the number of levels below
    table [t].  Every table is a page handed out by the page manager and
    still live; a non-zero entry of a table above the leaves names a table
    one level down, and a non-zero entry of a leaf table holds the page
    number of a page handed out by the page manager and still live (the
    backing page). *)
Record tables_ok (mem : Z -> Z) (L : live_t) (lvl : Z -> option nat)
  : Prop := mk_tables_ok {
  tb_live : forall t d, lvl t = Some d -> In (0%nat, t) L;
  tb_child : forall t d i, lvl t = Some (S d) -> 0 <= i < VM_PTAB_LEN ->
      mem (t + sizeof_vm_pte_t * i) <> 0 ->
      lvl (wrap64 (Z.shiftl (mem (t + sizeof_vm_pte_t * i)) PAGE_SIZE_BITS))
      = Some d;
  tb_leaf : forall t i, lvl t = Some 0%nat -> 0 <= i < VM_PTAB_LEN ->
      mem (t + sizeof_vm_pte_t * i) <> 0 ->
      exists p, In (0%nat, p) L
                /\ mem (t + sizeof_vm_pte_t * i) = Z.shiftr p PAGE_SIZE_BITS
}.

(** Modelled from the spec: [VM_ZERO_PAGES] guards the [memset] of
    [vm_ptab_create] ([#ifdef]); vm.c does not define it and vm.h, which
    would, is not among the sources.  The spec has a new page-table node
    "one page via PMM; zeroed", and "an all-zero PTE means not present":
    the macro is taken as defined. *)
Definition VM_ZERO_PAGES : bool := true.

Section VmPagedir.

(** [VM_ADDR_BITS], [VM_ADDR_MAX], [VM_PTAB_LEVELS] (at least 1) and the
    cache mask are constants of vm.h. *)
Variable VM_ADDR_BITS : Z.
Variable VM_ADDR_MAX : Z.
Variable VM_PTAB_LEVELS : nat.
Variable VM_CACHE_INDEX_VFN_MASK : Z.

Definition VFN_BITS : Z := VM_ADDR_BITS - PAGE_SIZE_BITS.

(** [vm_ptab_create(mm)]: the page manager and the memory after the call
    and the table, 0 for NULL; [None] where [rmm_allocpages] aborts. *)
Definition vm_ptab_create (mm : rmm_t) (mem : Z -> Z)
  : option (rmm_t * (Z -> Z) * Z) :=
  match rmm_allocpages mm (VM_PTAB_SIZE / PAGE_SIZE) with
  | None => None
  | Some (mm, ptab) =>
      if ptab =? 0 then Some (mm, mem, 0)
      else if VM_ZERO_PAGES then Some (mm, mem_zero mem ptab VM_PTAB_SIZE, ptab)
      else Some (mm, mem, ptab)
  end.

(** [vm_pagedir_init(pagedir, mm)]: [None] for [rerr_nomem] (and where
    [rmm_allocpages] aborts). *)
Definition vm_pagedir_init (mm : rmm_t) (mem : Z -> Z) : option vm_pagedir_t :=
  match vm_ptab_create mm mem with
  | None => None
  | Some (mm, mem, ptab) =>
      if ptab =? 0 then None else Some (mk_pagedir ptab mm mem)
  end.

(** [vm_pagedir_alloc_backing_page(pagedir, pte)], [pte] being the address
    of the entry; [None] is the panic. *)
Definition vm_pagedir_alloc_backing_page (pd : vm_pagedir_t) (pte : Z)
  : option (vm_pagedir_t * vm_pte_t) :=
  match rmm_allocpages (pd_mm pd) 1 with
  | None => None
  | Some (mm, haddr) =>
      let hpage_addr := Z.shiftr haddr PAGE_SIZE_BITS in
      if hpage_addr =? 0 then None
      else
        Some (mk_pagedir (pd_root pd) mm
                (mem_store (pd_mem pd) pte (vm_pte_make hpage_addr)),
              vm_pte_make hpage_addr)
  end.

(** The loop of [vm_pagedir_lookup_pte], [n] levels being left below the
    current one ([level = VM_PTAB_LEVELS - n]); [None] is a panic. *)
Fixpoint lookup_loop (n : nat) (pd : vm_pagedir_t) (ptab masked_vfn bits : Z)
  : option (vm_pagedir_t * vm_pte_t) :=
  let index := getbits masked_vfn (wrap32 (VFN_BITS - (1 + bits))) VM_PTAB_BITS in
  let entry := wrap64 (ptab + sizeof_vm_pte_t * index) in
  let pte := pd_mem pd entry in
  match n with
  | O =>
      if pte =? 0 then vm_pagedir_alloc_backing_page pd entry
      else Some (pd, pte)
  | S n' =>
      let bits := wrap32 (bits + VM_PTAB_BITS) in
      let masked_vfn :=
        getbits masked_vfn (wrap32 (VFN_BITS - (1 + bits)))
                (wrap32 (VFN_BITS - bits)) in
      if negb (outaddr pte =? 0) then
        lookup_loop n' pd (wrap64 (Z.shiftl (outaddr pte) PAGE_SIZE_BITS))
                    masked_vfn bits
      else
        match vm_ptab_create (pd_mm pd) (pd_mem pd) with
        | None => None
        | Some (mm, mem, ptab2) =>
            if ptab2 =? 0 then None
            else
              let ptab2_addr := Z.shiftr ptab2 PAGE_SIZE_BITS in
              let pd :=
                mk_pagedir (pd_root pd) mm
                  (mem_store mem entry (vm_pte_make ptab2_addr)) in
              lookup_loop n' pd ptab2 masked_vfn bits
        end
  end.

Definition vm_pagedir_lookup_pte (pd : vm_pagedir_t) (vfn : Z)
  : option (vm_pagedir_t * vm_pte_t) :=
  let vfn := wrap64 (vfn - 1) in
  lookup_loop (VM_PTAB_LEVELS - 1) pd (pd_root pd) vfn 0.


(** [_vm_cache_miss(cache, pagedir, vaddr, op)]: the cache and the page
    directory after the call and the value returned; [None] is a panic. *)
Definition _vm_cache_miss (cache : vm_cache_t) (pd : vm_pagedir_t)
  (vaddr : Z) (op : vm_op_t) : option (vm_cache_t * vm_pagedir_t * Z) :=
  if (vaddr <? VM_ADDR_MIN) || (VM_ADDR_MAX <? vaddr) then None
  else if negb (IS_ALIGN2 vaddr (VM_OP_ALIGNMENT op)) then None
  else
    match vm_pagedir_lookup_pte pd (VM_VFN vaddr) with
    | None => None
    | Some (pd, pte) =>
        let hpaddr := wrap64 (Z.shiftl (outaddr pte) PAGE_SIZE_BITS) in
        if hpaddr =? 0 then Some (cache, pd, 0)
        else
          let vpaddr := VM_PAGE_ADDR vaddr in
          let '(cache, d) :=
            vm_cache_add VM_CACHE_INDEX_VFN_MASK cache vpaddr hpaddr in
          Some (cache, pd, d)
    end.

(** A page directory in order: the root table is at a page address, the
    page manager is in order and so are the tables, the root being
    [VM_PTAB_LEVELS - 1] levels above the leaves. *)
Definition pagedir_inv (pd : vm_pagedir_t) : Prop :=
  pd_root pd mod PAGE_SIZE = 0
  /\ exists L R,
       rmm_inv (pd_mm pd) L R /\ rmm_acct (pd_mm pd) L
       /\ exists lvl, tables_ok (pd_mem pd) L lvl
                      /\ lvl (pd_root pd) = Some (VM_PTAB_LEVELS - 1)%nat.

End VmPagedir.

(* ===================================================================== *)
(** * Part II: properties                                                *)
(* ===================================================================== *)

(** ** Bit-level facts about masks *)

Lemma testbit_ones64 i : 0 <= i -> Z.testbit (2^64 - 1) i = (i <? 64).
Proof.
  intros Hi. change (2^64 - 1) with (Z.ones 64).
  rewrite Z.testbit_ones_nonneg by lia.
  reflexivity.
Qed.

Lemma testbit_low_mask n i :
  0 <= n -> 0 <= i -> Z.testbit (2^n - 1) i = (i <? n).
Proof.
  intros Hn Hi. replace (2^n - 1) with (Z.ones n)
    by (rewrite Z.ones_equiv; lia).
  rewrite Z.testbit_ones_nonneg by lia. reflexivity.
Qed.

Lemma testbit_u64_high v i : 0 <= v < 2^64 -> 64 <= i -> Z.testbit v i = false.
Proof.
  intros Hv Hi.
  destruct (Z.eq_dec v 0) as [->|Hnz]; [apply Z.bits_0|].
  apply Z.bits_above_log2; [lia|].
  assert (Z.log2 v < 64) by (apply Z.log2_lt_pow2; lia). lia.
Qed.

Lemma testbit_page_mask i :
  0 <= i -> Z.testbit VM_ADDR_PAGE_MASK i = (12 <=? i) && (i <? 64).
Proof.
  intros Hi. unfold VM_ADDR_PAGE_MASK, PAGE_SIZE.
  rewrite Z.lxor_spec, testbit_ones64 by lia.
  change (4096 - 1) with (2^12 - 1).
  rewrite testbit_low_mask by lia.
  destruct (Z.ltb_spec i 64), (Z.ltb_spec i 12), (Z.leb_spec 12 i);
    simpl; try reflexivity; lia.
Qed.

Lemma mod_pow2_zero_bits v n :
  0 <= n -> v mod 2^n = 0 -> forall i, 0 <= i < n -> Z.testbit v i = false.
Proof.
  intros Hn Hm i Hi.
  rewrite <- (Z.mod_pow2_bits_low v n i) by lia.
  rewrite Hm. apply Z.bits_0.
Qed.

Lemma mod_pow2_nonzero_bit v n :
  0 <= n -> v mod 2^n <> 0 -> exists i, 0 <= i < n /\ Z.testbit v i = true.
Proof.
  intros Hn Hm.
  assert (Hr : 0 <= v mod 2^n < 2^n) by (apply Z.mod_pos_bound; lia).
  destruct (Z.bits_inj_iff' (v mod 2^n) 0) as [H _].
  assert (Hex : ~ forall i, 0 <= i -> Z.testbit (v mod 2^n) i = Z.testbit 0 i).
  { intro Hall. apply Hm. apply Z.bits_inj'. exact Hall. }
  clear H.
  assert (Hlog : 0 < v mod 2^n) by lia.
  exists (Z.log2 (v mod 2^n)).
  assert (Hl : Z.log2 (v mod 2^n) < n) by (apply Z.log2_lt_pow2; lia).
  pose proof (Z.log2_nonneg (v mod 2^n)).
  split; [lia|].
  rewrite <- (Z.mod_pow2_bits_low v n) by lia.
  apply Z.bit_log2. lia.
Qed.

Lemma IS_ALIGN2_page v :
  0 <= v -> IS_ALIGN2 v PAGE_SIZE = true <-> v mod PAGE_SIZE = 0.
Proof.
  intros Hv. unfold IS_ALIGN2, PAGE_SIZE, wrap64.
  change ((4096 - 1) mod 2^64) with (Z.ones 12).
  rewrite Z.land_ones by lia. change (2^12) with 4096.
  rewrite Z.eqb_eq. reflexivity.
Qed.

Lemma page_addr_spec v :
  0 <= v < 2^64 -> VM_PAGE_ADDR v = v - v mod PAGE_SIZE.
Proof.
  intros Hv. unfold VM_PAGE_ADDR.
  apply Z.bits_inj'. intros i Hi.
  rewrite Z.land_spec, testbit_page_mask by lia.
  assert (Hdm : v - v mod PAGE_SIZE = Z.shiftl (Z.shiftr v 12) 12).
  { rewrite Z.shiftl_mul_pow2, Z.shiftr_div_pow2 by lia.
    unfold PAGE_SIZE. change (2^12) with 4096.
    pose proof (Z.div_mod v 4096). lia. }
  rewrite Hdm.
  destruct (Z.leb_spec 12 i); cbn [andb].
  - rewrite Z.shiftl_spec, Z.shiftr_spec by lia.
    replace (i - 12 + 12) with i by lia.
    destruct (Z.ltb_spec i 64); cbn [andb].
    + apply andb_true_r.
    + rewrite testbit_u64_high by lia. reflexivity.
  - rewrite andb_false_r. symmetry. apply Z.shiftl_spec_low. lia.
Qed.

Lemma addr_offset_spec v : VM_ADDR_OFFSET v = v mod PAGE_SIZE.
Proof.
  unfold VM_ADDR_OFFSET, VM_ADDR_OFFS_MASK, PAGE_SIZE.
  change (4096 - 1) with (Z.ones 12).
  rewrite Z.land_ones by lia. reflexivity.
Qed.

Lemma VFN_page_addr v : 0 <= v < 2^64 -> VM_VFN (VM_PAGE_ADDR v) = VM_VFN v.
Proof.
  intros Hv. rewrite page_addr_spec by assumption.
  unfold VM_VFN, PAGE_SIZE_BITS, PAGE_SIZE.
  rewrite !Z.shiftr_div_pow2 by lia. change (2^12) with 4096.
  pose proof (Z.div_mod v 4096).
  replace (v - v mod 4096) with (v / 4096 * 4096) by lia.
  rewrite Z.div_mul by lia. reflexivity.
Qed.

(** ** vm.c: translation cache *)

Section VmCacheFacts.

Variable mask : Z.

Lemma cache_index_page v :
  0 <= v < 2^64 -> vm_cache_index mask (VM_PAGE_ADDR v) = vm_cache_index mask v.
Proof.
  intros Hv. unfold vm_cache_index. rewrite VFN_page_addr by assumption.
  reflexivity.
Qed.

Lemma expected_tag_align1 v :
  Z.land v (Z.lxor VM_ADDR_PAGE_MASK (wrap64 (1 - 1))) = VM_PAGE_ADDR v.
Proof.
  change (wrap64 (1 - 1)) with 0. rewrite Z.lxor_0_r. reflexivity.
Qed.

Lemma page_addr_not_ones v : 0 <= v < 2^64 -> VM_PAGE_ADDR v <> 2^64 - 1.
Proof.
  intros Hv He. rewrite page_addr_spec in He by assumption.
  unfold PAGE_SIZE in He.
  pose proof (Z.div_mod v 4096 ltac:(lia)) as Hd.
  assert (Hm : (4096 * (v / 4096)) mod 4096 = (2^64 - 1) mod 4096)
    by (f_equal; lia).
  rewrite Z.mul_comm, Z.mod_mul in Hm by lia.
  change ((2^64 - 1) mod 4096) with 4095 in Hm. lia.
Qed.

(** C8. After [vm_cache_add(cache, vpage_addr, hpage_addr)] with page
    addresses, [vm_cache_lookup(cache, v, 1)] is [hpage_addr] plus the page
    offset of [v] for every [v] on the page [vpage_addr]; and after
    [vm_cache_invalidate_one(cache, v)] the lookup of [v] at alignment 1
    returns 0. *)
Theorem cache_add_lookup_invalidate (cache : vm_cache_t) (vpaddr hpaddr v : Z) :
  0 <= vpaddr < 2^64 -> 0 <= hpaddr < 2^64 ->
  IS_ALIGN2 vpaddr PAGE_SIZE = true ->
  IS_ALIGN2 hpaddr PAGE_SIZE = true ->
  0 <= v < 2^64 -> VM_PAGE_ADDR v = vpaddr ->
  vm_cache_lookup mask (fst (vm_cache_add mask cache vpaddr hpaddr)) v 1
    = hpaddr + VM_ADDR_OFFSET v
  /\ vm_cache_lookup mask (vm_cache_invalidate_one mask cache v) v 1 = 0.
Proof.
  intros Hvp Hhp Hva Hha Hv Hpage. split.
  - unfold vm_cache_lookup, vm_cache_add; cbn [fst].
    rewrite expected_tag_align1, Hpage.
    rewrite <- (cache_index_page v) by assumption. rewrite Hpage.
    rewrite Z.eqb_refl. cbn [tag haddr_diff].
    rewrite Z.eqb_refl, Z.mul_1_r.
    rewrite addr_offset_spec.
    apply IS_ALIGN2_page in Hha; [|lia].
    pose proof (page_addr_spec v Hv) as Hs. rewrite Hpage in Hs.
    unfold wrap64. rewrite Z.mod_mod by lia.
    rewrite Zplus_mod_idemp_l.
    replace (hpaddr - vpaddr + v) with (hpaddr + v mod PAGE_SIZE) by lia.
    apply Z.mod_small.
    unfold PAGE_SIZE in *.
    pose proof (Z.mod_pos_bound v 4096 ltac:(lia)).
    pose proof (Z.div_mod hpaddr 4096 ltac:(lia)).
    assert (hpaddr / 4096 < 2^52)
      by (apply Z.div_lt_upper_bound; [lia|change (4096 * 2^52) with (2^64); lia]).
    change (2^64) with (4096 * 2^52). lia.
  - unfold vm_cache_lookup, vm_cache_invalidate_one.
    rewrite Z.eqb_refl, expected_tag_align1. unfold ent_ones; cbn [tag haddr_diff].
    destruct (Z.eqb_spec (2^64 - 1) (VM_PAGE_ADDR v)) as [He|_].
    + exfalso. symmetry in He. revert He. apply page_addr_not_ones; assumption.
    + rewrite Z.mul_0_r. reflexivity.
Qed.

Lemma cache_reachable_inv c : cache_reachable mask c -> cache_inv c.
Proof.
  induction 1 as [|c _ _|c vaddr _ IH|c vp hp _ IH Hvp Hhp Hva Hha];
    intros i.
  - left; reflexivity.
  - left; reflexivity.
  - unfold vm_cache_invalidate_one.
    destruct (i =? vm_cache_index mask vaddr); [left; reflexivity|apply IH].
  - unfold vm_cache_add; cbn [fst].
    destruct (i =? vm_cache_index mask vp); [|apply IH].
    right; cbn [tag]. split; [assumption|].
    apply IS_ALIGN2_page; [lia|assumption].
Qed.

Lemma expected_tag_bit v n i :
  0 <= n <= 12 -> 0 <= i < 64 ->
  Z.testbit (Z.land v (Z.lxor VM_ADDR_PAGE_MASK (wrap64 (2^n - 1)))) i
    = Z.testbit v i && ((i <? n) || (12 <=? i)).
Proof.
  intros Hn Hi.
  assert (Hw : wrap64 (2^n - 1) = 2^n - 1).
  { unfold wrap64. apply Z.mod_small.
    assert (2^n <= 2^12) by (apply Z.pow_le_mono_r; lia).
    assert (0 < 2^n) by (apply Z.pow_pos_nonneg; lia).
    change (2^12) with 4096 in *. change (2^64) with 18446744073709551616. lia. }
  rewrite Hw, Z.land_spec, Z.lxor_spec, testbit_page_mask, testbit_low_mask by lia.
  f_equal.
  destruct (Z.ltb_spec i n), (Z.leb_spec 12 i), (Z.ltb_spec i 64);
    cbn; try reflexivity; lia.
Qed.

(** C9 (as amended). In every cache state reachable through
    [vm_cache_init], [vm_cache_add] with page addresses and the two
    invalidations, [vm_cache_lookup(cache, v, A)] returns 0 whenever [A] is
    a power of two with [1 < A <= PAGE_SIZE] and [v] is not aligned to [A]
    ([v] not being the all-ones address when [A = PAGE_SIZE]): a hit implies
    the requested alignment. *)
Theorem lookup_misaligned_is_miss (c : vm_cache_t) (v n : Z) :
  cache_reachable mask c ->
  1 <= n <= 12 -> 0 <= v < 2^64 -> v mod 2^n <> 0 ->
  (n = 12 -> v <> 2^64 - 1) ->
  vm_cache_lookup mask c v (2^n) = 0.
Proof.
  intros Hr Hn Hv Hmis Hones.
  pose proof (cache_reachable_inv c Hr (vm_cache_index mask v)) as Hinv.
  unfold vm_cache_lookup.
  set (e := Z.land v (Z.lxor VM_ADDR_PAGE_MASK (wrap64 (2^n - 1)))).
  destruct (Z.eqb_spec (tag (c (vm_cache_index mask v))) e) as [He|_];
    [exfalso|rewrite Z.mul_0_r; reflexivity].
  destruct (mod_pow2_nonzero_bit v n ltac:(lia) Hmis) as (i & Hi & Hbit).
  assert (Hei : Z.testbit e i = true).
  { unfold e. rewrite expected_tag_bit by lia. rewrite Hbit.
    destruct (Z.ltb_spec i n); [reflexivity|lia]. }
  destruct Hinv as [Hall|[Hrange Hal]].
  - (* the entry is invalid: the expected tag cannot be all-ones *)
    rewrite Hall in He.
    assert (Hb : forall j, 0 <= j < 64 ->
              Z.testbit v j = true /\ ((j <? n) || (12 <=? j) = true)).
    { intros j Hj. apply andb_true_iff.
      rewrite <- expected_tag_bit by lia. fold e. rewrite <- He.
      rewrite testbit_ones64 by lia. apply Z.ltb_lt. lia. }
    destruct (Z.eq_dec n 12) as [->|Hne].
    + apply Hones; [reflexivity|].
      apply Z.bits_inj'. intros j Hj.
      rewrite testbit_ones64 by lia.
      destruct (Z.ltb_spec j 64).
      * apply Hb. lia.
      * apply testbit_u64_high; lia.
    + destruct (Hb 11 ltac:(lia)) as [_ H11].
      destruct (Z.ltb_spec 11 n); [lia|]. discriminate H11.
  - (* the entry holds a page address: bit [i < 12] of its tag is clear *)
    assert (Hti : Z.testbit (tag (c (vm_cache_index mask v))) i = false).
    { apply (mod_pow2_zero_bits _ 12); [lia|exact Hal|lia]. }
    rewrite He in Hti. congruence.
Qed.

End VmCacheFacts.

(** A witness for C8: the round trip of vm.c's own test. *)
Lemma cache_add_lookup_invalidate_witness :
  vm_cache_lookup 255 (fst (vm_cache_add 255 (vm_cache_init) 0xdeadb000 0x1044f000))
    0xdeadbeef 1 = 0x1044feef
  /\ vm_cache_lookup 255 (vm_cache_invalidate_one 255 vm_cache_init 0xdeadbeef)
       0xdeadbeef 1 = 0.
Proof.
  apply (cache_add_lookup_invalidate 255 vm_cache_init 0xdeadb000 0x1044f000 0xdeadbeef);
    (reflexivity || lia).
Defined.

(** The claim of C9 as first stated fails at [A = PAGE_SIZE]: on the freshly
    initialised cache the all-ones address, which is not page-aligned, hits
    the all-ones entry. *)
Lemma lookup_misaligned_hit_counterexample :
  cache_reachable 255 vm_cache_init
  /\ 4096 = 2^12 /\ (2^64 - 1) mod 4096 <> 0
  /\ vm_cache_lookup 255 vm_cache_init (2^64 - 1) 4096 <> 0.
Proof.
  split; [constructor|]. split; [reflexivity|].
  split; vm_compute; discriminate.
Qed.

(** Above [PAGE_SIZE] a page-aligned but misaligned address can hit as well:
    the mask drops the page bits below the alignment. *)
Lemma lookup_misaligned_hit_above_page :
  let c := fst (vm_cache_add 255 vm_cache_init 0 0x1044f000) in
  cache_reachable 255 c
  /\ (2^20) mod (2^21) <> 0
  /\ vm_cache_lookup 255 c (2^20) (2^21) = 0x1044f000 + 2^20.
Proof.
  cbv zeta. split.
  - apply cr_add; [constructor|lia|lia|reflexivity|reflexivity].
  - split; vm_compute; [discriminate|reflexivity].
Qed.

Lemma lookup_misaligned_is_miss_witness :
  vm_cache_lookup 255 (fst (vm_cache_add 255 vm_cache_init 0xdeadb000 0x1044f000))
    0xdeadbee4 (2^3) = 0.
Proof.
  apply (lookup_misaligned_is_miss 255 _ 0xdeadbee4 3).
  - apply cr_add; [constructor|lia|lia|reflexivity|reflexivity].
  - lia.
  - lia.
  - vm_compute; discriminate.
  - intros H; discriminate H.
Defined.

(** ** mem_mm.c: allocation of pages *)

Lemma ilist_pop_none l : ilist_pop l = None <-> l = [].
Proof.
  unfold ilist_pop. split.
  - destruct (rev l) as [|e r] eqn:E; [|discriminate].
    intros _. rewrite <- (rev_involutive l), E. reflexivity.
  - intros ->. reflexivity.
Qed.

Lemma ilist_pop_some l e r : ilist_pop l = Some (e, r) -> l = r ++ [e].
Proof.
  unfold ilist_pop. destruct (rev l) as [|e' r'] eqn:E; [discriminate|].
  intros H; injection H as <- <-.
  rewrite <- (rev_involutive l), E. reflexivity.
Qed.

Lemma ilist_pop_app l e : ilist_pop (l ++ [e]) = Some (e, l).
Proof.
  unfold ilist_pop. rewrite rev_app_distr. cbn. rewrite rev_involutive.
  reflexivity.
Qed.

Lemma order_size_eq k : (k <= MAX_ORDER)%nat -> order_size k = PAGE_SIZE * 2 ^ Z.of_nat k.
Proof.
  intros Hk. unfold order_size, wrap64. rewrite Z.shiftl_mul_pow2 by lia.
  apply Z.mod_small. unfold PAGE_SIZE, MAX_ORDER in *.
  assert (2 ^ Z.of_nat k <= 2 ^ 20) by (apply Z.pow_le_mono_r; lia).
  assert (0 < 2 ^ Z.of_nat k) by (apply Z.pow_pos_nonneg; lia).
  change (2^20) with 1048576 in *. change (2^64) with 18446744073709551616.
  lia.
Qed.

Lemma order_size_pos k : (k <= MAX_ORDER)%nat -> 0 < order_size k.
Proof.
  intros Hk. rewrite order_size_eq by assumption.
  assert (0 < 2 ^ Z.of_nat k) by (apply Z.pow_pos_nonneg; lia).
  unfold PAGE_SIZE. lia.
Qed.

Lemma order_size_mono j k :
  (j <= k <= MAX_ORDER)%nat -> order_size j <= order_size k.
Proof.
  intros H. rewrite !order_size_eq by lia.
  assert (2 ^ Z.of_nat j <= 2 ^ Z.of_nat k) by (apply Z.pow_le_mono_r; lia).
  unfold PAGE_SIZE. lia.
Qed.

Lemma sum_member_le (f : nat -> Z) (l : list nat) k :
  (forall j, 0 <= f j) -> In k l ->
  f k <= fold_right Z.add 0 (map f l).
Proof.
  intros Hf. induction l as [|a l IH]; intros Hin; [destruct Hin|].
  cbn [map fold_right].
  assert (0 <= fold_right Z.add 0 (map f l)).
  { clear - Hf. induction l as [|b l IHl]; cbn; [lia|]. specialize (Hf b). lia. }
  destruct Hin as [->|Hin]; [lia|]. specialize (IH Hin). specialize (Hf a). lia.
Qed.

Lemma free_bytes_ge mm k :
  (k <= MAX_ORDER)%nat -> freelists mm k <> [] -> order_size k <= free_bytes mm.
Proof.
  intros Hk Hne. unfold free_bytes.
  set (f := fun k => order_size k * Z.of_nat (length (freelists mm k))).
  assert (Hf : forall j, 0 <= f j).
  { intros j. unfold f, order_size, wrap64.
    pose proof (Z.mod_pos_bound (Z.shiftl PAGE_SIZE (Z.of_nat j)) (2^64) ltac:(lia)).
    apply Z.mul_nonneg_nonneg; lia. }
  assert (Hin : In k (seq 0 (S MAX_ORDER))) by (apply in_seq; lia).
  pose proof (sum_member_le f _ k Hf Hin) as Hle.
  assert (order_size k <= f k); [|lia].
  unfold f. pose proof (order_size_pos k Hk).
  destruct (freelists mm k); [congruence|]. cbn [length]. nia.
Qed.

(** The recursion of [rmm_allocpages1] ends above [MAX_ORDER], whatever
    fuel is left. *)
Lemma rmm_allocpages1_fuel fuel mm order :
  (MAX_ORDER < fuel + order)%nat ->
  rmm_allocpages1 (S fuel) mm order = rmm_allocpages1 fuel mm order.
Proof.
  revert mm order. induction fuel as [|fuel IH]; intros mm order H.
  - cbn [rmm_allocpages1].
    destruct (Nat.ltb_spec MAX_ORDER order); [reflexivity|lia].
  - remember (S fuel) as f eqn:Ef.
    assert (Hrec : forall m, rmm_allocpages1 f m (S order)
                             = rmm_allocpages1 fuel m (S order)).
    { intros m. subst f. apply IH. lia. }
    cbn [rmm_allocpages1].
    replace (rmm_allocpages1 f mm order)
      with (rmm_allocpages1 (S fuel) mm order) by (subst f; reflexivity).
    cbn [rmm_allocpages1].
    destruct (Nat.ltb_spec MAX_ORDER order); [reflexivity|].
    destruct (ilist_pop (freelists mm order)) as [[e r]|];
      [destruct (e =? 0)|]; rewrite ?Hrec; reflexivity.
Qed.

(** What one call of [rmm_allocpages1] does to a well-formed state. *)
Lemma rmm_allocpages1_spec fuel mm order :
  rmm_wf mm -> (MAX_ORDER < fuel + order)%nat ->
  let r := rmm_allocpages1 fuel mm order in
  (snd r = UINTPTR_MAX <-> no_free_block mm order)
  /\ (snd r = UINTPTR_MAX -> fst r = mm)
  /\ (snd r <> UINTPTR_MAX ->
      free_size (fst r) = free_size mm
      /\ start_addr (fst r) = start_addr mm
      /\ start_addr mm <= snd r + start_addr mm < end_addr mm
      /\ 0 <= snd r
      /\ (order <= MAX_ORDER)%nat
      /\ order_size order <= free_bytes mm).
Proof.
  intros Hwf. revert order.
  induction fuel as [|fuel IH]; intros order Hfuel.
  - cbn [rmm_allocpages1]. destruct (Nat.ltb_spec MAX_ORDER order); [|lia].
    cbn [fst snd]. repeat split; try congruence.
    intros j Hj. lia.
  - cbn [rmm_allocpages1].
    destruct (Nat.ltb_spec MAX_ORDER order) as [Hgt|Hle].
    { cbn [fst snd]. repeat split; try congruence. intros j Hj. lia. }
    destruct (ilist_pop (freelists mm order)) as [[e r]|] eqn:Epop.
    + (* a block of this order is free *)
      apply ilist_pop_some in Epop.
      assert (Hin : In e (freelists mm order))
        by (rewrite Epop; apply in_or_app; right; left; reflexivity).
      pose proof (wf_entries mm Hwf order e Hle Hin) as He.
      pose proof (wf_start mm Hwf) as Hs. pose proof (wf_end mm Hwf) as Hend.
      destruct (Z.eqb_spec e 0) as [->|_]; [lia|].
      cbn [fst snd set_bitset set_freelist start_addr free_size].
      assert (Hw : wrap64 (e - start_addr mm) = e - start_addr mm)
        by (unfold wrap64; apply Z.mod_small; lia).
      rewrite Hw.
      assert (Hne : e - start_addr mm <> UINTPTR_MAX) by (unfold UINTPTR_MAX; lia).
      split; [|split].
      * split; [congruence|]. intros Hnone. exfalso.
        specialize (Hnone order ltac:(lia)). rewrite Hnone in Hin. destruct Hin.
      * congruence.
      * intros _. repeat split; try lia.
        apply free_bytes_ge; [assumption|]. intros E; rewrite E in Hin; destruct Hin.
    + (* none: take a block of the next order and split it *)
      apply ilist_pop_none in Epop.
      specialize (IH (S order) ltac:(lia)). cbv zeta in IH.
      destruct (rmm_allocpages1 fuel mm (S order)) as [mm1 a] eqn:Erec.
      cbn [fst snd] in IH. destruct IH as (IH1 & IH2 & IH3).
      destruct (Z.eqb_spec a UINTPTR_MAX) as [Ha|Ha].
      * cbn [fst snd]. split; [|split].
        -- split; [|reflexivity]. intros _ j Hj.
           destruct (Nat.eq_dec j order) as [->|Hne]; [assumption|].
           apply IH1; [assumption|lia].
        -- intros _. apply IH2. assumption.
        -- congruence.
      * cbn [fst snd set_bitset set_freelist start_addr free_size].
        destruct (IH3 Ha) as (Hfs & Hst & Hrange & Hnn & Hord & Hfb).
        split; [|split].
        -- split; [congruence|]. intros Hnone. exfalso. apply Ha, IH1.
           intros j Hj. apply Hnone. lia.
        -- congruence.
        -- intros _. repeat split; try lia.
           etransitivity; [|exact Hfb]. apply order_size_mono. lia.
Qed.

Lemma order_of_npages_pow2 fuel k acc :
  (k < fuel)%nat ->
  order_of_npages fuel (2 ^ Z.of_nat k) acc = (acc + k)%nat.
Proof.
  revert k acc. induction fuel as [|fuel IH]; intros k acc Hk; [lia|].
  cbn [order_of_npages].
  assert (Hpos : 0 < 2 ^ Z.of_nat k) by (apply Z.pow_pos_nonneg; lia).
  destruct (Z.eqb_spec (2 ^ Z.of_nat k) 0) as [E|_]; [lia|]. cbn [negb andb].
  destruct k as [|k].
  - cbn. lia.
  - replace (Z.land (2 ^ Z.of_nat (S k)) 1) with 0.
    2:{ change 1 with (Z.ones 1). rewrite Z.land_ones by lia.
        replace (Z.of_nat (S k)) with (1 + Z.of_nat k) by lia.
        rewrite Z.pow_add_r by lia. change (2^1) with 2.
        rewrite Z.mul_comm, Z.mod_mul by lia. reflexivity. }
    rewrite Z.eqb_refl.
    replace (Z.shiftr (2 ^ Z.of_nat (S k)) 1) with (2 ^ Z.of_nat k).
    2:{ rewrite Z.shiftr_div_pow2 by lia.
        replace (Z.of_nat (S k)) with (Z.of_nat k + 1) by lia.
        rewrite Z.pow_add_r by lia. rewrite Z.div_mul by lia. reflexivity. }
    rewrite IH by lia. lia.
Qed.

Lemma IS_POW2_pow2 k : (k < 64)%nat -> IS_POW2 (2 ^ Z.of_nat k) = true.
Proof.
  intros Hk. unfold IS_POW2, wrap64.
  assert (Hpos : 0 < 2 ^ Z.of_nat k) by (apply Z.pow_pos_nonneg; lia).
  assert (2 ^ Z.of_nat k < 2 ^ 64) by (apply Z.pow_lt_mono_r; lia).
  rewrite Z.mod_small by lia.
  apply Z.eqb_eq. apply Z.bits_inj'. intros i Hi.
  rewrite Z.land_spec, Z.bits_0.
  rewrite testbit_low_mask, Z.pow2_bits_eqb by lia.
  destruct (Z.eqb_spec (Z.of_nat k) i), (Z.ltb_spec i (Z.of_nat k));
    cbn; try reflexivity; lia.
Qed.

(** C10. [rmm_allocpages(mm, 0)] returns NULL and leaves the state as it
    was; the zero page count is answered before the power-of-two check and
    does not abort. *)
Theorem rmm_allocpages_zero (mm : rmm_t) :
  rmm_allocpages mm 0 = Some (mm, 0).
Proof. reflexivity. Qed.

(** C7. In a well-formed state, [rmm_allocpages(mm, 2^k)] returns NULL
    exactly when no block is free at any order from [k] up to [MAX_ORDER];
    the state is then unchanged; and on success [free_size] has decreased by
    exactly [2^k * PAGE_SIZE]. *)
Theorem rmm_allocpages_null_iff (mm : rmm_t) (k : nat) :
  rmm_wf mm -> (k < 64)%nat ->
  exists mm' p,
    rmm_allocpages mm (2 ^ Z.of_nat k) = Some (mm', p)
    /\ (p = 0 <-> no_free_block mm k)
    /\ (p = 0 -> mm' = mm)
    /\ (p <> 0 ->
        free_size mm' = free_size mm - 2 ^ Z.of_nat k * PAGE_SIZE).
Proof.
  intros Hwf Hk. unfold rmm_allocpages.
  assert (Hpos : 0 < 2 ^ Z.of_nat k) by (apply Z.pow_pos_nonneg; lia).
  destruct (Z.eqb_spec (2 ^ Z.of_nat k) 0) as [E|_]; [lia|].
  rewrite IS_POW2_pow2 by assumption. cbn [negb].
  rewrite order_of_npages_pow2 by assumption. cbn [Nat.add].
  pose proof (rmm_allocpages1_spec (S MAX_ORDER) mm k Hwf ltac:(lia)) as H.
  cbv zeta in H.
  destruct (rmm_allocpages1 (S MAX_ORDER) mm k) as [mm1 a].
  cbn [fst snd] in H. destruct H as (H1 & H2 & H3).
  pose proof (wf_start mm Hwf) as Hs. pose proof (wf_end mm Hwf) as Hend.
  destruct (Z.eqb_spec a UINTPTR_MAX) as [Ha|Ha].
  - exists mm1, 0. split; [reflexivity|]. split; [|split].
    + split; intros _; [apply H1; assumption|reflexivity].
    + intros _. apply H2. assumption.
    + congruence.
  - destruct (H3 Ha) as (Hfs & Hst & Hrange & Hnn & Hord & Hfb).
    eexists _, _. split; [reflexivity|].
    assert (Hp : wrap64 (a + start_addr mm1) = a + start_addr mm).
    { rewrite Hst. unfold wrap64. apply Z.mod_small. lia. }
    rewrite Hp. split; [|split].
    + split; [lia|]. intros Hnone. exfalso. apply Ha, H1, Hnone.
    + lia.
    + intros _. cbn [free_size]. rewrite Hfs.
      pose proof (wf_free_size mm Hwf) as Hfree.
      rewrite order_size_eq in Hfb by assumption.
      assert (Hw : wrap64 (2 ^ Z.of_nat k * PAGE_SIZE) = 2 ^ Z.of_nat k * PAGE_SIZE).
      { unfold wrap64. apply Z.mod_small. unfold PAGE_SIZE in *. lia. }
      rewrite Hw. unfold wrap64. apply Z.mod_small. unfold PAGE_SIZE in *. lia.
Qed.

(** ** mem_mm.c: behaviour at concrete inputs *)

(** C1 (the code departs from the claim).  Over a 9 GiB region the seed
    holds two blocks of order [MAX_ORDER].  Allocating [2^20] pages and
    freeing them again merges the two blocks into an order that does not
    exist: both leave the free list of order 20, although every allocated
    block has been freed and [free_size] is back at its initial value. *)
Lemma rmm_free_loses_max_order_blocks :
  match rmm_create 0x100000 (9 * 2^30) with
  | Some mm0 =>
      match rmm_allocpages mm0 (2^20) with
      | Some (mm1, p) =>
          let mm2 := rmm_freepages mm1 p in
          freelists mm0 20%nat = [0x100000; 0x100100000]
          /\ p = 0x100100000
          /\ freelists mm2 20%nat = []
          /\ free_size mm2 = free_size mm0
          /\ bitsets mm2 20%nat 0 = bitsets mm0 20%nat 0
          /\ bitsets mm2 20%nat 1 = bitsets mm0 20%nat 1
      | None => False
      end
  | None => False
  end.
Proof. vm_compute. repeat split; reflexivity. Qed.

(** The claim of C2 as first stated fails in its last part: an allocation
    of one page from a fresh 10 MiB manager has no free block of order 0,
    splits the block of order 1 and sets the bit of that block at order 1 as
    well as its own bit at order 0. *)
Lemma rmm_alloc_sets_parent_bit_counterexample :
  match rmm_create 0x100000 (10 * 2^20) with
  | Some mm0 =>
      match rmm_allocpages mm0 (2^0) with
      | Some (mm1, p) =>
          let a := p - start_addr mm0 in
          p <> 0
          /\ bitsets mm0 0%nat (a / order_size 0) = false
          /\ bitsets mm1 0%nat (a / order_size 0) = true
          /\ bitsets mm0 1%nat (a / order_size 1) = false
          /\ bitsets mm1 1%nat (a / order_size 1) = true
      | None => False
      end
  | None => False
  end.
Proof. vm_compute. repeat split; try reflexivity. discriminate. Qed.

(** The claim of C6 as first stated fails: over a region that starts at
    address 4096 the two-page block handed out is not at a multiple of
    [2 * PAGE_SIZE]; only its offset from [start_addr] is. *)
Lemma rmm_allocpages_alignment_counterexample :
  match rmm_create 4096 (10 * 2^20) with
  | Some mm0 =>
      match rmm_allocpages mm0 2 with
      | Some (mm1, p) =>
          p <> 0 /\ p mod (2 * PAGE_SIZE) <> 0
          /\ (p - start_addr mm0) mod (2 * PAGE_SIZE) = 0
      | None => False
      end
  | None => False
  end.
Proof. vm_compute. repeat split; try reflexivity; discriminate. Qed.

(** ** kmem: behaviour at concrete inputs *)

(** C4 (the code departs from the claim).  2048 allocations of 64 bytes fill
    two slab blocks; the full list is then [0x210000 -> 0x200000].  Freeing
    the first region, a chunk of the older block [0x200000], moves that
    block to the usable list but sets the head of the full list to its
    [next], which is NULL: block [0x210000] is dropped from the full list
    although nothing of it was freed.  Freeing then a chunk of [0x210000]
    puts [0x200000] back on the full list while it is also on the usable
    list. *)
Lemma slabheap_free_drops_full_blocks :
  match kmem_alloc_n 2048 kmem_sample 64 with
  | Some (a, rs) =>
      let r0 := nth 0 rs (mk_rmem2 0 0) in
      let r1024 := nth 1024 rs (mk_rmem2 0 0) in
      usable_list a 3 = [] /\ full_list a 3 = [0x210000; 0x200000]
      /\ Z.land (r_start r0) SLABHEAP_BLOCK_MASK = 0x200000
      /\ Z.land (r_start r1024) SLABHEAP_BLOCK_MASK = 0x210000
      /\ match kmem_free a r0 with
         | Some a1 =>
             usable_list a1 3 = [0x200000] /\ full_list a1 3 = []
             /\ match kmem_free a1 r1024 with
                | Some a2 =>
                    usable_list a2 3 = [0x210000; 0x200000]
                    /\ full_list a2 3 = [0x200000]
                | None => False
                end
         | None => False
         end
  | None => False
  end.
Proof. vm_compute. repeat split; reflexivity. Qed.

(** C5 (the code departs from the claim).  One byte fits the smallest slab
    class: the allocation reserves the 8 bytes of that class, while
    [kmem_alloc_size] answers [CEIL_POW2(1) = 1]. *)
Lemma kmem_alloc_size_below_min_class :
  match kmem_alloc_aligned kmem_sample 1 1 with
  | Some (_, r) => r_start r <> 0 /\ r_size r = 8
  | None => False
  end
  /\ kmem_alloc_size 1 = 1.
Proof. vm_compute. repeat split; try reflexivity; discriminate. Qed.

(** ** mem_mm.c: arithmetic of blocks *)

Lemma bsize_pos k : 0 < bsize k.
Proof.
  unfold bsize, PAGE_SIZE.
  assert (0 < 2 ^ Z.of_nat k) by (apply Z.pow_pos_nonneg; lia). lia.
Qed.

Lemma bsize_S k : bsize (S k) = 2 * bsize k.
Proof.
  unfold bsize. replace (Z.of_nat (S k)) with (Z.of_nat k + 1) by lia.
  rewrite Z.pow_add_r by lia. lia.
Qed.

Lemma bsize_page k : exists D, 0 < D /\ bsize k = D * PAGE_SIZE.
Proof.
  exists (2 ^ Z.of_nat k). split; [apply Z.pow_pos_nonneg; lia|].
  unfold bsize. lia.
Qed.

Lemma bsize_mult k K : (k <= K)%nat -> exists D, 0 < D /\ bsize K = D * bsize k.
Proof.
  intros H. exists (2 ^ Z.of_nat (K - k)).
  split; [apply Z.pow_pos_nonneg; lia|].
  unfold bsize. replace (Z.of_nat K) with (Z.of_nat (K - k) + Z.of_nat k) by lia.
  rewrite Z.pow_add_r by lia. lia.
Qed.

Lemma bsize_le k K : (k <= K)%nat -> bsize k <= bsize K.
Proof.
  intros H. destruct (bsize_mult k K H) as (D & HD & E).
  pose proof (bsize_pos k). nia.
Qed.

Lemma order_size_bsize k : (k <= MAX_ORDER)%nat -> order_size k = bsize k.
Proof. apply order_size_eq. Qed.

Lemma bsize_max k : (k <= MAX_ORDER)%nat -> bsize k <= 2^32.
Proof.
  intros H. pose proof (bsize_le k MAX_ORDER H) as Hle.
  change (bsize MAX_ORDER) with (2^32) in Hle. exact Hle.
Qed.

Lemma node_order k a : node k a -> (k <= MAX_ORDER)%nat.
Proof. intros [H _]. exact H. Qed.

Lemma node_nonneg k a : node k a -> 0 <= a.
Proof.
  intros (_ & i & Hi & ->). pose proof (bsize_pos k). nia.
Qed.

Lemma node_child_l k a : node (S k) a -> node k a.
Proof.
  intros (Hk & i & Hi & ->). split; [lia|].
  exists (2 * i). rewrite bsize_S. split; lia.
Qed.

Lemma node_child_r k a : node (S k) a -> node k (a + bsize k).
Proof.
  intros (Hk & i & Hi & ->). split; [lia|].
  exists (2 * i + 1). rewrite bsize_S. split; lia.
Qed.

Lemma node_lower k K a : (k <= K)%nat -> node K a -> node k a.
Proof.
  intros Hle (HK & i & Hi & ->). split; [lia|].
  destruct (bsize_mult k K Hle) as (D & HD & E).
  exists (i * D). rewrite E. split; nia.
Qed.

Lemma node_index k a i : 0 <= i -> a = i * bsize k -> a / bsize k = i.
Proof.
  intros _ ->. apply Z.div_mul. pose proof (bsize_pos k). lia.
Qed.

Lemma node_inj k a b : node k a -> node k b -> a / bsize k = b / bsize k -> a = b.
Proof.
  intros (_ & i & Hi & Ea) (_ & j & Hj & Eb) H.
  rewrite (node_index k a i Hi Ea), (node_index k b j Hj Eb) in H.
  subst. reflexivity.
Qed.

Lemma node_mod k a : node k a -> a mod bsize k = 0.
Proof.
  intros (_ & i & _ & ->). apply Z.mod_mul. pose proof (bsize_pos k); lia.
Qed.

(** Two blocks of one order are equal or apart. *)
Lemma node_apart k a b : node k a -> node k b -> a < b -> a + bsize k <= b.
Proof.
  intros (_ & i & Hi & ->) (_ & j & Hj & ->) H.
  pose proof (bsize_pos k).
  assert (i < j) by nia. assert (i + 1 <= j) by lia. nia.
Qed.

Lemma within_refl k a : within k a k a.
Proof. unfold within. lia. Qed.

Lemma within_trans k a k1 a1 K A :
  within k a k1 a1 -> within k1 a1 K A -> within k a K A.
Proof. unfold within. lia. Qed.

Lemma within_same k a A : within k a k A -> a = A.
Proof. unfold within. lia. Qed.

(** A block inside a larger one is inside one of its halves. *)
Lemma within_child k a K A :
  node k a -> node (S K) A -> (k <= K)%nat -> within k a (S K) A ->
  within k a K A \/ within k a K (A + bsize K).
Proof.
  intros Hn HN Hk (_ & Hlo & Hhi). rewrite bsize_S in Hhi.
  pose proof (node_child_r K A HN) as Hmid.
  pose proof (node_lower k K _ Hk Hmid) as Hmid'.
  unfold within.
  destruct (Z.lt_ge_cases a (A + bsize K)) as [Hlt|Hge].
  - left. pose proof (node_apart k a _ Hn Hmid' Hlt). lia.
  - right. lia.
Qed.

Lemma within_halves_disjoint k a K A :
  within k a K A -> within k a K (A + bsize K) -> False.
Proof. unfold within. pose proof (bsize_pos k). lia. Qed.

Lemma within_left k a K A : within k a K A -> within k a (S K) A.
Proof. unfold within. rewrite bsize_S. pose proof (bsize_pos K). lia. Qed.

Lemma within_right k a K A : within k a K (A + bsize K) -> within k a (S K) A.
Proof. unfold within. rewrite bsize_S. pose proof (bsize_pos K). lia. Qed.

(** The buddy of the lower half is the upper half and conversely. *)
Lemma lxor_one_even i : 0 <= i -> Z.lxor (2 * i) 1 = 2 * i + 1.
Proof.
  intros Hi. symmetry. apply Z.add_nocarry_lxor.
  apply Z.bits_inj'. intros n Hn. rewrite Z.land_spec, Z.bits_0.
  destruct (Z.eq_dec n 0) as [->|Hne].
  - rewrite Z.testbit_even_0. reflexivity.
  - replace 1 with (2^0) by reflexivity.
    rewrite Z.pow2_bits_false by lia. apply andb_false_r.
Qed.

Lemma lxor_one_odd i : 0 <= i -> Z.lxor (2 * i + 1) 1 = 2 * i.
Proof.
  intros Hi. rewrite <- (lxor_one_even i Hi).
  rewrite Z.lxor_assoc, Z.lxor_nilpotent, Z.lxor_0_r. reflexivity.
Qed.

Lemma lxor_scaled i n : 0 <= n ->
  Z.lxor (i * 2^n) (2^n) = Z.lxor i 1 * 2^n.
Proof.
  intros Hn. rewrite <- !Z.shiftl_mul_pow2 by lia.
  replace (2^n) with (Z.shiftl 1 n) by (rewrite Z.shiftl_mul_pow2; lia).
  rewrite <- Z.shiftl_lxor. reflexivity.
Qed.

Lemma bsize_pow k : bsize k = 2 ^ (12 + Z.of_nat k).
Proof.
  unfold bsize, PAGE_SIZE. rewrite Z.pow_add_r by lia. reflexivity.
Qed.

Lemma buddy_of_left k a : node (S k) a -> buddy_of k a = a + bsize k.
Proof.
  intros (_ & i & Hi & ->). unfold buddy_of. rewrite bsize_S.
  replace (i * (2 * bsize k)) with ((2 * i) * bsize k) by lia.
  rewrite bsize_pow, lxor_scaled, lxor_one_even by lia. lia.
Qed.

Lemma buddy_of_right k a : node (S k) a -> buddy_of k (a + bsize k) = a.
Proof.
  intros (_ & i & Hi & ->). unfold buddy_of. rewrite bsize_S.
  replace (i * (2 * bsize k) + bsize k) with ((2 * i + 1) * bsize k) by lia.
  rewrite bsize_pow, lxor_scaled, lxor_one_odd by lia. lia.
Qed.

Lemma buddy_of_cases k a :
  node k a ->
  (buddy_of k a = a + bsize k \/ (buddy_of k a = a - bsize k /\ bsize k <= a)).
Proof.
  intros (_ & i & Hi & ->). unfold buddy_of.
  rewrite bsize_pow, lxor_scaled by lia.
  destruct (Z.even i) eqn:Ev.
  - apply Z.even_spec in Ev. destruct Ev as [q ->]. left.
    rewrite lxor_one_even by lia. lia.
  - assert (Hodd : Z.odd i = true) by (rewrite <- Z.negb_even, Ev; reflexivity).
    apply Z.odd_spec in Hodd. destruct Hodd as [q ->]. right.
    rewrite lxor_one_odd by lia.
    assert (0 < 2 ^ (12 + Z.of_nat k)) by (apply Z.pow_pos_nonneg; lia). nia.
Qed.

Lemma buddy_of_node k a : node k a -> node k (buddy_of k a).
Proof.
  intros Hn. pose proof Hn as (Hk & i & Hi & E).
  destruct (buddy_of_cases k a Hn) as [->|[-> Hge]]; split; try assumption.
  - exists (i + 1). split; lia.
  - exists (i - 1). pose proof (bsize_pos k). split; [nia|lia].
Qed.

Lemma buddy_of_neq k a : node k a -> buddy_of k a <> a.
Proof.
  intros Hn. pose proof (bsize_pos k).
  destruct (buddy_of_cases k a Hn) as [->|[-> _]]; lia.
Qed.

Lemma to_int_small x : 0 <= x < 2^31 -> to_int x = x.
Proof.
  intros H. unfold to_int. rewrite Z.mod_small; lia.
Qed.

Lemma index_small k a : node k a -> a < 2^43 -> 0 <= a / bsize k < 2^31.
Proof.
  intros (_ & i & Hi & ->) Hlt.
  rewrite Z.div_mul by (pose proof (bsize_pos k); lia).
  split; [assumption|].
  destruct (bsize_page k) as (D & HD & E). rewrite E in Hlt.
  unfold PAGE_SIZE in Hlt. change (2^43) with (4096 * 2^31) in Hlt. nia.
Qed.

(** ** mem_mm.c: the buddy tree *)

Lemma blank_eq mm L k a :
  blank mm L k a <->
  ~ isset mm k a /\ ~ isfree mm k a /\ ~ islive mm L k a /\ below_blank mm L k a.
Proof. destruct k; reflexivity. Qed.

Lemma ok_eq mm L k a :
  ok mm L k a <->
  (isfree mm k a /\ ~ isset mm k a /\ ~ islive mm L k a /\ below_blank mm L k a)
  \/ (islive mm L k a /\ isset mm k a /\ ~ isfree mm k a /\ below_blank mm L k a)
  \/ (isset mm k a /\ ~ isfree mm k a /\ ~ islive mm L k a
      /\ match k with
         | O => False
         | S k' => ok mm L k' a /\ ok mm L k' (a + bsize k')
         end).
Proof. destruct k; reflexivity. Qed.

Lemma ok_not_blank mm L k a : ok mm L k a -> blank mm L k a -> False.
Proof. rewrite ok_eq, blank_eq. tauto. Qed.

Lemma blank_inside mm L K :
  forall A k a, blank mm L K A -> node k a -> node K A -> within k a K A ->
  blank mm L k a.
Proof.
  induction K as [|K IH]; intros A k a Hb Hn HN Hw.
  - assert (k = O) by (destruct Hw; lia). subst k.
    rewrite (within_same _ _ _ Hw). exact Hb.
  - destruct (Nat.eq_dec k (S K)) as [->|Hne].
    + rewrite (within_same _ _ _ Hw). exact Hb.
    + assert (Hk : (k <= K)%nat) by (destruct Hw; lia).
      apply blank_eq in Hb. destruct Hb as (_ & _ & _ & Hl & Hr).
      destruct (within_child k a K A Hn HN Hk Hw) as [Hw'|Hw'].
      * apply (IH A); auto using node_child_l.
      * apply (IH (A + bsize K)); auto using node_child_r.
Qed.

Lemma ok_inside mm L K :
  forall A k a, ok mm L K A -> node k a -> node K A -> within k a K A ->
  ok mm L k a \/ blank mm L k a.
Proof.
  induction K as [|K IH]; intros A k a Hok Hn HN Hw.
  - assert (k = O) by (destruct Hw; lia). subst k.
    rewrite (within_same _ _ _ Hw). left; exact Hok.
  - destruct (Nat.eq_dec k (S K)) as [->|Hne].
    + rewrite (within_same _ _ _ Hw). left; exact Hok.
    + assert (Hk : (k <= K)%nat) by (destruct Hw; lia).
      pose proof (node_child_l K A HN) as Hnl.
      pose proof (node_child_r K A HN) as Hnr.
      apply ok_eq in Hok.
      destruct (within_child k a K A Hn HN Hk Hw) as [Hw'|Hw'];
        destruct Hok as [(_ & _ & _ & Hl & Hr)|[(_ & _ & _ & Hl & Hr)
                        |(_ & _ & _ & Hl & Hr)]];
        eauto using blank_inside.
Qed.

(** A block that is in use inside a tree in order is its root or the half
    of a split block. *)
Lemma ok_parent mm L K :
  forall A m a, ok mm L K A -> node m a -> node K A -> within m a K A ->
  (m < K)%nat -> ~ blank mm L m a ->
  exists ap, node (S m) ap /\ within (S m) ap K A
    /\ (a = ap \/ a = ap + bsize m)
    /\ isset mm (S m) ap /\ ~ isfree mm (S m) ap /\ ~ islive mm L (S m) ap
    /\ ok mm L m ap /\ ok mm L m (ap + bsize m).
Proof.
  induction K as [|K IH]; intros A m a Hok Hn HN Hw Hlt Hnb; [lia|].
  pose proof (node_child_l K A HN) as Hnl.
  pose proof (node_child_r K A HN) as Hnr.
  assert (Hk : (m <= K)%nat) by lia.
  apply ok_eq in Hok.
  destruct Hok as [(_ & _ & _ & Hl & Hr)|[(_ & _ & _ & Hl & Hr)
                  |(Hs & Hf & Hv & Hl & Hr)]].
  1,2: exfalso; apply Hnb;
       destruct (within_child m a K A Hn HN Hk Hw) as [Hw'|Hw'];
       eauto using blank_inside.
  destruct (Nat.eq_dec m K) as [->|Hne].
  - exists A. split; [exact HN|]. split; [apply within_refl|].
    split; [|tauto].
    destruct (within_child K a K A Hn HN Hk Hw) as [Hw'|Hw'];
      [left|right]; apply (within_same _ _ _ Hw').
  - destruct (within_child m a K A Hn HN Hk Hw) as [Hw'|Hw'].
    + destruct (IH A m a Hl Hn Hnl Hw' ltac:(lia) Hnb)
        as (ap & H1 & H2 & H3).
      exists ap. split; [exact H1|]. split; [apply within_left; exact H2|exact H3].
    + destruct (IH (A + bsize K) m a Hr Hn Hnr Hw' ltac:(lia) Hnb)
        as (ap & H1 & H2 & H3).
      exists ap. split; [exact H1|]. split; [apply within_right; exact H2|exact H3].
Qed.

Lemma same_at_sym mm L mm' L' k a :
  same_at mm L mm' L' k a -> same_at mm' L' mm L k a.
Proof. unfold same_at. tauto. Qed.

Lemma blank_frame mm L mm' L' K :
  forall A, node K A ->
  (forall k a, node k a -> within k a K A -> same_at mm L mm' L' k a) ->
  blank mm L K A -> blank mm' L' K A.
Proof.
  induction K as [|K IH]; intros A HN Hsame Hb;
    pose proof (Hsame _ A HN (within_refl _ A)) as (Hf & Hs & Hl);
    apply blank_eq in Hb; apply blank_eq.
  - cbn in *. tauto.
  - destruct Hb as (H1 & H2 & H3 & H4 & H5). cbn [below_blank].
    repeat split; try tauto.
    + apply IH; auto using node_child_l.
      intros k a Hn Hw. apply Hsame; auto using within_left.
    + apply IH; auto using node_child_r.
      intros k a Hn Hw. apply Hsame; auto using within_right.
Qed.

Lemma below_blank_frame mm L mm' L' K A :
  node K A ->
  (forall k a, node k a -> within k a K A -> same_at mm L mm' L' k a) ->
  below_blank mm L K A -> below_blank mm' L' K A.
Proof.
  intros HN Hsame. destruct K as [|K]; cbn [below_blank]; [tauto|].
  intros [Hl Hr]. split.
  - apply (blank_frame mm L); auto using node_child_l.
    intros k a Hn Hw. apply Hsame; auto using within_left.
  - apply (blank_frame mm L); auto using node_child_r.
    intros k a Hn Hw. apply Hsame; auto using within_right.
Qed.

Lemma ok_frame mm L mm' L' K :
  forall A, node K A ->
  (forall k a, node k a -> within k a K A -> same_at mm L mm' L' k a) ->
  ok mm L K A -> ok mm' L' K A.
Proof.
  induction K as [|K IH]; intros A HN Hsame Hok;
    pose proof (Hsame _ A HN (within_refl _ A)) as (Hf & Hs & Hl);
    pose proof (below_blank_frame mm L mm' L' _ A HN Hsame) as Hbb;
    apply ok_eq in Hok; apply ok_eq.
  - destruct Hok as [H|[H|(H1 & H2 & H3 & [])]]; tauto.
  - destruct Hok as [H|[H|(H1 & H2 & H3 & H4 & H5)]]; [tauto|tauto|].
    right; right. repeat split; try tauto.
    + apply IH; auto using node_child_l.
      intros k a Hn Hw. apply Hsame; auto using within_left.
    + apply IH; auto using node_child_r.
      intros k a Hn Hw. apply Hsame; auto using within_right.
Qed.

(** Changing the tree below one block that was and stays in order leaves
    every tree around it in order. *)
Lemma ok_replace mm L mm' L' k1 a1 K :
  forall A, node K A -> node k1 a1 -> within k1 a1 K A ->
  ok mm L K A -> ok mm L k1 a1 ->
  (forall k a, node k a -> ~ within k a k1 a1 -> same_at mm L mm' L' k a) ->
  ok mm' L' k1 a1 -> ok mm' L' K A.
Proof.
  induction K as [|K IH]; intros A HN Hn1 Hw Hok Hok1 Hsame Hok1'.
  - assert (k1 = O) by (destruct Hw; lia). subst k1.
    rewrite <- (within_same _ _ _ Hw). exact Hok1'.
  - destruct (Nat.eq_dec k1 (S K)) as [->|Hne].
    + rewrite <- (within_same _ _ _ Hw). exact Hok1'.
    + assert (Hk : (k1 <= K)%nat) by (destruct Hw; lia).
      pose proof (node_child_l K A HN) as Hnl.
      pose proof (node_child_r K A HN) as Hnr.
      assert (Hout : ~ within (S K) A k1 a1) by (unfold within; lia).
      pose proof (Hsame _ A HN Hout) as (Hf & Hs & Hl).
      apply ok_eq in Hok. apply ok_eq.
      destruct Hok as [(_ & _ & _ & Hbl & Hbr)|[(_ & _ & _ & Hbl & Hbr)
                      |(H1 & H2 & H3 & Hol & Hor)]].
      1,2: exfalso; apply (ok_not_blank mm L k1 a1 Hok1);
           destruct (within_child k1 a1 K A Hn1 HN Hk Hw) as [Hw'|Hw'];
           eauto using blank_inside.
      right; right. repeat split; try tauto.
      * destruct (within_child k1 a1 K A Hn1 HN Hk Hw) as [Hw'|Hw'].
        -- apply IH; assumption.
        -- apply (ok_frame mm L); try assumption.
           intros k a Hn Hwk. apply Hsame; [assumption|]. intros Hin.
           apply (within_halves_disjoint k a K A); [assumption|].
           eapply within_trans; eassumption.
      * destruct (within_child k1 a1 K A Hn1 HN Hk Hw) as [Hw'|Hw'].
        -- apply (ok_frame mm L); try assumption.
           intros k a Hn Hwk. apply Hsame; [assumption|]. intros Hin.
           apply (within_halves_disjoint k a K A); [|assumption].
           eapply within_trans; eassumption.
        -- apply IH; assumption.
Qed.

(** ** mem_mm.c: updates of the state *)

Lemma upd_same {A : Type} (f : nat -> A) k v : upd f k v k = v.
Proof. unfold upd. rewrite Nat.eqb_refl. reflexivity. Qed.

Lemma upd_other {A : Type} (f : nat -> A) k v j : j <> k -> upd f k v j = f j.
Proof.
  intros H. unfold upd. destruct (Nat.eqb_spec j k); [contradiction|reflexivity].
Qed.

Lemma isset_bit_set mm k a1 k' a :
  node k a1 -> node k' a ->
  (isset (set_bitset mm k (bit_set (bitsets mm k) (a1 / bsize k))) k' a
   <-> (k' = k /\ a = a1) \/ isset mm k' a).
Proof.
  intros Hn1 Hn. unfold isset, set_bitset; cbn [bitsets].
  destruct (Nat.eq_dec k' k) as [->|Hne].
  - rewrite upd_same. unfold bit_set.
    destruct (Z.eqb_spec (a / bsize k) (a1 / bsize k)) as [E|E].
    + apply node_inj in E; try assumption. tauto.
    + split; [tauto|]. intros [[_ ->]|H]; [contradiction|exact H].
  - rewrite upd_other by assumption. tauto.
Qed.

Lemma isset_bit_clear mm k a1 k' a :
  node k a1 -> node k' a ->
  (isset (set_bitset mm k (bit_clear (bitsets mm k) (a1 / bsize k))) k' a
   <-> isset mm k' a /\ ~ (k' = k /\ a = a1)).
Proof.
  intros Hn1 Hn. unfold isset, set_bitset; cbn [bitsets].
  destruct (Nat.eq_dec k' k) as [->|Hne].
  - rewrite upd_same. unfold bit_clear.
    destruct (Z.eqb_spec (a / bsize k) (a1 / bsize k)) as [E|E].
    + apply node_inj in E; try assumption. split; [discriminate|tauto].
    + split; [|tauto]. intros H. split; [exact H|].
      intros [_ ->]. contradiction.
  - rewrite upd_other by assumption. tauto.
Qed.

Lemma isfree_set_freelist mm k l k' a :
  isfree (set_freelist mm k l) k' a
  <-> (k' = k /\ In (start_addr mm + a) l) \/ (k' <> k /\ isfree mm k' a).
Proof.
  unfold isfree, set_freelist; cbn [freelists start_addr].
  destruct (Nat.eq_dec k' k) as [->|Hne].
  - rewrite upd_same. tauto.
  - rewrite upd_other by assumption. tauto.
Qed.

Lemma isfree_ilist_del mm e k a :
  isfree (ilist_del mm e) k a <-> isfree mm k a /\ start_addr mm + a <> e.
Proof.
  unfold isfree, ilist_del; cbn [freelists start_addr].
  split.
  - intros H. apply in_remove in H. exact H.
  - intros [H1 H2]. apply in_in_remove; assumption.
Qed.

(** Blank blocks stay blank when nothing is added. *)
Lemma blank_mono mm L mm' L' K :
  forall A, node K A ->
  (forall k a, node k a -> within k a K A ->
     (isset mm' k a -> isset mm k a) /\ (isfree mm' k a -> isfree mm k a)
     /\ (islive mm' L' k a -> islive mm L k a)) ->
  blank mm L K A -> blank mm' L' K A.
Proof.
  induction K as [|K IH]; intros A HN Hmono Hb;
    pose proof (Hmono _ A HN (within_refl _ A)) as (Hs & Hf & Hl);
    apply blank_eq in Hb; apply blank_eq.
  - cbn in *. tauto.
  - destruct Hb as (H1 & H2 & H3 & H4 & H5). cbn [below_blank].
    repeat split; try tauto.
    + apply IH; auto using node_child_l.
      intros k a Hn Hw. apply Hmono; auto using within_left.
    + apply IH; auto using node_child_r.
      intros k a Hn Hw. apply Hmono; auto using within_right.
Qed.

Lemma below_blank_mono mm L mm' L' K A :
  node K A ->
  (forall k a, node k a -> (k < K)%nat ->
     (isset mm' k a -> isset mm k a) /\ (isfree mm' k a -> isfree mm k a)
     /\ (islive mm' L' k a -> islive mm L k a)) ->
  below_blank mm L K A -> below_blank mm' L' K A.
Proof.
  intros HN Hmono. destruct K as [|K]; cbn [below_blank]; [tauto|].
  intros [Hl Hr]. split.
  - apply (blank_mono mm L); auto using node_child_l.
    intros k a Hn [Hk _]. apply Hmono; [assumption|lia].
  - apply (blank_mono mm L); auto using node_child_r.
    intros k a Hn [Hk _]. apply Hmono; [assumption|lia].
Qed.

Lemma below_blank_inside mm L K A k a :
  below_blank mm L K A -> node k a -> node K A -> within k a K A ->
  (k < K)%nat -> blank mm L k a.
Proof.
  intros Hbb Hn HN Hw Hlt. destruct K as [|K]; [lia|].
  cbn [below_blank] in Hbb. destruct Hbb as [Hl Hr].
  destruct (within_child k a K A Hn HN ltac:(lia) Hw) as [Hw'|Hw'].
  - apply (blank_inside mm L K A); auto using node_child_l.
  - apply (blank_inside mm L K (A + bsize K)); auto using node_child_r.
Qed.

(** Two seed blocks that share a block are one. *)
Lemma roots_share mm L R k a K1 A1 K2 A2 :
  rmm_inv mm L R -> In (K1, A1) R -> In (K2, A2) R ->
  within k a K1 A1 -> within k a K2 A2 -> K1 = K2 /\ A1 = A2.
Proof.
  intros Hinv H1 H2 (_ & Hl1 & Hh1) (_ & Hl2 & Hh2).
  pose proof (bsize_pos k).
  apply (inv_disjoint mm L R Hinv); try assumption; lia.
Qed.

(** The invariant survives a change confined to the tree below one block
    that was in order, or is a seed block, and is in order afterwards (or,
    for a seed block, blank). *)
Lemma inv_replace mm L R mm' L' k1 a1 :
  rmm_inv mm L R -> in_tree R k1 a1 ->
  ok mm L k1 a1 \/ In (k1, a1) R ->
  start_addr mm' = start_addr mm -> end_addr mm' = end_addr mm ->
  (forall k a, node k a -> ~ within k a k1 a1 -> same_at mm L mm' L' k a) ->
  (ok mm' L' k1 a1 \/ (In (k1, a1) R /\ blank mm' L' k1 a1)) ->
  (forall k e, (k <= MAX_ORDER)%nat -> In e (freelists mm' k) ->
     In e (freelists mm k)
     \/ exists a, e = start_addr mm + a /\ node k a /\ within k a k1 a1) ->
  (forall k p, In (k, p) L' ->
     In (k, p) L
     \/ exists a, p = start_addr mm + a /\ node k a /\ within k a k1 a1) ->
  (forall k, (k <= MAX_ORDER)%nat -> NoDup (freelists mm' k)) ->
  NoDup L' ->
  rmm_inv mm' L' R.
Proof.
  intros Hinv (Hn1 & K1 & A1 & HR1 & Hw1) Hok1 Hst Hen Hsame Hnew
         Hfree Hlive Hnd HndL.
  assert (Hroot_out : forall K A, In (K, A) R -> (K, A) <> (K1, A1) ->
            forall k a, node k a -> within k a K A -> ~ within k a k1 a1).
  { intros K A HR Hne k a Hn Hw Hin. apply Hne.
    assert (Hw' : within k a K1 A1) by (eapply within_trans; eassumption).
    destruct (roots_share mm L R k a K A K1 A1 Hinv HR HR1 Hw Hw') as [-> ->].
    reflexivity. }
  constructor.
  - rewrite Hst. apply (inv_start mm L R Hinv).
  - rewrite Hst, Hen. apply (inv_range mm L R Hinv).
  - intros K A HR. rewrite Hst, Hen. apply (inv_roots mm L R Hinv K A HR).
  - apply (inv_disjoint mm L R Hinv).
  - intros K A HR.
    pose proof (inv_roots mm L R Hinv K A HR) as [HN _].
    destruct (live_eq_dec (K, A) (K1, A1)) as [E|Hne].
    + injection E as -> ->.
      destruct Hnew as [Hok'|[HR' Hb']].
      * left. destruct Hok1 as [Hok1|HR1'].
        -- destruct (inv_ok mm L R Hinv K1 A1 HR) as [Hok|Hb].
           ++ apply (ok_replace mm L mm' L' k1 a1); assumption.
           ++ exfalso. apply (ok_not_blank mm L k1 a1 Hok1).
              apply (blank_inside mm L K1 A1); assumption.
        -- destruct (roots_share mm L R k1 a1 k1 a1 K1 A1 Hinv HR1' HR
                       (within_refl _ _) Hw1) as [-> ->].
           exact Hok'.
      * right.
        destruct (roots_share mm L R k1 a1 k1 a1 K1 A1 Hinv HR' HR
                    (within_refl _ _) Hw1) as [-> ->].
        exact Hb'.
    + destruct (inv_ok mm L R Hinv K A HR) as [Hok|Hb].
      * left. apply (ok_frame mm L); try assumption.
        intros k a Hn Hw. apply Hsame; [assumption|].
        apply (Hroot_out K A HR Hne); assumption.
      * right. apply (blank_frame mm L); try assumption.
        intros k a Hn Hw. apply Hsame; [assumption|].
        apply (Hroot_out K A HR Hne); assumption.
  - intros K A HR.
    pose proof (inv_roots mm L R Hinv K A HR) as [HN _].
    destruct (inv_sentinel mm L R Hinv K A HR) as [H|[Hs Hout]];
      [left; exact H|right].
    split; [|exact Hout].
    apply (Hsame K (buddy_of K A)); [apply buddy_of_node; exact HN| |exact Hs].
    intros Hin. apply (Hout K1 A1 HR1). eapply within_trans; eassumption.
  - intros k e Hk Hin. rewrite Hst.
    destruct (Hfree k e Hk Hin) as [Hold|(a & -> & Hn & Hw)].
    + apply (inv_free_cover mm L R Hinv k e Hk Hold).
    + exists a. split; [reflexivity|]. split; [exact Hn|].
      exists K1, A1. split; [exact HR1|]. eapply within_trans; eassumption.
  - intros k p Hin. rewrite Hst.
    destruct (Hlive k p Hin) as [Hold|(a & -> & Hn & Hw)].
    + apply (inv_live_cover mm L R Hinv k p Hold).
    + exists a. split; [reflexivity|]. split; [exact Hn|].
      exists K1, A1. split; [exact HR1|]. eapply within_trans; eassumption.
  - exact Hnd.
  - exact HndL.
Qed.

(** What the invariant says about one block of a tree. *)
Lemma inv_node mm L R k a :
  rmm_inv mm L R -> in_tree R k a -> ok mm L k a \/ blank mm L k a.
Proof.
  intros Hinv (Hn & K & A & HR & Hw).
  pose proof (inv_roots mm L R Hinv K A HR) as [HN _].
  destruct (inv_ok mm L R Hinv K A HR) as [Hok|Hb].
  - apply (ok_inside mm L K A); assumption.
  - right. apply (blank_inside mm L K A); assumption.
Qed.

Lemma inv_free_node mm L R k e :
  rmm_inv mm L R -> (k <= MAX_ORDER)%nat -> In e (freelists mm k) ->
  exists a, e = start_addr mm + a /\ in_tree R k a
    /\ ~ isset mm k a /\ ~ islive mm L k a /\ below_blank mm L k a.
Proof.
  intros Hinv Hk Hin.
  destruct (inv_free_cover mm L R Hinv k e Hk Hin) as (a & -> & Ht).
  exists a. split; [reflexivity|]. split; [exact Ht|].
  destruct (inv_node mm L R k a Hinv Ht) as [Hok|Hb].
  - apply ok_eq in Hok. unfold isfree in Hok. tauto.
  - apply blank_eq in Hb. unfold isfree in Hb. tauto.
Qed.

Lemma inv_live_node mm L R k p :
  rmm_inv mm L R -> In (k, p) L ->
  exists a, p = start_addr mm + a /\ in_tree R k a
    /\ isset mm k a /\ ~ isfree mm k a /\ below_blank mm L k a.
Proof.
  intros Hinv Hin.
  destruct (inv_live_cover mm L R Hinv k p Hin) as (a & -> & Ht).
  exists a. split; [reflexivity|]. split; [exact Ht|].
  destruct (inv_node mm L R k a Hinv Ht) as [Hok|Hb].
  - apply ok_eq in Hok. unfold islive in Hok. tauto.
  - apply blank_eq in Hb. unfold islive in Hb. tauto.
Qed.

Lemma in_tree_bounds mm L R k a :
  rmm_inv mm L R -> in_tree R k a ->
  0 <= a /\ a + bsize k <= end_addr mm - start_addr mm.
Proof.
  intros Hinv (Hn & K & A & HR & (_ & Hlo & Hhi)).
  pose proof (inv_roots mm L R Hinv K A HR) as [HN Hb].
  pose proof (node_nonneg K A HN). lia.
Qed.

(** ** mem_mm.c: the bytes on the free lists *)

Lemma sum_upd (f g : nat -> Z) (k : nat) (l : list nat) :
  NoDup l -> (forall j, j <> k -> g j = f j) ->
  fold_right Z.add 0 (map g l)
  = fold_right Z.add 0 (map f l) + (if in_dec Nat.eq_dec k l then g k - f k else 0).
Proof.
  intros Hnd Hext. induction l as [|x l IH]; [reflexivity|].
  inversion Hnd as [|? ? Hx Hnd']; subst. specialize (IH Hnd').
  cbn [map fold_right]. rewrite IH.
  destruct (in_dec Nat.eq_dec k (x :: l)) as [Hin|Hnin];
    destruct (in_dec Nat.eq_dec k l) as [Hin'|Hnin'].
  - assert (x <> k) by (intros ->; contradiction). rewrite (Hext x) by assumption. lia.
  - destruct Hin as [->|Hin]; [lia|contradiction].
  - exfalso. apply Hnin. right; assumption.
  - assert (x <> k) by (intros ->; apply Hnin; left; reflexivity).
    rewrite (Hext x) by assumption. lia.
Qed.

Lemma sum_le (f g : nat -> Z) (l : list nat) :
  (forall j, In j l -> g j <= f j) ->
  fold_right Z.add 0 (map g l) <= fold_right Z.add 0 (map f l).
Proof.
  induction l as [|x l IH]; intros H; cbn [map fold_right]; [lia|].
  pose proof (H x (or_introl eq_refl)).
  assert (fold_right Z.add 0 (map g l) <= fold_right Z.add 0 (map f l))
    by (apply IH; intros j Hj; apply H; right; exact Hj).
  lia.
Qed.

Lemma free_bytes_nonneg mm : 0 <= free_bytes mm.
Proof.
  unfold free_bytes.
  induction (seq 0 (S MAX_ORDER)) as [|x l IH]; cbn [map fold_right]; [lia|].
  assert (0 <= order_size x).
  { unfold order_size, wrap64. apply Z.mod_pos_bound. lia. }
  nia.
Qed.

Lemma free_bytes_set_bitset mm k b :
  free_bytes (set_bitset mm k b) = free_bytes mm.
Proof. reflexivity. Qed.

Lemma free_bytes_set_free_size mm n :
  free_bytes (set_free_size mm n) = free_bytes mm.
Proof. reflexivity. Qed.

Lemma free_bytes_set_freelist mm k l :
  (k <= MAX_ORDER)%nat ->
  free_bytes (set_freelist mm k l)
  = free_bytes mm
    + bsize k * (Z.of_nat (length l) - Z.of_nat (length (freelists mm k))).
Proof.
  intros Hk. unfold free_bytes, set_freelist; cbn [freelists].
  rewrite (sum_upd
             (fun j => order_size j * Z.of_nat (length (freelists mm j)))
             _ k).
  - destruct (in_dec Nat.eq_dec k (seq 0 (S MAX_ORDER))) as [_|Hn].
    + rewrite upd_same, order_size_bsize by assumption. lia.
    + exfalso. apply Hn. apply in_seq. lia.
  - apply seq_NoDup.
  - intros j Hj. rewrite upd_other by assumption. reflexivity.
Qed.

Lemma remove_length_le (x : Z) l : (length (remove Z.eq_dec x l) <= length l)%nat.
Proof.
  induction l as [|y l IH]; cbn [remove length]; [lia|].
  destruct (Z.eq_dec x y); cbn [length]; lia.
Qed.

Lemma remove_length_lt (x : Z) l :
  In x l -> (length (remove Z.eq_dec x l) < length l)%nat.
Proof.
  induction l as [|y l IH]; intros Hin; [destruct Hin|].
  cbn [remove length]. destruct (Z.eq_dec x y) as [->|Hne].
  - pose proof (remove_length_le y l). lia.
  - destruct Hin as [->|Hin]; [contradiction|]. cbn [length].
    specialize (IH Hin). lia.
Qed.

Lemma free_bytes_ilist_del mm k e :
  (k <= MAX_ORDER)%nat -> In e (freelists mm k) ->
  free_bytes (ilist_del mm e) <= free_bytes mm - bsize k.
Proof.
  intros Hk Hin. unfold free_bytes, ilist_del; cbn [freelists].
  set (f := fun j => order_size j * Z.of_nat (length (freelists mm j))).
  set (g := fun j => order_size j
                     * Z.of_nat (length (remove Z.eq_dec e (freelists mm j)))).
  set (h := fun j => if Nat.eqb j k then f k - bsize k else f j).
  assert (Hgh : fold_right Z.add 0 (map g (seq 0 (S MAX_ORDER)))
                <= fold_right Z.add 0 (map h (seq 0 (S MAX_ORDER)))).
  { apply sum_le. intros j _. unfold g, h, f.
    assert (0 <= order_size j)
      by (unfold order_size, wrap64; apply Z.mod_pos_bound; lia).
    destruct (Nat.eqb_spec j k) as [->|Hne].
    - rewrite order_size_bsize in * by assumption.
      pose proof (remove_length_lt e _ Hin). nia.
    - pose proof (remove_length_le e (freelists mm j)). nia. }
  rewrite (sum_upd f h k) in Hgh.
  - destruct (in_dec Nat.eq_dec k (seq 0 (S MAX_ORDER))) as [_|Hn].
    + assert (Hk' : h k = f k - bsize k)
        by (unfold h; rewrite Nat.eqb_refl; reflexivity).
      rewrite Hk' in Hgh. fold f. fold g. lia.
    + exfalso. apply Hn. apply in_seq. lia.
  - apply seq_NoDup.
  - intros j Hj. unfold h. destruct (Nat.eqb_spec j k); [contradiction|reflexivity].
Qed.

(** ** mem_mm.c: the steps of an allocation *)

Lemma below_blank_lower mm L mm' L' K A :
  node K A ->
  (forall k a, node k a -> (k < K)%nat -> same_at mm L mm' L' k a) ->
  below_blank mm L K A -> below_blank mm' L' K A.
Proof.
  intros HN Hsame. destruct K as [|K]; cbn [below_blank]; [tauto|].
  intros [Hl Hr]. split.
  - apply (blank_frame mm L); auto using node_child_l.
    intros k a Hn [Hk _]. apply Hsame; [assumption|lia].
  - apply (blank_frame mm L); auto using node_child_r.
    intros k a Hn [Hk _]. apply Hsame; [assumption|lia].
Qed.

Lemma NoDup_app_last {A : Type} (l : list A) x :
  NoDup (l ++ [x]) <-> NoDup l /\ ~ In x l.
Proof.
  split.
  - intros H. apply NoDup_remove in H. rewrite app_nil_r in H. exact H.
  - intros [H1 H2].
    apply (Permutation_NoDup (Permutation_cons_append l x)).
    constructor; assumption.
Qed.

(** A free block is taken off its list and marked in use. *)
Lemma pop_step mm L R k e rest :
  rmm_inv mm L R -> (k <= MAX_ORDER)%nat -> freelists mm k = rest ++ [e] ->
  let a := e - start_addr mm in
  let mm1 := set_freelist mm k rest in
  let mm' := set_bitset mm1 k (bit_set (bitsets mm1 k) (a / bsize k)) in
  rmm_inv mm' ((k, e) :: L) R /\ in_tree R k a.
Proof.
  intros Hinv Hk Hl a mm1 mm'.
  assert (Hin : In e (freelists mm k))
    by (rewrite Hl; apply in_or_app; right; left; reflexivity).
  destruct (inv_free_node mm L R k e Hinv Hk Hin)
    as (a0 & He & Ht & Hns & Hnl & Hbb).
  assert (Ea : a = a0) by (unfold a; lia). clearbody a. subst a0.
  pose proof Ht as (Hn & _).
  pose proof (inv_free_nodup mm L R Hinv k Hk) as Hnd.
  rewrite Hl in Hnd. apply NoDup_app_last in Hnd. destruct Hnd as [Hnd Hnot].
  assert (Hsame : forall k' a', node k' a' -> (k', a') <> (k, a) ->
            same_at mm L mm' ((k, e) :: L) k' a').
  { intros k' a' Hn' Hne. unfold same_at, mm'.
    split; [|split].
    - unfold isfree, mm1; cbn [freelists set_bitset set_freelist start_addr].
      destruct (Nat.eq_dec k' k) as [->|Hk'].
      + rewrite upd_same, Hl, in_app_iff. cbn [In].
        split; [|tauto]. intros [H|[H|[]]]; [exact H|].
        exfalso. apply Hne. f_equal. lia.
      + rewrite upd_other by assumption. tauto.
    - rewrite (isset_bit_set mm1 k a k' a' Hn Hn').
      unfold isset, mm1; cbn [bitsets set_freelist].
      split; [tauto|]. intros [[-> ->]|H]; [contradiction|exact H].
    - unfold islive, mm', mm1; cbn [start_addr set_bitset set_freelist In].
      split; [tauto|]. intros [H|H]; [|exact H].
      exfalso. apply Hne. injection H as -> H. f_equal. lia. }
  split; [|exact Ht].
  apply (inv_replace mm L R mm' ((k, e) :: L) k a); try assumption;
    try reflexivity.
  - left. apply ok_eq. left. unfold isfree. rewrite <- He. tauto.
  - intros k' a' Hn' Hout. apply Hsame; [assumption|].
    intros E. injection E as -> ->. apply Hout, within_refl.
  - left. apply ok_eq. right; left.
    split; [|split; [|split]].
    + unfold islive, mm', mm1; cbn [start_addr set_bitset set_freelist].
      left. f_equal. lia.
    + apply (isset_bit_set mm1 k a k a Hn Hn). left; split; reflexivity.
    + unfold isfree, mm', mm1; cbn [freelists set_bitset set_freelist start_addr].
      rewrite upd_same, <- He. exact Hnot.
    + apply (below_blank_lower mm L); try assumption.
      intros k' a' Hn' Hlt. apply Hsame; [assumption|].
      intros E. injection E as -> _. lia.
  - intros k' e' Hk' Hin'. left.
    unfold mm', mm1 in Hin'; cbn [freelists set_bitset set_freelist] in Hin'.
    destruct (Nat.eq_dec k' k) as [->|Hne].
    + rewrite upd_same in Hin'. rewrite Hl. apply in_or_app. left; exact Hin'.
    + rewrite upd_other in Hin' by assumption. exact Hin'.
  - intros k' p [E|Hin'].
    + injection E as <- <-. right. exists a.
      split; [lia|]. split; [exact Hn|apply within_refl].
    + left; exact Hin'.
  - intros k' Hk'. unfold mm', mm1; cbn [freelists set_bitset set_freelist].
    destruct (Nat.eq_dec k' k) as [->|Hne].
    + rewrite upd_same. exact Hnd.
    + rewrite upd_other by assumption. apply (inv_free_nodup mm L R Hinv k' Hk').
  - constructor; [|apply (inv_live_nodup mm L R Hinv)].
    intros Hc. apply Hnl. unfold islive. rewrite <- He. exact Hc.
Qed.

(** A block handed out at order [S k] is split: its lower half is handed
    out in its place and its upper half goes on the free list. *)
Lemma split_step mm L R k p :
  rmm_inv mm ((S k, p) :: L) R ->
  let a := p - start_addr mm in
  let mm1 := set_freelist mm k (ilist_append (freelists mm k) (p + bsize k)) in
  let mm' := set_bitset mm1 k (bit_set (bitsets mm1 k) (a / bsize k)) in
  rmm_inv mm' ((k, p) :: L) R /\ in_tree R k a.
Proof.
  intros Hinv a mm1 mm'.
  destruct (inv_live_node mm _ R (S k) p Hinv (or_introl eq_refl))
    as (a0 & Hp & Ht & Hs & Hnf & Hbb).
  assert (Ea : a = a0) by (unfold a; lia). clearbody a. subst a0.
  pose proof Ht as (HN & K & A & HR & HW).
  pose proof (node_child_l k a HN) as Hnl.
  pose proof (node_child_r k a HN) as Hnr.
  assert (Hk : (k <= MAX_ORDER)%nat) by (apply node_order in HN; lia).
  pose proof (bsize_pos k) as Hpos.
  cbn [below_blank] in Hbb. destruct Hbb as [Hbl Hbr].
  apply blank_eq in Hbl. destruct Hbl as (Hl1 & Hl2 & Hl3 & Hl4).
  apply blank_eq in Hbr. destruct Hbr as (Hr1 & Hr2 & Hr3 & Hr4).
  pose proof (inv_live_nodup mm _ R Hinv) as HndL.
  apply NoDup_cons_iff in HndL. destruct HndL as [HpL HndL'].
  assert (Hfl : forall k' a',
            isfree mm' k' a' <->
            isfree mm k' a' \/ (k' = k /\ a' = a + bsize k)).
  { intros k' a'. unfold isfree, mm', mm1, ilist_append;
      cbn [freelists set_bitset set_freelist start_addr].
    destruct (Nat.eq_dec k' k) as [->|Hne].
    - rewrite upd_same, in_app_iff. cbn [In].
      split; [intros [H|[H|[]]]; [tauto|right; split; [reflexivity|lia]]|].
      intros [H|[_ ->]]; [tauto|]. right; left; lia.
    - rewrite upd_other by assumption. split; [tauto|].
      intros [H|[E _]]; [exact H|contradiction]. }
  assert (Hst : forall k' a', node k' a' ->
            (isset mm' k' a' <-> (k' = k /\ a' = a) \/ isset mm k' a')).
  { intros k' a' Hn'. unfold mm'.
    rewrite (isset_bit_set mm1 k a k' a' Hnl Hn'). reflexivity. }
  assert (Hlv : forall k' a',
            islive mm' ((k, p) :: L) k' a' <->
            (k' = k /\ a' = a) \/ In (k', start_addr mm + a') L).
  { intros k' a'. unfold islive, mm', mm1;
      cbn [start_addr set_bitset set_freelist In].
    split.
    - intros [H|H]; [left|right; exact H]. injection H as -> H. split; [reflexivity|lia].
    - intros [[-> ->]|H]; [left; f_equal; lia|right; exact H]. }
  assert (Hlv0 : forall k' a',
            islive mm ((S k, p) :: L) k' a' <->
            (k' = S k /\ a' = a) \/ In (k', start_addr mm + a') L).
  { intros k' a'. unfold islive; cbn [In].
    split.
    - intros [H|H]; [left|right; exact H]. injection H as -> H. split; [reflexivity|lia].
    - intros [[-> ->]|H]; [left; f_equal; lia|right; exact H]. }
  assert (Hsame : forall k' a', node k' a' ->
            (k', a') <> (S k, a) -> (k', a') <> (k, a) ->
            (k', a') <> (k, a + bsize k) ->
            same_at mm ((S k, p) :: L) mm' ((k, p) :: L) k' a').
  { intros k' a' Hn' N1 N2 N3. unfold same_at.
    rewrite Hfl, (Hst k' a' Hn'), Hlv, Hlv0.
    assert (~ (k' = S k /\ a' = a)) by (intros [-> ->]; apply N1; reflexivity).
    assert (~ (k' = k /\ a' = a)) by (intros [-> ->]; apply N2; reflexivity).
    assert (~ (k' = k /\ a' = a + bsize k))
      by (intros [-> ->]; apply N3; reflexivity).
    tauto. }
  assert (Hlow : forall k' a', node k' a' -> (k' < k)%nat ->
            same_at mm ((S k, p) :: L) mm' ((k, p) :: L) k' a').
  { intros k' a' Hn' Hlt. apply Hsame; try assumption;
      intros E; injection E as -> _; lia. }
  split.
  2:{ split; [exact Hnl|]. exists K, A. split; [exact HR|].
      eapply within_trans; [apply within_left, within_refl|exact HW]. }
  apply (inv_replace mm ((S k, p) :: L) R mm' ((k, p) :: L) (S k) a);
    try assumption; try reflexivity.
  - left. apply ok_eq. right; left. cbn [below_blank]. rewrite !blank_eq.
    assert (islive mm ((S k, p) :: L) (S k) a)
      by (apply Hlv0; left; split; reflexivity).
    tauto.
  - intros k' a' Hn' Hout. apply Hsame; try assumption;
      intros E; injection E as -> ->; apply Hout.
    + apply within_refl.
    + apply within_left, within_refl.
    + apply within_right, within_refl.
  - left. apply ok_eq. right; right.
    split; [|split; [|split; [|split]]].
    + apply (Hst _ _ HN). right; exact Hs.
    + rewrite Hfl. intros [H|[E _]]; [contradiction|lia].
    + rewrite Hlv. intros [[E _]|H]; [lia|]. apply HpL. rewrite Hp. exact H.
    + apply ok_eq. right; left. split; [|split; [|split]].
      * apply Hlv. left; split; reflexivity.
      * apply (Hst _ _ Hnl). left; split; reflexivity.
      * rewrite Hfl. intros [H|[_ E]]; [contradiction|lia].
      * apply (below_blank_lower mm ((S k, p) :: L)); assumption.
    + apply ok_eq. left. split; [|split; [|split]].
      * apply Hfl. right; split; reflexivity.
      * rewrite (Hst _ _ Hnr). intros [[_ E]|H]; [lia|contradiction].
      * rewrite Hlv. intros [[_ E]|H]; [lia|].
        apply Hr3. apply Hlv0. right; exact H.
      * apply (below_blank_lower mm ((S k, p) :: L)); assumption.
  - intros k' e Hk' Hin.
    assert (Hin' : In e (freelists mm k') \/ (k' = k /\ e = p + bsize k)).
    { unfold mm', mm1, ilist_append in Hin;
        cbn [freelists set_bitset set_freelist] in Hin.
      destruct (Nat.eq_dec k' k) as [->|Hne].
      - rewrite upd_same, in_app_iff in Hin. cbn [In] in Hin.
        destruct Hin as [H|[H|[]]]; [left; exact H|right; split; [reflexivity|lia]].
      - rewrite upd_other in Hin by assumption. left; exact Hin. }
    destruct Hin' as [H|[-> ->]]; [left; exact H|right].
    exists (a + bsize k). split; [lia|]. split; [exact Hnr|].
    apply within_right, within_refl.
  - intros k' q [E|Hin].
    + injection E as <- <-. right. exists a. split; [lia|].
      split; [exact Hnl|apply within_left, within_refl].
    + left. right. exact Hin.
  - intros k' Hk'. unfold mm', mm1, ilist_append;
      cbn [freelists set_bitset set_freelist].
    destruct (Nat.eq_dec k' k) as [->|Hne].
    + rewrite upd_same. apply NoDup_app_last.
      split; [apply (inv_free_nodup mm _ R Hinv k Hk)|].
      intros Hc. apply Hr2. unfold isfree.
      replace (start_addr mm + (a + bsize k)) with (p + bsize k) by lia.
      exact Hc.
    + rewrite upd_other by assumption. apply (inv_free_nodup mm _ R Hinv k' Hk').
  - constructor; [|exact HndL'].
    intros Hc. apply Hl3. apply Hlv0. right. rewrite <- Hp. exact Hc.
Qed.

Lemma inv_no_wrap mm L R k a :
  rmm_inv mm L R -> in_tree R k a ->
  0 <= a /\ a + bsize k < 2^43
  /\ 0 < start_addr mm + a /\ start_addr mm + a + bsize k < 2^64.
Proof.
  intros Hinv Ht.
  pose proof (in_tree_bounds mm L R k a Hinv Ht) as [H0 H1].
  pose proof (inv_start mm L R Hinv) as [Hs _].
  pose proof (inv_range mm L R Hinv) as [[_ He] Hr].
  lia.
Qed.

Lemma wrap64_small x : 0 <= x < 2^64 -> wrap64 x = x.
Proof. intros H. unfold wrap64. apply Z.mod_small. exact H. Qed.

(** [rmm_allocpages1] keeps the invariant: the block it returns is a block
    of the tree, now handed out at the order asked for. *)
Lemma rmm_allocpages1_inv fuel :
  forall mm L R k, rmm_inv mm L R -> (MAX_ORDER < fuel + k)%nat ->
  forall mm' a, rmm_allocpages1 fuel mm k = (mm', a) -> a <> UINTPTR_MAX ->
  rmm_inv mm' ((k, start_addr mm + a) :: L) R /\ in_tree R k a
  /\ start_addr mm' = start_addr mm /\ end_addr mm' = end_addr mm
  /\ free_size mm' = free_size mm
  /\ free_bytes mm' = free_bytes mm - bsize k.
Proof.
  induction fuel as [|fuel IH]; intros mm L R k Hinv Hfuel mm' a Hrun Ha.
  - cbn [rmm_allocpages1] in Hrun.
    destruct (Nat.ltb_spec MAX_ORDER k); [|lia].
    injection Hrun as _ <-. contradiction.
  - cbn [rmm_allocpages1] in Hrun.
    destruct (Nat.ltb_spec MAX_ORDER k) as [Hgt|Hk].
    { injection Hrun as _ <-. contradiction. }
    destruct (ilist_pop (freelists mm k)) as [[e rest]|] eqn:Epop.
    + apply ilist_pop_some in Epop.
      assert (Hin : In e (freelists mm k))
        by (rewrite Epop; apply in_or_app; right; left; reflexivity).
      destruct (inv_free_node mm L R k e Hinv Hk Hin) as (a0 & He & Ht & _).
      destruct (inv_no_wrap mm L R k a0 Hinv Ht) as (B0 & B1 & B2 & B3).
      pose proof (bsize_pos k) as Hpos.
      destruct (Z.eqb_spec e 0) as [E0|_]; [lia|].
      cbn [start_addr set_freelist] in Hrun.
      rewrite order_size_bsize in Hrun by assumption.
      rewrite wrap64_small in Hrun by lia.
      injection Hrun as <- <-.
      destruct (pop_step mm L R k e rest Hinv Hk Epop) as [H1 H2].
      replace (start_addr mm + (e - start_addr mm)) with e by lia.
      split; [exact H1|]. split; [exact H2|].
      repeat split.
      rewrite free_bytes_set_bitset, free_bytes_set_freelist by assumption.
      rewrite Epop, length_app. cbn [length]. lia.
    + destruct (rmm_allocpages1 fuel mm (S k)) as [mm1 a1] eqn:Erec.
      destruct (Z.eqb_spec a1 UINTPTR_MAX) as [E|Hne].
      { injection Hrun as _ <-. contradiction. }
      destruct (IH mm L R (S k) Hinv ltac:(lia) mm1 a1 Erec Hne)
        as (Hinv1 & Ht1 & Hst & Hen & Hfs & Hfb).
      destruct (inv_no_wrap mm L R (S k) a1 Hinv Ht1) as (B0 & B1 & B2 & B3).
      pose proof (bsize_pos k) as Hpos. rewrite bsize_S in B1, B3.
      rewrite order_size_bsize in Hrun by assumption.
      rewrite Hst in Hrun.
      rewrite (wrap64_small (a1 + start_addr mm)) in Hrun by lia.
      rewrite (wrap64_small (a1 + start_addr mm + bsize k)) in Hrun by lia.
      injection Hrun as <- <-.
      rewrite <- Hst in Hinv1.
      pose proof (split_step mm1 L R k (start_addr mm1 + a1) Hinv1) as Hsp.
      cbv zeta in Hsp.
      replace (start_addr mm1 + a1 - start_addr mm1) with a1 in Hsp by lia.
      rewrite Hst in Hsp.
      replace (a1 + start_addr mm) with (start_addr mm + a1) by lia.
      destruct Hsp as [H1 H2].
      split; [exact H1|]. split; [exact H2|].
      cbn [start_addr end_addr free_size set_bitset set_freelist].
      repeat split; try assumption.
      rewrite free_bytes_set_bitset, free_bytes_set_freelist by assumption.
      unfold ilist_append. rewrite length_app, Hfb, bsize_S. cbn [length]. lia.
Qed.

(** An allocation at order [k] leaves the bitsets of the orders below [k]
    as they are. *)
Lemma rmm_allocpages1_low_bits fuel :
  forall mm k j, (j < k)%nat ->
  bitsets (fst (rmm_allocpages1 fuel mm k)) j = bitsets mm j.
Proof.
  induction fuel as [|fuel IH]; intros mm k j Hj.
  - cbn [rmm_allocpages1].
    destruct (MAX_ORDER <? k)%nat; [reflexivity|].
    destruct (ilist_pop (freelists mm k)) as [[e rest]|];
      [destruct (e =? 0)|]; cbn [fst bitsets set_bitset set_freelist];
      try reflexivity; apply upd_other; lia.
  - cbn [rmm_allocpages1].
    destruct (MAX_ORDER <? k)%nat; [reflexivity|].
    assert (Hrec : forall m,
              bitsets (fst (let '(mm0, addr) := rmm_allocpages1 fuel m (S k) in
                 if addr =? UINTPTR_MAX then (mm0, UINTPTR_MAX)
                 else
                   (set_bitset
                      (set_freelist mm0 k
                         (ilist_append (freelists mm0 k)
                            (wrap64 (wrap64 (addr + start_addr mm0) + order_size k))))
                      k
                      (bit_set
                         (bitsets
                            (set_freelist mm0 k
                               (ilist_append (freelists mm0 k)
                                  (wrap64 (wrap64 (addr + start_addr mm0) + order_size k))))
                            k) (addr / order_size k)), addr))) j
              = bitsets m j).
    { intros m. specialize (IH m (S k) j ltac:(lia)).
      destruct (rmm_allocpages1 fuel m (S k)) as [m1 a1]. cbn [fst] in IH.
      destruct (a1 =? UINTPTR_MAX); cbn [fst bitsets set_bitset set_freelist].
      - exact IH.
      - rewrite upd_other by lia. exact IH. }
    destruct (ilist_pop (freelists mm k)) as [[e rest]|];
      [destruct (e =? 0)|].
    + rewrite Hrec. reflexivity.
    + cbn [fst bitsets set_bitset set_freelist]. apply upd_other; lia.
    + apply Hrec.
Qed.

(** ** mem_mm.c: the steps of a release *)

Lemma in_remove_iff {A : Type} (dec : forall x y : A, {x = y} + {x <> y})
  (x y : A) (l : list A) :
  In y (remove dec x l) <-> In y l /\ y <> x.
Proof.
  split; [apply in_remove|]. intros [H1 H2]. apply in_in_remove; assumption.
Qed.

Lemma NoDup_remove_all {A : Type} (dec : forall x y : A, {x = y} + {x <> y})
  (x : A) (l : list A) :
  NoDup l -> NoDup (remove dec x l).
Proof.
  induction 1 as [|y l Hy Hnd IH]; cbn [remove]; [constructor|].
  destruct (dec x y); [exact IH|].
  constructor; [|exact IH]. rewrite in_remove_iff. tauto.
Qed.

Lemma islive_remove mm L m p k a :
  islive mm (remove live_eq_dec (m, p) L) k a
  <-> islive mm L k a /\ (k, start_addr mm + a) <> (m, p).
Proof. unfold islive. apply in_remove_iff. Qed.

Lemma isset_false mm k a : ~ isset mm k a -> bitsets mm k (a / bsize k) = false.
Proof.
  unfold isset. destruct (bitsets mm k (a / bsize k)); [intros H; exfalso; auto|reflexivity].
Qed.

(** One address is on the free list of one order only. *)
Lemma free_unique_order mm L R k1 k2 a :
  rmm_inv mm L R -> node k1 a -> node k2 a ->
  isfree mm k1 a -> isfree mm k2 a -> k1 = k2.
Proof.
  assert (Hlt : forall k1 k2, rmm_inv mm L R -> node k1 a -> node k2 a ->
            isfree mm k1 a -> isfree mm k2 a -> (k1 < k2)%nat -> False).
  { clear k1 k2. intros k1 k2 Hinv Hn1 Hn2 H1 H2 Hlt.
    destruct (inv_free_node mm L R k2 _ Hinv (node_order _ _ Hn2) H2)
      as (a' & Ea & Ht & _ & _ & Hbb).
    assert (a' = a) by lia. subst a'.
    assert (Hb : blank mm L k1 a).
    { apply (below_blank_inside mm L k2 a); try assumption.
      unfold within. pose proof (bsize_le k1 k2 ltac:(lia)). lia. }
    apply blank_eq in Hb. tauto. }
  intros Hinv Hn1 Hn2 H1 H2.
  destruct (Nat.lt_trichotomy k1 k2) as [H|[H|H]]; [|exact H|];
    exfalso; eauto.
Qed.

(** Below a block handed out at order [m] every use bit is clear: the probe
    of [rmm_freepages1] passes the orders below [m]. *)
Lemma probe_clear mm L R m p j :
  rmm_inv mm L R -> In (m, p) L -> (j < m)%nat ->
  bitsets mm j ((p - start_addr mm) / bsize j) = false.
Proof.
  intros Hinv Hin Hj.
  destruct (inv_live_node mm L R m p Hinv Hin) as (a & -> & Ht & _ & _ & Hbb).
  replace (start_addr mm + a - start_addr mm) with a by lia.
  destruct Ht as (Hn & _).
  apply isset_false.
  assert (Hb : blank mm L j a).
  { apply (below_blank_inside mm L m a); try assumption.
    - apply (node_lower j m); [lia|assumption].
    - unfold within. pose proof (bsize_le j m ltac:(lia)). lia. }
  apply blank_eq in Hb. tauto.
Qed.

(** The block goes back on the free list of its order. *)
Lemma free_step mm L R m p :
  rmm_inv mm L R -> In (m, p) L ->
  let a := p - start_addr mm in
  let mm1 := set_bitset mm m (bit_clear (bitsets mm m) (a / bsize m)) in
  let mm' := set_freelist mm1 m (ilist_append (freelists mm1 m) p) in
  rmm_inv mm' (remove live_eq_dec (m, p) L) R.
Proof.
  intros Hinv Hin a mm1 mm'.
  destruct (inv_live_node mm L R m p Hinv Hin) as (a0 & Hp & Ht & Hs & Hnf & Hbb).
  assert (Ea : a = a0) by (unfold a; lia). clearbody a. subst a0.
  pose proof Ht as (Hn & _).
  assert (Hm : (m <= MAX_ORDER)%nat) by (apply node_order in Hn; exact Hn).
  assert (Hfl : forall k' a',
            isfree mm' k' a' <-> isfree mm k' a' \/ (k' = m /\ a' = a)).
  { intros k' a'. unfold isfree, mm', mm1, ilist_append;
      cbn [freelists set_bitset set_freelist start_addr].
    destruct (Nat.eq_dec k' m) as [->|Hne].
    - rewrite upd_same, in_app_iff. cbn [In].
      split; [intros [H|[H|[]]]; [tauto|right; split; [reflexivity|lia]]|].
      intros [H|[_ ->]]; [tauto|]. right; left; lia.
    - rewrite upd_other by assumption. split; [tauto|].
      intros [H|[E _]]; [exact H|contradiction]. }
  assert (Hst : forall k' a', node k' a' ->
            (isset mm' k' a' <-> isset mm k' a' /\ ~ (k' = m /\ a' = a))).
  { intros k' a' Hn'.
    rewrite <- (isset_bit_clear mm m a k' a' Hn Hn'). reflexivity. }
  assert (Hlv : forall k' a',
            islive mm' (remove live_eq_dec (m, p) L) k' a' <->
            islive mm L k' a' /\ ~ (k' = m /\ a' = a)).
  { intros k' a'.
    change (islive mm' (remove live_eq_dec (m, p) L) k' a')
      with (islive mm (remove live_eq_dec (m, p) L) k' a').
    rewrite islive_remove. split; intros [H1 H2]; (split; [exact H1|]).
    - intros [-> ->]. apply H2. f_equal. lia.
    - intros E. injection E as -> E. apply H2. split; [reflexivity|lia]. }
  assert (Hsame : forall k' a', node k' a' -> (k', a') <> (m, a) ->
            same_at mm L mm' (remove live_eq_dec (m, p) L) k' a').
  { intros k' a' Hn' Hne. unfold same_at.
    rewrite Hfl, (Hst k' a' Hn'), Hlv.
    assert (~ (k' = m /\ a' = a)) by (intros [-> ->]; apply Hne; reflexivity).
    tauto. }
  apply (inv_replace mm L R mm' _ m a); try assumption; try reflexivity.
  - left. apply ok_eq. right; left. unfold islive. rewrite <- Hp. tauto.
  - intros k' a' Hn' Hout. apply Hsame; [assumption|].
    intros E. injection E as -> ->. apply Hout, within_refl.
  - left. apply ok_eq. left. split; [|split; [|split]].
    + apply Hfl. right; split; reflexivity.
    + rewrite (Hst _ _ Hn). tauto.
    + rewrite Hlv. tauto.
    + apply (below_blank_lower mm L); try assumption.
      intros k' a' Hn' Hlt. apply Hsame; [assumption|].
      intros E. injection E as -> _. lia.
  - intros k' e Hk' Hin'.
    unfold mm', mm1, ilist_append in Hin';
      cbn [freelists set_bitset set_freelist] in Hin'.
    destruct (Nat.eq_dec k' m) as [->|Hne].
    + rewrite upd_same, in_app_iff in Hin'. cbn [In] in Hin'.
      destruct Hin' as [H|[H|[]]]; [left; exact H|right].
      exists a. split; [lia|]. split; [exact Hn|apply within_refl].
    + rewrite upd_other in Hin' by assumption. left; exact Hin'.
  - intros k' q Hq. left. apply in_remove in Hq. tauto.
  - intros k' Hk'. unfold mm', mm1, ilist_append;
      cbn [freelists set_bitset set_freelist].
    destruct (Nat.eq_dec k' m) as [->|Hne].
    + rewrite upd_same. apply NoDup_app_last.
      split; [apply (inv_free_nodup mm L R Hinv m Hm)|].
      intros Hc. apply Hnf. unfold isfree. rewrite <- Hp. exact Hc.
    + rewrite upd_other by assumption. apply (inv_free_nodup mm L R Hinv k' Hk').
  - apply NoDup_remove_all. apply (inv_live_nodup mm L R Hinv).
Qed.

Lemma free_bytes_ilist_del_le mm e : free_bytes (ilist_del mm e) <= free_bytes mm.
Proof.
  unfold free_bytes, ilist_del; cbn [freelists].
  apply sum_le. intros j _.
  assert (0 <= order_size j)
    by (unfold order_size, wrap64; apply Z.mod_pos_bound; lia).
  pose proof (remove_length_le e (freelists mm j)). nia.
Qed.

(** The block and its free buddy are merged: the buddy leaves its free list
    and the block they form counts as handed out at the next order. *)
Lemma merge_step mm L R m p ap :
  rmm_inv mm L R -> In (m, p) L ->
  let a := p - start_addr mm in
  in_tree R (S m) ap -> (a = ap \/ a = ap + bsize m) ->
  isset mm (S m) ap -> ~ isfree mm (S m) ap -> ~ islive mm L (S m) ap ->
  ok mm L m ap -> ok mm L m (ap + bsize m) ->
  let b := buddy_of m a in
  ~ isset mm m b ->
  let mm1 := set_bitset mm m (bit_clear (bitsets mm m) (a / bsize m)) in
  let mm2 := ilist_del mm1 (b + start_addr mm) in
  rmm_inv mm2 ((S m, start_addr mm + ap) :: remove live_eq_dec (m, p) L) R
  /\ In (b + start_addr mm) (freelists mm m)
  /\ (if a <? b then a else b) = ap.
Proof.
  intros Hinv Hin a Htp Hcase Hps Hpf Hpl Hokl Hokr b Hbs mm1 mm2.
  destruct (inv_live_node mm L R m p Hinv Hin) as (a0 & Hp & Ht & Hs & Hnf & Hbb).
  assert (Ea : a = a0) by (unfold a; lia). clearbody a. subst a0.
  pose proof Ht as (Hn & _). pose proof Htp as (HN & _).
  pose proof (node_child_l m ap HN) as Hnl.
  pose proof (node_child_r m ap HN) as Hnr.
  pose proof (bsize_pos m) as Hpos.
  assert (Hm : (m <= MAX_ORDER)%nat) by (apply node_order in Hn; exact Hn).
  (* the buddy is the other half, and it is free *)
  assert (Hb : (a = ap /\ b = ap + bsize m) \/ (a = ap + bsize m /\ b = ap)).
  { unfold b. destruct Hcase as [->| ->].
    - left. split; [reflexivity|apply buddy_of_left; exact HN].
    - right. split; [reflexivity|apply buddy_of_right; exact HN]. }
  assert (Hnb : node m b) by (destruct Hb as [[_ ->]|[_ ->]]; assumption).
  assert (Hokb : ok mm L m b) by (destruct Hb as [[_ ->]|[_ ->]]; assumption).
  assert (Hab : a <> b) by (destruct Hb as [[-> ->]|[-> ->]]; lia).
  clearbody b.
  apply ok_eq in Hokb.
  destruct Hokb as [(Hbf & _ & Hbl & Hbbb)|[(_ & H & _)|(H & _)]];
    [|contradiction|contradiction].
  assert (Hwa : within m a (S m) ap).
  { destruct Hb as [[-> _]|[-> _]];
      [apply within_left|apply within_right]; apply within_refl. }
  assert (Hwb : within m b (S m) ap).
  { destruct Hb as [[_ ->]|[_ ->]];
      [apply within_right|apply within_left]; apply within_refl. }
  set (L' := (S m, start_addr mm + ap) :: remove live_eq_dec (m, p) L).
  assert (Hfl : forall k' a',
            isfree mm2 k' a' <-> isfree mm k' a' /\ a' <> b).
  { intros k' a'. unfold mm2. rewrite isfree_ilist_del.
    unfold isfree, mm1; cbn [freelists set_bitset start_addr].
    split; intros [H1 H2]; (split; [exact H1|lia]). }
  assert (Hst : forall k' a', node k' a' ->
            (isset mm2 k' a' <-> isset mm k' a' /\ ~ (k' = m /\ a' = a))).
  { intros k' a' Hn'.
    rewrite <- (isset_bit_clear mm m a k' a' Hn Hn'). reflexivity. }
  assert (Hlv : forall k' a',
            islive mm2 L' k' a' <->
            (k' = S m /\ a' = ap)
            \/ (islive mm L k' a' /\ ~ (k' = m /\ a' = a))).
  { intros k' a'. unfold L'.
    change (islive mm2 ?X k' a') with (islive mm X k' a').
    unfold islive at 1. cbn [In]. fold (islive mm (remove live_eq_dec (m, p) L) k' a').
    rewrite islive_remove. split.
    - intros [E|[H1 H2]].
      + left. injection E as -> E. split; [reflexivity|lia].
      + right. split; [exact H1|]. intros [-> ->]. apply H2. f_equal. lia.
    - intros [[-> ->]|[H1 H2]]; [left; reflexivity|right].
      split; [exact H1|]. intros E. injection E as -> E.
      apply H2. split; [reflexivity|lia]. }
  assert (Hmono : forall k' a', node k' a' -> (k' < m)%nat ->
            (isset mm2 k' a' -> isset mm k' a')
            /\ (isfree mm2 k' a' -> isfree mm k' a')
            /\ (islive mm2 L' k' a' -> islive mm L k' a')).
  { intros k' a' Hn' Hlt. rewrite Hfl, (Hst _ _ Hn'), Hlv.
    repeat split; try tauto. intros [[E _]|H]; [lia|tauto]. }
  split; [|split].
  2:{ unfold isfree in Hbf. replace (b + start_addr mm) with (start_addr mm + b) by lia.
      exact Hbf. }
  2:{ destruct Hb as [[-> ->]|[-> ->]].
      - destruct (Z.ltb_spec ap (ap + bsize m)); lia.
      - destruct (Z.ltb_spec (ap + bsize m) ap); lia. }
  apply (inv_replace mm L R mm2 L' (S m) ap); try assumption; try reflexivity.
  - left. apply ok_eq. right; right. tauto.
  - intros k' a' Hn' Hout. unfold same_at.
    rewrite Hfl, (Hst _ _ Hn'), Hlv.
    assert (~ (k' = m /\ a' = a)) by (intros [-> ->]; contradiction).
    assert (~ (k' = S m /\ a' = ap))
      by (intros [-> ->]; apply Hout, within_refl).
    assert (isfree mm k' a' -> a' <> b).
    { intros Hf ->.
      assert (k' = m) by (apply (free_unique_order mm L R k' m b); assumption).
      subst k'. contradiction. }
    tauto.
  - left. apply ok_eq. right; left. split; [|split; [|split]].
    + apply Hlv. left; split; reflexivity.
    + apply (Hst _ _ HN). split; [exact Hps|]. intros [E _]. lia.
    + rewrite Hfl. tauto.
    + assert (Hba : blank mm2 L' m a).
      { apply blank_eq. split; [|split; [|split]].
        - rewrite (Hst _ _ Hn). tauto.
        - rewrite Hfl. tauto.
        - rewrite Hlv. intros [[E _]|H]; [lia|tauto].
        - apply (below_blank_mono mm L); assumption. }
      assert (Hbb' : blank mm2 L' m b).
      { apply blank_eq. split; [|split; [|split]].
        - rewrite (Hst _ _ Hnb). tauto.
        - rewrite Hfl. tauto.
        - rewrite Hlv. intros [[E _]|H]; [lia|tauto].
        - apply (below_blank_mono mm L); assumption. }
      cbn [below_blank].
      destruct Hb as [[E1 E2]|[E1 E2]]; rewrite <- E1, <- E2 at 1; tauto.
  - intros k' e Hk' Hin'. left.
    unfold mm2, ilist_del, mm1 in Hin'; cbn [freelists set_bitset] in Hin'.
    apply in_remove in Hin'. tauto.
  - intros k' q [E|Hq].
    + injection E as <- <-. right. exists ap.
      split; [reflexivity|]. split; [exact HN|apply within_refl].
    + left. apply in_remove in Hq. tauto.
  - intros k' Hk'. unfold mm2, ilist_del, mm1; cbn [freelists set_bitset].
    apply NoDup_remove_all. apply (inv_free_nodup mm L R Hinv k' Hk').
  - unfold L'. constructor.
    + intros Hc. apply in_remove in Hc. apply Hpl. unfold islive. tauto.
    + apply NoDup_remove_all. apply (inv_live_nodup mm L R Hinv).
Qed.

(** A seed block handed out as a whole loses its bit and its owner. *)
Lemma clear_root_step mm L R m p :
  rmm_inv mm L R -> In (m, p) L ->
  let a := p - start_addr mm in
  In (m, a) R ->
  let mm1 := set_bitset mm m (bit_clear (bitsets mm m) (a / bsize m)) in
  rmm_inv mm1 (remove live_eq_dec (m, p) L) R.
Proof.
  intros Hinv Hin a HR mm1.
  destruct (inv_live_node mm L R m p Hinv Hin) as (a0 & Hp & Ht & Hs & Hnf & Hbb).
  assert (Ea : a = a0) by (unfold a; lia). clearbody a. subst a0.
  pose proof Ht as (Hn & _).
  assert (Hst : forall k' a', node k' a' ->
            (isset mm1 k' a' <-> isset mm k' a' /\ ~ (k' = m /\ a' = a))).
  { intros k' a' Hn'. apply (isset_bit_clear mm m a k' a' Hn Hn'). }
  assert (Hlv : forall k' a',
            islive mm1 (remove live_eq_dec (m, p) L) k' a' <->
            islive mm L k' a' /\ ~ (k' = m /\ a' = a)).
  { intros k' a'.
    change (islive mm1 ?X k' a') with (islive mm X k' a').
    rewrite islive_remove. split; intros [H1 H2]; (split; [exact H1|]).
    - intros [-> ->]. apply H2. f_equal. lia.
    - intros E. injection E as -> E. apply H2. split; [reflexivity|lia]. }
  apply (inv_replace mm L R mm1 _ m a); try assumption; try reflexivity.
  - right; exact HR.
  - intros k' a' Hn' Hout. unfold same_at.
    rewrite (Hst _ _ Hn'), Hlv.
    assert (~ (k' = m /\ a' = a)) by (intros [-> ->]; apply Hout, within_refl).
    change (isfree mm1 k' a') with (isfree mm k' a'). tauto.
  - right. split; [exact HR|]. apply blank_eq. split; [|split; [|split]].
    + rewrite (Hst _ _ Hn). intros [_ H]. apply H. split; reflexivity.
    + exact Hnf.
    + rewrite Hlv. intros [_ H]. apply H. split; reflexivity.
    + apply (below_blank_mono mm L); try assumption.
      intros k' a' Hn' Hlt. rewrite (Hst _ _ Hn'), Hlv.
      change (isfree mm1 k' a') with (isfree mm k' a'). tauto.
  - intros k' e Hk' Hin'. left. exact Hin'.
  - intros k' q Hq. left. apply in_remove in Hq. tauto.
  - intros k' Hk'. apply (inv_free_nodup mm L R Hinv k' Hk').
  - apply NoDup_remove_all. apply (inv_live_nodup mm L R Hinv).
Qed.

(** Unlinking a seed block of the largest order whose bit is clear leaves
    that block blank. *)
Lemma del_root_step mm L R b :
  rmm_inv mm L R -> In (MAX_ORDER, b) R -> ~ isset mm MAX_ORDER b ->
  rmm_inv (ilist_del mm (b + start_addr mm)) L R.
Proof.
  intros Hinv HR Hns.
  set (mm2 := ilist_del mm (b + start_addr mm)).
  pose proof (inv_roots mm L R Hinv _ _ HR) as [HN _].
  assert (Hfl : forall k' a',
            isfree mm2 k' a' <-> isfree mm k' a' /\ a' <> b).
  { intros k' a'. unfold mm2. rewrite isfree_ilist_del.
    split; intros [H1 H2]; (split; [exact H1|lia]). }
  assert (Hold : ~ islive mm L MAX_ORDER b /\ below_blank mm L MAX_ORDER b).
  { destruct (inv_ok mm L R Hinv _ _ HR) as [Hok|Hb].
    - pose proof (proj1 (ok_eq mm L MAX_ORDER b) Hok) as Hok'.
      destruct Hok' as [(_ & _ & H1 & H2)|[(_ & H & _)|(H & _)]];
        [split; assumption|contradiction|contradiction].
    - pose proof (proj1 (blank_eq mm L MAX_ORDER b) Hb) as Hb'.
      destruct Hb' as (_ & _ & H1 & H2). split; assumption. }
  apply (inv_replace mm L R mm2 L MAX_ORDER b); try assumption;
    try reflexivity.
  - split; [exact HN|]. exists MAX_ORDER, b. split; [exact HR|apply within_refl].
  - right; exact HR.
  - intros k' a' Hn' Hout. unfold same_at. rewrite Hfl.
    change (isset mm2 k' a') with (isset mm k' a').
    change (islive mm2 L k' a') with (islive mm L k' a').
    assert (a' <> b).
    { intros ->. apply Hout. unfold within.
      pose proof (bsize_le k' MAX_ORDER (node_order _ _ Hn')).
      pose proof (node_order _ _ Hn'). lia. }
    tauto.
  - right. split; [exact HR|]. apply blank_eq. split; [|split; [|split]].
    + exact Hns.
    + rewrite Hfl. tauto.
    + exact (proj1 Hold).
    + apply (below_blank_mono mm L); try assumption; [|exact (proj2 Hold)].
      intros k' a' Hn' Hlt. rewrite Hfl.
      change (isset mm2 k' a') with (isset mm k' a').
      change (islive mm2 L k' a') with (islive mm L k' a'). tauto.
  - intros k' e Hk' Hin'. left.
    unfold mm2, ilist_del in Hin'; cbn [freelists] in Hin'.
    apply in_remove in Hin'. tauto.
  - intros k' q Hq. left. exact Hq.
  - intros k' Hk'. unfold mm2, ilist_del; cbn [freelists].
    apply NoDup_remove_all. apply (inv_free_nodup mm L R Hinv k' Hk').
  - apply (inv_live_nodup mm L R Hinv).
Qed.

Lemma remove_head_notin (x : nat * Z) (l : list (nat * Z)) :
  ~ In x l -> remove live_eq_dec x (x :: l) = l.
Proof.
  intros H. cbn [remove]. destruct (live_eq_dec x x); [|contradiction].
  apply notin_remove. exact H.
Qed.

(** [rmm_freepages1], started at or below the order of a block handed out,
    finds that order, frees the block and keeps the invariant. *)
Lemma rmm_freepages1_inv fuel :
  forall mm L R j m p, rmm_inv mm L R -> In (m, p) L -> (j <= m)%nat ->
  (MAX_ORDER < fuel + j)%nat ->
  forall mm' r, rmm_freepages1 fuel mm (p - start_addr mm) j = (mm', r) ->
  rmm_inv mm' (remove live_eq_dec (m, p) L) R /\ r = Z.of_nat m
  /\ start_addr mm' = start_addr mm /\ end_addr mm' = end_addr mm
  /\ free_size mm' = free_size mm
  /\ free_bytes mm' <= free_bytes mm + bsize m.
Proof.
  induction fuel as [|fuel IH]; intros mm L R j m p Hinv Hin Hj Hfuel mm' r Hrun;
    destruct (inv_live_node mm L R m p Hinv Hin) as (a & Hp & Ht & Hs & Hnf & Hbb);
    pose proof Ht as (Hn & K & A & HR & HW);
    pose proof (node_order _ _ Hn) as Hm;
    [lia|].
  replace (p - start_addr mm) with a in Hrun by lia.
  destruct (inv_no_wrap mm L R m a Hinv Ht) as (B0 & B1 & B2 & B3).
  pose proof (bsize_pos m) as Hpos.
  pose proof (inv_start mm L R Hinv) as [Hstart _].
  cbn [rmm_freepages1] in Hrun.
  destruct (Nat.ltb_spec MAX_ORDER j) as [Hgt|Hjm]; [lia|].
  rewrite order_size_bsize in Hrun by assumption.
  assert (Hnj : node j a) by (apply (node_lower j m); assumption).
  rewrite (to_int_small (a / bsize j)) in Hrun
    by (apply index_small; [assumption|lia]).
  unfold bit_get in Hrun.
  destruct (Nat.eq_dec j m) as [->|Hne].
  - (* the order of the block *)
    unfold isset in Hs. rewrite Hs in Hrun. cbn [negb] in Hrun.
    fold (buddy_of m a) in Hrun.
    pose proof (buddy_of_node m a Hn) as Hnb.
    pose proof (buddy_of_neq m a Hn) as Hab.
    assert (Hbr : 0 <= buddy_of m a < 2^43).
    { destruct (buddy_of_cases m a Hn) as [E|[E Hge]]; rewrite E; lia. }
    set (b := buddy_of m a) in *.
    rewrite (to_int_small (b / bsize m)) in Hrun
      by (apply index_small; [assumption|lia]).
    cbn [bitsets set_bitset start_addr freelists] in Hrun.
    rewrite upd_same in Hrun. unfold bit_clear at 1 in Hrun.
    destruct (Z.eqb_spec (b / bsize m) (a / bsize m)) as [E|_].
    { apply node_inj in E; try assumption. contradiction. }
    destruct (bitsets mm m (b / bsize m)) eqn:Eb; cbn [negb] in Hrun.
    + (* the buddy is in use: the block goes on the free list *)
      rewrite (wrap64_small (a + start_addr mm)) in Hrun by lia.
      injection Hrun as <- <-.
      pose proof (free_step mm L R m p Hinv Hin) as Hfs. cbv zeta in Hfs.
      replace (p - start_addr mm) with a in Hfs by lia.
      replace (a + start_addr mm) with p by lia.
      split; [exact Hfs|]. split; [reflexivity|].
      cbn [start_addr end_addr free_size set_freelist set_bitset].
      repeat split.
      rewrite free_bytes_set_freelist by assumption.
      rewrite free_bytes_set_bitset.
      cbn [freelists set_bitset]. unfold ilist_append. rewrite length_app.
      cbn [length]. lia.
    + (* the buddy is free: merge *)
      assert (Hnsb : ~ isset mm m b) by (unfold isset; rewrite Eb; discriminate).
      assert (Hbw : wrap64 (b + start_addr mm) = b + start_addr mm).
      { apply wrap64_small.
        destruct (buddy_of_cases m a Hn) as [E|[E _]];
          change (buddy_of m a) with b in E; lia. }
      rewrite Hbw in Hrun.
      set (mm1 := set_bitset mm m (bit_clear (bitsets mm m) (a / bsize m))) in *.
      set (mm2 := ilist_del mm1 (b + start_addr mm)) in *.
      destruct (Nat.eq_dec m K) as [->|HmK].
      * (* a seed block *)
        assert (a = A) by (apply (within_same _ _ _ HW)). subst A.
        destruct (inv_sentinel mm L R Hinv K a HR) as [[-> HRb]|[Hsb _]];
          [|contradiction].
        fold b in HRb.
        assert (Hfin : mm' = mm2 /\ r = Z.of_nat MAX_ORDER).
        { assert (Hret : forall f x,
                    fst (rmm_freepages1 f mm2 x (S MAX_ORDER)) = mm2).
          { intros f x. destruct f; cbn [rmm_freepages1];
              (destruct (Nat.ltb_spec MAX_ORDER (S MAX_ORDER)); [reflexivity|lia]). }
          rewrite Hret in Hrun. injection Hrun as <- <-. split; reflexivity. }
        destruct Hfin as [-> ->].
        pose proof (clear_root_step mm L R MAX_ORDER p Hinv Hin) as Hc.
        cbv zeta in Hc. replace (p - start_addr mm) with a in Hc by lia.
        specialize (Hc HR). fold mm1 in Hc.
        assert (Hns1 : ~ isset mm1 MAX_ORDER b).
        { unfold mm1. rewrite (isset_bit_clear mm MAX_ORDER a MAX_ORDER b Hn Hnb).
          tauto. }
        pose proof (del_root_step mm1 _ R b Hc HRb Hns1) as Hd.
        split; [exact Hd|]. split; [reflexivity|].
        repeat split.
        unfold mm2. etransitivity; [apply free_bytes_ilist_del_le|].
        unfold mm1. rewrite free_bytes_set_bitset. lia.
      * (* the half of a split block *)
        assert (HmK' : (m < K)%nat) by (destruct HW; lia).
        pose proof (inv_roots mm L R Hinv K A HR) as [HNK _].
        assert (Hnbl : ~ blank mm L m a).
        { intros Hb. apply blank_eq in Hb. unfold islive in Hb.
          rewrite <- Hp in Hb. tauto. }
        assert (HokK : ok mm L K A).
        { destruct (inv_ok mm L R Hinv K A HR) as [H|H]; [exact H|].
          exfalso. apply Hnbl. apply (blank_inside mm L K A); assumption. }
        destruct (ok_parent mm L K A m a HokK Hn HNK HW HmK' Hnbl)
          as (ap & HNp & HWp & Hcase & Hps & Hpf & Hpl & Hokl & Hokr).
        assert (Htp : in_tree R (S m) ap).
        { split; [exact HNp|]. exists K, A. split; assumption. }
        pose proof (merge_step mm L R m p ap Hinv Hin) as Hmg.
        cbv zeta in Hmg. replace (p - start_addr mm) with a in Hmg by lia.
        fold b in Hmg.
        destruct (Hmg Htp Hcase Hps Hpf Hpl Hokl Hokr Hnsb)
          as (Hinv2 & Hbin & Hmin).
        fold mm1 in Hinv2. fold mm2 in Hinv2.
        rewrite Hmin in Hrun.
        destruct (rmm_freepages1 fuel mm2 ap (S m)) as [mm3 r3] eqn:Erec.
        cbn [fst] in Hrun. injection Hrun as <- <-.
        assert (Hst2 : start_addr mm2 = start_addr mm) by reflexivity.
        replace ap with (start_addr mm + ap - start_addr mm2) in Erec
          by (rewrite Hst2; lia).
        destruct (IH mm2 _ R (S m) (S m) (start_addr mm + ap) Hinv2
                    (or_introl eq_refl) (le_n _) ltac:(lia) mm3 r3 Erec)
          as (Hinv3 & _ & Hs3 & He3 & Hf3 & Hb3).
        rewrite remove_head_notin in Hinv3.
        2:{ intros Hc. apply in_remove in Hc. apply Hpl. unfold islive. tauto. }
        split; [exact Hinv3|]. split; [reflexivity|].
        split; [rewrite Hs3; reflexivity|].
        split; [rewrite He3; reflexivity|].
        split; [rewrite Hf3; reflexivity|].
        assert (Hb2 : free_bytes mm2 <= free_bytes mm - bsize m).
        { unfold mm2. etransitivity;
            [apply (free_bytes_ilist_del mm1 m); [assumption|exact Hbin]|].
          unfold mm1. rewrite free_bytes_set_bitset. lia. }
        rewrite bsize_S in Hb3. lia.
  - (* below the order of the block: the bit is clear, probe the next *)
    assert (Hlt : (j < m)%nat) by lia.
    pose proof (probe_clear mm L R m p j Hinv Hin Hlt) as Hpc.
    replace (p - start_addr mm) with a in Hpc by lia.
    rewrite Hpc in Hrun. cbn [negb] in Hrun.
    replace a with (p - start_addr mm) in Hrun by lia.
    apply (IH mm L R (S j) m p Hinv Hin ltac:(lia) ltac:(lia) mm' r Hrun).
Qed.

(** ** mem_mm.c: the entry points keep the invariant *)

Lemma inv_set_free_size mm L R n :
  rmm_inv mm L R -> rmm_inv (set_free_size mm n) L R.
Proof.
  intros Hinv.
  assert (Hsame : forall k a, same_at mm L (set_free_size mm n) L k a).
  { intros k a. unfold same_at. split; [|split]; reflexivity. }
  constructor; try apply Hinv.
  intros K A HR.
  pose proof (inv_roots mm L R Hinv K A HR) as [HN _].
  destruct (inv_ok mm L R Hinv K A HR) as [H|H]; [left|right].
  - apply (ok_frame mm L); auto.
  - apply (blank_frame mm L); auto.
Qed.

Lemma live_bytes_nonneg L : 0 <= live_bytes L.
Proof.
  unfold live_bytes. induction L as [|x L IH]; cbn [map fold_right]; [lia|].
  pose proof (bsize_pos (fst x)). lia.
Qed.

Lemma live_bytes_remove L k p :
  NoDup L -> In (k, p) L ->
  live_bytes (remove live_eq_dec (k, p) L) = live_bytes L - bsize k.
Proof.
  unfold live_bytes. induction 1 as [|x L Hx Hnd IH]; intros Hin; [destruct Hin|].
  cbn [remove]. destruct (live_eq_dec (k, p) x) as [<-|Hne].
  - rewrite notin_remove by assumption. cbn [map fold_right fst]. lia.
  - destruct Hin as [->|Hin]; [contradiction|].
    cbn [map fold_right]. rewrite IH by assumption. lia.
Qed.

(** The invariant and the accounting make the state well-formed. *)
Lemma inv_wf mm L R : rmm_inv mm L R -> rmm_acct mm L -> rmm_wf mm.
Proof.
  intros Hinv [Hfb Hfs].
  pose proof (inv_start mm L R Hinv) as [Hs _].
  pose proof (inv_range mm L R Hinv) as [[Hr1 Hr2] Hr3].
  pose proof (live_bytes_nonneg L).
  constructor; try lia.
  - intros k e Hk Hin.
    destruct (inv_free_cover mm L R Hinv k e Hk Hin) as (a & -> & Ht).
    pose proof (in_tree_bounds mm L R k a Hinv Ht). pose proof (bsize_pos k). lia.
Qed.

Lemma rmm_allocpages_inv mm L R k mm' p :
  rmm_inv mm L R -> rmm_acct mm L -> (k < 64)%nat ->
  rmm_allocpages mm (2 ^ Z.of_nat k) = Some (mm', p) ->
  (p = 0 /\ mm' = mm)
  \/ (p <> 0 /\ rmm_inv mm' ((k, p) :: L) R /\ rmm_acct mm' ((k, p) :: L)
      /\ in_tree R k (p - start_addr mm)
      /\ start_addr mm' = start_addr mm
      /\ forall j, (j < k)%nat -> bitsets mm' j = bitsets mm j).
Proof.
  intros Hinv Hacct Hk Hrun.
  pose proof (inv_wf mm L R Hinv Hacct) as Hwf.
  unfold rmm_allocpages in Hrun.
  assert (Hpos : 0 < 2 ^ Z.of_nat k) by (apply Z.pow_pos_nonneg; lia).
  destruct (Z.eqb_spec (2 ^ Z.of_nat k) 0) as [E|_]; [lia|].
  rewrite IS_POW2_pow2 in Hrun by assumption. cbn [negb] in Hrun.
  rewrite order_of_npages_pow2 in Hrun by assumption. cbn [Nat.add] in Hrun.
  pose proof (rmm_allocpages1_spec (S MAX_ORDER) mm k Hwf ltac:(lia)) as Hspec.
  pose proof (rmm_allocpages1_low_bits (S MAX_ORDER) mm k) as Hlow.
  cbv zeta in Hspec.
  destruct (rmm_allocpages1 (S MAX_ORDER) mm k) as [mm1 a] eqn:Erun.
  cbn [fst snd] in Hspec, Hlow. destruct Hspec as (_ & Hsame & _).
  destruct (Z.eqb_spec a UINTPTR_MAX) as [Ha|Ha].
  - injection Hrun as <- <-. left. split; [reflexivity|apply Hsame; exact Ha].
  - destruct (rmm_allocpages1_inv (S MAX_ORDER) mm L R k Hinv ltac:(lia)
                mm1 a Erun Ha) as (Hinv1 & Ht & Hst & Hen & Hfs & Hfb).
    destruct (inv_no_wrap mm L R k a Hinv Ht) as (B0 & B1 & B2 & B3).
    pose proof (bsize_pos k) as Hbp.
    assert (Hkm : (k <= MAX_ORDER)%nat) by (destruct Ht as [Hn _]; apply Hn).
    assert (Hp : wrap64 (a + start_addr mm1) = start_addr mm + a)
      by (rewrite Hst; rewrite wrap64_small; lia).
    rewrite Hp in Hrun. injection Hrun as <- <-.
    right. split; [lia|].
    destruct Hacct as [Hb1 Hb2].
    pose proof (free_bytes_nonneg mm1) as Hnn.
    pose proof (live_bytes_nonneg L) as Hln.
    pose proof (inv_range mm L R Hinv) as [[Hr1 Hr2] Hr3].
    assert (Hsz : wrap64 (2 ^ Z.of_nat k * PAGE_SIZE) = bsize k).
    { unfold bsize. rewrite wrap64_small; [lia|].
      pose proof (bsize_max k Hkm) as Hmx. unfold bsize in Hmx.
      change (2^32) with 4294967296 in Hmx.
      change (2^64) with 18446744073709551616. unfold PAGE_SIZE in *. lia. }
    assert (Hnew : wrap64 (free_size mm1 - wrap64 (2 ^ Z.of_nat k * PAGE_SIZE))
                   = free_size mm - bsize k).
    { rewrite Hsz, Hfs. apply wrap64_small. lia. }
    rewrite Hnew.
    split; [apply inv_set_free_size; exact Hinv1|].
    split; [|split; [|split]].
    + unfold rmm_acct. rewrite free_bytes_set_free_size.
      cbn [free_size start_addr end_addr set_free_size].
      unfold live_bytes in *. cbn [map fold_right fst]. lia.
    + replace (start_addr mm + a - start_addr mm) with a by lia. exact Ht.
    + exact Hst.
    + intros j Hj. cbn [bitsets set_free_size]. apply Hlow. exact Hj.
Qed.

Lemma rmm_freepages_inv mm L R k p :
  rmm_inv mm L R -> rmm_acct mm L -> In (k, p) L ->
  rmm_inv (rmm_freepages mm p) (remove live_eq_dec (k, p) L) R
  /\ rmm_acct (rmm_freepages mm p) (remove live_eq_dec (k, p) L)
  /\ snd (rmm_freepages1 (S MAX_ORDER) mm (wrap64 (p - start_addr mm)) 0)
     = Z.of_nat k.
Proof.
  intros Hinv [Hb1 Hb2] Hin.
  destruct (inv_live_node mm L R k p Hinv Hin) as (a & Hp & Ht & _).
  destruct (inv_no_wrap mm L R k a Hinv Ht) as (B0 & B1 & B2 & B3).
  pose proof (bsize_pos k) as Hbp.
  assert (Hkm : (k <= MAX_ORDER)%nat) by (destruct Ht as [Hn _]; apply Hn).
  assert (Hw : wrap64 (p - start_addr mm) = p - start_addr mm)
    by (apply wrap64_small; lia).
  unfold rmm_freepages. rewrite Hw.
  destruct (rmm_freepages1 (S MAX_ORDER) mm (p - start_addr mm) 0)
    as [mm1 r] eqn:Erun.
  destruct (rmm_freepages1_inv (S MAX_ORDER) mm L R 0 k p Hinv Hin
              ltac:(lia) ltac:(lia) mm1 r Erun)
    as (Hinv1 & -> & Hst & Hen & Hfs & Hfb).
  cbn [snd]. split; [|split; [|reflexivity]].
  - destruct (Z.leb_spec 0 (Z.of_nat k)); [|lia].
    apply inv_set_free_size. exact Hinv1.
  - destruct (Z.leb_spec 0 (Z.of_nat k)); [|lia].
    rewrite Nat2Z.id, order_size_bsize by assumption.
    pose proof (live_bytes_remove L k p (inv_live_nodup mm L R Hinv) Hin) as Hlr.
    pose proof (live_bytes_nonneg (remove live_eq_dec (k, p) L)) as Hln.
    pose proof (inv_range mm L R Hinv) as [[Hr1 Hr2] Hr3].
    pose proof (free_bytes_nonneg mm) as Hnn.
    assert (Hnw : wrap64 (free_size mm1 + bsize k) = free_size mm + bsize k).
    { rewrite Hfs. apply wrap64_small. lia. }
    rewrite Hnw. unfold rmm_acct. rewrite free_bytes_set_free_size.
    cbn [free_size start_addr end_addr set_free_size]. lia.
Qed.

(** ** mem_mm.c: creation *)

Lemma testbit_not64_low_mask n i :
  0 <= n <= 63 -> 0 <= i ->
  Z.testbit (not64 (wrap64 (2^n - 1))) i = (n <=? i) && (i <? 64).
Proof.
  intros Hn Hi. unfold not64, wrap64.
  assert (0 < 2^n) by (apply Z.pow_pos_nonneg; lia).
  assert (2^n <= 2^63) by (apply Z.pow_le_mono_r; lia).
  rewrite (Z.mod_small (2^n - 1)) by (change (2^63) with 9223372036854775808 in *;
    change (2^64) with 18446744073709551616; lia).
  destruct (Z.ltb_spec i 64).
  - rewrite Z.mod_pow2_bits_low by lia.
    rewrite Z.lnot_spec, testbit_low_mask by lia.
    destruct (Z.ltb_spec i n), (Z.leb_spec n i); cbn; try reflexivity; lia.
  - rewrite Z.mod_pow2_bits_high by lia. rewrite andb_false_r. reflexivity.
Qed.

Lemma land_clear_low y n :
  0 <= y < 2^64 -> 0 <= n <= 63 ->
  Z.land y (not64 (wrap64 (2^n - 1))) = y - y mod 2^n.
Proof.
  intros Hy Hn.
  assert (Hdm : y - y mod 2^n = Z.shiftl (Z.shiftr y n) n).
  { rewrite Z.shiftl_mul_pow2, Z.shiftr_div_pow2 by lia.
    assert (0 < 2^n) by (apply Z.pow_pos_nonneg; lia).
    pose proof (Z.div_mod y (2^n)). lia. }
  rewrite Hdm. apply Z.bits_inj'. intros i Hi.
  rewrite Z.land_spec, testbit_not64_low_mask by lia.
  destruct (Z.leb_spec n i); cbn [andb].
  - rewrite Z.shiftl_spec, Z.shiftr_spec by lia.
    replace (i - n + n) with i by lia.
    destruct (Z.ltb_spec i 64); cbn [andb].
    + apply andb_true_r.
    + rewrite testbit_u64_high by lia. reflexivity.
  - rewrite andb_false_r. symmetry. apply Z.shiftl_spec_low. lia.
Qed.

Lemma ALIGN2_pow2 x n :
  0 <= n <= 63 -> 0 <= x -> x + 2^n - 1 < 2^64 ->
  ALIGN2 x (2^n) = (x + 2^n - 1) - (x + 2^n - 1) mod 2^n.
Proof.
  intros Hn Hx Hlt. unfold ALIGN2.
  assert (0 < 2^n) by (apply Z.pow_pos_nonneg; lia).
  rewrite (wrap64_small (2^n - 1)) at 1 by lia.
  rewrite (wrap64_small (x + (2^n - 1))) by lia.
  rewrite land_clear_low by lia. f_equal; [lia|f_equal; lia].
Qed.

Lemma ALIGN2_FLOOR_pow2 x n :
  1 <= n <= 63 -> 0 <= x < 2^64 ->
  ALIGN2_FLOOR x (2^n) = wrap64 (x + 1) - wrap64 (x + 1) mod 2^n.
Proof.
  intros Hn Hx. unfold ALIGN2_FLOOR.
  assert (2^1 <= 2^n) by (apply Z.pow_le_mono_r; lia).
  assert (2^n <= 2^63) by (apply Z.pow_le_mono_r; lia).
  change (2^1) with 2 in *. change (2^63) with 9223372036854775808 in *.
  assert (Hin : wrap64 (wrap64 (x - wrap64 (wrap64 (2^n - 1) - 1))
                        + wrap64 (2^n - 1)) = wrap64 (x + 1)).
  { rewrite (wrap64_small (2^n - 1))
      by (change (2^64) with 18446744073709551616; lia).
    rewrite (wrap64_small (2^n - 1 - 1))
      by (change (2^64) with 18446744073709551616; lia).
    unfold wrap64. rewrite Zplus_mod_idemp_l. f_equal. lia. }
  rewrite Hin. apply land_clear_low; [|lia].
  unfold wrap64. apply Z.mod_pos_bound. lia.
Qed.

Lemma round_down_bounds y n :
  0 <= n -> 0 <= y ->
  0 <= y - y mod 2^n <= y /\ y - 2^n < y - y mod 2^n
  /\ (y - y mod 2^n) mod 2^n = 0.
Proof.
  intros Hn Hy.
  assert (Hp : 0 < 2^n) by (apply Z.pow_pos_nonneg; lia).
  pose proof (Z.mod_pos_bound y (2^n) Hp).
  pose proof (Z.mod_le y (2^n) Hy Hp).
  split; [lia|]. split; [lia|].
  pose proof (Z.div_mod y (2^n) ltac:(lia)).
  replace (y - y mod 2^n) with (y / 2^n * 2^n) by lia.
  apply Z.mod_mul. lia.
Qed.

(** What a successful [rmm_create] over a region of host memory computes
    before it seeds the free lists. *)
Lemma rmm_create_layout memp memsize mm :
  host_region memp memsize -> rmm_create memp memsize = Some mm ->
  exists start T,
    0 < start /\ start mod PAGE_SIZE = 0
    /\ 0 < T /\ T mod PAGE_SIZE = 0 /\ T < 2^43 /\ start + T < 2^64
    /\ mm = rmm_seed (seed_fuel (T / PAGE_SIZE))
              {| start_addr := start; end_addr := start + T; free_size := T;
                 bitsets := fun _ _ => false; freelists := fun _ => [] |}
              (T / PAGE_SIZE) start.
Proof.
  intros (Hp & [Hs1 Hs2] & Hend) Hrun. unfold rmm_create in Hrun.
  unfold PAGE_SIZE in Hs1.
  change PAGE_SIZE with (2^12) in Hrun. change alignof_rmm_t with (2^3) in Hrun.
  unfold sizeof_rmm_t in Hrun.
  change (2^43) with 8796093022208 in *.
  change (2^64) with 18446744073709551616 in Hend.
  rewrite ALIGN2_pow2 in Hrun
    by (change (2^12) with 4096; change (2^64) with 18446744073709551616; lia).
  set (start := memp + 2^12 - 1 - (memp + 2^12 - 1) mod 2^12) in *.
  destruct (round_down_bounds (memp + 2^12 - 1) 12 ltac:(lia) ltac:(lia))
    as (Hst1 & Hst2 & Hst3).
  fold start in Hst1, Hst2, Hst3. change (2^12) with 4096 in Hst1, Hst2, Hst3.
  assert (He1 : wrap64 (wrap64 (memp + memsize) - 544) = memp + memsize - 544).
  { unfold wrap64. rewrite Zminus_mod_idemp_l. apply Z.mod_small.
    change (2^64) with 18446744073709551616. lia. }
  rewrite He1 in Hrun.
  rewrite ALIGN2_FLOOR_pow2 in Hrun
    by (change (2^64) with 18446744073709551616; lia).
  rewrite (wrap64_small (memp + memsize - 544 + 1)) in Hrun
    by (change (2^64) with 18446744073709551616; lia).
  set (mma := memp + memsize - 544 + 1 - (memp + memsize - 544 + 1) mod 2^3) in *.
  destruct (round_down_bounds (memp + memsize - 544 + 1) 3 ltac:(lia) ltac:(lia))
    as (Hm1 & _ & _).
  fold mma in Hm1.
  destruct (Z.ltb_spec mma start) as [_|Hge]; [discriminate|].
  set (need := wrap64 (bset_total MAX_ORDER ((mma - start) / 2^12 / 8) 1
                         (wrap64 ((mma - start) / 2^12 / 8 + 2)) + 2^12)) in *.
  assert (Hneed : 0 <= need) by (unfold need, wrap64; apply Z.mod_pos_bound; lia).
  destruct (Z.ltb_spec (mma - start) need) as [_|Hge2]; [discriminate|].
  rewrite ALIGN2_FLOOR_pow2 in Hrun
    by (change (2^64) with 18446744073709551616; lia).
  rewrite (wrap64_small (mma - start - need + 1)) in Hrun
    by (change (2^64) with 18446744073709551616; lia).
  set (T := mma - start - need + 1 - (mma - start - need + 1) mod 2^12) in *.
  destruct (round_down_bounds (mma - start - need + 1) 12 ltac:(lia) ltac:(lia))
    as (HT1 & _ & HT3).
  fold T in HT1, HT3. change (2^12) with 4096 in HT3.
  destruct (Z.eqb_spec T 0) as [_|HT0]; [discriminate|].
  assert (Hsum : start + T < 18446744073709551616) by lia.
  rewrite (wrap64_small (start + T)) in Hrun
    by (change (2^64) with 18446744073709551616; lia).
  injection Hrun as <-.
  exists start, T. unfold PAGE_SIZE. change (2^12) with 4096.
  change (2^64) with 18446744073709551616.
  repeat split; try lia.
Qed.

Lemma node_next k a : node k a -> node k (a + bsize k).
Proof.
  intros (Hk & i & Hi & ->). split; [exact Hk|].
  exists (i + 1). split; lia.
Qed.

Lemma node_next_index k a : node k a -> (a + bsize k) / bsize k = a / bsize k + 1.
Proof.
  intros (Hk & i & Hi & ->). pose proof (bsize_pos k).
  replace (i * bsize k + bsize k) with ((i + 1) * bsize k) by lia.
  rewrite !Z.div_mul by lia. reflexivity.
Qed.

(** One pass of the seeding loop: a block of order [k] is placed at the
    cursor. *)
Lemma seed_step mm R c last k :
  seed_inv mm R c last -> (k <= last)%nat ->
  ((k < MAX_ORDER)%nat -> (k < last)%nat) ->
  let mm1 := set_freelist mm k (ilist_append (freelists mm k) (start_addr mm + c)) in
  let bit := c / bsize k in
  let mm2 := set_bitset mm1 k (bit_clear (bitsets mm1 k) bit) in
  let mm3 := set_bitset mm2 k (bit_set (bitsets mm2 k) (bit + 1)) in
  seed_inv mm3 ((k, c) :: R) (c + bsize k) k.
Proof.
  intros Hs Hk Hlt mm1 bit mm2 mm3.
  pose proof (s_cur mm R c last Hs) as Hcur.
  assert (Hlast : (last <= MAX_ORDER)%nat) by (apply (node_order last c Hcur)).
  assert (Hkc : node k c) by (apply (node_lower k last c Hk Hcur)).
  pose proof (bsize_pos k) as Hbk.
  assert (Hold : forall K A, In (K, A) R ->
            node K A /\ A + bsize K <= c /\ (last <= K)%nat)
    by (apply (s_node mm R c last Hs)).
  assert (Hfresh : forall K A, In (K, A) R -> A <> c).
  { intros K A HR E. destruct (Hold K A HR) as (_ & Hle & _).
    pose proof (bsize_pos K). lia. }
  assert (Hfl : forall j, freelists mm3 j
            = if Nat.eqb j k then freelists mm k ++ [start_addr mm + c]
              else freelists mm j) by reflexivity.
  assert (Hbs : forall j i, bitsets mm3 j i
            = if Nat.eqb j k
              then (if i =? bit + 1 then true
                    else if i =? bit then false else bitsets mm k i)
              else bitsets mm j i).
  { intros j i. unfold mm3, mm2, mm1, set_bitset, set_freelist, upd,
      bit_set, bit_clear; cbn [bitsets freelists].
    rewrite Nat.eqb_refl. destruct (Nat.eqb j k); reflexivity. }
  constructor.
  - (* s_free *)
    intros j e. rewrite Hfl. change (start_addr mm3) with (start_addr mm).
    destruct (Nat.eqb_spec j k) as [->|Hne].
    + rewrite in_app_iff, (s_free mm R c last Hs). cbn [In]. split.
      * intros [(A & E & HR)|[E|[]]].
        -- exists A. split; [exact E|right; exact HR].
        -- exists c. split; [symmetry; exact E|left; reflexivity].
      * intros (A & E & [Heq|HR]).
        -- injection Heq as <-. right. left. symmetry. exact E.
        -- left. exists A. split; assumption.
    + rewrite (s_free mm R c last Hs). split.
      * intros (A & E & HR). exists A. split; [exact E|right; exact HR].
      * intros (A & E & [Heq|HR]).
        -- injection Heq as Hjk _. congruence.
        -- exists A. split; assumption.
  - (* s_nodup *)
    intros j. rewrite Hfl. destruct (Nat.eqb_spec j k) as [->|Hne].
    + apply NoDup_app_last. split; [apply (s_nodup mm R c last Hs)|].
      intros Hin. apply (s_free mm R c last Hs) in Hin.
      destruct Hin as (A & E & HR). apply (Hfresh k A HR). lia.
    + apply (s_nodup mm R c last Hs).
  - (* s_bits *)
    intros j i. rewrite Hbs. destruct (Nat.eqb_spec j k) as [->|Hne].
    + destruct (Z.eqb_spec i (bit + 1)) as [Ei|Ni].
      * split; [intros _|reflexivity].
        exists c. split; [left; reflexivity|]. split; [exact Ei|].
        intros [Heq|HR]; [injection Heq; lia|].
        destruct (Hold k _ HR) as (_ & Hle & _). lia.
      * destruct (Z.eqb_spec i bit) as [Eb|Nb].
        -- split; [discriminate|]. intros (A & [Heq|HR] & Ei & Hn).
           ++ injection Heq as <-. contradiction.
           ++ exfalso. apply Hn. left. f_equal.
              destruct (Hold k A HR) as (HnA & _ & _).
              apply (node_inj k); [exact Hkc|apply node_next; exact HnA|].
              rewrite node_next_index by exact HnA. fold bit. lia.
        -- rewrite (s_bits mm R c last Hs). split.
           ++ intros (A & HR & Ei & Hn). exists A.
              split; [right; exact HR|]. split; [exact Ei|].
              intros [Heq|HR']; [|contradiction].
              injection Heq as Heq. apply Nb. unfold bit. rewrite Ei, Heq.
              destruct (Hold k A HR) as (HnA & _ & _).
              symmetry. apply node_next_index. exact HnA.
           ++ intros (A & [Heq|HR] & Ei & Hn).
              ** injection Heq as <-. contradiction.
              ** exists A. split; [exact HR|]. split; [exact Ei|].
                 intros HR'. apply Hn. right. exact HR'.
    + rewrite (s_bits mm R c last Hs). split.
      * intros (A & HR & Ei & Hn). exists A.
        split; [right; exact HR|]. split; [exact Ei|].
        intros [Heq|HR']; [injection Heq; congruence|contradiction].
      * intros (A & [Heq|HR] & Ei & Hn); [injection Heq; congruence|].
        exists A. split; [exact HR|]. split; [exact Ei|].
        intros HR'. apply Hn. right. exact HR'.
  - (* s_node *)
    intros K A [Heq|HR].
    + injection Heq as <- <-. split; [exact Hkc|]. split; lia.
    + destruct (Hold K A HR) as (HN & Hle & HK). split; [exact HN|].
      split; lia.
  - (* s_ord *)
    intros K A K' A' [Heq|HR] [Heq'|HR'] HKK.
    + injection Heq as <- <-. injection Heq' as <- <-. lia.
    + injection Heq as <- <-. destruct (Hold K' A' HR') as (_ & Hle & _). exact Hle.
    + injection Heq' as <- <-. destruct (Hold K A HR) as (_ & _ & HK). lia.
    + apply (s_ord mm R c last Hs K A K' A' HR HR' HKK).
  - (* s_uniq *)
    intros K A A' [Heq|HR] [Heq'|HR'] HK.
    + injection Heq as <- <-. injection Heq' as <-. reflexivity.
    + injection Heq as <- <-. destruct (Hold k A' HR') as (_ & _ & HK').
      specialize (Hlt HK). lia.
    + injection Heq' as <- <-. destruct (Hold k A HR) as (_ & _ & HK').
      specialize (Hlt HK). lia.
    + apply (s_uniq mm R c last Hs K A A' HR HR' HK).
  - (* s_even *)
    intros K A [Heq|HR] HK.
    + injection Heq as <- <-. apply (node_lower (S k) last c); [|exact Hcur].
      specialize (Hlt HK). lia.
    + apply (s_even mm R c last Hs K A HR HK).
  - (* s_chain *)
    intros A [Heq|HR].
    + injection Heq as Hkm Hc. subst A.
      destruct (s_curmax mm R c last Hs ltac:(lia)) as [H0|Hin];
        [left; exact H0|right; right; exact Hin].
    + destruct (s_chain mm R c last Hs A HR) as [H0|Hin];
        [left; exact H0|right; right; exact Hin].
  - (* s_cur *)
    apply node_next. exact Hkc.
  - (* s_curmax *)
    intros ->. right. left. f_equal. lia.
  - (* s_fb *)
    unfold mm3, mm2. rewrite !free_bytes_set_bitset. unfold mm1.
    rewrite free_bytes_set_freelist by lia.
    unfold ilist_append. rewrite length_app. cbn [length].
    rewrite (s_fb mm R c last Hs). lia.
Qed.

Lemma order_of_block_pow2 k :
  (k <= MAX_ORDER)%nat -> order_of_block 64 (2 ^ Z.of_nat k) (-1) = Z.of_nat k.
Proof.
  intros H. unfold MAX_ORDER in H.
  do 21 (destruct k as [|k]; [vm_compute; reflexivity|]). lia.
Qed.

(** The block the seeding loop takes from [n] remaining pages. *)
Lemma seed_block_order n :
  0 < n ->
  let k := Z.to_nat (Z.min (Z.log2 n) (Z.of_nat MAX_ORDER)) in
  Z.min (FLOOR_POW2 n) MAX_ORDER_NPAGES = 2 ^ Z.of_nat k
  /\ (k <= MAX_ORDER)%nat /\ 2 ^ Z.of_nat k <= n
  /\ ((k < MAX_ORDER)%nat -> n < 2 * 2 ^ Z.of_nat k)
  /\ (k = MAX_ORDER -> MAX_ORDER_NPAGES <= n)
  /\ Z.of_nat k <= Z.log2 n.
Proof.
  intros Hn k. pose proof (Z.log2_nonneg n) as Hl.
  destruct (Z.log2_spec n Hn) as [Hlo Hhi].
  assert (Hk : Z.of_nat k = Z.min (Z.log2 n) (Z.of_nat MAX_ORDER))
    by (unfold k; lia).
  unfold FLOOR_POW2. destruct (Z.eqb_spec n 0) as [|_]; [lia|].
  change MAX_ORDER_NPAGES with (2 ^ Z.of_nat MAX_ORDER).
  rewrite Hk.
  destruct (Z.le_ge_cases (Z.log2 n) (Z.of_nat MAX_ORDER)) as [Hle|Hge].
  - rewrite (Z.min_l (Z.log2 n)) by lia.
    assert (2 ^ Z.log2 n <= 2 ^ Z.of_nat MAX_ORDER)
      by (apply Z.pow_le_mono_r; lia).
    rewrite Z.min_l by lia.
    split; [reflexivity|]. split; [lia|]. split; [lia|].
    split; [|split; [|lia]].
    + intros _. rewrite Z.pow_succ_r in Hhi by lia. lia.
    + intros E. rewrite <- E, Hk, Z.min_l by lia. lia.
  - rewrite (Z.min_r (Z.log2 n)) by lia.
    assert (2 ^ Z.of_nat MAX_ORDER <= 2 ^ Z.log2 n)
      by (apply Z.pow_le_mono_r; lia).
    rewrite Z.min_r by lia.
    split; [reflexivity|]. split; [lia|]. split; [lia|].
    split; [|split; [|lia]].
    + intros Hlt. lia.
    + intros _. lia.
Qed.

Lemma rmm_seed_inv fuel :
  forall mm R c last n,
  seed_inv mm R c last -> 0 <= n -> 0 <= start_addr mm ->
  ((last < MAX_ORDER)%nat -> n < 2 ^ Z.of_nat last) ->
  start_addr mm + c + n * PAGE_SIZE < 2^64 ->
  (Z.to_nat (n / MAX_ORDER_NPAGES) + last < fuel)%nat ->
  (exists R' last',
     seed_inv (rmm_seed fuel mm n (start_addr mm + c)) R' (c + n * PAGE_SIZE) last')
  /\ start_addr (rmm_seed fuel mm n (start_addr mm + c)) = start_addr mm
  /\ end_addr (rmm_seed fuel mm n (start_addr mm + c)) = end_addr mm
  /\ free_size (rmm_seed fuel mm n (start_addr mm + c)) = free_size mm.
Proof.
  induction fuel as [|fuel IH]; intros mm R c last n Hs Hn Hst Hlast Hend Hfuel;
    [lia|].
  cbn [rmm_seed]. destruct (Z.eqb_spec n 0) as [->|Hn0].
  { split; [|repeat split]. exists R, last.
    replace (c + 0 * PAGE_SIZE) with c by lia. exact Hs. }
  destruct (seed_block_order n ltac:(lia)) as (Hnp & Hk & Hle & Hlt & Hmax & Hlog).
  set (k := Z.to_nat (Z.min (Z.log2 n) (Z.of_nat MAX_ORDER))) in *.
  pose proof (s_cur mm R c last Hs) as Hcur.
  pose proof (node_order last c Hcur) as HlastM.
  pose proof (node_nonneg last c Hcur) as Hc0.
  assert (Hpk : 0 < 2 ^ Z.of_nat k) by (apply Z.pow_pos_nonneg; lia).
  assert (Hbk : bsize k = 2 ^ Z.of_nat k * PAGE_SIZE) by (unfold bsize; lia).
  assert (Hkl : (k <= last)%nat).
  { destruct (Nat.eq_dec last MAX_ORDER) as [->|Hne]; [exact Hk|].
    specialize (Hlast ltac:(lia)).
    assert (Z.log2 n < Z.of_nat last) by (apply Z.log2_lt_pow2; lia). lia. }
  assert (Hkl' : (k < MAX_ORDER)%nat -> (k < last)%nat).
  { intros Hkm. destruct (Nat.eq_dec last MAX_ORDER) as [->|Hne]; [exact Hkm|].
    specialize (Hlast ltac:(lia)).
    assert (Z.log2 n < Z.of_nat last) by (apply Z.log2_lt_pow2; lia). lia. }
  pose proof (seed_step mm R c last k Hs Hkl Hkl') as Hstep.
  cbv zeta in Hstep.
  rewrite !Hnp, !order_of_block_pow2, !Nat2Z.id by exact Hk.
  rewrite !order_size_bsize by exact Hk.
  change (start_addr (set_freelist mm k
            (ilist_append (freelists mm k) (start_addr mm + c))))
    with (start_addr mm).
  replace (start_addr mm + c - start_addr mm) with c by lia.
  unfold PAGE_SIZE in Hend, Hbk.
  rewrite (wrap64_small c) by lia.
  rewrite (wrap64_small (n - 2 ^ Z.of_nat k)) by lia.
  rewrite (wrap64_small (start_addr mm + c + bsize k)) by lia.
  replace (start_addr mm + c + bsize k) with (start_addr mm + (c + bsize k)) by lia.
  match goal with
  | |- context [rmm_seed fuel ?m _ _] => set (mm3 := m) in *
  end.
  assert (Hfuel' : (Z.to_nat ((n - 2 ^ Z.of_nat k) / MAX_ORDER_NPAGES) + k < fuel)%nat).
  { destruct (Nat.eq_dec k MAX_ORDER) as [E|Hne].
    - specialize (Hmax E). rewrite E in *.
      change (2 ^ Z.of_nat MAX_ORDER) with MAX_ORDER_NPAGES.
      change MAX_ORDER_NPAGES with 1048576 in *.
      replace (n - 1048576) with (n + (-1) * 1048576) by lia.
      rewrite Z.div_add by lia.
      assert (1 <= n / 1048576) by (apply Z.div_le_lower_bound; lia).
      lia.
    - specialize (Hlt ltac:(lia)). specialize (Hkl' ltac:(lia)).
      assert (2 ^ Z.of_nat k <= 2 ^ Z.of_nat MAX_ORDER)
        by (apply Z.pow_le_mono_r; lia).
      change (2 ^ Z.of_nat MAX_ORDER) with 1048576 in *.
      change MAX_ORDER_NPAGES with 1048576 in *.
      rewrite Z.div_small by lia. lia. }
  destruct (IH mm3 ((k, c) :: R) (c + bsize k) k (n - 2 ^ Z.of_nat k))
    as ((R' & last' & Hs') & E1 & E2 & E3).
  - exact Hstep.
  - lia.
  - exact Hst.
  - intros Hkm. specialize (Hlt Hkm). lia.
  - change (start_addr mm3) with (start_addr mm). unfold PAGE_SIZE. lia.
  - exact Hfuel'.
  - change (start_addr mm3) with (start_addr mm) in *.
    replace (c + bsize k + (n - 2 ^ Z.of_nat k) * PAGE_SIZE)
      with (c + n * PAGE_SIZE) in Hs' by (unfold PAGE_SIZE; lia).
    split; [exists R', last'; exact Hs'|].
    split; [exact E1|]. split; [exact E2|exact E3].
Qed.

Lemma blank_intro mm L K :
  forall A, node K A ->
  (forall k a, node k a -> within k a K A ->
     ~ isset mm k a /\ ~ isfree mm k a /\ ~ islive mm L k a) ->
  blank mm L K A.
Proof.
  induction K as [|K IH]; intros A HN H;
    destruct (H _ A HN (within_refl _ A)) as (H1 & H2 & H3).
  - cbn [blank]. repeat split; assumption.
  - cbn [blank]. split; [exact H1|]. split; [exact H2|]. split; [exact H3|].
    split; apply IH.
    + apply node_child_l. exact HN.
    + intros k a Hn Hw. apply H; [exact Hn|apply within_left; exact Hw].
    + apply node_child_r. exact HN.
    + intros k a Hn Hw. apply H; [exact Hn|apply within_right; exact Hw].
Qed.

Lemma below_blank_intro mm L K A :
  node K A ->
  (forall k a, node k a -> (k < K)%nat -> within k a K A ->
     ~ isset mm k a /\ ~ isfree mm k a /\ ~ islive mm L k a) ->
  below_blank mm L K A.
Proof.
  intros HN H. destruct K as [|K]; [exact I|].
  cbn [below_blank]. split; apply blank_intro.
  - apply node_child_l. exact HN.
  - intros k a Hn Hw. apply H; [exact Hn|destruct Hw; lia|].
    apply within_left. exact Hw.
  - apply node_child_r. exact HN.
  - intros k a Hn Hw. apply H; [exact Hn|destruct Hw; lia|].
    apply within_right. exact Hw.
Qed.

(** When the seeding loop is done the state satisfies the invariant, with
    nothing handed out. *)
Lemma seed_inv_rmm_inv mm R last :
  seed_inv mm R (end_addr mm - start_addr mm) last ->
  0 < start_addr mm -> start_addr mm mod PAGE_SIZE = 0 ->
  end_addr mm < 2^64 -> end_addr mm - start_addr mm < 2^43 ->
  rmm_inv mm [] R.
Proof.
  intros Hs Hst Hal Hend Hsz.
  pose proof (s_node _ _ _ _ Hs) as Hnode.
  pose proof (s_ord _ _ _ _ Hs) as Hord.
  pose proof (node_nonneg _ _ (s_cur _ _ _ _ Hs)) as Hc0.
  assert (Hdis : forall K1 A1 K2 A2, In (K1, A1) R -> In (K2, A2) R ->
            A1 < A2 + bsize K2 -> A2 < A1 + bsize K1 -> K1 = K2 /\ A1 = A2).
  { intros K1 A1 K2 A2 H1 H2 Hlt1 Hlt2.
    destruct (Hnode K1 A1 H1) as (HN1 & _ & _).
    destruct (Hnode K2 A2 H2) as (HN2 & _ & _).
    destruct (Nat.lt_trichotomy K1 K2) as [Hlt|[->|Hgt]].
    - pose proof (Hord K1 A1 K2 A2 H1 H2 Hlt). lia.
    - split; [reflexivity|].
      destruct (Z.lt_trichotomy A1 A2) as [Hl|[E|Hg]]; [|exact E|].
      + pose proof (node_apart K2 A1 A2 HN1 HN2 Hl). lia.
      + pose proof (node_apart K2 A2 A1 HN2 HN1 Hg). lia.
    - pose proof (Hord K2 A2 K1 A1 H2 H1 Hgt). lia. }
  assert (Hfree : forall k a, isfree mm k a <-> In (k, a) R).
  { intros k a. unfold isfree. rewrite (s_free _ _ _ _ Hs). split.
    - intros (A & E & HR). replace a with A by lia. exact HR.
    - intros HR. exists a. split; [reflexivity|exact HR]. }
  assert (Hset : forall k a, node k a -> isset mm k a ->
            exists A, In (k, A) R /\ a = A + bsize k /\ ~ In (k, a) R).
  { intros k a Hn Hi. unfold isset in Hi. apply (s_bits _ _ _ _ Hs) in Hi.
    destruct Hi as (A & HR & Ei & Hnot). exists A.
    destruct (Hnode k A HR) as (HNA & _ & _).
    assert (a = A + bsize k).
    { apply (node_inj k); [exact Hn|apply node_next; exact HNA|].
      rewrite node_next_index by exact HNA. exact Ei. }
    subst a. split; [exact HR|]. split; [reflexivity|exact Hnot]. }
  constructor.
  - split; assumption.
  - split; lia.
  - intros K A HR. destruct (Hnode K A HR) as (HN & Hle & _).
    split; assumption.
  - exact Hdis.
  - intros K A HR. left. destruct (Hnode K A HR) as (HN & Hle & _).
    apply ok_eq. left. split; [apply Hfree; exact HR|].
    split; [|split; [intros []|]].
    + intros Hi. destruct (Hset K A HN Hi) as (_ & _ & _ & Hnot).
      apply Hnot. exact HR.
    + apply below_blank_intro; [exact HN|].
      intros k a Hn Hk (_ & Hw1 & Hw2). pose proof (bsize_pos k).
      split; [|split; [|intros []]].
      * intros Hi. destruct (Hset k a Hn Hi) as (A' & HR' & E & _).
        pose proof (Hord k A' K A HR' HR Hk). lia.
      * intros Hf. apply Hfree in Hf.
        pose proof (Hord k a K A Hf HR Hk). lia.
  - intros K A HR. destruct (Hnode K A HR) as (HN & Hle & _).
    pose proof (bsize_pos K) as HbK.
    assert (Hup : ~ In (K, A + bsize K) R -> isset mm K (A + bsize K)).
    { intros Hnot. unfold isset. apply (s_bits _ _ _ _ Hs). exists A.
      split; [exact HR|]. split; [apply node_next_index; exact HN|exact Hnot]. }
    destruct (Nat.eq_dec K MAX_ORDER) as [E|Hne].
    + destruct (buddy_of_cases K A HN) as [Eb|[Eb Hge]]; rewrite Eb.
      * destruct (in_dec live_eq_dec (K, A + bsize K) R) as [Hin|Hnot];
          [left; split; assumption|].
        right. split; [apply Hup; exact Hnot|].
        intros K' A' HR' Hw. destruct (Hnode K' A' HR') as (HN' & _ & _).
        pose proof (node_order K' A' HN') as HK'.
        assert (K' = K) by (destruct Hw; lia). subst K'.
        apply within_same in Hw. subst A'. contradiction.
      * left. split; [exact E|]. rewrite E in HR |- *.
        destruct (s_chain _ _ _ _ Hs A HR) as [H0|Hin]; [lia|exact Hin].
    + pose proof (node_order K A HN) as HKM.
      assert (HKlt : (K < MAX_ORDER)%nat) by lia.
      pose proof (s_even _ _ _ _ Hs K A HR HKlt) as Hev.
      rewrite (buddy_of_left K A Hev).
      assert (Hnot : ~ In (K, A + bsize K) R).
      { intros Hin. pose proof (s_uniq _ _ _ _ Hs K A _ HR Hin HKlt). lia. }
      right. split; [apply Hup; exact Hnot|].
      intros K' A' HR' (Hw0 & Hw1 & Hw2).
      destruct (Nat.eq_dec K' K) as [->|Hne'].
      * pose proof (s_uniq _ _ _ _ Hs K A A' HR HR' HKlt). lia.
      * pose proof (Hord K A K' A' HR HR' ltac:(lia)). lia.
  - intros k e Hk Hin. apply (s_free _ _ _ _ Hs) in Hin.
    destruct Hin as (A & E & HR). exists A. split; [exact E|].
    destruct (Hnode k A HR) as (HN & _ & _). split; [exact HN|].
    exists k, A. split; [exact HR|apply within_refl].
  - intros k p [].
  - intros k _. apply (s_nodup _ _ _ _ Hs).
  - constructor.
Qed.

Lemma seed_inv_init mm :
  (forall k, freelists mm k = []) -> (forall k i, bitsets mm k i = false) ->
  seed_inv mm [] 0 MAX_ORDER.
Proof.
  intros Hf Hb. constructor.
  - intros k e. rewrite Hf. split; [intros []|intros (A & _ & [])].
  - intros k. rewrite Hf. constructor.
  - intros k i. rewrite Hb. split; [discriminate|intros (A & [] & _)].
  - intros K A [].
  - intros K A K' A' [].
  - intros K A A' [].
  - intros K A [].
  - intros A [].
  - split; [lia|]. exists 0. split; lia.
  - intros _. left. reflexivity.
  - unfold free_bytes. 
    assert (H : forall l, fold_right Z.add 0
              (map (fun k => order_size k * Z.of_nat (length (freelists mm k))) l) = 0).
    { induction l as [|x l IHl]; [reflexivity|].
      cbn [map fold_right]. rewrite IHl, Hf. cbn [length]. lia. }
    apply H.
Qed.

(** [rmm_create] establishes the invariant. *)
Lemma rmm_create_inv memp memsize mm :
  host_region memp memsize -> rmm_create memp memsize = Some mm ->
  exists R, rmm_inv mm [] R /\ rmm_acct mm [].
Proof.
  intros Hh Hrun.
  destruct (rmm_create_layout memp memsize mm Hh Hrun)
    as (start & T & Hst & Hal & HT & HTal & HT43 & Hend & ->).
  set (mm0 := {| start_addr := start; end_addr := start + T; free_size := T;
                 bitsets := fun _ _ => false; freelists := fun _ => [] |}).
  assert (Hn : 0 <= T / PAGE_SIZE) by (apply Z.div_pos; unfold PAGE_SIZE; lia).
  assert (HTn : T / PAGE_SIZE * PAGE_SIZE = T).
  { pose proof (Z.div_mod T PAGE_SIZE ltac:(unfold PAGE_SIZE; lia)). lia. }
  destruct (rmm_seed_inv (seed_fuel (T / PAGE_SIZE)) mm0 [] 0 MAX_ORDER
              (T / PAGE_SIZE)) as ((R & last & Hs) & E1 & E2 & E3).
  - apply seed_inv_init; reflexivity.
  - exact Hn.
  - cbn [start_addr mm0]. lia.
  - lia.
  - cbn [start_addr mm0]. lia.
  - unfold seed_fuel, MAX_ORDER. lia.
  - cbn [start_addr mm0] in *. replace (start + 0) with start in * by lia.
    cbn [end_addr free_size mm0] in *.
    rewrite Z.add_0_l, HTn in Hs.
    set (mm := rmm_seed (seed_fuel (T / PAGE_SIZE)) mm0 (T / PAGE_SIZE) start) in *.
    assert (ET : end_addr mm - start_addr mm = T) by lia.
    exists R. split.
    + apply (seed_inv_rmm_inv mm R last); rewrite ?ET, ?E1, ?E2; try lia.
      exact Hs.
    + split.
      * rewrite (s_fb _ _ _ _ Hs), E3. lia.
      * rewrite E3, ET. cbn. lia.
Qed.

(** Every state reached from [rmm_create] satisfies the invariant and the
    accounting. *)
Lemma rmm_reachable_inv mm L :
  rmm_reachable mm L -> exists R, rmm_inv mm L R /\ rmm_acct mm L.
Proof.
  induction 1 as [memp memsize mm Hh Hc
                 | mm L k mm' p Hr IH Hk Ha Hp
                 | mm L k mm' Hr IH Hk Ha
                 | mm L k p Hr IH Hin].
  - apply (rmm_create_inv memp memsize); assumption.
  - destruct IH as (R & Hinv & Hacct). exists R.
    destruct (rmm_allocpages_inv mm L R k mm' p Hinv Hacct Hk Ha)
      as [[E _]|(_ & Hinv' & Hacct' & _)]; [contradiction|].
    split; assumption.
  - destruct IH as (R & Hinv & Hacct). exists R.
    destruct (rmm_allocpages_inv mm L R k mm' 0 Hinv Hacct Hk Ha)
      as [[_ ->]|(Hne & _)]; [split; assumption|].
    exfalso. apply Hne. reflexivity.
  - destruct IH as (R & Hinv & Hacct). exists R.
    destruct (rmm_freepages_inv mm L R k p Hinv Hacct Hin) as (H1 & H2 & _).
    split; assumption.
Qed.

Lemma rmm_reachable_wf mm L : rmm_reachable mm L -> rmm_wf mm.
Proof.
  intros Hr. destruct (rmm_reachable_inv mm L Hr) as (R & Hinv & Hacct).
  apply (inv_wf mm L R); assumption.
Qed.

(** ** mem_mm.c: what holds of every reachable state *)

(** A fresh manager over 10 MiB at 1 MiB hands out one page. *)
Lemma rmm_sample_alloc_page :
  exists mm0 mm1 p,
    rmm_create 0x100000 (10 * 2^20) = Some mm0
    /\ rmm_allocpages mm0 (2 ^ Z.of_nat 0) = Some (mm1, p) /\ p <> 0.
Proof.
  assert (X : match rmm_create 0x100000 (10 * 2^20) with
              | Some mm0 =>
                  match rmm_allocpages mm0 (2 ^ Z.of_nat 0) with
                  | Some (_, p) => p <> 0
                  | None => False
                  end
              | None => False
              end) by (vm_compute; discriminate).
  destruct (rmm_create 0x100000 (10 * 2^20)) as [mm0|]; [|contradiction].
  destruct (rmm_allocpages mm0 (2 ^ Z.of_nat 0)) as [[mm1 p]|] eqn:E1;
    [|contradiction].
  exists mm0, mm1, p. split; [reflexivity|]. split; [exact E1|exact X].
Qed.

(** A fresh manager over 10 MiB at address 4096 hands out two pages. *)
Lemma rmm_sample_alloc_two_pages :
  exists mm0 mm1 p,
    rmm_create 4096 (10 * 2^20) = Some mm0
    /\ rmm_allocpages mm0 (2 ^ Z.of_nat 1) = Some (mm1, p) /\ p <> 0.
Proof.
  assert (X : match rmm_create 4096 (10 * 2^20) with
              | Some mm0 =>
                  match rmm_allocpages mm0 (2 ^ Z.of_nat 1) with
                  | Some (_, p) => p <> 0
                  | None => False
                  end
              | None => False
              end) by (vm_compute; discriminate).
  destruct (rmm_create 4096 (10 * 2^20)) as [mm0|]; [|contradiction].
  destruct (rmm_allocpages mm0 (2 ^ Z.of_nat 1)) as [[mm1 p]|] eqn:E1;
    [|contradiction].
  exists mm0, mm1, p. split; [reflexivity|]. split; [exact E1|exact X].
Qed.

Lemma host_region_sample memp :
  0 < memp < 2^32 -> host_region memp (10 * 2^20).
Proof. unfold host_region, PAGE_SIZE. lia. Qed.

(** The lowest order from [k] on that has a free block. *)
Lemma lowest_free_order mm d :
  forall k, (k + d = S MAX_ORDER)%nat ->
  no_free_block mm k
  \/ exists j, (k <= j <= MAX_ORDER)%nat
       /\ (forall i, (k <= i < j)%nat -> freelists mm i = [])
       /\ freelists mm j <> [].
Proof.
  induction d as [|d IH]; intros k Hk.
  - left. intros j Hj. lia.
  - destruct (freelists mm k) as [|e l] eqn:E.
    + destruct (IH (S k) ltac:(lia)) as [Hn|(j & Hj & Hlow & Hne)].
      * left. intros j Hj. destruct (Nat.eq_dec j k) as [->|Hjk]; [exact E|].
        apply Hn. lia.
      * right. exists j. split; [lia|]. split; [|exact Hne].
        intros i Hi. destruct (Nat.eq_dec i k) as [->|Hik]; [exact E|].
        apply Hlow. lia.
    + right. exists k. split; [lia|]. split; [intros i Hi; lia|].
      rewrite E. discriminate.
Qed.

(** With the free lists of orders [k .. k+d-1] empty, [rmm_allocpages1] at
    order [k] takes the entry [e] that [ilist_pop] removes from the list of
    order [k+d]; it sets the bit of [e] at every order from [k] to [k+d]
    and changes no other bit. *)
Lemma rmm_allocpages1_bits d :
  forall fuel mm k e l,
  (MAX_ORDER < fuel + k)%nat -> (k + d <= MAX_ORDER)%nat ->
  (forall i, (k <= i < k + d)%nat -> freelists mm i = []) ->
  ilist_pop (freelists mm (k + d)) = Some (e, l) ->
  0 < start_addr mm <= e -> e < 2^64 ->
  exists mm',
    rmm_allocpages1 fuel mm k = (mm', e - start_addr mm)
    /\ start_addr mm' = start_addr mm /\ free_size mm' = free_size mm
    /\ forall i b,
         bitsets mm' i b
         = if (k <=? i)%nat && (i <=? k + d)%nat
              && (b =? (e - start_addr mm) / order_size i)
           then true else bitsets mm i b.
Proof.
  induction d as [|d IH]; intros fuel mm k e l Hfuel Hk Hempty Hl Hs He.
  - rewrite Nat.add_0_r in *.
    assert (E : rmm_allocpages1 fuel mm k
                = (set_bitset (set_freelist mm k l) k
                     (bit_set (bitsets (set_freelist mm k l) k)
                        (wrap64 (e - start_addr mm) / order_size k)),
                   wrap64 (e - start_addr mm))).
    { destruct fuel; cbn [rmm_allocpages1];
        (destruct (Nat.ltb_spec MAX_ORDER k); [lia|]);
        rewrite Hl;
        (destruct (Z.eqb_spec e 0); [lia|]); reflexivity. }
    rewrite wrap64_small in E by lia.
    eexists. split; [exact E|].
    cbn [start_addr free_size bitsets set_bitset set_freelist].
    split; [reflexivity|]. split; [reflexivity|].
    intros i b. destruct (Nat.eq_dec i k) as [->|Hne].
    + rewrite upd_same. unfold bit_set.
      rewrite Nat.leb_refl. cbn [andb]. reflexivity.
    + rewrite upd_other by exact Hne.
      destruct (Nat.leb_spec k i), (Nat.leb_spec i k); cbn [andb];
        try reflexivity; lia.
  - destruct fuel as [|fuel]; [lia|].
    assert (Hk0 : freelists mm k = []) by (apply Hempty; lia).
    destruct (IH fuel mm (S k) e l) as (mm1 & E1 & Hst & Hfs & Hbits).
    + lia.
    + lia.
    + intros i Hi. apply Hempty. lia.
    + replace (S k + d)%nat with (k + S d)%nat by lia. exact Hl.
    + exact Hs.
    + exact He.
    + assert (E : rmm_allocpages1 (S fuel) mm k
                  = (set_bitset
                       (set_freelist mm1 k
                          (ilist_append (freelists mm1 k)
                             (wrap64 (wrap64 (e - start_addr mm + start_addr mm1)
                                      + order_size k)))) k
                       (bit_set
                          (bitsets
                             (set_freelist mm1 k
                                (ilist_append (freelists mm1 k)
                                   (wrap64 (wrap64 (e - start_addr mm
                                                    + start_addr mm1)
                                            + order_size k)))) k)
                          ((e - start_addr mm) / order_size k)),
                     e - start_addr mm)).
      { cbn [rmm_allocpages1]. destruct (Nat.ltb_spec MAX_ORDER k); [lia|].
        rewrite Hk0. cbn [ilist_pop rev]. rewrite E1.
        destruct (Z.eqb_spec (e - start_addr mm) UINTPTR_MAX) as [Ex|_].
        { unfold UINTPTR_MAX in Ex. lia. }
        reflexivity. }
      eexists. split; [exact E|].
      cbn [start_addr free_size bitsets set_bitset set_freelist].
      split; [exact Hst|]. split; [exact Hfs|].
      intros i b. destruct (Nat.eq_dec i k) as [->|Hne].
      * rewrite upd_same. unfold bit_set. rewrite Hbits.
        rewrite Nat.leb_refl.
        destruct (Nat.leb_spec (S k) k); [lia|].
        destruct (Nat.leb_spec k (k + S d)); [|lia]. cbn [andb].
        reflexivity.
      * rewrite upd_other by exact Hne. rewrite Hbits.
        replace (S k + d)%nat with (k + S d)%nat by lia.
        destruct (Nat.leb_spec (S k) i), (Nat.leb_spec k i); cbn [andb];
          try reflexivity; lia.
Qed.

(** What a successful [rmm_allocpages(mm, 2^k)] does to the use bits of a
    page manager in order: with [j] the lowest order from [k] on that has a
    free block, it sets the bit of the returned address at every order from
    [k] to [j] and changes no other bit. *)
Lemma rmm_allocpages_bits mm L R k mm' p :
  rmm_inv mm L R -> rmm_acct mm L -> (k < 64)%nat ->
  rmm_allocpages mm (2 ^ Z.of_nat k) = Some (mm', p) -> p <> 0 ->
  exists j,
    (k <= j <= MAX_ORDER)%nat
    /\ (forall i, (k <= i < j)%nat -> freelists mm i = [])
    /\ freelists mm j <> []
    /\ forall i b,
         bit_get (bitsets mm' i) b
         = if (k <=? i)%nat && (i <=? j)%nat
              && (b =? (p - start_addr mm) / order_size i)
           then true else bit_get (bitsets mm i) b.
Proof.
  intros Hinv Hacct Hk Ha Hp.
  pose proof (inv_wf mm L R Hinv Hacct) as Hwf.
  assert (Hpos : 0 < 2 ^ Z.of_nat k) by (apply Z.pow_pos_nonneg; lia).
  unfold rmm_allocpages in Ha.
  destruct (Z.eqb_spec (2 ^ Z.of_nat k) 0) as [|_]; [lia|].
  rewrite IS_POW2_pow2 in Ha by exact Hk. cbn [negb] in Ha.
  rewrite order_of_npages_pow2 in Ha by exact Hk. cbn [Nat.add] in Ha.
  assert (Hfail : no_free_block mm k -> False).
  { intros Hnone.
    pose proof (rmm_allocpages1_spec (S MAX_ORDER) mm k Hwf ltac:(lia)) as H.
    cbv zeta in H. destruct H as (H1 & _ & _). apply H1 in Hnone.
    destruct (rmm_allocpages1 (S MAX_ORDER) mm k) as [mm1 a].
    cbn [snd] in Hnone. rewrite Hnone, Z.eqb_refl in Ha.
    injection Ha as _ <-. apply Hp. reflexivity. }
  destruct (Nat.le_gt_cases k MAX_ORDER) as [Hkm|Hkm].
  2:{ exfalso. apply Hfail. intros j Hj. lia. }
  destruct (lowest_free_order mm (S MAX_ORDER - k) k ltac:(lia))
    as [Hnone|(j & Hj & Hlow & Hne)].
  - exfalso. apply Hfail. exact Hnone.
  - exists j. split; [exact Hj|]. split; [exact Hlow|]. split; [exact Hne|].
    destruct (ilist_pop (freelists mm j)) as [[e l]|] eqn:Epop.
    2:{ apply ilist_pop_none in Epop. contradiction. }
    assert (Hin : In e (freelists mm j)).
    { rewrite (ilist_pop_some _ _ _ Epop), in_app_iff. right. left.
      reflexivity. }
    destruct (inv_free_node mm L R j e Hinv ltac:(lia) Hin) as (a & Ee & Ht & _).
    destruct (in_tree_bounds mm L R j a Hinv Ht) as [Ha0 Hhi].
    destruct (inv_start mm L R Hinv) as [Hs _].
    destruct (inv_range mm L R Hinv) as [[_ Hend] _].
    pose proof (bsize_pos j) as Hbj.
    destruct (rmm_allocpages1_bits (j - k) (S MAX_ORDER) mm k e l)
      as (mm1 & E1 & Hst & Hfs & Hbits).
    + lia.
    + lia.
    + intros i Hi. apply Hlow. lia.
    + replace (k + (j - k))%nat with j by lia. exact Epop.
    + lia.
    + lia.
    + replace (k + (j - k))%nat with j in Hbits by lia.
      rewrite E1 in Ha.
      destruct (Z.eqb_spec (e - start_addr mm) UINTPTR_MAX) as [Ex|_].
      { unfold UINTPTR_MAX in Ex. lia. }
      injection Ha as <- <-. cbn [bitsets set_free_size]. unfold bit_get.
      rewrite Hst.
      replace (e - start_addr mm + start_addr mm) with e by lia.
      rewrite (wrap64_small e) by lia. exact Hbits.
Qed.

(** C2 (amended).  In every state reached from [rmm_create] over a region
    of less than 8 TiB (so that the bit numbers fit the [int] of
    [rmm_freepages1]), for every block handed out at order [k] and not yet
    freed: the use bit of the block's address is clear at every order below
    [k] and set at order [k], and the upward probe of [rmm_freepages1] from
    order 0 returns [k].  An allocation of [2^k'] pages changes no bit of
    the orders below [k']; when it succeeds, with [j] the lowest order from
    [k'] on that has a free block, it sets the bit of the returned address
    at every order from [k'] to [j] (at [k'] its own bit, above [k'] the
    bits of the blocks it splits) and changes no other bit. *)
Theorem live_block_order_bits mm L k p :
  rmm_reachable mm L -> In (k, p) L ->
  (forall j, (j < k)%nat ->
     bit_get (bitsets mm j) ((p - start_addr mm) / order_size j) = false)
  /\ bit_get (bitsets mm k) ((p - start_addr mm) / order_size k) = true
  /\ snd (rmm_freepages1 (S MAX_ORDER) mm (wrap64 (p - start_addr mm)) 0)
     = Z.of_nat k
  /\ (forall k' mm' p', (k' < 64)%nat ->
        rmm_allocpages mm (2 ^ Z.of_nat k') = Some (mm', p') ->
        forall j, (j < k')%nat -> bitsets mm' j = bitsets mm j)
  /\ (forall k' mm' p', (k' < 64)%nat ->
        rmm_allocpages mm (2 ^ Z.of_nat k') = Some (mm', p') -> p' <> 0 ->
        exists j,
          (k' <= j <= MAX_ORDER)%nat
          /\ (forall i, (k' <= i < j)%nat -> freelists mm i = [])
          /\ freelists mm j <> []
          /\ forall i b,
               bit_get (bitsets mm' i) b
               = if (k' <=? i)%nat && (i <=? j)%nat
                    && (b =? (p' - start_addr mm) / order_size i)
                 then true else bit_get (bitsets mm i) b).
Proof.
  intros Hr Hin. destruct (rmm_reachable_inv mm L Hr) as (R & Hinv & Hacct).
  destruct (inv_live_node mm L R k p Hinv Hin) as (a & Ep & Ht & Hset & _ & _).
  pose proof (node_order k a (proj1 Ht)) as Hk.
  unfold bit_get at 1 2. split; [|split; [|split; [|split]]].
  - intros j Hj. rewrite order_size_bsize by lia.
    apply (probe_clear mm L R k p j Hinv Hin Hj).
  - rewrite order_size_bsize by exact Hk.
    replace (p - start_addr mm) with a by lia. exact Hset.
  - apply (rmm_freepages_inv mm L R k p Hinv Hacct Hin).
  - intros k' mm' p' Hk' Ha j Hj.
    destruct (rmm_allocpages_inv mm L R k' mm' p' Hinv Hacct Hk' Ha)
      as [[_ ->]|(_ & _ & _ & _ & _ & Hlow)]; [reflexivity|].
    apply Hlow. exact Hj.
  - intros k' mm' p' Hk' Ha Hp'.
    apply (rmm_allocpages_bits mm L R k' mm' p' Hinv Hacct Hk' Ha Hp').
Qed.

Lemma live_block_order_bits_witness :
  exists mm L k p,
    rmm_reachable mm L /\ In (k, p) L
    /\ (1 <= k)%nat
    /\ (forall j, (j < k)%nat ->
          bit_get (bitsets mm j) ((p - start_addr mm) / order_size j) = false)
    /\ bit_get (bitsets mm k) ((p - start_addr mm) / order_size k) = true
    /\ snd (rmm_freepages1 (S MAX_ORDER) mm (wrap64 (p - start_addr mm)) 0)
       = Z.of_nat k
    /\ (forall k' mm' p', (k' < 64)%nat ->
          rmm_allocpages mm (2 ^ Z.of_nat k') = Some (mm', p') ->
          forall j, (j < k')%nat -> bitsets mm' j = bitsets mm j)
    /\ (forall k' mm' p', (k' < 64)%nat ->
          rmm_allocpages mm (2 ^ Z.of_nat k') = Some (mm', p') -> p' <> 0 ->
          exists j,
            (k' <= j <= MAX_ORDER)%nat
            /\ (forall i, (k' <= i < j)%nat -> freelists mm i = [])
            /\ freelists mm j <> []
            /\ forall i b,
                 bit_get (bitsets mm' i) b
                 = if (k' <=? i)%nat && (i <=? j)%nat
                      && (b =? (p' - start_addr mm) / order_size i)
                   then true else bit_get (bitsets mm i) b).
Proof.
  destruct rmm_sample_alloc_two_pages as (mm0 & mm1 & p & E0 & E1 & Hp).
  assert (Hr : rmm_reachable mm1 [(1%nat, p)]).
  { apply (reach_alloc mm0 [] 1 mm1 p); [|lia|exact E1|exact Hp].
    apply (reach_create 4096 (10 * 2^20)); [|exact E0].
    apply host_region_sample. lia. }
  assert (Hin : In (1%nat, p) [(1%nat, p)]) by (left; reflexivity).
  exists mm1, [(1%nat, p)], 1%nat, p.
  split; [exact Hr|]. split; [exact Hin|]. split; [lia|].
  apply (live_block_order_bits mm1 [(1%nat, p)] 1 p Hr Hin).
Defined.

(** C6 (amended).  In every state reached from [rmm_create] over a region
    of less than 8 TiB, a successful [rmm_allocpages(mm, 2^k)] returns an
    address whose offset from [start_addr] is a multiple of
    [2^k * PAGE_SIZE]; the address itself is a multiple of [PAGE_SIZE], and
    of [2^k * PAGE_SIZE] when [start_addr] is. *)
Theorem rmm_allocpages_aligned mm L k mm' p :
  rmm_reachable mm L -> (k < 64)%nat ->
  rmm_allocpages mm (2 ^ Z.of_nat k) = Some (mm', p) -> p <> 0 ->
  (p - start_addr mm) mod (2 ^ Z.of_nat k * PAGE_SIZE) = 0
  /\ p mod PAGE_SIZE = 0
  /\ (start_addr mm mod (2 ^ Z.of_nat k * PAGE_SIZE) = 0 ->
      p mod (2 ^ Z.of_nat k * PAGE_SIZE) = 0).
Proof.
  intros Hr Hk Ha Hp. destruct (rmm_reachable_inv mm L Hr) as (R & Hinv & Hacct).
  destruct (rmm_allocpages_inv mm L R k mm' p Hinv Hacct Hk Ha)
    as [[E _]|(_ & _ & _ & Ht & _)]; [contradiction|].
  destruct Ht as ((_ & i & Hi & Ea) & _).
  destruct (inv_start mm L R Hinv) as [_ Hal].
  assert (Hb : bsize k = 2 ^ Z.of_nat k * PAGE_SIZE) by (unfold bsize; lia).
  assert (Hpos : 0 < 2 ^ Z.of_nat k) by (apply Z.pow_pos_nonneg; lia).
  rewrite Hb in Ea. split; [|split].
  - rewrite Ea. apply Z.mod_mul. unfold PAGE_SIZE. lia.
  - replace p with (start_addr mm + (i * 2 ^ Z.of_nat k) * PAGE_SIZE) by lia.
    rewrite Z.mod_add by (unfold PAGE_SIZE; lia). exact Hal.
  - intros Hs.
    replace p with (start_addr mm + i * (2 ^ Z.of_nat k * PAGE_SIZE)) by lia.
    rewrite Z.mod_add by (unfold PAGE_SIZE; lia). exact Hs.
Qed.

Lemma rmm_allocpages_aligned_witness :
  exists mm L mm' p,
    rmm_reachable mm L
    /\ rmm_allocpages mm (2 ^ Z.of_nat 1) = Some (mm', p) /\ p <> 0
    /\ (p - start_addr mm) mod (2 ^ Z.of_nat 1 * PAGE_SIZE) = 0
    /\ p mod PAGE_SIZE = 0
    /\ (start_addr mm mod (2 ^ Z.of_nat 1 * PAGE_SIZE) = 0 ->
        p mod (2 ^ Z.of_nat 1 * PAGE_SIZE) = 0).
Proof.
  destruct rmm_sample_alloc_two_pages as (mm0 & mm1 & p & E0 & E1 & Hp).
  assert (Hr : rmm_reachable mm0 []).
  { apply (reach_create 4096 (10 * 2^20)); [|exact E0].
    apply host_region_sample. lia. }
  exists mm0, [], mm1, p. split; [exact Hr|]. split; [exact E1|].
  split; [exact Hp|].
  apply (rmm_allocpages_aligned mm0 [] 1 mm1 p Hr ltac:(lia) E1 Hp).
Defined.

(** Above 8 TiB the page manager miscounts.  Over a region of 9 TiB, two
    pages are handed out and the second is freed: the bit number of the
    page does not fit the [int] of [rmm_freepages1], the probe reads the
    bit of another block, the page is put on the free list of order 1 as a
    block of two pages and [free_size] grows by two pages.  The next
    allocation of two pages returns that block: it is not aligned to two
    pages from [start_addr], and it runs past [end_addr]. *)
Lemma rmm_region_above_8TiB :
  match rmm_create 0x100000000 (9 * 2^40) with
  | Some mm0 =>
      match rmm_allocpages mm0 1 with
      | Some (mm1, p0) =>
          match rmm_allocpages mm1 1 with
          | Some (mm2, p1) =>
              let mm3 := rmm_freepages mm2 p1 in
              p0 <> 0 /\ p1 <> 0
              /\ free_size mm3 = free_size mm2 + 2 * PAGE_SIZE
              /\ freelists mm3 0 = [] /\ freelists mm3 1 = [p1]
              /\ match rmm_allocpages mm3 2 with
                 | Some (mm4, p2) =>
                     p2 = p1
                     /\ (p2 - start_addr mm3) mod (2 * PAGE_SIZE) = PAGE_SIZE
                     /\ end_addr mm3 < p2 + 2 * PAGE_SIZE
                 | None => False
                 end
          | None => False
          end
      | None => False
      end
  | None => False
  end.
Proof. vm_compute. repeat split; try reflexivity; discriminate. Qed.

Lemma rmm_allocpages_null_iff_witness :
  exists mm,
    rmm_wf mm
    /\ exists mm' p,
         rmm_allocpages mm (2 ^ Z.of_nat 0) = Some (mm', p)
         /\ (p = 0 <-> no_free_block mm 0)
         /\ (p = 0 -> mm' = mm)
         /\ (p <> 0 ->
             free_size mm' = free_size mm - 2 ^ Z.of_nat 0 * PAGE_SIZE).
Proof.
  destruct rmm_sample_alloc_page as (mm0 & mm1 & p & E0 & E1 & Hp).
  assert (Hwf : rmm_wf mm0).
  { apply (rmm_reachable_wf mm0 []).
    apply (reach_create 0x100000 (10 * 2^20)); [|exact E0].
    apply host_region_sample. lia. }
  exists mm0. split; [exact Hwf|].
  apply (rmm_allocpages_null_iff mm0 0 Hwf). lia.
Defined.

(** ** vm.c: the page directory *)

Lemma getbits_index x p :
  0 <= getbits x p VM_PTAB_BITS < VM_PTAB_LEN.
Proof.
  unfold getbits.
  change (not64 (wrap64 (Z.shiftl (2^64 - 1) VM_PTAB_BITS))) with (Z.ones 9).
  rewrite Z.land_ones by lia. change VM_PTAB_LEN with (2^9).
  apply Z.mod_pos_bound. lia.
Qed.

Lemma page_number_back p :
  0 <= p < 2^64 -> p mod PAGE_SIZE = 0 ->
  wrap64 (Z.shiftl (Z.shiftr p PAGE_SIZE_BITS) PAGE_SIZE_BITS) = p.
Proof.
  intros Hp Hal. unfold PAGE_SIZE_BITS, PAGE_SIZE in *.
  rewrite Z.shiftr_div_pow2, Z.shiftl_mul_pow2 by lia. change (2^12) with 4096.
  pose proof (Z.div_mod p 4096 ltac:(lia)).
  replace (p / 4096 * 4096) with p by lia. apply wrap64_small. exact Hp.
Qed.

Lemma page_number_nonzero p :
  PAGE_SIZE <= p -> Z.shiftr p PAGE_SIZE_BITS <> 0.
Proof.
  intros Hp. unfold PAGE_SIZE_BITS, PAGE_SIZE in *.
  rewrite Z.shiftr_div_pow2 by lia. change (2^12) with 4096.
  assert (1 <= p / 4096) by (apply Z.div_le_lower_bound; lia). lia.
Qed.

(** A block of one page that is handed out lies in the managed range, at a
    page address. *)
Lemma live_page_facts mm L R t :
  rmm_inv mm L R -> In (0%nat, t) L ->
  t mod PAGE_SIZE = 0 /\ PAGE_SIZE <= t /\ t + PAGE_SIZE <= 2^64.
Proof.
  intros Hinv Hin.
  destruct (inv_live_cover mm L R Hinv 0%nat t Hin) as (a & -> & Ht).
  destruct (in_tree_bounds mm L R 0 a Hinv Ht) as [Ha0 Hhi].
  destruct (inv_start mm L R Hinv) as [Hs Hal].
  destruct (inv_range mm L R Hinv) as [[_ Hend] _].
  destruct Ht as ((_ & i & Hi & Ea) & _).
  change (bsize 0) with PAGE_SIZE in *. unfold PAGE_SIZE in *.
  assert (Hs' : 4096 <= start_addr mm).
  { pose proof (Z.div_mod (start_addr mm) 4096 ltac:(lia)).
    assert (0 < start_addr mm / 4096) by nia. lia. }
  split; [|lia]. subst a. rewrite Z.mod_add by lia. exact Hal.
Qed.

(** What [rmm_allocpages(mm, 1)] does to a page manager in order. *)
Lemma alloc_page_facts mm L R mm' p :
  rmm_inv mm L R -> rmm_acct mm L ->
  rmm_allocpages mm 1 = Some (mm', p) ->
  (p = 0 /\ mm' = mm)
  \/ (rmm_inv mm' ((0%nat, p) :: L) R /\ rmm_acct mm' ((0%nat, p) :: L)
      /\ ~ In (0%nat, p) L
      /\ p mod PAGE_SIZE = 0 /\ PAGE_SIZE <= p /\ p + PAGE_SIZE <= 2^64).
Proof.
  intros Hinv Hacct Ha.
  change 1 with (2 ^ Z.of_nat 0) in Ha.
  destruct (rmm_allocpages_inv mm L R 0 mm' p Hinv Hacct ltac:(lia) Ha)
    as [H|(Hp & Hinv' & Hacct' & _)]; [left; exact H|right].
  split; [exact Hinv'|]. split; [exact Hacct'|].
  split.
  - pose proof (inv_live_nodup mm' _ R Hinv') as Hnd.
    apply NoDup_cons_iff in Hnd. apply Hnd.
  - apply (live_page_facts mm' ((0%nat, p) :: L) R); [exact Hinv'|].
    left. reflexivity.
Qed.


Section VmPagedirFacts.

Variable addr_bits : Z.

Lemma lookup_loop_O pd ptab mv bits :
  lookup_loop addr_bits 0 pd ptab mv bits
  = let index := getbits mv (wrap32 (VFN_BITS addr_bits - (1 + bits)))
                         VM_PTAB_BITS in
    let entry := wrap64 (ptab + sizeof_vm_pte_t * index) in
    if pd_mem pd entry =? 0
    then vm_pagedir_alloc_backing_page pd entry
    else Some (pd, pd_mem pd entry).
Proof. reflexivity. Qed.

Lemma lookup_loop_S n pd ptab mv bits :
  lookup_loop addr_bits (S n) pd ptab mv bits
  = let index := getbits mv (wrap32 (VFN_BITS addr_bits - (1 + bits)))
                         VM_PTAB_BITS in
    let entry := wrap64 (ptab + sizeof_vm_pte_t * index) in
    let bits' := wrap32 (bits + VM_PTAB_BITS) in
    let mv' := getbits mv (wrap32 (VFN_BITS addr_bits - (1 + bits')))
                       (wrap32 (VFN_BITS addr_bits - bits')) in
    if negb (pd_mem pd entry =? 0) then
      lookup_loop addr_bits n pd
        (wrap64 (Z.shiftl (pd_mem pd entry) PAGE_SIZE_BITS)) mv' bits'
    else
      match vm_ptab_create (pd_mm pd) (pd_mem pd) with
      | None => None
      | Some (mm, mem, ptab2) =>
          if ptab2 =? 0 then None
          else
            lookup_loop addr_bits n
              (mk_pagedir (pd_root pd) mm
                 (mem_store mem entry (Z.shiftr ptab2 PAGE_SIZE_BITS)))
              ptab2 mv' bits'
      end.
Proof. reflexivity. Qed.

(** The leaf step: a zero entry gets a fresh backing page. *)
Lemma alloc_backing_page_spec pd entry pd' pte L R :
  rmm_inv (pd_mm pd) L R -> rmm_acct (pd_mm pd) L ->
  vm_pagedir_alloc_backing_page pd entry = Some (pd', pte) ->
  exists p,
    pd' = mk_pagedir (pd_root pd) (pd_mm pd') (mem_store (pd_mem pd) entry pte)
    /\ pte = Z.shiftr p PAGE_SIZE_BITS /\ pte <> 0
    /\ rmm_inv (pd_mm pd') ((0%nat, p) :: L) R
    /\ rmm_acct (pd_mm pd') ((0%nat, p) :: L).
Proof.
  intros Hinv Hacct H. unfold vm_pagedir_alloc_backing_page in H.
  destruct (rmm_allocpages (pd_mm pd) 1) as [[mm1 p]|] eqn:Ea; [|discriminate].
  cbv zeta in H. unfold vm_pte_make in H.
  destruct (Z.eqb_spec (Z.shiftr p PAGE_SIZE_BITS) 0) as [|Hne]; [discriminate|].
  injection H as <- <-. exists p. cbn [pd_root pd_mm pd_mem].
  split; [reflexivity|]. split; [reflexivity|]. split; [exact Hne|].
  destruct (alloc_page_facts _ L R mm1 p Hinv Hacct Ea)
    as [[-> _]|(H1 & H2 & _)]; [|split; assumption].
  exfalso. apply Hne. reflexivity.
Qed.

(** The step that adds a table: the table is a fresh page, zeroed. *)
Lemma ptab_create_spec mm mem mm' mem' p L R :
  rmm_inv mm L R -> rmm_acct mm L ->
  vm_ptab_create mm mem = Some (mm', mem', p) -> p <> 0 ->
  mem' = mem_zero mem p VM_PTAB_SIZE
  /\ rmm_inv mm' ((0%nat, p) :: L) R /\ rmm_acct mm' ((0%nat, p) :: L)
  /\ ~ In (0%nat, p) L
  /\ p mod PAGE_SIZE = 0 /\ PAGE_SIZE <= p /\ p + PAGE_SIZE <= 2^64.
Proof.
  intros Hinv Hacct H Hp. unfold vm_ptab_create, VM_ZERO_PAGES in H.
  change (VM_PTAB_SIZE / PAGE_SIZE) with 1 in H.
  destruct (rmm_allocpages mm 1) as [[mm1 q]|] eqn:Ea; [|discriminate].
  destruct (Z.eqb_spec q 0) as [->|Hq].
  - injection H as _ _ <-. contradiction.
  - injection H as <- <- <-. split; [reflexivity|].
    destruct (alloc_page_facts mm L R mm1 q Hinv Hacct Ea)
      as [[-> _]|H']; [contradiction|exact H'].
Qed.

End VmPagedirFacts.

Section VmPagedirWalk.

Variable addr_bits : Z.

Lemma same_page t1 t2 x :
  t1 mod PAGE_SIZE = 0 -> t2 mod PAGE_SIZE = 0 ->
  t1 <= x < t1 + PAGE_SIZE -> t2 <= x < t2 + PAGE_SIZE -> t1 = t2.
Proof.
  unfold PAGE_SIZE. intros H1 H2 Hx1 Hx2.
  pose proof (Z.div_mod t1 4096 ltac:(lia)).
  pose proof (Z.div_mod t2 4096 ltac:(lia)). lia.
Qed.

(** An entry of a live table lies in the table's page. *)
Lemma entry_in_table mm L R t i :
  rmm_inv mm L R -> In (0%nat, t) L -> 0 <= i < VM_PTAB_LEN ->
  wrap64 (t + sizeof_vm_pte_t * i) = t + sizeof_vm_pte_t * i
  /\ t <= t + sizeof_vm_pte_t * i < t + PAGE_SIZE.
Proof.
  intros Hinv Hin Hi.
  destruct (live_page_facts mm L R t Hinv Hin) as (_ & Hlo & Hhi).
  change VM_PTAB_LEN with 512 in Hi. unfold sizeof_vm_pte_t, PAGE_SIZE in *.
  split; [apply wrap64_small|]; lia.
Qed.

(** A walk changes no non-zero word of an existing table and keeps the
    tables in order; the entry it returns holds the page number of a live
    page; and a second walk for the same frame number follows the same
    tables to the same entry. *)
Lemma lookup_loop_repeat n :
  forall pd ptab mv bits pd' pte L R lvl,
  rmm_inv (pd_mm pd) L R -> rmm_acct (pd_mm pd) L ->
  tables_ok (pd_mem pd) L lvl -> lvl ptab = Some n ->
  lookup_loop addr_bits n pd ptab mv bits = Some (pd', pte) ->
  pd_root pd' = pd_root pd
  /\ (exists L' lvl',
        rmm_inv (pd_mm pd') L' R /\ rmm_acct (pd_mm pd') L'
        /\ tables_ok (pd_mem pd') L' lvl'
        /\ (forall t d, lvl t = Some d -> lvl' t = Some d)
        /\ exists p, In (0%nat, p) L' /\ pte = Z.shiftr p PAGE_SIZE_BITS)
  /\ (forall x t d, lvl t = Some d -> t <= x < t + PAGE_SIZE ->
        pd_mem pd x <> 0 -> pd_mem pd' x = pd_mem pd x)
  /\ lookup_loop addr_bits n pd' ptab mv bits = Some (pd', pte).
Proof.
  induction n as [|n IH];
    intros pd ptab mv bits pd' pte L R lvl Hinv Hacct Htb Hlvl H.
  - rewrite lookup_loop_O in H |- *. cbv zeta in *.
    set (idx := getbits mv (wrap32 (VFN_BITS addr_bits - (1 + bits)))
                  VM_PTAB_BITS) in *.
    pose proof (getbits_index mv (wrap32 (VFN_BITS addr_bits - (1 + bits))))
      as Hidx. fold idx in Hidx.
    pose proof (tb_live _ _ _ Htb ptab 0%nat Hlvl) as Hlive.
    destruct (entry_in_table _ L R ptab idx Hinv Hlive Hidx) as [Ew Hin].
    rewrite Ew in *.
    set (entry := ptab + sizeof_vm_pte_t * idx) in *.
    destruct (live_page_facts _ L R ptab Hinv Hlive) as (Hpal & _ & _).
    destruct (Z.eqb_spec (pd_mem pd entry) 0) as [E0|Hne].
    + destruct (alloc_backing_page_spec pd entry pd' pte L R Hinv Hacct H)
        as (p & Epd & Epte & Hpte & Hinv' & Hacct').
      assert (Em : pd_mem pd' entry = pte).
      { rewrite Epd. cbn [pd_mem]. unfold mem_store.
        rewrite Z.eqb_refl. reflexivity. }
      assert (Hother : forall x, x <> entry -> pd_mem pd' x = pd_mem pd x).
      { intros x Hx. rewrite Epd. cbn [pd_mem]. unfold mem_store.
        destruct (Z.eqb_spec x entry); [contradiction|reflexivity]. }
      split; [rewrite Epd; reflexivity|]. split; [|split].
      * exists ((0%nat, p) :: L), lvl.
        split; [exact Hinv'|]. split; [exact Hacct'|].
        split; [|split; [intros t d Ht; exact Ht|]].
        -- constructor.
           ++ intros t d Ht. right. apply (tb_live _ _ _ Htb t d Ht).
           ++ intros t d i Ht Hi.
              pose proof (tb_live _ _ _ Htb t _ Ht) as Hlt.
              destruct (entry_in_table _ L R t i Hinv Hlt Hi) as [_ Hin'].
              destruct (live_page_facts _ L R t Hinv Hlt) as (Htal & _ & _).
              assert (Hx : t + sizeof_vm_pte_t * i <> entry).
              { intros E. rewrite E in Hin'.
                pose proof (same_page t ptab entry Htal Hpal Hin' Hin) as Et.
                rewrite Et in Ht. congruence. }
              rewrite (Hother _ Hx). apply (tb_child _ _ _ Htb t d i Ht Hi).
           ++ intros t i Ht Hi Hnz.
              destruct (Z.eq_dec (t + sizeof_vm_pte_t * i) entry) as [E|Hx].
              ** exists p. split; [left; reflexivity|].
                 rewrite E, Em. exact Epte.
              ** rewrite (Hother _ Hx) in Hnz |- *.
                 destruct (tb_leaf _ _ _ Htb t i Ht Hi Hnz) as (q & Hq & Eq).
                 exists q. split; [right; exact Hq|exact Eq].
        -- exists p. split; [left; reflexivity|exact Epte].
      * intros x t d Ht Hx Hnz. apply Hother. intros ->. contradiction.
      * rewrite Em. destruct (Z.eqb_spec pte 0); [contradiction|reflexivity].
    + injection H as <- <-.
      split; [reflexivity|]. split; [|split].
      * exists L, lvl. split; [exact Hinv|]. split; [exact Hacct|].
        split; [exact Htb|]. split; [intros t d Ht; exact Ht|].
        apply (tb_leaf _ _ _ Htb ptab idx Hlvl Hidx Hne).
      * reflexivity.
      * destruct (Z.eqb_spec (pd_mem pd entry) 0); [contradiction|reflexivity].
  - rewrite lookup_loop_S in H |- *. cbv zeta in *.
    set (idx := getbits mv (wrap32 (VFN_BITS addr_bits - (1 + bits)))
                  VM_PTAB_BITS) in *.
    pose proof (getbits_index mv (wrap32 (VFN_BITS addr_bits - (1 + bits))))
      as Hidx. fold idx in Hidx.
    pose proof (tb_live _ _ _ Htb ptab _ Hlvl) as Hlive.
    destruct (entry_in_table _ L R ptab idx Hinv Hlive Hidx) as [Ew Hin].
    rewrite Ew in *.
    set (entry := ptab + sizeof_vm_pte_t * idx) in *.
    destruct (live_page_facts _ L R ptab Hinv Hlive) as (Hpal & _ & _).
    set (bits' := wrap32 (bits + VM_PTAB_BITS)) in *.
    set (mv' := getbits mv (wrap32 (VFN_BITS addr_bits - (1 + bits')))
                  (wrap32 (VFN_BITS addr_bits - bits'))) in *.
    destruct (Z.eqb_spec (pd_mem pd entry) 0) as [E0|Hne]; cbn [negb] in H.
    + destruct (vm_ptab_create (pd_mm pd) (pd_mem pd))
        as [[[mm1 mem1] p]|] eqn:Ec; [|discriminate].
      destruct (Z.eqb_spec p 0) as [|Hp]; [discriminate|].
      destruct (ptab_create_spec _ _ mm1 mem1 p L R Hinv Hacct Ec Hp)
        as (Emem & Hinv1 & Hacct1 & Hfresh & Hal & Hlo & Hhi).
      subst mem1.
      set (mem2 := mem_store (mem_zero (pd_mem pd) p VM_PTAB_SIZE) entry
                     (Z.shiftr p PAGE_SIZE_BITS)) in *.
      set (pd2 := mk_pagedir (pd_root pd) mm1 mem2) in *.
      set (lvl2 := fun t => if t =? p then Some n else lvl t).
      pose proof (page_number_nonzero p Hlo) as Hnz.
      assert (Hback : wrap64 (Z.shiftl (Z.shiftr p PAGE_SIZE_BITS)
                                PAGE_SIZE_BITS) = p)
        by (apply page_number_back; unfold PAGE_SIZE in *; lia).
      assert (Hold : forall t d, lvl t = Some d -> t <> p).
      { intros t d Ht ->. apply Hfresh. apply (tb_live _ _ _ Htb p d Ht). }
      assert (Hlvl2 : forall t d, lvl t = Some d -> lvl2 t = Some d).
      { intros t d Ht. unfold lvl2.
        destruct (Z.eqb_spec t p) as [E|_]; [|exact Ht].
        exfalso. apply (Hold t d Ht E). }
      assert (E2 : mem2 entry = Z.shiftr p PAGE_SIZE_BITS).
      { unfold mem2, mem_store. rewrite Z.eqb_refl. reflexivity. }
      assert (Hkeep : forall x t d, lvl t = Some d -> t <= x < t + PAGE_SIZE ->
                x <> entry -> mem2 x = pd_mem pd x).
      { intros x t d Ht Hx Hxe. unfold mem2, mem_store, mem_zero.
        destruct (Z.eqb_spec x entry); [contradiction|].
        destruct (Z.leb_spec p x); [|reflexivity].
        destruct (Z.ltb_spec x (p + VM_PTAB_SIZE)); [|reflexivity].
        exfalso. apply (Hold t d Ht).
        pose proof (tb_live _ _ _ Htb t d Ht) as Hlt.
        destruct (live_page_facts _ L R t Hinv Hlt) as (Htal & _ & _).
        apply (same_page t p x); try assumption.
        change VM_PTAB_SIZE with PAGE_SIZE in *. cbn [andb]. lia. }
      assert (Hnew : forall i, 0 <= i < VM_PTAB_LEN ->
                mem2 (p + sizeof_vm_pte_t * i) = 0).
      { intros i Hi. unfold mem2, mem_store, mem_zero.
        change VM_PTAB_LEN with 512 in Hi.
        change VM_PTAB_SIZE with 4096. unfold sizeof_vm_pte_t.
        destruct (Z.eqb_spec (p + 8 * i) entry) as [E|_].
        - exfalso. apply (Hold ptab _ Hlvl).
          apply (same_page ptab p entry); try assumption.
          rewrite <- E. unfold PAGE_SIZE. lia.
        - destruct (Z.leb_spec p (p + 8 * i)); [|lia].
          destruct (Z.ltb_spec (p + 8 * i) (p + 4096)); [reflexivity|lia]. }
      assert (Htb2 : tables_ok mem2 ((0%nat, p) :: L) lvl2).
      { constructor.
        - intros t d Ht. unfold lvl2 in Ht.
          destruct (Z.eqb_spec t p) as [->|_]; [left; reflexivity|].
          right. apply (tb_live _ _ _ Htb t d Ht).
        - intros t d i Ht Hi Hnz2. unfold lvl2 in Ht.
          destruct (Z.eqb_spec t p) as [->|Htp].
          + exfalso. apply Hnz2. apply Hnew. exact Hi.
          + pose proof (tb_live _ _ _ Htb t _ Ht) as Hlt.
            destruct (entry_in_table _ L R t i Hinv Hlt Hi) as [_ Hin'].
            destruct (live_page_facts _ L R t Hinv Hlt) as (Htal & _ & _).
            destruct (Z.eq_dec (t + sizeof_vm_pte_t * i) entry) as [E|Hxe].
            * rewrite E in Hin' |- *.
              pose proof (same_page t ptab entry Htal Hpal Hin' Hin) as Et.
              rewrite Et in Ht. rewrite Hlvl in Ht. injection Ht as <-.
              rewrite E2, Hback. unfold lvl2. rewrite Z.eqb_refl. reflexivity.
            * rewrite (Hkeep _ t _ Ht Hin' Hxe) in Hnz2 |- *.
              apply Hlvl2. apply (tb_child _ _ _ Htb t d i Ht Hi Hnz2).
        - intros t i Ht Hi Hnz2. unfold lvl2 in Ht.
          destruct (Z.eqb_spec t p) as [->|Htp].
          + exfalso. apply Hnz2. apply Hnew. exact Hi.
          + pose proof (tb_live _ _ _ Htb t _ Ht) as Hlt.
            destruct (entry_in_table _ L R t i Hinv Hlt Hi) as [_ Hin'].
            destruct (live_page_facts _ L R t Hinv Hlt) as (Htal & _ & _).
            assert (Hxe : t + sizeof_vm_pte_t * i <> entry).
            { intros E. rewrite E in Hin'.
              pose proof (same_page t ptab entry Htal Hpal Hin' Hin) as Et.
              rewrite Et in Ht. congruence. }
            rewrite (Hkeep _ t _ Ht Hin' Hxe) in Hnz2 |- *.
            destruct (tb_leaf _ _ _ Htb t i Ht Hi Hnz2) as (q & Hq & Eq).
            exists q. split; [right; exact Hq|exact Eq]. }
      assert (Hp2 : lvl2 p = Some n)
        by (unfold lvl2; rewrite Z.eqb_refl; reflexivity).
      destruct (IH pd2 p mv' bits' pd' pte _ R lvl2 Hinv1 Hacct1 Htb2 Hp2 H)
        as (Hroot & (L' & lvl' & Hinv' & Hacct' & Htb' & Hext & Hleaf)
            & Hframe & Hrep).
      assert (Em : pd_mem pd' entry = Z.shiftr p PAGE_SIZE_BITS).
      { rewrite (Hframe entry ptab (S n)); [exact E2| |exact Hin|].
        - apply Hlvl2. exact Hlvl.
        - cbn [pd_mem pd2]. rewrite E2. exact Hnz. }
      split; [exact Hroot|]. split; [|split].
      * exists L', lvl'. split; [exact Hinv'|]. split; [exact Hacct'|].
        split; [exact Htb'|]. split; [|exact Hleaf].
        intros t d Ht. apply Hext, Hlvl2, Ht.
      * intros x t d Ht Hx Hxnz.
        assert (Hxe : x <> entry) by (intros ->; contradiction).
        rewrite (Hframe x t d (Hlvl2 t d Ht) Hx).
        -- apply (Hkeep x t d Ht Hx Hxe).
        -- cbn [pd_mem pd2]. rewrite (Hkeep x t d Ht Hx Hxe). exact Hxnz.
      * rewrite Em.
        destruct (Z.eqb_spec (Z.shiftr p PAGE_SIZE_BITS) 0); [contradiction|].
        cbn [negb]. rewrite Hback. exact Hrep.
    + pose proof (tb_child _ _ _ Htb ptab n idx Hlvl Hidx Hne) as Hchild.
      fold entry in Hchild.
      destruct (IH pd _ mv' bits' pd' pte L R lvl Hinv Hacct Htb Hchild H)
        as (Hroot & HL' & Hframe & Hrep).
      split; [exact Hroot|]. split; [exact HL'|]. split; [exact Hframe|].
      rewrite (Hframe entry ptab (S n) Hlvl Hin Hne).
      destruct (Z.eqb_spec (pd_mem pd entry) 0); [contradiction|].
      cbn [negb]. exact Hrep.
Qed.

Variable addr_max : Z.
Variable levels : nat.
Variable mask : Z.

(** A walk keeps the page directory in order; the entry it returns holds
    the page number of a page of the page manager; and a second walk for
    the same frame number changes nothing and yields the same entry. *)
Lemma lookup_pte_repeat pd vfn pd' pte :
  pagedir_inv levels pd ->
  vm_pagedir_lookup_pte addr_bits levels pd vfn = Some (pd', pte) ->
  pagedir_inv levels pd'
  /\ vm_pagedir_lookup_pte addr_bits levels pd' vfn = Some (pd', pte)
  /\ exists p, pte = Z.shiftr p PAGE_SIZE_BITS
               /\ p mod PAGE_SIZE = 0 /\ PAGE_SIZE <= p
               /\ p + PAGE_SIZE <= 2^64.
Proof.
  intros (Hral & L & R & Hinv & Hacct & lvl & Htb & Hroot) H.
  unfold vm_pagedir_lookup_pte, pagedir_inv in *.
  destruct (lookup_loop_repeat _ pd _ _ _ pd' pte L R lvl
              Hinv Hacct Htb Hroot H)
    as (Er & (L' & lvl' & Hinv' & Hacct' & Htb' & Hext & p & Hp & Epte)
        & _ & Hrep).
  rewrite Er. split; [|split; [exact Hrep|]].
  - split; [exact Hral|].
    exists L', R. split; [exact Hinv'|]. split; [exact Hacct'|].
    exists lvl'. split; [exact Htb'|]. apply Hext. exact Hroot.
  - exists p. split; [exact Epte|].
    apply (live_page_facts _ L' R p Hinv' Hp).
Qed.




(** The miss handler keeps the page directory in order. *)
Lemma vm_cache_miss_inv cache pd vaddr op cache' pd' r :
  pagedir_inv levels pd ->
  _vm_cache_miss addr_bits addr_max levels mask cache pd vaddr op
  = Some (cache', pd', r) ->
  pagedir_inv levels pd'.
Proof.
  intros Hpd H. unfold _vm_cache_miss in H.
  destruct ((vaddr <? VM_ADDR_MIN) || (addr_max <? vaddr)); [discriminate|].
  destruct (negb (IS_ALIGN2 vaddr (VM_OP_ALIGNMENT op))); [discriminate|].
  destruct (vm_pagedir_lookup_pte addr_bits levels pd (VM_VFN vaddr))
    as [[pd1 pte]|] eqn:Ew; [|discriminate].
  destruct (lookup_pte_repeat pd _ pd1 pte Hpd Ew) as [Hpd1 _].
  cbv zeta in H.
  destruct (wrap64 (Z.shiftl (outaddr pte) PAGE_SIZE_BITS) =? 0).
  - injection H as _ <- _. exact Hpd1.
  - destruct (vm_cache_add mask cache (VM_PAGE_ADDR vaddr)
                (wrap64 (Z.shiftl (outaddr pte) PAGE_SIZE_BITS))) as [c1 d].
    injection H as _ <- _. exact Hpd1.
Qed.

(** [vm_pagedir_init] over a page manager in order gives a page directory
    in order. *)
Lemma vm_pagedir_init_inv mm mem pd L R :
  rmm_inv mm L R -> rmm_acct mm L ->
  vm_pagedir_init mm mem = Some pd -> pagedir_inv levels pd.
Proof.
  intros Hinv Hacct H. unfold vm_pagedir_init in H.
  destruct (vm_ptab_create mm mem) as [[[mm1 mem1] p]|] eqn:Ec;
    [|discriminate].
  destruct (Z.eqb_spec p 0) as [|Hp]; [discriminate|].
  injection H as <-.
  destruct (ptab_create_spec mm mem mm1 mem1 p L R Hinv Hacct Ec Hp)
    as (Emem & Hinv1 & Hacct1 & _ & Hal & _ & _).
  split; [exact Hal|].
  exists ((0%nat, p) :: L), R. cbn [pd_mm pd_mem pd_root].
  split; [exact Hinv1|]. split; [exact Hacct1|].
  subst mem1.
  assert (Hzero : forall i, 0 <= i < VM_PTAB_LEN ->
            mem_zero mem p VM_PTAB_SIZE (p + sizeof_vm_pte_t * i) = 0).
  { intros i Hi. unfold mem_zero.
    change VM_PTAB_LEN with 512 in Hi. change VM_PTAB_SIZE with 4096.
    unfold sizeof_vm_pte_t.
    destruct (Z.leb_spec p (p + 8 * i)); [|lia].
    destruct (Z.ltb_spec (p + 8 * i) (p + 4096)); [reflexivity|lia]. }
  exists (fun t => if t =? p then Some (levels - 1)%nat else None).
  split; [|rewrite Z.eqb_refl; reflexivity]. constructor.
  - intros t d Ht. destruct (Z.eqb_spec t p) as [->|_]; [|discriminate].
    left. reflexivity.
  - intros t d i Ht Hi Hnz. destruct (Z.eqb_spec t p) as [->|_]; [|discriminate].
    exfalso. apply Hnz. apply Hzero. exact Hi.
  - intros t i Ht Hi Hnz. destruct (Z.eqb_spec t p) as [->|_]; [|discriminate].
    exfalso. apply Hnz. apply Hzero. exact Hi.
Qed.

End VmPagedirWalk.

(** A store of four bytes at 0xdeadbee4 misses the fresh cache of a fresh
    page directory with four levels of tables. *)
Lemma vm_sample_miss :
  exists mm0 pd cache' pd' r,
    rmm_create 0x100000 (10 * 2^20) = Some mm0
    /\ vm_pagedir_init mm0 (fun _ => 0) = Some pd
    /\ _vm_cache_miss 48 (2^48 - 1) 4 255 vm_cache_init pd 0xdeadbee4
         (VM_OP_MAKE VM_OP_STORE 4) = Some (cache', pd', r).
Proof.
  assert (X : match rmm_create 0x100000 (10 * 2^20) with
              | Some mm0 =>
                  match vm_pagedir_init mm0 (fun _ => 0) with
                  | Some pd =>
                      match _vm_cache_miss 48 (2^48 - 1) 4 255
                              vm_cache_init pd 0xdeadbee4
                              (VM_OP_MAKE VM_OP_STORE 4) with
                      | Some _ => True
                      | None => False
                      end
                  | None => False
                  end
              | None => False
              end) by (vm_compute; exact I).
  destruct (rmm_create 0x100000 (10 * 2^20)) as [mm0|]; [|contradiction].
  destruct (vm_pagedir_init mm0 (fun _ => 0)) as [pd|] eqn:E1;
    [|contradiction].
  destruct (_vm_cache_miss 48 (2^48 - 1) 4 255 vm_cache_init pd
              0xdeadbee4 (VM_OP_MAKE VM_OP_STORE 4))
    as [[[cache' pd'] r]|] eqn:E2; [|contradiction].
  exists mm0, pd, cache', pd', r.
  split; [reflexivity|]. split; [exact E1|exact E2].
Qed.


(** ** mem_mm.c: the blocks handed out *)

Lemma node_nested_or_apart k1 a1 k2 a2 :
  node k1 a1 -> node k2 a2 -> (k1 <= k2)%nat ->
  within k1 a1 k2 a2 \/ a1 + bsize k1 <= a2 \/ a2 + bsize k2 <= a1.
Proof.
  intros (_ & i & Hi & ->) (_ & j & Hj & ->) Hle.
  destruct (bsize_mult k1 k2 Hle) as (D & HD & E).
  pose proof (bsize_pos k1) as Hb. rewrite E. unfold within. rewrite E.
  destruct (Z_lt_le_dec i (j * D)) as [Hlt|Hge].
  - right. left. nia.
  - destruct (Z_lt_le_dec i ((j + 1) * D)) as [Hlt|Hge'].
    + left. split; [exact Hle|]. split; nia.
    + right. right. nia.
Qed.

(** Two blocks handed out are apart; [a1], [a2] are their offsets. *)
Lemma live_nodes_apart mm L R k1 p1 k2 p2 :
  rmm_inv mm L R -> In (k1, p1) L -> In (k2, p2) L -> (k1 <= k2)%nat ->
  (k1, p1) <> (k2, p2) ->
  p1 + bsize k1 <= p2 \/ p2 + bsize k2 <= p1.
Proof.
  intros Hinv H1 H2 Hle Hne.
  destruct (inv_live_node mm L R k1 p1 Hinv H1) as (a1 & E1 & Ht1 & _ & _ & _).
  destruct (inv_live_node mm L R k2 p2 Hinv H2) as (a2 & E2 & Ht2 & _ & _ & Hbb).
  destruct (node_nested_or_apart k1 a1 k2 a2 (proj1 Ht1) (proj1 Ht2) Hle)
    as [Hw|[Hap|Hap]]; [|left; lia|right; lia].
  exfalso. destruct (Nat.eq_dec k1 k2) as [Ek|Hk].
  - subst k2. apply within_same in Hw. apply Hne. f_equal. lia.
  - assert (Hb : blank mm L k1 a1).
    { apply (below_blank_inside mm L k2 a2); try assumption;
        [apply Ht1|apply Ht2|lia]. }
    apply blank_eq in Hb. destruct Hb as (_ & _ & Hnl & _).
    apply Hnl. unfold islive. rewrite <- E1. exact H1.
Qed.

Lemma rmm_allocpages1_range fuel :
  forall mm k mm' a, rmm_allocpages1 fuel mm k = (mm', a) ->
  start_addr mm' = start_addr mm /\ end_addr mm' = end_addr mm.
Proof.
  induction fuel as [|fuel IH]; intros mm k mm' a H; cbn [rmm_allocpages1] in H;
    destruct (MAX_ORDER <? k)%nat;
    try (injection H as <- <-; split; reflexivity).
  - destruct (ilist_pop (freelists mm k)) as [[e r]|];
      [destruct (e =? 0)|]; injection H as <- <-; split; reflexivity.
  - destruct (ilist_pop (freelists mm k)) as [[e r]|];
      [destruct (e =? 0)|]; try (injection H as <- <-; split; reflexivity).
    + destruct (rmm_allocpages1 fuel (set_freelist mm k r) (S k))
        as [m0 addr] eqn:E.
      apply IH in E. cbn [start_addr end_addr set_freelist] in E.
      destruct (addr =? UINTPTR_MAX); injection H as <- <-; exact E.
    + destruct (rmm_allocpages1 fuel mm (S k)) as [m0 addr] eqn:E.
      apply IH in E.
      destruct (addr =? UINTPTR_MAX); injection H as <- <-; exact E.
Qed.

Lemma rmm_allocpages_range mm n mm' p :
  rmm_allocpages mm n = Some (mm', p) ->
  start_addr mm' = start_addr mm /\ end_addr mm' = end_addr mm.
Proof.
  unfold rmm_allocpages. intros H.
  destruct (n =? 0); [injection H as <- <-; split; reflexivity|].
  destruct (negb (IS_POW2 n)); [discriminate|].
  destruct (rmm_allocpages1 (S MAX_ORDER) mm (order_of_npages 64 n 0))
    as [m0 addr] eqn:E.
  apply rmm_allocpages1_range in E.
  destruct (addr =? UINTPTR_MAX); injection H as <- <-; exact E.
Qed.

Lemma rmm_freepages1_range fuel :
  forall mm a k mm' r, rmm_freepages1 fuel mm a k = (mm', r) ->
  start_addr mm' = start_addr mm /\ end_addr mm' = end_addr mm.
Proof.
  induction fuel as [|fuel IH]; intros mm a k mm' r H; cbn [rmm_freepages1] in H;
    destruct (MAX_ORDER <? k)%nat;
    try (injection H as <- <-; split; reflexivity).
  - destruct (negb (bit_get (bitsets mm k) (to_int (a / order_size k))));
      [injection H as <- <-; split; reflexivity|].
    match type of H with
    | (if ?c then _ else _) = _ => destruct c
    end; injection H as <- <-; split; reflexivity.
  - destruct (negb (bit_get (bitsets mm k) (to_int (a / order_size k))));
      [apply IH in H; exact H|].
    match type of H with
    | (if ?c then _ else _) = _ => destruct c
    end; [|injection H as <- <-; split; reflexivity].
    injection H as <- <-.
    match goal with
    | |- context [rmm_freepages1 fuel ?m ?x ?o] =>
        destruct (rmm_freepages1 fuel m x o) as [m1 r1] eqn:E
    end.
    apply IH in E. exact E.
Qed.

Lemma rmm_freepages_range mm p :
  start_addr (rmm_freepages mm p) = start_addr mm
  /\ end_addr (rmm_freepages mm p) = end_addr mm.
Proof.
  unfold rmm_freepages.
  destruct (rmm_freepages1 (S MAX_ORDER) mm (wrap64 (p - start_addr mm)) 0)
    as [m1 r] eqn:E.
  apply rmm_freepages1_range in E. destruct (0 <=? r); exact E.
Qed.

Lemma rmm_reachable_range mm L :
  rmm_reachable mm L ->
  (end_addr mm - start_addr mm) mod PAGE_SIZE = 0
  /\ 0 <= end_addr mm - start_addr mm < 2^64.
Proof.
  induction 1 as [memp memsize mm Hh Hc
                 | mm L k mm' p Hr IH Hk Ha Hp
                 | mm L k mm' Hr IH Hk Ha
                 | mm L k p Hr IH Hin].
  - destruct (rmm_create_layout memp memsize mm Hh Hc)
      as (start & T & Hst & Hal & HT & HTal & HT43 & Hend & ->).
    match goal with
    | |- context [rmm_seed ?f ?m ?n ?s] =>
        destruct (rmm_seed_inv f m [] 0 MAX_ORDER n) as (_ & E1 & E2 & _)
    end.
    + apply seed_inv_init; reflexivity.
    + apply Z.div_pos; unfold PAGE_SIZE; lia.
    + cbn [start_addr]. lia.
    + lia.
    + cbn [start_addr].
      pose proof (Z.div_mod T PAGE_SIZE ltac:(unfold PAGE_SIZE; lia)). lia.
    + unfold seed_fuel, MAX_ORDER. lia.
    + cbn [start_addr end_addr] in E1, E2.
      replace (start + 0) with start in * by lia.
      rewrite E1, E2. replace (start + T - start) with T by lia.
      split; [exact HTal|]. change (2^43) with 8796093022208 in HT43.
      change (2^64) with 18446744073709551616. lia.
  - destruct (rmm_allocpages_range mm _ mm' p Ha) as [-> ->]. exact IH.
  - destruct (rmm_allocpages_range mm _ mm' 0 Ha) as [-> ->]. exact IH.
  - destruct (rmm_freepages_range mm p) as [-> ->]. exact IH.
Qed.

Lemma live_bytes_pages L : live_bytes L = PAGE_SIZE * live_pages L.
Proof.
  unfold live_bytes, live_pages.
  induction L as [|[k p] L IH]; cbn [map fold_right fst]; [lia|].
  rewrite IH. unfold bsize. lia.
Qed.

(** A fresh manager over 10 MiB at 1 MiB hands out two single pages, and
    has a block of four pages left on the free list of order 2. *)
Lemma rmm_sample_two_pages :
  exists mm0 mm1 p mm2 q e l,
    rmm_create 0x100000 (10 * 2^20) = Some mm0
    /\ rmm_allocpages mm0 (2 ^ Z.of_nat 0) = Some (mm1, p)
    /\ rmm_allocpages mm1 (2 ^ Z.of_nat 0) = Some (mm2, q)
    /\ p <> 0 /\ q <> 0 /\ p <> q /\ freelists mm2 2 = e :: l.
Proof.
  assert (X : match rmm_create 0x100000 (10 * 2^20) with
              | Some mm0 =>
                  match rmm_allocpages mm0 (2 ^ Z.of_nat 0) with
                  | Some (mm1, p) =>
                      match rmm_allocpages mm1 (2 ^ Z.of_nat 0) with
                      | Some (mm2, q) =>
                          p <> 0 /\ q <> 0 /\ p <> q
                          /\ freelists mm2 2 <> []
                      | None => False
                      end
                  | None => False
                  end
              | None => False
              end) by (vm_compute; repeat split; discriminate).
  destruct (rmm_create 0x100000 (10 * 2^20)) as [mm0|]; [|contradiction].
  destruct (rmm_allocpages mm0 (2 ^ Z.of_nat 0)) as [[mm1 p]|] eqn:E1;
    [|contradiction].
  destruct (rmm_allocpages mm1 (2 ^ Z.of_nat 0)) as [[mm2 q]|] eqn:E2;
    [|contradiction].
  destruct X as (Hp & Hq & Hpq & Hf).
  destruct (freelists mm2 2) as [|e l] eqn:Ef; [contradiction|].
  exists mm0, mm1, p, mm2, q, e, l. repeat split; assumption.
Qed.

Lemma rmm_sample_two_pages_reachable :
  exists mm p q e,
    rmm_reachable mm [(0%nat, q); (0%nat, p)] /\ p <> q
    /\ In e (freelists mm 2).
Proof.
  destruct rmm_sample_two_pages
    as (mm0 & mm1 & p & mm2 & q & e & l & E0 & E1 & E2 & Hp & Hq & Hpq & Ef).
  exists mm2, p, q, e. split; [|split; [exact Hpq|rewrite Ef; left; reflexivity]].
  apply (reach_alloc mm1 _ 0 mm2 q); [|lia|exact E2|exact Hq].
  apply (reach_alloc mm0 [] 0 mm1 p); [|lia|exact E1|exact Hp].
  apply (reach_create 0x100000 (10 * 2^20)); [|exact E0].
  apply host_region_sample. lia.
Qed.

(** X1.  In every state reached from [rmm_create] over a region of less
    than 8 TiB, [rmm_avail_total] and the pages of the blocks handed out
    and not yet freed add up to [rmm_cap]: no page is lost from or added to
    the account. *)
Theorem rmm_pages_conserved mm L :
  rmm_reachable mm L -> rmm_avail_total mm + live_pages L = rmm_cap mm.
Proof.
  intros Hr. destruct (rmm_reachable_inv mm L Hr) as (R & Hinv & [_ Hacct]).
  destruct (rmm_reachable_range mm L Hr) as [Hmod Hrange].
  unfold rmm_avail_total, rmm_cap. rewrite wrap64_small by exact Hrange.
  rewrite live_bytes_pages in Hacct.
  assert (E : end_addr mm - start_addr mm
              = PAGE_SIZE * ((end_addr mm - start_addr mm) / PAGE_SIZE)).
  { pose proof (Z.div_mod (end_addr mm - start_addr mm) PAGE_SIZE
                  ltac:(unfold PAGE_SIZE; lia)). lia. }
  set (c := (end_addr mm - start_addr mm) / PAGE_SIZE) in *.
  assert (Ef : free_size mm = (c - live_pages L) * PAGE_SIZE) by lia.
  rewrite Ef, Z.div_mul by (unfold PAGE_SIZE; lia). lia.
Qed.

Lemma rmm_pages_conserved_witness :
  exists mm L,
    rmm_reachable mm L /\ rmm_avail_total mm + live_pages L = rmm_cap mm.
Proof.
  destruct rmm_sample_two_pages_reachable as (mm & p & q & e & Hr & _ & _).
  exists mm, [(0%nat, q); (0%nat, p)]. split; [exact Hr|].
  apply (rmm_pages_conserved mm _ Hr).
Defined.

(** X2.  In every state reached from [rmm_create] over a region of less
    than 8 TiB, a block handed out and not yet freed has an order up to
    [MAX_ORDER] and lies inside the managed range
    [[start_addr, end_addr)]. *)
Theorem live_block_in_range mm L k p :
  rmm_reachable mm L -> In (k, p) L ->
  (k <= MAX_ORDER)%nat
  /\ start_addr mm <= p /\ p + order_size k <= end_addr mm.
Proof.
  intros Hr Hin. destruct (rmm_reachable_inv mm L Hr) as (R & Hinv & _).
  destruct (inv_live_node mm L R k p Hinv Hin) as (a & -> & Ht & _).
  destruct (in_tree_bounds mm L R k a Hinv Ht) as [H0 Hhi].
  pose proof (node_order k a (proj1 Ht)) as Hk.
  rewrite order_size_bsize by exact Hk. split; [exact Hk|]. lia.
Qed.

Lemma live_block_in_range_witness :
  exists mm L k p,
    rmm_reachable mm L /\ In (k, p) L
    /\ (k <= MAX_ORDER)%nat
    /\ start_addr mm <= p /\ p + order_size k <= end_addr mm.
Proof.
  destruct rmm_sample_two_pages_reachable as (mm & p & q & e & Hr & _ & _).
  assert (Hin : In (0%nat, p) [(0%nat, q); (0%nat, p)])
    by (right; left; reflexivity).
  exists mm, [(0%nat, q); (0%nat, p)], 0%nat, p.
  split; [exact Hr|]. split; [exact Hin|].
  apply (live_block_in_range mm _ 0 p Hr Hin).
Defined.

(** X3.  In every state reached from [rmm_create] over a region of less
    than 8 TiB, two different blocks handed out and not yet freed do not
    overlap. *)
Theorem live_blocks_disjoint mm L k1 p1 k2 p2 :
  rmm_reachable mm L -> In (k1, p1) L -> In (k2, p2) L ->
  (k1, p1) <> (k2, p2) ->
  p1 + order_size k1 <= p2 \/ p2 + order_size k2 <= p1.
Proof.
  intros Hr H1 H2 Hne. destruct (rmm_reachable_inv mm L Hr) as (R & Hinv & _).
  destruct (inv_live_node mm L R k1 p1 Hinv H1) as (a1 & _ & Ht1 & _).
  destruct (inv_live_node mm L R k2 p2 Hinv H2) as (a2 & _ & Ht2 & _).
  rewrite !order_size_bsize
    by (apply (node_order _ _ (proj1 Ht1)) || apply (node_order _ _ (proj1 Ht2))).
  destruct (Nat.le_ge_cases k1 k2) as [Hle|Hge].
  - apply (live_nodes_apart mm L R k1 p1 k2 p2 Hinv H1 H2 Hle Hne).
  - destruct (live_nodes_apart mm L R k2 p2 k1 p1 Hinv H2 H1 Hge) as [H|H].
    + intros E. apply Hne. symmetry. exact E.
    + right. exact H.
    + left. exact H.
Qed.

Lemma live_blocks_disjoint_witness :
  exists mm L k1 p1 k2 p2,
    rmm_reachable mm L /\ In (k1, p1) L /\ In (k2, p2) L
    /\ (k1, p1) <> (k2, p2)
    /\ (p1 + order_size k1 <= p2 \/ p2 + order_size k2 <= p1).
Proof.
  destruct rmm_sample_two_pages_reachable as (mm & p & q & e & Hr & Hpq & _).
  assert (H1 : In (0%nat, p) [(0%nat, q); (0%nat, p)])
    by (right; left; reflexivity).
  assert (H2 : In (0%nat, q) [(0%nat, q); (0%nat, p)])
    by (left; reflexivity).
  assert (Hne : (0%nat, p) <> (0%nat, q)).
  { intros E. apply Hpq. injection E as E. exact E. }
  exists mm, [(0%nat, q); (0%nat, p)], 0%nat, p, 0%nat, q.
  split; [exact Hr|]. split; [exact H1|]. split; [exact H2|].
  split; [exact Hne|].
  apply (live_blocks_disjoint mm _ 0 p 0 q Hr H1 H2 Hne).
Defined.

(** X4.  In every state reached from [rmm_create] over a region of less
    than 8 TiB, a block on a free list does not overlap a block that is
    handed out. *)
Theorem free_block_not_handed_out mm L k e k' p :
  rmm_reachable mm L -> (k <= MAX_ORDER)%nat ->
  In e (freelists mm k) -> In (k', p) L ->
  e + order_size k <= p \/ p + order_size k' <= e.
Proof.
  intros Hr Hk Hf Hl. destruct (rmm_reachable_inv mm L Hr) as (R & Hinv & _).
  destruct (inv_free_node mm L R k e Hinv Hk Hf)
    as (a & Ee & Ht & _ & Hnl & Hbb).
  destruct (inv_live_node mm L R k' p Hinv Hl)
    as (a' & Ep & Ht' & _ & Hnf & Hbb').
  pose proof (node_order _ _ (proj1 Ht')) as Hk'.
  rewrite !order_size_bsize by assumption.
  destruct (Nat.le_ge_cases k k') as [Hle|Hge].
  - destruct (node_nested_or_apart k a k' a' (proj1 Ht) (proj1 Ht') Hle)
      as [Hw|[Hap|Hap]]; [|left; lia|right; lia].
    exfalso. destruct (Nat.eq_dec k k') as [Ek|Hne].
    + subst k'. apply within_same in Hw. subst a'.
      apply Hnf. unfold isfree. rewrite <- Ee. exact Hf.
    + assert (Hb : blank mm L k a).
      { apply (below_blank_inside mm L k' a'); try assumption;
          [apply Ht|apply Ht'|lia]. }
      apply blank_eq in Hb. destruct Hb as (_ & Hnf' & _).
      apply Hnf'. unfold isfree. rewrite <- Ee. exact Hf.
  - destruct (node_nested_or_apart k' a' k a (proj1 Ht') (proj1 Ht) Hge)
      as [Hw|[Hap|Hap]]; [|right; lia|left; lia].
    exfalso. destruct (Nat.eq_dec k' k) as [Ek|Hne].
    + subst k'. apply within_same in Hw. subst a'.
      apply Hnf. unfold isfree. rewrite <- Ee. exact Hf.
    + assert (Hb : blank mm L k' a').
      { apply (below_blank_inside mm L k a); try assumption;
          [apply Ht'|apply Ht|lia]. }
      apply blank_eq in Hb. destruct Hb as (_ & _ & Hnl' & _).
      apply Hnl'. unfold islive. rewrite <- Ep. exact Hl.
Qed.

Lemma free_block_not_handed_out_witness :
  exists mm L k e k' p,
    rmm_reachable mm L /\ (k <= MAX_ORDER)%nat
    /\ In e (freelists mm k) /\ In (k', p) L
    /\ (e + order_size k <= p \/ p + order_size k' <= e).
Proof.
  destruct rmm_sample_two_pages_reachable as (mm & p & q & e & Hr & _ & He).
  assert (Hin : In (0%nat, p) [(0%nat, q); (0%nat, p)])
    by (right; left; reflexivity).
  assert (Hk : (2 <= MAX_ORDER)%nat) by (unfold MAX_ORDER; lia).
  exists mm, [(0%nat, q); (0%nat, p)], 2%nat, e, 0%nat, p.
  split; [exact Hr|]. split; [exact Hk|]. split; [exact He|].
  split; [exact Hin|].
  apply (free_block_not_handed_out mm _ 2 e 0 p Hr Hk He Hin).
Defined.

(** ** mem_mm.c: which block an allocation takes *)

(** With the free lists of orders [k .. k+d-1] empty, [rmm_allocpages1] at
    order [k] takes the last entry [e] of the list of order [k+d], and
    leaves the upper half of every block it splits on the list of its
    order. *)
Lemma rmm_allocpages1_takes d :
  forall fuel mm k e l,
  (MAX_ORDER < fuel + k)%nat -> (k + d <= MAX_ORDER)%nat ->
  (forall i, (k <= i < k + d)%nat -> freelists mm i = []) ->
  freelists mm (k + d) = l ++ [e] ->
  0 < start_addr mm <= e -> e < 2^64 ->
  exists mm',
    rmm_allocpages1 fuel mm k = (mm', e - start_addr mm)
    /\ start_addr mm' = start_addr mm /\ free_size mm' = free_size mm
    /\ freelists mm' (k + d) = l
    /\ (forall i, (k <= i < k + d)%nat ->
          freelists mm' i = [wrap64 (e + order_size i)])
    /\ (forall i, (i < k \/ k + d < i)%nat ->
          freelists mm' i = freelists mm i).
Proof.
  induction d as [|d IH]; intros fuel mm k e l Hfuel Hk Hempty Hl Hs He.
  - rewrite Nat.add_0_r in *.
    assert (E : rmm_allocpages1 fuel mm k
                = (set_bitset (set_freelist mm k l) k
                     (bit_set (bitsets (set_freelist mm k l) k)
                        (wrap64 (e - start_addr mm) / order_size k)),
                   wrap64 (e - start_addr mm))).
    { destruct fuel; cbn [rmm_allocpages1];
        (destruct (Nat.ltb_spec MAX_ORDER k); [lia|]);
        rewrite Hl, ilist_pop_app;
        (destruct (Z.eqb_spec e 0); [lia|]); reflexivity. }
    rewrite wrap64_small in E by lia.
    eexists. split; [exact E|]. cbn [start_addr free_size freelists
                                     set_bitset set_freelist].
    split; [reflexivity|]. split; [reflexivity|].
    split; [apply upd_same|]. split; [intros i Hi; lia|].
    intros i Hi. apply upd_other. lia.
  - destruct fuel as [|fuel]; [lia|].
    assert (Hk0 : freelists mm k = []) by (apply Hempty; lia).
    destruct (IH fuel mm (S k) e l) as (mm1 & E1 & Hst & Hfs & Hj & Hmid & Hout).
    + lia.
    + lia.
    + intros i Hi. apply Hempty. lia.
    + replace (S k + d)%nat with (k + S d)%nat by lia. exact Hl.
    + exact Hs.
    + exact He.
    + replace (S k + d)%nat with (k + S d)%nat in * by lia.
      assert (Hk1 : freelists mm1 k = []) by (rewrite Hout by lia; exact Hk0).
      assert (E : rmm_allocpages1 (S fuel) mm k
                  = (set_bitset
                       (set_freelist mm1 k
                          [wrap64 (wrap64 (e - start_addr mm + start_addr mm1)
                                   + order_size k)]) k
                       (bit_set
                          (bitsets
                             (set_freelist mm1 k
                                [wrap64 (wrap64 (e - start_addr mm + start_addr mm1)
                                         + order_size k)]) k)
                          ((e - start_addr mm) / order_size k)),
                     e - start_addr mm)).
      { cbn [rmm_allocpages1]. destruct (Nat.ltb_spec MAX_ORDER k); [lia|].
        rewrite Hk0. cbn [ilist_pop rev]. rewrite E1.
        destruct (Z.eqb_spec (e - start_addr mm) UINTPTR_MAX) as [Ex|_].
        { unfold UINTPTR_MAX in Ex. lia. }
        rewrite Hk1. reflexivity. }
      rewrite Hst in E.
      replace (e - start_addr mm + start_addr mm) with e in E by lia.
      rewrite (wrap64_small e) in E by lia.
      eexists. split; [exact E|]. cbn [start_addr free_size freelists
                                       set_bitset set_freelist].
      split; [exact Hst|]. split; [exact Hfs|].
      split; [rewrite upd_other by lia; exact Hj|]. split.
      * intros i Hi. destruct (Nat.eq_dec i k) as [->|Hne].
        -- apply upd_same.
        -- rewrite upd_other by exact Hne. apply Hmid. lia.
      * intros i Hi. rewrite upd_other by lia. apply Hout. lia.
Qed.

(** A manager over 10 MiB at 1 MiB after three blocks of two pages were
    handed out and two of them, no buddies of each other, were freed: no
    free block of one page, two free blocks of two pages. *)
Lemma rmm_sample_two_free :
  exists mm mm' p,
    rmm_reachable mm [(1%nat, 11509760)]
    /\ freelists mm 0 = []
    /\ ilist_pop (freelists mm 1) = Some (11501568, [11517952])
    /\ rmm_allocpages mm (2 ^ Z.of_nat 0) = Some (mm', p).
Proof.
  assert (X : match rmm_create 0x100000 (10 * 2^20) with
              | Some mm0 =>
                  match rmm_allocpages mm0 (2 ^ Z.of_nat 1) with
                  | Some (mm1, s) =>
                      match rmm_allocpages mm1 (2 ^ Z.of_nat 1) with
                      | Some (mm2, p) =>
                          match rmm_allocpages mm2 (2 ^ Z.of_nat 1) with
                          | Some (mm3, q) =>
                              s = 11517952 /\ p = 11501568 /\ q = 11509760
                              /\ let mm5 :=
                                   rmm_freepages (rmm_freepages mm3 s) p in
                                 freelists mm5 0 = []
                                 /\ ilist_pop (freelists mm5 1)
                                    = Some (p, [s])
                                 /\ match rmm_allocpages mm5 (2 ^ Z.of_nat 0)
                                    with
                                    | Some _ => True
                                    | None => False
                                    end
                          | None => False
                          end
                      | None => False
                      end
                  | None => False
                  end
              | None => False
              end) by (vm_compute; repeat split).
  destruct (rmm_create 0x100000 (10 * 2^20)) as [mm0|] eqn:E0;
    [|contradiction].
  destruct (rmm_allocpages mm0 (2 ^ Z.of_nat 1)) as [[mm1 s]|] eqn:E1;
    [|contradiction].
  destruct (rmm_allocpages mm1 (2 ^ Z.of_nat 1)) as [[mm2 p]|] eqn:E2;
    [|contradiction].
  destruct (rmm_allocpages mm2 (2 ^ Z.of_nat 1)) as [[mm3 q]|] eqn:E3;
    [|contradiction].
  destruct X as (-> & -> & -> & H0 & H1 & H2).
  set (mm5 := rmm_freepages (rmm_freepages mm3 11517952) 11501568) in *.
  destruct (rmm_allocpages mm5 (2 ^ Z.of_nat 0)) as [[mm6 r]|] eqn:E6;
    [|contradiction].
  exists mm5, mm6, r.
  split; [|split; [exact H0|split; [exact H1|exact E6]]].
  assert (Hr0 : rmm_reachable mm0 []).
  { apply (reach_create 0x100000 (10 * 2^20)); [|exact E0].
    apply host_region_sample. lia. }
  pose proof (reach_alloc mm0 [] 1 mm1 _ Hr0 ltac:(lia) E1 ltac:(lia)) as Hr1.
  pose proof (reach_alloc mm1 _ 1 mm2 _ Hr1 ltac:(lia) E2 ltac:(lia)) as Hr2.
  pose proof (reach_alloc mm2 _ 1 mm3 _ Hr2 ltac:(lia) E3 ltac:(lia)) as Hr3.
  pose proof (reach_free mm3 _ 1 11517952 Hr3
                ltac:(right; right; left; reflexivity)) as Hr4.
  replace (remove live_eq_dec (1%nat, 11517952)
             [(1%nat, 11509760); (1%nat, 11501568); (1%nat, 11517952)])
    with [(1%nat, 11509760); (1%nat, 11501568)] in Hr4 by reflexivity.
  pose proof (reach_free _ _ 1 11501568 Hr4
                ltac:(right; left; reflexivity)) as Hr5.
  replace (remove live_eq_dec (1%nat, 11501568)
             [(1%nat, 11509760); (1%nat, 11501568)])
    with [(1%nat, 11509760)] in Hr5 by reflexivity.
  exact Hr5.
Qed.

(** X5.  In every state reached from [rmm_create] over a region of less
    than 8 TiB, [rmm_allocpages(mm, 2^k)] takes its block from the lowest
    order [j >= k] whose free list is not empty: it returns the entry [e]
    that [ilist_pop] takes off that list, and leaves on the list of every
    order from [k] to [j-1] the one block at [e + (PAGE_SIZE << i)], the
    upper half of a block it split; the other free lists are unchanged. *)
Theorem rmm_allocpages_takes_lowest_order mm L k j e l mm' p :
  rmm_reachable mm L -> (k <= j <= MAX_ORDER)%nat ->
  (forall i, (k <= i < j)%nat -> freelists mm i = []) ->
  ilist_pop (freelists mm j) = Some (e, l) ->
  rmm_allocpages mm (2 ^ Z.of_nat k) = Some (mm', p) ->
  p = e
  /\ freelists mm' j = l
  /\ (forall i, (k <= i < j)%nat -> freelists mm' i = [e + order_size i])
  /\ (forall i, (i < k \/ j < i)%nat -> freelists mm' i = freelists mm i).
Proof.
  intros Hr Hkj Hempty Hpop Ha.
  pose proof (ilist_pop_some _ _ _ Hpop) as Hl.
  destruct (rmm_reachable_inv mm L Hr) as (R & Hinv & _).
  assert (Hin : In e (freelists mm j))
    by (rewrite Hl, in_app_iff; right; left; reflexivity).
  destruct (inv_free_node mm L R j e Hinv ltac:(lia) Hin) as (a & Ee & Ht & _).
  destruct (in_tree_bounds mm L R j a Hinv Ht) as [Ha0 Hhi].
  destruct (inv_start mm L R Hinv) as [Hs _].
  destruct (inv_range mm L R Hinv) as [[_ Hend] _].
  pose proof (bsize_pos j) as Hbj.
  unfold MAX_ORDER in Hkj.
  destruct (rmm_allocpages1_takes (j - k) (S MAX_ORDER) mm k e l)
    as (mm1 & E1 & Hst & Hfs & Hj & Hmid & Hout).
  - unfold MAX_ORDER. lia.
  - unfold MAX_ORDER. lia.
  - intros i Hi. apply Hempty. lia.
  - replace (k + (j - k))%nat with j by lia. exact Hl.
  - lia.
  - lia.
  - replace (k + (j - k))%nat with j in * by lia.
    unfold rmm_allocpages in Ha.
    assert (Hpos : 0 < 2 ^ Z.of_nat k) by (apply Z.pow_pos_nonneg; lia).
    destruct (Z.eqb_spec (2 ^ Z.of_nat k) 0) as [|_]; [lia|].
    rewrite IS_POW2_pow2 in Ha by lia. cbn [negb] in Ha.
    rewrite order_of_npages_pow2 in Ha by lia. cbn [Nat.add] in Ha.
    rewrite E1 in Ha.
    destruct (Z.eqb_spec (e - start_addr mm) UINTPTR_MAX) as [Ex|_].
    { unfold UINTPTR_MAX in Ex. lia. }
    injection Ha as <- <-. cbn [freelists set_free_size].
    split; [rewrite Hst; replace (e - start_addr mm + start_addr mm) with e by lia;
            apply wrap64_small; lia|].
    split; [exact Hj|]. split; [|exact Hout].
    intros i Hi. rewrite (Hmid i Hi). f_equal. apply wrap64_small.
    pose proof (bsize_le i j ltac:(lia)) as Hle.
    pose proof (bsize_pos i).
    rewrite order_size_bsize by (unfold MAX_ORDER; lia). lia.
Qed.

Lemma rmm_allocpages_takes_lowest_order_witness :
  exists mm L mm' p,
    rmm_reachable mm L
    /\ freelists mm 0 = []
    /\ ilist_pop (freelists mm 1) = Some (11501568, [11517952])
    /\ rmm_allocpages mm (2 ^ Z.of_nat 0) = Some (mm', p)
    /\ p = 11501568
    /\ freelists mm' 1 = [11517952]
    /\ (forall i, (0 <= i < 1)%nat ->
          freelists mm' i = [11501568 + order_size i])
    /\ (forall i, (i < 0 \/ 1 < i)%nat -> freelists mm' i = freelists mm i).
Proof.
  destruct rmm_sample_two_free as (mm & mm' & p & Hr & H0 & H1 & Ha).
  assert (Hkj : (0 <= 1 <= MAX_ORDER)%nat) by (unfold MAX_ORDER; lia).
  assert (Hempty : forall i, (0 <= i < 1)%nat -> freelists mm i = []).
  { intros i Hi. replace i with 0%nat by lia. exact H0. }
  exists mm, [(1%nat, 11509760)], mm', p.
  split; [exact Hr|]. split; [exact H0|]. split; [exact H1|].
  split; [exact Ha|].
  apply (rmm_allocpages_takes_lowest_order mm _ 0 1 11501568 [11517952]
           mm' p Hr Hkj Hempty H1 Ha).
Defined.

(** X6.  In every state reached from [rmm_create] over a region of less
    than 8 TiB, freeing a block right after it was allocated brings
    [free_size] back to its value before the allocation. *)
Theorem rmm_alloc_free_restores_free_size mm L k mm1 p :
  rmm_reachable mm L -> (k < 64)%nat ->
  rmm_allocpages mm (2 ^ Z.of_nat k) = Some (mm1, p) -> p <> 0 ->
  free_size (rmm_freepages mm1 p) = free_size mm.
Proof.
  intros Hr Hk Ha Hp.
  pose proof (reach_alloc mm L k mm1 p Hr Hk Ha Hp) as Hr1.
  assert (Hin : In (k, p) ((k, p) :: L)) by (left; reflexivity).
  pose proof (reach_free mm1 _ k p Hr1 Hin) as Hr2.
  destruct (rmm_reachable_inv mm1 _ Hr1) as (R1 & Hinv1 & _).
  pose proof (inv_live_nodup mm1 _ R1 Hinv1) as Hnd.
  apply NoDup_cons_iff in Hnd. destruct Hnd as [Hnotin _].
  assert (El : remove live_eq_dec (k, p) ((k, p) :: L) = L).
  { cbn [remove]. destruct (live_eq_dec (k, p) (k, p)) as [_|Hc];
      [|exfalso; apply Hc; reflexivity].
    apply notin_remove. exact Hnotin. }
  rewrite El in Hr2.
  destruct (rmm_reachable_inv mm L Hr) as (R & _ & [_ Hacct]).
  destruct (rmm_reachable_inv _ L Hr2) as (R2 & _ & [_ Hacct2]).
  destruct (rmm_allocpages_range mm _ mm1 p Ha) as [Es Ee].
  destruct (rmm_freepages_range mm1 p) as [Es2 Ee2].
  rewrite Es2, Ee2, Es, Ee in Hacct2. lia.
Qed.

Lemma rmm_alloc_free_restores_free_size_witness :
  exists mm L mm1 p,
    rmm_reachable mm L
    /\ rmm_allocpages mm (2 ^ Z.of_nat 0) = Some (mm1, p) /\ p <> 0
    /\ free_size (rmm_freepages mm1 p) = free_size mm.
Proof.
  destruct rmm_sample_alloc_page as (mm0 & mm1 & p & E0 & E1 & Hp).
  assert (Hr : rmm_reachable mm0 []).
  { apply (reach_create 0x100000 (10 * 2^20)); [|exact E0].
    apply host_region_sample. lia. }
  exists mm0, [], mm1, p. split; [exact Hr|]. split; [exact E1|].
  split; [exact Hp|].
  apply (rmm_alloc_free_restores_free_size mm0 [] 0 mm1 p Hr ltac:(lia) E1 Hp).
Defined.

Lemma fold_max_bounds (f : nat -> Z) (l : list nat) :
  forall init,
  let r := fold_left (fun acc k => if acc <? f k then f k else acc) l init in
  init <= r /\ (forall k, In k l -> f k <= r)
  /\ (forall B, init <= B -> (forall k, In k l -> f k <= B) -> r <= B).
Proof.
  induction l as [|x l IH]; intros init; cbn [fold_left].
  - split; [lia|]. split; [intros k []|]. intros B HB _. exact HB.
  - destruct (IH (if init <? f x then f x else init)) as (H1 & H2 & H3).
    cbv zeta in *.
    set (r := fold_left (fun acc k => if acc <? f k then f k else acc) l
                (if init <? f x then f x else init)) in *.
    assert (Hi : init <= (if init <? f x then f x else init)
                 /\ f x <= (if init <? f x then f x else init))
      by (destruct (Z.ltb_spec init (f x)); lia).
    split; [lia|]. split.
    + intros k [<-|Hin]; [lia|apply H2; exact Hin].
    + intros B HB Hall. apply H3.
      * destruct (Z.ltb_spec init (f x)); [apply Hall; left; reflexivity|exact HB].
      * intros k Hin. apply Hall. right. exact Hin.
Qed.

(** The pages on the free list of one order, as [rmm_avail_maxregion]
    counts them, in a well-formed state. *)
Lemma order_pages_exact mm k :
  rmm_wf mm -> (k <= MAX_ORDER)%nat ->
  wrap64 (Z.of_nat (length (freelists mm k)) * Z.shiftl 1 (Z.of_nat k))
  = Z.of_nat (length (freelists mm k)) * 2 ^ Z.of_nat k
  /\ Z.of_nat (length (freelists mm k)) * 2 ^ Z.of_nat k * PAGE_SIZE
     <= free_size mm.
Proof.
  intros Hwf Hk. destruct (wf_free_size mm Hwf) as [Hfb Hfs].
  assert (Hterm : order_size k * Z.of_nat (length (freelists mm k))
                  <= free_bytes mm).
  { unfold free_bytes.
    apply (sum_member_le
             (fun k => order_size k * Z.of_nat (length (freelists mm k)))).
    - intros j. unfold order_size, wrap64.
      pose proof (Z.mod_pos_bound (Z.shiftl PAGE_SIZE (Z.of_nat j)) (2^64)
                    ltac:(lia)). nia.
    - apply in_seq. lia. }
  rewrite order_size_eq in Hterm by exact Hk.
  assert (Hpos : 0 < 2 ^ Z.of_nat k) by (apply Z.pow_pos_nonneg; lia).
  rewrite Z.shiftl_mul_pow2, Z.mul_1_l by lia.
  unfold PAGE_SIZE in *. split; [apply wrap64_small|]; nia.
Qed.

(** X7.  In a well-formed state [rmm_avail_maxregion] never exceeds
    [rmm_avail_total]. *)
Theorem rmm_avail_maxregion_le_total mm :
  rmm_wf mm -> rmm_avail_maxregion mm <= rmm_avail_total mm.
Proof.
  intros Hwf. unfold rmm_avail_maxregion, rmm_avail_total.
  destruct (wf_free_size mm Hwf) as [Hfb Hfs].
  pose proof (free_bytes_nonneg mm) as Hnn.
  apply (fold_max_bounds
           (fun order => wrap64 (Z.of_nat (length (freelists mm order))
                                 * Z.shiftl 1 (Z.of_nat order)))).
  - apply Z.div_pos; unfold PAGE_SIZE; lia.
  - intros k Hin. apply in_seq in Hin.
    destruct (order_pages_exact mm k Hwf ltac:(lia)) as [-> Hle].
    apply Z.div_le_lower_bound; unfold PAGE_SIZE in *; lia.
Qed.

Lemma rmm_sample_wf :
  exists mm, rmm_wf mm /\ rmm_avail_maxregion mm < 2 ^ Z.of_nat 12.
Proof.
  assert (X : match rmm_create 0x100000 (10 * 2^20) with
              | Some mm0 => rmm_avail_maxregion mm0 < 2 ^ Z.of_nat 12
              | None => False
              end) by (vm_compute; reflexivity).
  destruct (rmm_create 0x100000 (10 * 2^20)) as [mm0|] eqn:E0; [|contradiction].
  exists mm0. split; [|exact X].
  apply (rmm_reachable_wf mm0 []).
  apply (reach_create 0x100000 (10 * 2^20)); [|exact E0].
  apply host_region_sample. lia.
Qed.

Lemma rmm_avail_maxregion_le_total_witness :
  exists mm, rmm_wf mm /\ rmm_avail_maxregion mm <= rmm_avail_total mm.
Proof.
  destruct rmm_sample_wf as (mm & Hwf & _).
  exists mm. split; [exact Hwf|].
  apply (rmm_avail_maxregion_le_total mm Hwf).
Defined.

Lemma rmm_avail_maxregion_ge mm j :
  rmm_wf mm -> (j <= MAX_ORDER)%nat ->
  Z.of_nat (length (freelists mm j)) * 2 ^ Z.of_nat j
  <= rmm_avail_maxregion mm.
Proof.
  intros Hwf Hj. destruct (order_pages_exact mm j Hwf Hj) as [<- _].
  unfold rmm_avail_maxregion.
  apply (proj1 (proj2 (fold_max_bounds
           (fun order => wrap64 (Z.of_nat (length (freelists mm order))
                                 * Z.shiftl 1 (Z.of_nat order)))
           (seq 0 (S MAX_ORDER)) 0))).
  apply in_seq. lia.
Qed.

(** X8.  In a well-formed state, when [rmm_avail_maxregion] is below
    [2^k], [rmm_allocpages(mm, 2^k)] returns NULL and leaves the state as it
    is. *)
Theorem rmm_avail_maxregion_too_small mm k :
  rmm_wf mm -> (k < 64)%nat ->
  rmm_avail_maxregion mm < 2 ^ Z.of_nat k ->
  rmm_allocpages mm (2 ^ Z.of_nat k) = Some (mm, 0).
Proof.
  intros Hwf Hk Hlt.
  assert (Hnone : no_free_block mm k).
  { intros j Hj. destruct (freelists mm j) as [|e l] eqn:El; [reflexivity|].
    exfalso.
    pose proof (rmm_avail_maxregion_ge mm j Hwf ltac:(lia)) as Hge.
    rewrite El in Hge. cbn [length] in Hge.
    assert (2 ^ Z.of_nat k <= 2 ^ Z.of_nat j) by (apply Z.pow_le_mono_r; lia).
    assert (0 < 2 ^ Z.of_nat j) by (apply Z.pow_pos_nonneg; lia).
    nia. }
  unfold rmm_allocpages.
  assert (Hpos : 0 < 2 ^ Z.of_nat k) by (apply Z.pow_pos_nonneg; lia).
  destruct (Z.eqb_spec (2 ^ Z.of_nat k) 0) as [|_]; [lia|].
  rewrite IS_POW2_pow2 by exact Hk. cbn [negb].
  rewrite order_of_npages_pow2 by exact Hk. cbn [Nat.add].
  pose proof (rmm_allocpages1_spec (S MAX_ORDER) mm k Hwf ltac:(lia)) as H.
  cbv zeta in H. destruct H as (H1 & H2 & _).
  destruct (rmm_allocpages1 (S MAX_ORDER) mm k) as [mm1 a].
  cbn [fst snd] in H1, H2.
  assert (Ea : a = UINTPTR_MAX) by (apply H1; exact Hnone).
  rewrite (H2 Ea), Ea, Z.eqb_refl. reflexivity.
Qed.

Lemma rmm_avail_maxregion_too_small_witness :
  exists mm,
    rmm_wf mm /\ rmm_avail_maxregion mm < 2 ^ Z.of_nat 12
    /\ rmm_allocpages mm (2 ^ Z.of_nat 12) = Some (mm, 0).
Proof.
  destruct rmm_sample_wf as (mm & Hwf & Hlt).
  exists mm. split; [exact Hwf|]. split; [exact Hlt|].
  apply (rmm_avail_maxregion_too_small mm 12 Hwf ltac:(lia) Hlt).
Defined.

(** ** rsmimpl.h: the alignment and power-of-two macros *)

(** X9.  [ALIGN2(x, a)] for a power of two [a], when [x + a - 1] does not
    overflow: the least multiple of [a] that is not below [x]. *)
Theorem ALIGN2_rounds_up x n :
  0 <= n <= 63 -> 0 <= x -> x + 2^n - 1 < 2^64 ->
  ALIGN2 x (2^n) mod 2^n = 0 /\ x <= ALIGN2 x (2^n) < x + 2^n.
Proof.
  intros Hn Hx Hlt. rewrite ALIGN2_pow2 by assumption.
  assert (0 < 2^n) by (apply Z.pow_pos_nonneg; lia).
  destruct (round_down_bounds (x + 2^n - 1) n ltac:(lia) ltac:(lia))
    as (H1 & H2 & H3).
  split; [exact H3|]. lia.
Qed.

Lemma ALIGN2_rounds_up_witness :
  ALIGN2 100 (2^6) mod 2^6 = 0 /\ 100 <= ALIGN2 100 (2^6) < 100 + 2^6.
Proof. apply (ALIGN2_rounds_up 100 6); lia. Defined.

(** X10.  [ALIGN2_FLOOR(x, a)] for a power of two [a >= 2]: the greatest
    multiple of [a] that is not above [x + 1].  It rounds [x] down unless
    [x + 1] is a multiple of [a]; then it returns [x + 1]. *)
Theorem ALIGN2_FLOOR_rounds_successor x n :
  1 <= n <= 63 -> 0 <= x < 2^64 - 1 ->
  ALIGN2_FLOOR x (2^n) mod 2^n = 0
  /\ ALIGN2_FLOOR x (2^n) <= x + 1 < ALIGN2_FLOOR x (2^n) + 2^n
  /\ ((x + 1) mod 2^n = 0 -> ALIGN2_FLOOR x (2^n) = x + 1).
Proof.
  intros Hn Hx. rewrite ALIGN2_FLOOR_pow2 by lia.
  rewrite wrap64_small by lia.
  assert (0 < 2^n) by (apply Z.pow_pos_nonneg; lia).
  destruct (round_down_bounds (x + 1) n ltac:(lia) ltac:(lia))
    as (H1 & H2 & H3).
  split; [exact H3|]. split; [lia|]. intros E. rewrite E. lia.
Qed.

Lemma ALIGN2_FLOOR_rounds_successor_witness :
  ALIGN2_FLOOR 63 (2^6) mod 2^6 = 0
  /\ ALIGN2_FLOOR 63 (2^6) <= 63 + 1 < ALIGN2_FLOOR 63 (2^6) + 2^6
  /\ ((63 + 1) mod 2^6 = 0 -> ALIGN2_FLOOR 63 (2^6) = 63 + 1).
Proof. apply (ALIGN2_FLOOR_rounds_successor 63 6); lia. Defined.

(** X11.  [IS_ALIGN2(x, a)] for a power of two [a] holds exactly of the
    multiples of [a]. *)
Theorem IS_ALIGN2_iff_multiple x n :
  0 <= n <= 63 -> 0 <= x ->
  IS_ALIGN2 x (2^n) = true <-> x mod 2^n = 0.
Proof.
  intros Hn Hx. unfold IS_ALIGN2.
  assert (0 < 2^n) by (apply Z.pow_pos_nonneg; lia).
  assert (2^n <= 2^63) by (apply Z.pow_le_mono_r; lia).
  rewrite wrap64_small
    by (change (2^63) with 9223372036854775808 in *;
        change (2^64) with 18446744073709551616; lia).
  replace (2^n - 1) with (Z.ones n) by (rewrite Z.ones_equiv; lia).
  rewrite Z.land_ones by lia. apply Z.eqb_eq.
Qed.

Lemma IS_ALIGN2_iff_multiple_witness :
  IS_ALIGN2 8192 (2^12) = true <-> 8192 mod 2^12 = 0.
Proof. apply (IS_ALIGN2_iff_multiple 8192 12); lia. Defined.

(** X12.  [IS_POW2(x)] holds of the powers of two and of 0. *)
Theorem IS_POW2_iff x :
  0 <= x < 2^64 ->
  IS_POW2 x = true <-> x = 0 \/ exists n, 0 <= n < 64 /\ x = 2^n.
Proof.
  intros Hx. unfold IS_POW2. rewrite Z.eqb_eq. split.
  - intros Hl. destruct (Z.eq_dec x 0) as [|Hnz]; [left; assumption|right].
    rewrite wrap64_small in Hl by lia.
    destruct (Z.log2_spec x ltac:(lia)) as [Hlo Hhi].
    pose proof (Z.log2_nonneg x) as Hn0.
    assert (Hn64 : Z.log2 x < 64) by (apply Z.log2_lt_pow2; lia).
    exists (Z.log2 x). split; [lia|].
    destruct (Z.eq_dec x (2 ^ Z.log2 x)) as [E|Hne]; [exact E|exfalso].
    assert (Hb1 : Z.testbit x (Z.log2 x) = true) by (apply Z.bit_log2; lia).
    assert (Hl2 : Z.log2 (x - 1) = Z.log2 x).
    { apply Z.log2_unique; [lia|].
      rewrite <- Z.add_1_r in *. lia. }
    assert (Hb2 : Z.testbit (x - 1) (Z.log2 x) = true).
    { rewrite <- Hl2. apply Z.bit_log2. lia. }
    assert (Hb : Z.testbit (Z.land x (x - 1)) (Z.log2 x) = true)
      by (rewrite Z.land_spec, Hb1, Hb2; reflexivity).
    rewrite Hl, Z.bits_0 in Hb. discriminate.
  - intros [->|(n & Hn & ->)]; [reflexivity|].
    assert (0 < 2^n) by (apply Z.pow_pos_nonneg; lia).
    rewrite wrap64_small by lia.
    apply Z.bits_inj'. intros i Hi.
    rewrite Z.land_spec, Z.bits_0, Z.pow2_bits_eqb, testbit_low_mask by lia.
    destruct (Z.eqb_spec n i); [|reflexivity].
    destruct (Z.ltb_spec i n); [lia|reflexivity].
Qed.

Lemma IS_POW2_iff_witness :
  IS_POW2 4096 = true <-> 4096 = 0 \/ exists n, 0 <= n < 64 /\ 4096 = 2^n.
Proof. apply (IS_POW2_iff 4096). lia. Defined.

Lemma CEIL_POW2_pow2 x :
  2 <= x < 2^63 ->
  CEIL_POW2 x = 2 ^ (Z.log2 (x - 1) + 1)
  /\ 0 <= Z.log2 (x - 1) + 1 <= 63.
Proof.
  intros Hx. unfold CEIL_POW2.
  change (2^63) with 9223372036854775808 in Hx.
  destruct (Z.leb_spec x 1); [lia|].
  rewrite Z.shiftl_mul_pow2 by lia. change (2^1) with 2.
  rewrite (wrap64_small (x * 2))
    by (change (2^64) with 18446744073709551616; lia).
  destruct (Z.ltb_spec (x * 2) x); [lia|].
  pose proof (Z.log2_nonneg (x - 1)).
  assert (Z.log2 (x - 1) < 63)
    by (apply Z.log2_lt_pow2; change (2^63) with 9223372036854775808; lia).
  rewrite Z.shiftl_mul_pow2, Z.mul_1_l by lia.
  split; [|lia]. apply wrap64_small.
  split; [apply Z.pow_nonneg; lia|apply Z.pow_lt_mono_r; lia].
Qed.

(** X13.  [CEIL_POW2(x)] for [1 <= x < 2^63] is the least power of two
    that is not below [x]; for [2^63 <= x] (also for [x = 2^63], itself a
    power of two) it is [2^64 - 1]; and [CEIL_POW2(0) = 1]. *)
Theorem CEIL_POW2_spec x :
  0 <= x < 2^64 ->
  (x = 0 -> CEIL_POW2 x = 1)
  /\ (1 <= x < 2^63 ->
      exists n, 0 <= n <= 63 /\ CEIL_POW2 x = 2^n /\ x <= 2^n < 2 * x)
  /\ (2^63 <= x -> CEIL_POW2 x = 2^64 - 1).
Proof.
  intros Hx. split; [intros ->; reflexivity|]. split.
  - intros Hr. destruct (Z.eq_dec x 1) as [->|Hne].
    + exists 0. split; [lia|]. split; [reflexivity|]. cbn. lia.
    + destruct (CEIL_POW2_pow2 x ltac:(lia)) as [E Hn].
      exists (Z.log2 (x - 1) + 1). split; [exact Hn|]. split; [exact E|].
      destruct (Z.log2_spec (x - 1) ltac:(lia)) as [Hlo Hhi].
      rewrite <- Z.add_1_r in Hhi.
      rewrite Z.pow_add_r by (pose proof (Z.log2_nonneg (x - 1)); lia).
      change (2^1) with 2.
      rewrite Z.pow_add_r in Hhi by (pose proof (Z.log2_nonneg (x - 1)); lia).
      change (2^1) with 2 in Hhi. lia.
  - intros Hr. unfold CEIL_POW2.
    change (2^63) with 9223372036854775808 in Hr.
    change (2^64) with 18446744073709551616 in Hx.
    destruct (Z.leb_spec x 1); [lia|].
    rewrite Z.shiftl_mul_pow2 by lia. change (2^1) with 2.
    assert (E : wrap64 (x * 2) = x * 2 - 18446744073709551616).
    { unfold wrap64. change (2^64) with 18446744073709551616.
      symmetry. apply (Z.mod_unique _ _ 1); lia. }
    rewrite E. destruct (Z.ltb_spec (x * 2 - 18446744073709551616) x);
      [reflexivity|lia].
Qed.

Lemma CEIL_POW2_spec_witness :
  (2^63 = 0 -> CEIL_POW2 (2^63) = 1)
  /\ (1 <= 2^63 < 2^63 ->
      exists n, 0 <= n <= 63 /\ CEIL_POW2 (2^63) = 2^n
                /\ 2^63 <= 2^n < 2 * 2^63)
  /\ (2^63 <= 2^63 -> CEIL_POW2 (2^63) = 2^64 - 1).
Proof. apply (CEIL_POW2_spec (2^63)). lia. Defined.

(** ** mem_mm.c: [rmm_allocpages_min] *)

(** What [rmm_allocpages(mm, 2^k)] does in a well-formed state. *)
Lemma rmm_allocpages_wf_cases mm k :
  rmm_wf mm -> (k < 64)%nat ->
  rmm_allocpages mm (2 ^ Z.of_nat k) = Some (mm, 0)
  \/ exists mm' p,
       rmm_allocpages mm (2 ^ Z.of_nat k) = Some (mm', p) /\ p <> 0
       /\ free_size mm' = free_size mm - 2 ^ Z.of_nat k * PAGE_SIZE.
Proof.
  intros Hwf Hk. unfold rmm_allocpages.
  assert (Hpos : 0 < 2 ^ Z.of_nat k) by (apply Z.pow_pos_nonneg; lia).
  destruct (Z.eqb_spec (2 ^ Z.of_nat k) 0) as [|_]; [lia|].
  rewrite IS_POW2_pow2 by exact Hk. cbn [negb].
  rewrite order_of_npages_pow2 by exact Hk. cbn [Nat.add].
  pose proof (rmm_allocpages1_spec (S MAX_ORDER) mm k Hwf ltac:(lia)) as H.
  cbv zeta in H. destruct H as (H1 & H2 & H3).
  destruct (rmm_allocpages1 (S MAX_ORDER) mm k) as [mm1 a].
  cbn [fst snd] in H1, H2, H3.
  pose proof (wf_start mm Hwf) as Hs. pose proof (wf_end mm Hwf) as Hend.
  destruct (Z.eqb_spec a UINTPTR_MAX) as [Ea|Ha].
  - left. rewrite (H2 Ea). reflexivity.
  - right. destruct (H3 Ha) as (Hfs & Hst & Hrange & Hnn & Hord & Hfb).
    eexists _, _. split; [reflexivity|].
    rewrite Hst, (wrap64_small (a + start_addr mm)) by lia.
    split; [lia|]. cbn [free_size]. rewrite Hfs.
    pose proof (wf_free_size mm Hwf) as Hfree.
    rewrite order_size_eq in Hfb by assumption.
    rewrite (wrap64_small (2 ^ Z.of_nat k * PAGE_SIZE))
      by (unfold PAGE_SIZE in *; lia).
    apply wrap64_small. unfold PAGE_SIZE in *. lia.
Qed.

Lemma shiftr1_pow2 j : 0 <= j -> Z.shiftr (2 ^ (j + 1)) 1 = 2 ^ j.
Proof.
  intros Hj. rewrite Z.shiftr_div_pow2, Z.pow_add_r by lia.
  change (2^1) with 2. apply Z.div_mul. lia.
Qed.




(** With every free list empty the loop goes on halving, past 1 to 0, and
    stays at 0. *)
Lemma allocpages_min_loop_runs fuel :
  forall mm req c min,
  rmm_wf mm -> no_free_block mm 0 -> (c < 64)%nat ->
  (forall j, 0 <= j -> Z.shiftr (2 ^ Z.of_nat c) j <> min) ->
  allocpages_min_loop fuel mm req (2 ^ Z.of_nat c) min = MinRunning
  /\ allocpages_min_loop fuel mm req 0 min = MinRunning.
Proof.
  induction fuel as [|fuel IH]; intros mm req c min Hwf Hnone Hc Hmin;
    [split; reflexivity|].
  assert (H0 : min <> 0).
  { intros E0. apply (Hmin 64); [lia|]. rewrite E0.
    rewrite Z.shiftr_div_pow2 by lia. apply Z.div_small.
    split; [apply Z.pow_nonneg; lia|apply Z.pow_lt_mono_r; lia]. }
  assert (Hzero : allocpages_min_loop (S fuel) mm req 0 min = MinRunning).
  { cbn [allocpages_min_loop]. change (rmm_allocpages mm 0) with (Some (mm, 0)).
    change (negb (0 =? 0)) with false; cbv iota. destruct (Z.eqb_spec 0 min); [lia|].
    change (Z.shiftr 0 1) with 0.
    apply (proj2 (IH mm req c min Hwf Hnone Hc Hmin)). }
  split; [|exact Hzero].
  cbn [allocpages_min_loop].
  destruct (rmm_allocpages_wf_cases mm c Hwf Hc)
    as [E|(mm' & p & E & Hp & Hfs)].
  - rewrite E. change (negb (0 =? 0)) with false; cbv iota.
    destruct (Z.eqb_spec (2 ^ Z.of_nat c) min) as [Ec|_].
    { exfalso. apply (Hmin 0); [lia|]. rewrite Z.shiftr_0_r. exact Ec. }
    destruct c as [|c].
    + change (Z.shiftr (2 ^ Z.of_nat 0) 1) with 0.
      apply (proj2 (IH mm req 0%nat min Hwf Hnone Hc Hmin)).
    + replace (Z.of_nat (S c)) with (Z.of_nat c + 1) by lia.
      rewrite shiftr1_pow2 by lia.
      apply (fun H => proj1 (IH mm req c min Hwf Hnone ltac:(lia) H)).
      intros j Hj Ej. apply (Hmin (j + 1)); [lia|].
      replace (Z.of_nat (S c)) with (Z.of_nat c + 1) by lia.
      rewrite <- Ej, <- (shiftr1_pow2 (Z.of_nat c)) by lia.
      rewrite Z.shiftr_shiftr by lia. f_equal. lia.
  - exfalso.
    assert (Hk : (c <= MAX_ORDER)%nat \/ (MAX_ORDER < c)%nat) by lia.
    pose proof (rmm_allocpages1_spec (S MAX_ORDER) mm c Hwf ltac:(lia)) as H.
    cbv zeta in H. destruct H as (H1 & H2 & _).
    assert (Hn : no_free_block mm c).
    { intros j Hj. apply Hnone. lia. }
    apply H1 in Hn.
    unfold rmm_allocpages in E.
    assert (Hpos : 0 < 2 ^ Z.of_nat c) by (apply Z.pow_pos_nonneg; lia).
    destruct (Z.eqb_spec (2 ^ Z.of_nat c) 0) as [|_]; [lia|].
    rewrite IS_POW2_pow2 in E by exact Hc. cbn [negb] in E.
    rewrite order_of_npages_pow2 in E by exact Hc. cbn [Nat.add] in E.
    destruct (rmm_allocpages1 (S MAX_ORDER) mm c) as [mm1 a].
    cbn [snd] in Hn. rewrite Hn, Z.eqb_refl in E.
    injection E as _ <-. apply Hp. reflexivity.
Qed.

(** X15.  In a well-formed state with every free list empty, when
    [min_npages] (1 if given as 0) is none of [CEIL_POW2(req_npages)],
    [CEIL_POW2(req_npages) >> 1], ..., 1, 0, the loop of
    [rmm_allocpages_min] never ends: however many rounds it is given, it is
    still running. *)
Theorem rmm_allocpages_min_never_returns mm req min c fuel :
  rmm_wf mm -> no_free_block mm 0 ->
  CEIL_POW2 req = 2 ^ Z.of_nat c -> (c < 64)%nat -> min <> 0 ->
  (forall j, 0 <= j -> Z.shiftr (2 ^ Z.of_nat c) j <> min) ->
  rmm_allocpages_min fuel mm req min = MinRunning.
Proof.
  intros Hwf Hnone Hc Hc64 Hmin0 Hmin. unfold rmm_allocpages_min.
  rewrite Hc. destruct (Z.eqb_spec min 0); [contradiction|].
  apply (proj1 (allocpages_min_loop_runs fuel mm req c min Hwf Hnone Hc64 Hmin)).
Qed.

(** A manager over three pages at 1 MiB manages one page; once that page
    is handed out every free list is empty. *)
Lemma rmm_sample_exhausted :
  exists mm, rmm_wf mm /\ no_free_block mm 0.
Proof.
  assert (X : match rmm_create 0x100000 (3 * 4096) with
              | Some mm0 =>
                  match rmm_allocpages mm0 (2 ^ Z.of_nat 0) with
                  | Some (mm1, p) =>
                      p <> 0
                      /\ forallb (fun j => match freelists mm1 j with
                                           | [] => true
                                           | _ => false
                                           end) (seq 0 (S MAX_ORDER)) = true
                  | None => False
                  end
              | None => False
              end) by (vm_compute; split; [discriminate|reflexivity]).
  destruct (rmm_create 0x100000 (3 * 4096)) as [mm0|] eqn:E0; [|contradiction].
  destruct (rmm_allocpages mm0 (2 ^ Z.of_nat 0)) as [[mm1 p]|] eqn:E1;
    [|contradiction].
  destruct X as [Hp Hall]. exists mm1. split.
  - apply (rmm_reachable_wf mm1 [(0%nat, p)]).
    apply (reach_alloc mm0 [] 0 mm1 p); [|lia|exact E1|exact Hp].
    apply (reach_create 0x100000 (3 * 4096)); [|exact E0].
    unfold host_region, PAGE_SIZE. lia.
  - intros j Hj. rewrite forallb_forall in Hall.
    specialize (Hall j ltac:(apply in_seq; lia)).
    destruct (freelists mm1 j); [reflexivity|discriminate].
Qed.

Lemma shiftr_4_not_3 j : 0 <= j -> Z.shiftr (2 ^ Z.of_nat 2) j <> 3.
Proof.
  intros Hj. rewrite Z.shiftr_div_pow2 by lia. change (2 ^ Z.of_nat 2) with 4.
  destruct (Z.eq_dec j 0) as [->|H0]; [cbn; lia|].
  destruct (Z.eq_dec j 1) as [->|H1]; [cbn; lia|].
  assert (2^2 <= 2^j) by (apply Z.pow_le_mono_r; lia).
  change (2^2) with 4 in *.
  assert (4 / 2^j <= 1).
  { apply Z.div_le_upper_bound; lia. }
  lia.
Qed.

Lemma rmm_allocpages_min_never_returns_witness :
  exists mm,
    rmm_wf mm /\ no_free_block mm 0
    /\ rmm_allocpages_min 1000 mm 4 3 = MinRunning.
Proof.
  destruct rmm_sample_exhausted as (mm & Hwf & Hnone).
  exists mm. split; [exact Hwf|]. split; [exact Hnone|].
  apply (rmm_allocpages_min_never_returns mm 4 3 2 1000 Hwf Hnone);
    [reflexivity|lia|lia|exact shiftr_4_not_3].
Defined.

(** ** mem_mm.c: what [rmm_create] sets up *)

Lemma bset_total_bounds n :
  forall nb order acc,
  0 <= nb -> 0 <= order -> 0 <= acc ->
  acc + Z.of_nat n * (nb + 2) < 2^64 ->
  acc + 2 * Z.of_nat n <= bset_total n nb order acc
  <= acc + Z.of_nat n * (nb + 2).
Proof.
  induction n as [|n IH]; intros nb order acc Hnb Ho Hacc Hlt;
    cbn [bset_total]; [lia|].
  assert (Hs : 0 <= Z.shiftr nb order <= nb).
  { rewrite Z.shiftr_div_pow2 by lia.
    assert (0 < 2 ^ order) by (apply Z.pow_pos_nonneg; lia).
    split; [apply Z.div_pos; lia|].
    apply Z.div_le_upper_bound; [lia|]. nia. }
  unfold BITSET_SIZE. rewrite (wrap64_small (Z.shiftr nb order + 2)) by lia.
  rewrite (wrap64_small (acc + (Z.shiftr nb order + 2))) by lia.
  specialize (IH nb (order + 1) (acc + (Z.shiftr nb order + 2))
                Hnb ltac:(lia) ltac:(lia) ltac:(lia)).
  lia.
Qed.

(** The managed range a successful [rmm_create] computes, and where it
    ends. *)
Lemma rmm_create_range memp memsize mm :
  host_region memp memsize -> rmm_create memp memsize = Some mm ->
  exists start T,
    memp <= start < memp + PAGE_SIZE /\ start mod PAGE_SIZE = 0
    /\ PAGE_SIZE <= T /\ T mod PAGE_SIZE = 0
    /\ start + T + PAGE_SIZE + sizeof_rmm_t <= memp + memsize
    /\ mm = rmm_seed (seed_fuel (T / PAGE_SIZE))
              {| start_addr := start; end_addr := start + T; free_size := T;
                 bitsets := fun _ _ => false; freelists := fun _ => [] |}
              (T / PAGE_SIZE) start.
Proof.
  intros (Hp & [Hs1 Hs2] & Hend) Hrun. unfold rmm_create in Hrun.
  unfold PAGE_SIZE in Hs1.
  change PAGE_SIZE with (2^12) in Hrun. change alignof_rmm_t with (2^3) in Hrun.
  unfold sizeof_rmm_t in *.
  change (2^43) with 8796093022208 in *.
  change (2^64) with 18446744073709551616 in Hend.
  rewrite ALIGN2_pow2 in Hrun
    by (change (2^12) with 4096; change (2^64) with 18446744073709551616; lia).
  set (start := memp + 2^12 - 1 - (memp + 2^12 - 1) mod 2^12) in *.
  destruct (round_down_bounds (memp + 2^12 - 1) 12 ltac:(lia) ltac:(lia))
    as (Hst1 & Hst2 & Hst3).
  fold start in Hst1, Hst2, Hst3. change (2^12) with 4096 in Hst1, Hst2, Hst3.
  assert (He1 : wrap64 (wrap64 (memp + memsize) - 544) = memp + memsize - 544).
  { unfold wrap64. rewrite Zminus_mod_idemp_l. apply Z.mod_small.
    change (2^64) with 18446744073709551616. lia. }
  rewrite He1 in Hrun.
  rewrite ALIGN2_FLOOR_pow2 in Hrun
    by (change (2^64) with 18446744073709551616; lia).
  rewrite (wrap64_small (memp + memsize - 544 + 1)) in Hrun
    by (change (2^64) with 18446744073709551616; lia).
  set (mma := memp + memsize - 544 + 1 - (memp + memsize - 544 + 1) mod 2^3) in *.
  destruct (round_down_bounds (memp + memsize - 544 + 1) 3 ltac:(lia) ltac:(lia))
    as (Hm1 & _ & _).
  fold mma in Hm1.
  destruct (Z.ltb_spec mma start) as [_|Hge]; [discriminate|].
  set (nb := (mma - start) / 2^12 / 8) in *.
  assert (Hnb : 0 <= nb <= mma - start).
  { unfold nb. change (2^12) with 4096. split.
    - apply Z.div_pos; [apply Z.div_pos|]; lia.
    - apply Z.div_le_upper_bound; [lia|].
      assert ((mma - start) / 4096 <= mma - start)
        by (apply Z.div_le_upper_bound; lia). lia. }
  assert (Hnb2 : nb < 8796093022208).
  { lia. }
  pose proof (bset_total_bounds MAX_ORDER nb 1 (wrap64 (nb + 2))) as Hbt.
  rewrite (wrap64_small (nb + 2)) in Hbt
    by (change (2^64) with 18446744073709551616; lia).
  specialize (Hbt ltac:(lia) ltac:(lia) ltac:(lia)).
  change (Z.of_nat MAX_ORDER) with 20 in Hbt.
  specialize (Hbt ltac:(change (2^64) with 18446744073709551616; lia)).
  rewrite (wrap64_small (nb + 2)) in Hrun
    by (change (2^64) with 18446744073709551616; lia).
  set (bt := bset_total MAX_ORDER nb 1 (nb + 2)) in *.
  assert (Hp12 : 2^12 = 4096) by reflexivity.
  rewrite (wrap64_small (bt + 2^12)) in Hrun
    by (rewrite Hp12; change (2^64) with 18446744073709551616; lia).
  destruct (Z.ltb_spec (mma - start) (bt + 2^12)) as [_|Hge2]; [discriminate|].
  rewrite ALIGN2_FLOOR_pow2 in Hrun
    by (rewrite ?Hp12 in *; change (2^64) with 18446744073709551616; lia).
  rewrite (wrap64_small (mma - start - (bt + 2^12) + 1)) in Hrun
    by (rewrite ?Hp12 in *; change (2^64) with 18446744073709551616; lia).
  set (T := mma - start - (bt + 2^12) + 1
            - (mma - start - (bt + 2^12) + 1) mod 2^12) in *.
  destruct (round_down_bounds (mma - start - (bt + 2^12) + 1) 12
              ltac:(lia) ltac:(rewrite ?Hp12 in *; lia)) as (HT1 & _ & HT3).
  fold T in HT1, HT3. rewrite Hp12 in HT3, HT1, Hge2.
  destruct (Z.eqb_spec T 0) as [_|HT0]; [discriminate|].
  rewrite (wrap64_small (start + T)) in Hrun
    by (change (2^64) with 18446744073709551616; lia).
  injection Hrun as <-.
  exists start, T. unfold PAGE_SIZE.
  assert (HT4 : 4096 <= T).
  { pose proof (Z.div_mod T 4096 ltac:(lia)).
    assert (0 < T / 4096) by nia. lia. }
  split; [lia|]. split; [exact Hst3|]. split; [exact HT4|].
  split; [exact HT3|]. split; [lia|]. reflexivity.
Qed.

Lemma rmm_seed_fields start T :
  0 < start -> 0 < T -> T mod PAGE_SIZE = 0 -> start + T < 2^64 ->
  let mm := rmm_seed (seed_fuel (T / PAGE_SIZE))
              {| start_addr := start; end_addr := start + T; free_size := T;
                 bitsets := fun _ _ => false; freelists := fun _ => [] |}
              (T / PAGE_SIZE) start in
  start_addr mm = start /\ end_addr mm = start + T /\ free_size mm = T
  /\ free_bytes mm = T.
Proof.
  intros Hs HT Hal Hend mm.
  assert (HTn : T / PAGE_SIZE * PAGE_SIZE = T).
  { pose proof (Z.div_mod T PAGE_SIZE ltac:(unfold PAGE_SIZE; lia)). lia. }
  destruct (rmm_seed_inv (seed_fuel (T / PAGE_SIZE))
              {| start_addr := start; end_addr := start + T; free_size := T;
                 bitsets := fun _ _ => false; freelists := fun _ => [] |}
              [] 0 MAX_ORDER (T / PAGE_SIZE))
    as ((R & last & Hsi) & E1 & E2 & E3).
  - apply seed_inv_init; reflexivity.
  - apply Z.div_pos; unfold PAGE_SIZE; lia.
  - cbn [start_addr]. lia.
  - lia.
  - cbn [start_addr]. lia.
  - unfold seed_fuel, MAX_ORDER. lia.
  - cbn [start_addr end_addr free_size] in *.
    replace (start + 0) with start in * by lia.
    fold mm in Hsi, E1, E2, E3.
    split; [exact E1|]. split; [exact E2|]. split; [exact E3|].
    rewrite (s_fb _ _ _ _ Hsi). lia.
Qed.

(** X16.  A successful [rmm_create(memp, memsize)] manages a range of whole
    pages that starts at the first page address at or after [memp] and
    ends at least [PAGE_SIZE + sizeof(rmm_t)] bytes before the end of the
    region; all of it is free: [free_size] is its length and so is the sum
    of the blocks on the free lists. *)
Theorem rmm_create_managed_range memp memsize mm :
  host_region memp memsize -> rmm_create memp memsize = Some mm ->
  memp <= start_addr mm < memp + PAGE_SIZE
  /\ start_addr mm mod PAGE_SIZE = 0
  /\ start_addr mm + PAGE_SIZE <= end_addr mm
  /\ (end_addr mm - start_addr mm) mod PAGE_SIZE = 0
  /\ end_addr mm + PAGE_SIZE + sizeof_rmm_t <= memp + memsize
  /\ free_size mm = end_addr mm - start_addr mm
  /\ free_bytes mm = free_size mm.
Proof.
  intros Hh Hc. pose proof Hh as (Hp & [Hs1 Hs2] & Hend).
  destruct (rmm_create_range memp memsize mm Hh Hc)
    as (start & T & Hst & Hal & HT & HTal & Hhi & ->).
  destruct (rmm_seed_fields start T) as (E1 & E2 & E3 & E4);
    try (unfold PAGE_SIZE, sizeof_rmm_t in *; lia).
  rewrite E1, E2, E3, E4.
  replace (start + T - start) with T by lia.
  split; [exact Hst|]. split; [exact Hal|]. split; [lia|].
  split; [exact HTal|]. split; [exact Hhi|]. split; reflexivity.
Qed.

Lemma rmm_create_managed_range_witness :
  exists mm,
    rmm_create 0x100000 (10 * 2^20) = Some mm
    /\ 0x100000 <= start_addr mm < 0x100000 + PAGE_SIZE
    /\ start_addr mm mod PAGE_SIZE = 0
    /\ start_addr mm + PAGE_SIZE <= end_addr mm
    /\ (end_addr mm - start_addr mm) mod PAGE_SIZE = 0
    /\ end_addr mm + PAGE_SIZE + sizeof_rmm_t <= 0x100000 + 10 * 2^20
    /\ free_size mm = end_addr mm - start_addr mm
    /\ free_bytes mm = free_size mm.
Proof.
  destruct rmm_sample_alloc_page as (mm0 & mm1 & p & E0 & _).
  exists mm0. split; [exact E0|].
  apply (rmm_create_managed_range 0x100000 (10 * 2^20) mm0); [|exact E0].
  apply host_region_sample. lia.
Defined.

(** X17.  [rmm_create] returns NULL for a region shorter than two pages
    and an [rmm_t]. *)
Theorem rmm_create_too_small memp memsize :
  host_region memp memsize -> memsize < 2 * PAGE_SIZE + sizeof_rmm_t ->
  rmm_create memp memsize = None.
Proof.
  intros Hh Hlt. destruct (rmm_create memp memsize) as [mm|] eqn:Hc;
    [exfalso|reflexivity].
  destruct (rmm_create_range memp memsize mm Hh Hc)
    as (start & T & Hst & _ & HT & _ & Hhi & _).
  unfold PAGE_SIZE, sizeof_rmm_t in *. lia.
Qed.

Lemma rmm_create_too_small_witness :
  rmm_create 0x100000 (2 * PAGE_SIZE + sizeof_rmm_t - 1) = None.
Proof.
  apply (rmm_create_too_small 0x100000 (2 * PAGE_SIZE + sizeof_rmm_t - 1)).
  - unfold host_region, PAGE_SIZE, sizeof_rmm_t. lia.
  - lia.
Defined.

(** ** mem_mm.c: releasing what is not allocated *)

Lemma rmm_freepages1_no_bit fuel :
  forall mm a k,
  (forall j, (k <= j <= MAX_ORDER)%nat ->
     bit_get (bitsets mm j) (to_int (a / order_size j)) = false) ->
  rmm_freepages1 fuel mm a k = (mm, -1).
Proof.
  induction fuel as [|fuel IH]; intros mm a k H; cbn [rmm_freepages1];
    destruct (Nat.ltb_spec MAX_ORDER k) as [|Hk]; try reflexivity;
    rewrite (H k ltac:(lia)); cbn [negb]; [reflexivity|].
  apply IH. intros j Hj. apply H. lia.
Qed.

(** X18.  When the use bit of an address is clear at every order,
    [rmm_freepages] at that address leaves the state as it is: nothing is
    put on a free list and [free_size] does not grow. *)
Theorem rmm_freepages_no_block mm p :
  (forall j, (j <= MAX_ORDER)%nat ->
     bit_get (bitsets mm j)
       (to_int (wrap64 (p - start_addr mm) / order_size j)) = false) ->
  rmm_freepages mm p = mm.
Proof.
  intros H. unfold rmm_freepages.
  rewrite rmm_freepages1_no_bit; [reflexivity|].
  intros j Hj. apply H. lia.
Qed.

Lemma rmm_freepages_no_block_witness :
  exists mm, rmm_freepages mm (start_addr mm) = mm.
Proof.
  assert (X : match rmm_create 0x100000 (10 * 2^20) with
              | Some mm0 =>
                  forallb (fun j =>
                    negb (bit_get (bitsets mm0 j)
                            (to_int (wrap64 (start_addr mm0 - start_addr mm0)
                                     / order_size j))))
                    (seq 0 (S MAX_ORDER)) = true
              | None => False
              end) by (vm_compute; reflexivity).
  destruct (rmm_create 0x100000 (10 * 2^20)) as [mm0|]; [|contradiction].
  exists mm0. apply (rmm_freepages_no_block mm0 (start_addr mm0)).
  intros j Hj. rewrite forallb_forall in X.
  specialize (X j ltac:(apply in_seq; lia)).
  apply negb_true_iff in X. exact X.
Defined.

(** ** vm.c: [getbits] and the cache *)




Section VmCacheMore.

Variable mask : Z.

Lemma expected_tag_not_ones vaddr a :
  1 <= a <= 2^11 ->
  Z.land vaddr (Z.lxor VM_ADDR_PAGE_MASK (wrap64 (a - 1))) <> 2^64 - 1.
Proof.
  intros Ha E.
  assert (Hb : Z.testbit (Z.land vaddr
                 (Z.lxor VM_ADDR_PAGE_MASK (wrap64 (a - 1)))) 11 = true).
  { rewrite E. apply testbit_ones64. lia. }
  rewrite Z.land_spec, Z.lxor_spec, testbit_page_mask in Hb by lia.
  change (2^11) with 2048 in Ha.
  rewrite wrap64_small in Hb by (change (2^64) with 18446744073709551616; lia).
  assert (Hz : Z.testbit (a - 1) 11 = false).
  { destruct (Z.eq_dec (a - 1) 0) as [->|Hnz]; [apply Z.bits_0|].
    apply Z.bits_above_log2; [lia|].
    apply Z.log2_lt_pow2; [lia|]. change (2^11) with 2048. lia. }
  rewrite Hz in Hb. cbn in Hb. rewrite andb_false_r in Hb. discriminate.
Qed.

(** X20.  A cache as [vm_cache_init] or [vm_cache_invalidate] leaves it
    misses on every address, for every alignment from 1 to 2048. *)
Theorem vm_cache_invalidate_misses (c : vm_cache_t) vaddr a :
  1 <= a <= 2^11 ->
  vm_cache_lookup mask vm_cache_init vaddr a = 0
  /\ vm_cache_lookup mask (vm_cache_invalidate c) vaddr a = 0.
Proof.
  intros Ha.
  assert (H : forall c0 : vm_cache_t,
            (forall i, c0 i = ent_ones) -> vm_cache_lookup mask c0 vaddr a = 0).
  { intros c0 Hc. unfold vm_cache_lookup. rewrite Hc. unfold ent_ones.
    cbn [tag haddr_diff].
    destruct (Z.eqb_spec (2^64 - 1)
                (Z.land vaddr (Z.lxor VM_ADDR_PAGE_MASK (wrap64 (a - 1)))))
      as [E|_].
    - exfalso. apply (expected_tag_not_ones vaddr a Ha). symmetry. exact E.
    - rewrite Z.mul_0_r. reflexivity. }
  split; apply H; intros i; reflexivity.
Qed.

Lemma page_bits_of_tag v a :
  0 <= v < 2^64 -> 1 <= a <= 2^12 ->
  VM_PAGE_ADDR (Z.land v (Z.lxor VM_ADDR_PAGE_MASK (wrap64 (a - 1))))
  = VM_PAGE_ADDR v.
Proof.
  intros Hv Ha. unfold VM_PAGE_ADDR. apply Z.bits_inj'. intros i Hi.
  rewrite !Z.land_spec, Z.lxor_spec, testbit_page_mask by lia.
  change (2^12) with 4096 in Ha.
  rewrite wrap64_small by (change (2^64) with 18446744073709551616; lia).
  destruct (Z.leb_spec 12 i) as [H12|H12]; cbn [andb];
    [|rewrite !andb_false_r; reflexivity].
  destruct (Z.ltb_spec i 64) as [H64|H64]; cbn [andb];
    [|rewrite !andb_false_r; reflexivity].
  assert (Hz : Z.testbit (a - 1) i = false).
  { destruct (Z.eq_dec (a - 1) 0) as [->|Hnz]; [apply Z.bits_0|].
    apply Z.bits_above_log2; [lia|].
    assert (Z.log2 (a - 1) < 12)
      by (apply Z.log2_lt_pow2; [lia|]; change (2^12) with 4096; lia).
    lia. }
  rewrite Hz. cbn. rewrite !andb_true_r. reflexivity.
Qed.

(** X21.  After [vm_cache_add(cache, vpaddr, hpaddr)] with a page address
    [vpaddr], a lookup of an address on another page that falls on the same
    cache entry misses, for every alignment from 1 to [PAGE_SIZE]: the entry
    answers for the page [vpaddr] only, whatever it held before. *)
Theorem vm_cache_add_evicts (c : vm_cache_t) vpaddr hpaddr vaddr a :
  0 <= vaddr < 2^64 -> 0 <= vpaddr < 2^64 -> vpaddr mod PAGE_SIZE = 0 ->
  1 <= a <= 2^12 ->
  vm_cache_index mask vaddr = vm_cache_index mask vpaddr ->
  VM_PAGE_ADDR vaddr <> vpaddr ->
  vm_cache_lookup mask (fst (vm_cache_add mask c vpaddr hpaddr)) vaddr a = 0.
Proof.
  intros Hv Hvp Hal Ha Hidx Hpage.
  unfold vm_cache_lookup, vm_cache_add. cbn [fst].
  rewrite Hidx, Z.eqb_refl. cbn [tag haddr_diff].
  destruct (Z.eqb_spec vpaddr
              (Z.land vaddr (Z.lxor VM_ADDR_PAGE_MASK (wrap64 (a - 1)))))
    as [E|_]; [|rewrite Z.mul_0_r; reflexivity].
  exfalso. apply Hpage.
  rewrite <- (page_bits_of_tag vaddr a Hv Ha), <- E.
  rewrite page_addr_spec by exact Hvp. rewrite Hal. lia.
Qed.

End VmCacheMore.

Lemma vm_cache_invalidate_misses_witness :
  vm_cache_lookup 255 vm_cache_init 0xdeadbee4 4 = 0
  /\ vm_cache_lookup 255 (vm_cache_invalidate vm_cache_init) 0xdeadbee4 4 = 0.
Proof. apply (vm_cache_invalidate_misses 255 vm_cache_init 0xdeadbee4 4). lia. Defined.

Lemma vm_cache_add_evicts_witness :
  vm_cache_lookup 255
    (fst (vm_cache_add 255 vm_cache_init 0xdeadb000 0x1044f000))
    0xdebdbee4 4 = 0.
Proof.
  apply (vm_cache_add_evicts 255 vm_cache_init 0xdeadb000 0x1044f000
           0xdebdbee4 4); try lia; try reflexivity.
  vm_compute. discriminate.
Defined.

(** ** vm.c: the page directory and the page manager *)

Lemma rmm_allocpages_exhausted mm k :
  rmm_wf mm -> (k < 64)%nat -> no_free_block mm k ->
  rmm_allocpages mm (2 ^ Z.of_nat k) = Some (mm, 0).
Proof.
  intros Hwf Hk Hnone.
  destruct (rmm_allocpages_wf_cases mm k Hwf Hk)
    as [E|(mm' & p & E & Hp & _)]; [exact E|exfalso].
  pose proof (rmm_allocpages1_spec (S MAX_ORDER) mm k Hwf ltac:(lia)) as H.
  cbv zeta in H. destruct H as (H1 & _ & _). apply H1 in Hnone.
  unfold rmm_allocpages in E.
  assert (Hpos : 0 < 2 ^ Z.of_nat k) by (apply Z.pow_pos_nonneg; lia).
  destruct (Z.eqb_spec (2 ^ Z.of_nat k) 0) as [|_]; [lia|].
  rewrite IS_POW2_pow2 in E by exact Hk. cbn [negb] in E.
  rewrite order_of_npages_pow2 in E by exact Hk. cbn [Nat.add] in E.
  destruct (rmm_allocpages1 (S MAX_ORDER) mm k) as [mm1 a].
  cbn [snd] in Hnone. rewrite Hnone, Z.eqb_refl in E.
  injection E as _ <-. apply Hp. reflexivity.
Qed.

(** One page taken from a page manager in order. *)
Lemma alloc_page_free_size mm L R mm' p :
  rmm_inv mm L R -> rmm_acct mm L ->
  rmm_allocpages mm 1 = Some (mm', p) -> p <> 0 ->
  free_size mm' = free_size mm - PAGE_SIZE.
Proof.
  intros Hinv Hacct Ha Hp.
  pose proof (inv_wf mm L R Hinv Hacct) as Hwf.
  change 1 with (2 ^ Z.of_nat 0) in Ha.
  destruct (rmm_allocpages_wf_cases mm 0 Hwf ltac:(lia))
    as [E|(mm1 & q & E & Hq & Hfs)]; rewrite E in Ha; injection Ha as <- <-.
  - contradiction.
  - rewrite Hfs. change (2 ^ Z.of_nat 0) with 1. lia.
Qed.

Section VmPagedirMore.

Variable addr_bits : Z.
Variable levels : nat.

(** A walk over [n + 1] levels takes at most [n + 1] pages. *)
Lemma lookup_loop_pages n :
  forall pd ptab mv bits pd' pte L R,
  rmm_inv (pd_mm pd) L R -> rmm_acct (pd_mm pd) L ->
  lookup_loop addr_bits n pd ptab mv bits = Some (pd', pte) ->
  free_size (pd_mm pd) - (Z.of_nat n + 1) * PAGE_SIZE
  <= free_size (pd_mm pd') <= free_size (pd_mm pd).
Proof.
  induction n as [|n IH]; intros pd ptab mv bits pd' pte L R Hinv Hacct H.
  - rewrite lookup_loop_O in H. cbv zeta in H.
    match type of H with
    | (if ?c then _ else _) = _ => destruct c
    end.
    + unfold vm_pagedir_alloc_backing_page in H.
      destruct (rmm_allocpages (pd_mm pd) 1) as [[mm1 p]|] eqn:Ea;
        [|discriminate].
      cbv zeta in H.
      destruct (Z.eqb_spec (Z.shiftr p PAGE_SIZE_BITS) 0) as [|Hne];
        [discriminate|].
      injection H as <- _. cbn [pd_mm].
      assert (Hp : p <> 0) by (intros ->; apply Hne; reflexivity).
      rewrite (alloc_page_free_size _ L R mm1 p Hinv Hacct Ea Hp).
      unfold PAGE_SIZE. lia.
    + injection H as <- _. unfold PAGE_SIZE. lia.
  - rewrite lookup_loop_S in H. cbv zeta in H.
    match type of H with
    | (if ?c then _ else _) = _ => destruct c
    end.
    + specialize (IH _ _ _ _ _ _ L R Hinv Hacct H). unfold PAGE_SIZE in *. lia.
    + destruct (vm_ptab_create (pd_mm pd) (pd_mem pd))
        as [[[mm1 mem1] p]|] eqn:Ec; [|discriminate].
      destruct (Z.eqb_spec p 0) as [|Hp]; [discriminate|].
      destruct (ptab_create_spec _ _ mm1 mem1 p L R Hinv Hacct Ec Hp)
        as (_ & Hinv1 & Hacct1 & _).
      assert (Hfs : free_size mm1 = free_size (pd_mm pd) - PAGE_SIZE).
      { unfold vm_ptab_create, VM_ZERO_PAGES in Ec.
        change (VM_PTAB_SIZE / PAGE_SIZE) with 1 in Ec.
        destruct (rmm_allocpages (pd_mm pd) 1) as [[mm2 q]|] eqn:Ea;
          [|discriminate].
        destruct (Z.eqb_spec q 0) as [->|Hq].
        - injection Ec as _ _ <-. contradiction.
        - injection Ec as <- _ _.
          apply (alloc_page_free_size _ L R mm2 q Hinv Hacct Ea Hq). }
      pose proof (fun A B => IH _ _ _ _ _ _ ((0%nat, p) :: L) R A B H) as IH'.
      cbn [pd_mm] in IH'. specialize (IH' Hinv1 Hacct1).
      unfold PAGE_SIZE in *. lia.
Qed.

(** X22.  A walk of a page directory in order takes at most
    [VM_PTAB_LEVELS] pages from the page manager (one for each table it
    adds and one for the backing page), and gives none back. *)
Theorem vm_pagedir_lookup_pte_pages pd vfn pd' pte :
  pagedir_inv levels pd ->
  vm_pagedir_lookup_pte addr_bits levels pd vfn = Some (pd', pte) ->
  free_size (pd_mm pd) - (Z.of_nat (levels - 1) + 1) * PAGE_SIZE
  <= free_size (pd_mm pd') <= free_size (pd_mm pd).
Proof.
  intros (_ & L & R & Hinv & Hacct & _) H. unfold vm_pagedir_lookup_pte in H.
  apply (lookup_loop_pages _ pd _ _ _ pd' pte L R Hinv Hacct H).
Qed.


(** X24.  [vm_pagedir_init] over a page manager in order: with no free
    block it fails; when it succeeds the root table is a page address that
    is not 0, it has cost the page manager one page, and every entry of the
    root table is 0 (tables are zeroed). *)
Theorem vm_pagedir_init_spec mm mem L R :
  rmm_inv mm L R -> rmm_acct mm L ->
  (no_free_block mm 0 -> vm_pagedir_init mm mem = None)
  /\ (forall pd, vm_pagedir_init mm mem = Some pd ->
        pd_root pd <> 0 /\ pd_root pd mod PAGE_SIZE = 0
        /\ free_size (pd_mm pd) = free_size mm - PAGE_SIZE
        /\ (forall i, 0 <= i < VM_PTAB_LEN ->
              pd_mem pd (pd_root pd + sizeof_vm_pte_t * i) = 0)).
Proof.
  intros Hinv Hacct. pose proof (inv_wf mm L R Hinv Hacct) as Hwf.
  unfold vm_pagedir_init, vm_ptab_create, VM_ZERO_PAGES.
  change (VM_PTAB_SIZE / PAGE_SIZE) with 1. split.
  - intros Hnone.
    change 1 with (2 ^ Z.of_nat 0).
    rewrite (rmm_allocpages_exhausted mm 0 Hwf ltac:(lia) Hnone).
    reflexivity.
  - intros pd H.
    destruct (rmm_allocpages mm 1) as [[mm1 p]|] eqn:Ea; [|discriminate].
    destruct (Z.eqb_spec p 0) as [->|Hp]; [discriminate|].
    assert (E : pd = mk_pagedir p mm1 (mem_zero mem p VM_PTAB_SIZE)).
    { destruct (Z.eqb_spec p 0); try contradiction.
      injection H as <-. reflexivity. }
    subst pd. cbn [pd_root pd_mm pd_mem].
    destruct (alloc_page_facts mm L R mm1 p Hinv Hacct Ea)
      as [[-> _]|(_ & _ & _ & Hal & Hlo & _)]; [contradiction|].
    split; [exact Hp|]. split; [exact Hal|].
    split; [apply (alloc_page_free_size mm L R mm1 p Hinv Hacct Ea Hp)|].
    intros i Hi. unfold mem_zero.
    change VM_PTAB_LEN with 512 in Hi. change VM_PTAB_SIZE with 4096.
    unfold sizeof_vm_pte_t.
    destruct (Z.leb_spec p (p + 8 * i)); [|lia].
    destruct (Z.ltb_spec (p + 8 * i) (p + 4096)); [reflexivity|lia].
Qed.

End VmPagedirMore.

Lemma vm_pagedir_lookup_pte_pages_witness :
  exists pd pd' pte,
    pagedir_inv 4 pd
    /\ vm_pagedir_lookup_pte 48 4 pd (VM_VFN 0xdeadbee4) = Some (pd', pte)
    /\ free_size (pd_mm pd) - (Z.of_nat (4 - 1) + 1) * PAGE_SIZE
       <= free_size (pd_mm pd') <= free_size (pd_mm pd).
Proof.
  destruct vm_sample_miss as (mm0 & pd & cache' & pd' & r & E0 & E1 & E2).
  assert (Hr : rmm_reachable mm0 []).
  { apply (reach_create 0x100000 (10 * 2^20)); [|exact E0].
    apply host_region_sample. lia. }
  destruct (rmm_reachable_inv mm0 [] Hr) as (R & Hinv & Hacct).
  pose proof (vm_pagedir_init_inv 4 mm0 _ pd [] R Hinv Hacct E1) as Hpd.
  destruct (vm_pagedir_lookup_pte 48 4 pd (VM_VFN 0xdeadbee4))
    as [[pd1 pte]|] eqn:Ew.
  - exists pd, pd1, pte. split; [exact Hpd|]. split; [exact Ew|].
    apply (vm_pagedir_lookup_pte_pages 48 4 pd _ pd1 pte Hpd Ew).
  - exfalso. unfold _vm_cache_miss in E2.
    destruct ((0xdeadbee4 <? VM_ADDR_MIN) || (2^48 - 1 <? 0xdeadbee4));
      [discriminate|].
    destruct (negb (IS_ALIGN2 0xdeadbee4
                      (VM_OP_ALIGNMENT (VM_OP_MAKE VM_OP_STORE 4))));
      [discriminate|].
    rewrite Ew in E2. discriminate.
Defined.


Lemma vm_pagedir_init_spec_witness :
  exists mm pd,
    vm_pagedir_init mm (fun _ => 0) = Some pd
    /\ pd_root pd <> 0 /\ pd_root pd mod PAGE_SIZE = 0
    /\ free_size (pd_mm pd) = free_size mm - PAGE_SIZE
    /\ (forall i, 0 <= i < VM_PTAB_LEN ->
          pd_mem pd (pd_root pd + sizeof_vm_pte_t * i) = 0).
Proof.
  destruct vm_sample_miss as (mm0 & pd & cache' & pd' & r & E0 & E1 & E2).
  assert (Hr : rmm_reachable mm0 []).
  { apply (reach_create 0x100000 (10 * 2^20)); [|exact E0].
    apply host_region_sample. lia. }
  destruct (rmm_reachable_inv mm0 [] Hr) as (R & Hinv & Hacct).
  exists mm0, pd. split; [exact E1|].
  destruct (vm_pagedir_init_spec mm0 (fun _ => 0) [] R Hinv Hacct)
    as [_ H].
  apply (H pd E1).
Defined.

(** ** kmem: bytes of memory *)

Lemma load_ext n : forall m m' a,
  (forall x, a <= x < a + Z.of_nat n -> m x = m' x) ->
  load n m a = load n m' a.
Proof.
  induction n as [|n IH]; intros m m' a H; [reflexivity|].
  cbn [load]. rewrite (H a) by lia. f_equal. f_equal.
  apply IH. intros x Hx. apply H. lia.
Qed.

Lemma load_range n : forall m a, 0 <= load n m a < 256 ^ Z.of_nat n.
Proof.
  induction n as [|n IH]; intros m a.
  - cbn. lia.
  - cbn [load]. rewrite Nat2Z.inj_succ, Z.pow_succ_r by lia.
    pose proof (IH m (a + 1)). pose proof (Z.mod_pos_bound (m a) 256). lia.
Qed.

Lemma load_store_same n : forall m a v,
  0 <= v < 256 ^ Z.of_nat n -> load n (store n m a v) a = v.
Proof.
  induction n as [|n IH]; intros m a v Hv.
  - cbn in *. lia.
  - cbn [load].
    rewrite Nat2Z.inj_succ, Z.pow_succ_r in Hv by lia.
    assert (E0 : store (S n) m a v a = v mod 256).
    { unfold store. rewrite Z.sub_diag. change (256 ^ 0) with 1.
      rewrite Z.div_1_r.
      destruct (Z.leb_spec a a); [|lia].
      destruct (Z.ltb_spec a (a + Z.of_nat (S n))); [reflexivity|lia]. }
    rewrite E0, Z.mod_mod by lia.
    rewrite (load_ext n (store (S n) m a v) (store n m (a + 1) (v / 256))).
    + rewrite IH.
      * pose proof (Z.div_mod v 256 ltac:(lia)). lia.
      * split; [apply Z.div_pos; lia|].
        apply Z.div_lt_upper_bound; lia.
    + intros x Hx. unfold store.
      destruct (Z.leb_spec a x); [|lia].
      destruct (Z.ltb_spec x (a + Z.of_nat (S n))); [|lia].
      destruct (Z.leb_spec (a + 1) x); [|lia].
      destruct (Z.ltb_spec x (a + 1 + Z.of_nat n)); [|lia].
      cbn [andb]. rewrite Z.div_div by (try apply Z.pow_pos_nonneg; lia).
      replace (x - a) with (Z.succ (x - (a + 1))) by lia.
      rewrite Z.pow_succ_r by lia. reflexivity.
Qed.

Lemma load_store_other n n' m a v b :
  a + Z.of_nat n <= b \/ b + Z.of_nat n' <= a ->
  load n' (store n m a v) b = load n' m b.
Proof.
  intros H. apply load_ext. intros x Hx. unfold store.
  destruct (Z.leb_spec a x); [|reflexivity].
  destruct (Z.ltb_spec x (a + Z.of_nat n)); [lia|reflexivity].
Qed.

Lemma load_memset_other n' m a c n b :
  a + n <= b \/ b + Z.of_nat n' <= a ->
  load n' (memset m a c n) b = load n' m b.
Proof.
  intros H. apply load_ext. intros x Hx. unfold memset.
  destruct (Z.leb_spec a x); [|reflexivity].
  destruct (Z.ltb_spec x (a + n)); [lia|reflexivity].
Qed.

Lemma load64_range m a : 0 <= load64 m a < 2^64.
Proof. apply (load_range 8). Qed.

Lemma load32_range m a : 0 <= load32 m a < 2^32.
Proof. apply (load_range 4). Qed.

Lemma load64_store64_same m a v :
  0 <= v < 2^64 -> load64 (store64 m a v) a = v.
Proof. apply (load_store_same 8). Qed.

Lemma load32_store32_same m a v :
  0 <= v < 2^32 -> load32 (store32 m a v) a = v.
Proof. apply (load_store_same 4). Qed.

Lemma load64_store64_other m a v b :
  a + 8 <= b \/ b + 8 <= a -> load64 (store64 m a v) b = load64 m b.
Proof. apply (load_store_other 8 8). Qed.

Lemma load32_store64_other m a v b :
  a + 8 <= b \/ b + 4 <= a -> load32 (store64 m a v) b = load32 m b.
Proof. apply (load_store_other 8 4). Qed.

Lemma load64_store32_other m a v b :
  a + 4 <= b \/ b + 8 <= a -> load64 (store32 m a v) b = load64 m b.
Proof. apply (load_store_other 4 8). Qed.

Lemma load32_store32_other m a v b :
  a + 4 <= b \/ b + 4 <= a -> load32 (store32 m a v) b = load32 m b.
Proof. apply (load_store_other 4 4). Qed.

Lemma load64_memset_other m a c n b :
  a + n <= b \/ b + 8 <= a -> load64 (memset m a c n) b = load64 m b.
Proof. apply (load_memset_other 8). Qed.

Lemma load32_memset_other m a c n b :
  a + n <= b \/ b + 4 <= a -> load32 (memset m a c n) b = load32 m b.
Proof. apply (load_memset_other 4). Qed.

(** ** kmem: the slab heaps *)

Lemma slab_sizes_values a :
  slab_sizes a ->
  sh_size (slabheaps a 0) = 8 /\ sh_size (slabheaps a 1) = 16
  /\ sh_size (slabheaps a 2) = 32 /\ sh_size (slabheaps a 3) = 64.
Proof.
  intros H. unfold slab_sizes, SLABHEAP_COUNT in H.
  rewrite (H 0%nat), (H 1%nat), (H 2%nat), (H 3%nat) by lia.
  repeat split; reflexivity.
Qed.

Lemma kmem_heapalloc_slabheaps a size al a' ptr sz :
  kmem_heapalloc a size al = Some (a', ptr, sz) ->
  slabheaps a' = slabheaps a.
Proof.
  unfold kmem_heapalloc.
  destruct (heapalloc_list (subheaps a) (mem a) size al) as [[[[hs m] q] s]|];
    [|discriminate].
  intros H. injection H as <- _ _. reflexivity.
Qed.

Lemma sh_size_set_slabheap a i sh j :
  sh_size sh = sh_size (slabheaps a i) ->
  sh_size (slabheaps (set_slabheap a i sh) j) = sh_size (slabheaps a j).
Proof.
  intros E. unfold set_slabheap, upd. cbn [slabheaps].
  destruct (Nat.eqb_spec j i) as [->|_]; [exact E|reflexivity].
Qed.

(** [slabheap_alloc] writes no [size]. *)
Lemma slabheap_alloc_sizes a i a' c :
  slabheap_alloc a i = Some (a', c) ->
  forall j, sh_size (slabheaps a' j) = sh_size (slabheaps a j).
Proof.
  unfold slabheap_alloc. intros H j.
  assert (Hg : exists a1 block,
            (forall j, sh_size (slabheaps a1 j) = sh_size (slabheaps a j))
            /\ (if sh_usable (slabheaps a i) =? 0 then slabheap_grow a i
                else Some (a, sh_usable (slabheaps a i))) = Some (a1, block)).
  { destruct (sh_usable (slabheaps a i) =? 0).
    - unfold slabheap_grow in *.
      destruct (kmem_heapalloc a SLABHEAP_BLOCK_SIZE SLABHEAP_BLOCK_SIZE)
        as [[[a0 blk] s]|] eqn:Eh; [|discriminate].
      pose proof (kmem_heapalloc_slabheaps _ _ _ _ _ _ Eh) as Es.
      eexists _, _. split; [|reflexivity].
      intros k. rewrite sh_size_set_slabheap by reflexivity.
      cbn [set_mem slabheaps]. rewrite Es. reflexivity.
    - exists a, (sh_usable (slabheaps a i)). split; reflexivity. }
  destruct Hg as (a1 & block & Hs & Eg). rewrite Eg in H. rewrite <- Hs.
  cbv zeta in H.
  destruct (load64 (mem a1) (block + 8) =? 0);
    match type of H with
    | (if ?c then _ else _) = _ => destruct c
    end; injection H as <- _;
    try (rewrite sh_size_set_slabheap by reflexivity); reflexivity.
Qed.

Lemma ALIGN2_one x : 0 <= x < 2^64 -> ALIGN2 x 1 = x.
Proof.
  intros Hx. change 1 with (2^0) at 1. rewrite ALIGN2_pow2 by lia.
  change (2^0) with 1. rewrite Z.mod_1_r. lia.
Qed.

Lemma CEIL_POW2_between x n :
  1 <= n <= 61 -> 2^n < x <= 2^(n+1) -> CEIL_POW2 x = 2^(n+1).
Proof.
  intros Hn Hx.
  assert (H1 : 2^1 <= 2^n) by (apply Z.pow_le_mono_r; lia).
  assert (H2 : 2^(n+1) <= 2^62) by (apply Z.pow_le_mono_r; lia).
  change (2^1) with 2 in H1.
  assert (H3 : 2^62 < 2^63) by reflexivity.
  destruct (CEIL_POW2_pow2 x ltac:(lia)) as [E _]. rewrite E. f_equal.
  rewrite (Z.log2_unique (x - 1) n); lia.
Qed.

(** X25.  For [5 <= size <= 64] the size of the region that a successful
    [kmem_alloc_aligned(a, size, 1)] returns is [kmem_alloc_size(size)],
    the slab class [CEIL_POW2(size)]; the allocation leaves the class sizes
    as they are. *)
Theorem kmem_alloc_size_agrees_slab a size a' r :
  slab_sizes a -> 5 <= size <= 64 ->
  kmem_alloc_aligned a size 1 = Some (a', r) ->
  r_size r = kmem_alloc_size size /\ r_size r = CEIL_POW2 size
  /\ slab_sizes a'.
Proof.
  intros Hs Hsz H.
  destruct (slab_sizes_values a Hs) as (E0 & E1 & E2 & E3).
  unfold kmem_alloc_aligned in H.
  rewrite ALIGN2_one in H by lia.
  assert (Hk : kmem_alloc_size size = CEIL_POW2 size).
  { unfold kmem_alloc_size.
    change (Z.shiftl 1 (Z.of_nat SLABHEAP_COUNT - 1 + ILOG2 SLABHEAP_MIN_SIZE))
      with 64.
    destruct (Z.leb_spec size 64); [reflexivity|lia]. }
  rewrite Hk.
  assert (Hfind : exists i, (i < SLABHEAP_COUNT)%nat
            /\ find_slabheap a size 0 SLABHEAP_COUNT = Some i
            /\ sh_size (slabheaps a i) = CEIL_POW2 size).
  { unfold SLABHEAP_COUNT. cbn [find_slabheap]. rewrite E0, E1, E2, E3.
    destruct (Z.leb_spec size 8).
    { exists 0%nat. split; [lia|]. split; [reflexivity|]. rewrite E0.
      symmetry. apply (CEIL_POW2_between size 2); lia. }
    destruct (Z.leb_spec size 16).
    { exists 1%nat. split; [lia|]. split; [reflexivity|]. rewrite E1.
      symmetry. apply (CEIL_POW2_between size 3); lia. }
    destruct (Z.leb_spec size 32).
    { exists 2%nat. split; [lia|]. split; [reflexivity|]. rewrite E2.
      symmetry. apply (CEIL_POW2_between size 4); lia. }
    destruct (Z.leb_spec size 64); [|lia].
    exists 3%nat. split; [lia|]. split; [reflexivity|]. rewrite E3.
    symmetry. apply (CEIL_POW2_between size 5); lia. }
  destruct Hfind as (i & Hi & Ef & Ec). rewrite Ef in H.
  destruct (slabheap_alloc a i) as [[a1 ptr]|] eqn:Ea; [|discriminate].
  injection H as <- <-. cbn [r_size].
  pose proof (slabheap_alloc_sizes a i a1 ptr Ea) as Hkeep.
  rewrite Hkeep, Ec. split; [reflexivity|]. split; [reflexivity|].
  intros j Hj. rewrite Hkeep. apply Hs. exact Hj.
Qed.

Lemma kmem_alloc_size_agrees_slab_witness :
  exists a' r,
    kmem_alloc_aligned kmem_sample 5 1 = Some (a', r)
    /\ r_size r = kmem_alloc_size 5 /\ r_size r = CEIL_POW2 5
    /\ slab_sizes a'.
Proof.
  assert (Hs : slab_sizes kmem_sample).
  { intros i Hi. reflexivity. }
  assert (X : match kmem_alloc_aligned kmem_sample 5 1 with
              | Some _ => True
              | None => False
              end) by (vm_compute; exact I).
  destruct (kmem_alloc_aligned kmem_sample 5 1) as [[a' r]|] eqn:E;
    [|contradiction].
  exists a', r. split; [reflexivity|].
  apply (kmem_alloc_size_agrees_slab kmem_sample 5 a' r Hs); [lia|exact E].
Defined.

Ltac ld :=
  repeat first
    [ rewrite load64_store64_same by lia
    | rewrite load32_store32_same by lia
    | rewrite load64_store64_other by lia
    | rewrite load32_store64_other by lia
    | rewrite load64_store32_other by lia
    | rewrite load32_store32_other by lia
    | rewrite load64_memset_other by lia
    | rewrite load32_memset_other by lia ].

Lemma slabheaps_set_slabheap_same a i sh :
  slabheaps (set_slabheap a i sh) i = sh.
Proof. unfold set_slabheap. cbn [slabheaps]. apply upd_same. Qed.

(** X26.  A chunk that lies behind the header of its block (the block
    found by masking its address) is freed; its block was full, or heads
    the usable list.  Then this chunk is the one the next [slabheap_alloc]
    of that slab heap returns, and the block's header and the head of the
    usable list are then as they were before the chunk was freed. *)
Theorem slabheap_free_then_alloc a i ptr :
  let block := Z.land ptr SLABHEAP_BLOCK_MASK in
  0 <= ptr < 2^64 -> block <> 0 ->
  block + sizeof_slabblock_t <= ptr ->
  0 <= sh_usable (slabheaps a i) < 2^64 ->
  sh_usable (slabheaps a i) = block
  \/ (blk_recycle (blockmem a block) = 0
      /\ blk_len (blockmem a block) = blk_cap (blockmem a block)) ->
  exists a',
    slabheap_alloc (slabheap_free a i ptr) i = Some (a', ptr)
    /\ blockmem a' block = blockmem a block
    /\ sh_usable (slabheaps a' i) = sh_usable (slabheaps a i).
Proof.
  intros block Hptr Hb Hbehind HU Hcase.
  assert (Hp64 : 2^64 = 18446744073709551616) by reflexivity.
  assert (Hb0 : 0 <= block) by (apply Z.land_nonneg; left; lia).
  unfold sizeof_slabblock_t in Hbehind.
  unfold blockmem in *. cbn [blk_recycle blk_len blk_cap] in Hcase.
  set (m0 := mem a) in *.
  set (U := sh_usable (slabheaps a i)) in *.
  pose proof (load64_range m0 (block + 8)) as HR.
  pose proof (load64_range m0 block) as HN.
  set (R0 := load64 m0 (block + 8)) in *.
  set (N0 := load64 m0 block) in *.
  set (cap0 := load32 m0 (block + 16)) in *.
  set (len0 := load32 m0 (block + 20)) in *.
  unfold slabheap_free. fold block. fold m0. fold U. cbv zeta.
  set (m1 := memset m0 ptr KMEM_FREE_SCRUB_BYTE (sh_size (slabheaps a i))).
  assert (E1 : load64 m1 (block + 8) = R0) by (unfold m1; ld; reflexivity).
  assert (E2 : load32 m1 (block + 20) = len0) by (unfold m1; ld; reflexivity).
  assert (E3 : load32 m1 (block + 16) = cap0) by (unfold m1; ld; reflexivity).
  assert (E4 : load64 m1 block = N0) by (unfold m1; ld; reflexivity).
  rewrite E1, E2, E3.
  set (m3 := store64 (store64 m1 ptr R0) (block + 8) ptr).
  assert (F1 : load64 m3 block = N0) by (unfold m3; ld; exact E4).
  assert (F2 : load64 m3 (block + 8) = ptr) by (unfold m3; ld; reflexivity).
  assert (F3 : load64 m3 ptr = R0) by (unfold m3; ld; reflexivity).
  assert (F4 : load32 m3 (block + 20) = len0) by (unfold m3; ld; exact E2).
  assert (F5 : load32 m3 (block + 16) = cap0) by (unfold m3; ld; exact E3).
  destruct ((R0 =? 0) && (len0 =? cap0)) eqn:Efull.
  - (* the block was full *)
    apply andb_true_iff in Efull. destruct Efull as [ER EL].
    apply Z.eqb_eq in ER. apply Z.eqb_eq in EL.
    rewrite F1.
    set (m4 := store64 m3 block U).
    unfold slabheap_alloc.
    rewrite slabheaps_set_slabheap_same. cbn [sh_usable sh_size sh_full].
    destruct (Z.eqb_spec block 0) as [|_]; [contradiction|].
    cbn [mem set_slabheap set_mem]. cbv zeta.
    assert (G2 : load64 m4 (block + 8) = ptr) by (unfold m4; ld; exact F2).
    assert (G3 : load64 m4 ptr = R0) by (unfold m4; ld; exact F3).
    rewrite G2.
    destruct (Z.eqb_spec ptr 0) as [|_]; [lia|].
    rewrite G3.
    set (m5 := store64 m4 (block + 8) R0).
    assert (K1 : load64 m5 ptr = R0) by (unfold m5; ld; exact G3).
    assert (K2 : load32 m5 (block + 20) = len0)
      by (unfold m5, m4; ld; exact F4).
    assert (K3 : load32 m5 (block + 16) = cap0)
      by (unfold m5, m4; ld; exact F5).
    assert (K4 : load64 m5 block = U) by (unfold m5, m4; ld; reflexivity).
    assert (K5 : load64 m5 (block + 8) = R0) by (unfold m5; ld; reflexivity).
    rewrite K1, K2, K3, ER, EL, Z.eqb_refl, Z.eqb_refl. cbn [andb].
    rewrite K4.
    eexists. split; [reflexivity|].
    split; [|exact (f_equal sh_usable (slabheaps_set_slabheap_same _ i _))].
    cbn [mem set_slabheap set_mem].
    rewrite !slabheaps_set_slabheap_same. cbn [sh_full].
    rewrite (load64_store64_same m5 block N0 HN).
    rewrite (load64_store64_other m5 block N0 (block + 8)) by lia.
    rewrite (load32_store64_other m5 block N0 (block + 16)) by lia.
    rewrite (load32_store64_other m5 block N0 (block + 20)) by lia.
    rewrite K5, K2, K3.
    f_equal; first [reflexivity | exact ER | exact EL].
  - (* the block heads the usable list *)
    assert (Hu : U = block).
    { destruct Hcase as [Hu|[ER EL]]; [exact Hu|].
      rewrite ER, EL, !Z.eqb_refl in Efull. discriminate. }
    unfold slabheap_alloc. cbn [slabheaps set_mem mem]. fold U. rewrite Hu.
    destruct (Z.eqb_spec block 0) as [|_]; [contradiction|].
    cbv zeta. cbn [slabheaps set_mem mem]. rewrite F2.
    destruct (Z.eqb_spec ptr 0) as [|_]; [lia|].
    rewrite F3.
    set (m5 := store64 m3 (block + 8) R0).
    assert (K1 : load64 m5 ptr = R0) by (unfold m5; ld; exact F3).
    assert (K2 : load32 m5 (block + 20) = len0) by (unfold m5; ld; exact F4).
    assert (K3 : load32 m5 (block + 16) = cap0) by (unfold m5; ld; exact F5).
    assert (K4 : load64 m5 block = N0) by (unfold m5; ld; exact F1).
    assert (K5 : load64 m5 (block + 8) = R0) by (unfold m5; ld; reflexivity).
    rewrite K1, K2, K3, Efull.
    eexists. split; [reflexivity|].
    cbn [mem set_mem slabheaps].
    split; [|exact Hu].
    rewrite K4, K5, K2, K3. reflexivity.
Qed.

Lemma kmem_sample_one_chunk :
  exists a r,
    kmem_alloc_aligned kmem_sample 8 1 = Some (a, r)
    /\ 0 <= r_start r < 2^64
    /\ Z.land (r_start r) SLABHEAP_BLOCK_MASK <> 0
    /\ Z.land (r_start r) SLABHEAP_BLOCK_MASK + sizeof_slabblock_t
       <= r_start r
    /\ 0 <= sh_usable (slabheaps a 0) < 2^64
    /\ sh_usable (slabheaps a 0) = Z.land (r_start r) SLABHEAP_BLOCK_MASK.
Proof.
  assert (X : match kmem_alloc_aligned kmem_sample 8 1 with
              | Some (a, r) =>
                  (0 <=? r_start r) = true /\ (r_start r <? 2^64) = true
                  /\ Z.land (r_start r) SLABHEAP_BLOCK_MASK <> 0
                  /\ (Z.land (r_start r) SLABHEAP_BLOCK_MASK
                      + sizeof_slabblock_t <=? r_start r) = true
                  /\ (0 <=? sh_usable (slabheaps a 0)) = true
                  /\ (sh_usable (slabheaps a 0) <? 2^64) = true
                  /\ sh_usable (slabheaps a 0)
                     = Z.land (r_start r) SLABHEAP_BLOCK_MASK
              | None => False
              end)
    by (vm_compute; repeat split; try reflexivity; discriminate).
  destruct (kmem_alloc_aligned kmem_sample 8 1) as [[a r]|]; [|contradiction].
  destruct X as (H1 & H2 & H3 & H4 & H5 & H6 & H7).
  exists a, r. split; [reflexivity|].
  split; [lia|]. split; [exact H3|]. split; [lia|]. split; [lia|exact H7].
Qed.

Lemma slabheap_free_then_alloc_witness :
  exists a r a',
    kmem_alloc_aligned kmem_sample 8 1 = Some (a, r)
    /\ slabheap_alloc (slabheap_free a 0 (r_start r)) 0
       = Some (a', r_start r)
    /\ blockmem a' (Z.land (r_start r) SLABHEAP_BLOCK_MASK)
       = blockmem a (Z.land (r_start r) SLABHEAP_BLOCK_MASK)
    /\ sh_usable (slabheaps a' 0) = sh_usable (slabheaps a 0).
Proof.
  destruct kmem_sample_one_chunk as (a & r & E & Hp & Hb & Hbe & HU & Hu).
  destruct (slabheap_free_then_alloc a 0 (r_start r) Hp Hb Hbe HU
              (or_introl Hu)) as (a' & H).
  exists a, r, a'. split; [exact E|exact H].
Defined.

(** X27.  The last chunk of a slab block lies outside the block: when the
    block at the head of the usable list (at a multiple of
    [SLABHEAP_BLOCK_SIZE], with the capacity [slabheap_grow] gives it) has
    one chunk left and nothing to recycle, [slabheap_alloc] returns a chunk
    at or above [block + SLABHEAP_BLOCK_SIZE], the end of the memory
    requested for the block, moves the block to the full list, and the
    block that [slabheap_free] would find for this chunk is not [block]. *)
Theorem slabheap_alloc_last_chunk_outside a i block :
  slab_sizes a -> (i < SLABHEAP_COUNT)%nat ->
  sh_usable (slabheaps a i) = block ->
  0 < block -> block mod SLABHEAP_BLOCK_SIZE = 0 ->
  block + 2 * SLABHEAP_BLOCK_SIZE <= 2^64 ->
  blk_recycle (blockmem a block) = 0 ->
  blk_cap (blockmem a block) = SLABHEAP_BLOCK_SIZE / sh_size (slabheaps a i) ->
  blk_len (blockmem a block) = blk_cap (blockmem a block) - 1 ->
  exists a' chunk,
    slabheap_alloc a i = Some (a', chunk)
    /\ block + SLABHEAP_BLOCK_SIZE <= chunk
    /\ Z.land chunk SLABHEAP_BLOCK_MASK = block + SLABHEAP_BLOCK_SIZE
    /\ sh_full (slabheaps a' i) = block.
Proof.
  intros Hs Hi Hu Hpos Hal Hhi Hrec Hcap Hlen.
  destruct (slab_sizes_values a Hs) as (E0 & E1 & E2 & E3).
  unfold blockmem in *. cbn [blk_recycle blk_len blk_cap] in *.
  unfold SLABHEAP_BLOCK_MASK, SLABHEAP_BLOCK_SIZE, PAGE_SIZE,
    sizeof_slabblock_t in *.
  change (4096 * 16) with (2^16) in *.
  assert (Hp16 : 2^16 = 65536) by reflexivity.
  assert (Hp64 : 2^64 = 18446744073709551616) by reflexivity.
  assert (Hp32 : 2^32 = 4294967296) by reflexivity.
  assert (Hdata : forall n, 3 <= n <= 6 ->
            ALIGN2 (block + 24) (2^n) = block + (24 + 2^n - 1) / 2^n * 2^n).
  { intros n Hn.
    assert (2^3 <= 2^n) by (apply Z.pow_le_mono_r; lia).
    assert (2^n <= 2^6) by (apply Z.pow_le_mono_r; lia).
    change (2^3) with 8 in *. change (2^6) with 64 in *.
    rewrite ALIGN2_pow2 by lia.
    assert (Hm : block mod 2^n = 0).
    { apply Z.mod_divide in Hal; [|lia].
      apply Z.mod_divide; [lia|].
      destruct Hal as [q Hq]. exists (q * 2^(16 - n)).
      rewrite <- Z.mul_assoc, <- Z.pow_add_r by lia.
      replace (16 - n + n) with 16 by lia. exact Hq. }
    replace (block + 24 + 2^n - 1) with (24 + 2^n - 1 + block) by lia.
    apply Z.mod_divide in Hm; [|lia]. destruct Hm as [q Hq].
    rewrite Hq at 2. rewrite Z.mod_add by lia.
    pose proof (Z.div_mod (24 + 2^n - 1) (2^n) ltac:(lia)). lia. }
  assert (Hmask : forall c, block + 65536 <= c < block + 2 * 65536 ->
            Z.land c (not64 (2^16 - 1)) = block + 65536).
  { intros c Hc.
    rewrite <- (wrap64_small (2^16 - 1)) by lia.
    rewrite land_clear_low by lia.
    apply Z.mod_divide in Hal; [|lia]. destruct Hal as [q Hq].
    replace c with (c - block - 65536 + (q + 1) * 2^16) at 2 by lia.
    rewrite Z.mod_add by lia.
    rewrite Z.mod_small by lia. lia. }
  assert (Hd8 : ALIGN2 (block + 24) 8 = block + 24)
    by (change 8 with (2^3); rewrite Hdata by lia; reflexivity).
  assert (Hd16 : ALIGN2 (block + 24) 16 = block + 32)
    by (change 16 with (2^4); rewrite Hdata by lia; reflexivity).
  assert (Hd32 : ALIGN2 (block + 24) 32 = block + 32)
    by (change 32 with (2^5); rewrite Hdata by lia; reflexivity).
  assert (Hd64 : ALIGN2 (block + 24) 64 = block + 64)
    by (change 64 with (2^6); rewrite Hdata by lia; reflexivity).
  (* the chunk, for each class *)
  assert (Hchunk : exists chunk cap,
            wrap64 (ALIGN2 (wrap64 (block + 24)) (sh_size (slabheaps a i))
                    + wrap64 (load32 (mem a) (block + 20)
                              * sh_size (slabheaps a i))) = chunk
            /\ load32 (mem a) (block + 16) = cap
            /\ load32 (mem a) (block + 20) = cap - 1
            /\ 1 <= cap <= 8192
            /\ block + 65536 <= chunk < block + 2 * 65536).
  { rewrite (wrap64_small (block + 24)) by lia. rewrite Hlen, Hcap.
    unfold SLABHEAP_COUNT in Hi.
    destruct i as [|[|[|[|i]]]]; [| | | |lia].
    - rewrite E0, Hd8. change (2^16 / 8) with 8192.
      rewrite (wrap64_small ((8192 - 1) * 8)) by lia.
      rewrite wrap64_small by lia.
      eexists _, 8192. repeat split; try reflexivity; lia.
    - rewrite E1, Hd16. change (2^16 / 16) with 4096.
      rewrite (wrap64_small ((4096 - 1) * 16)) by lia.
      rewrite wrap64_small by lia.
      eexists _, 4096. repeat split; try reflexivity; lia.
    - rewrite E2, Hd32. change (2^16 / 32) with 2048.
      rewrite (wrap64_small ((2048 - 1) * 32)) by lia.
      rewrite wrap64_small by lia.
      eexists _, 2048. repeat split; try reflexivity; lia.
    - rewrite E3, Hd64. change (2^16 / 64) with 1024.
      rewrite (wrap64_small ((1024 - 1) * 64)) by lia.
      rewrite wrap64_small by lia.
      eexists _, 1024. repeat split; try reflexivity; lia. }
  destruct Hchunk as (chunk & cap & Ech & Ecap & Elen & Hcapr & Hch).
  unfold slabheap_alloc. rewrite Hu.
  destruct (Z.eqb_spec block 0) as [|_]; [lia|].
  cbv zeta. rewrite Hrec. rewrite Z.eqb_refl.
  unfold sizeof_slabblock_t. rewrite Ech.
  set (m0 := mem a) in *.
  set (m1 := store64 m0 chunk 0).
  assert (L1 : load32 m1 (block + 20) = cap - 1) by (unfold m1; ld; exact Elen).
  rewrite L1. replace (cap - 1 + 1) with cap by lia.
  assert (Ew : wrap32 cap = cap) by (unfold wrap32; apply Z.mod_small; lia).
  rewrite Ew.
  set (m2 := store32 m1 (block + 20) cap).
  assert (L2 : load64 m2 chunk = 0) by (unfold m2, m1; ld; reflexivity).
  rewrite L2.
  set (m3 := store64 m2 (block + 8) 0).
  assert (L3 : load64 m3 chunk = 0) by (unfold m3; ld; exact L2).
  assert (L4 : load32 m3 (block + 20) = cap)
    by (unfold m3, m2; ld; reflexivity).
  assert (L5 : load32 m3 (block + 16) = cap)
    by (unfold m3, m2, m1; ld; exact Ecap).
  rewrite L3, L4, L5, !Z.eqb_refl. cbn [andb].
  eexists _, _. split; [reflexivity|].
  rewrite slabheaps_set_slabheap_same. cbn [sh_full].
  split; [lia|]. split; [apply Hmask; lia|reflexivity].
Qed.

Lemma kmem_sample_one_left :
  exists a rs,
    kmem_alloc_n 1023 kmem_sample 64 = Some (a, rs)
    /\ slab_sizes a
    /\ sh_usable (slabheaps a 3) = 0x200000
    /\ blk_recycle (blockmem a 0x200000) = 0
    /\ blk_cap (blockmem a 0x200000)
       = SLABHEAP_BLOCK_SIZE / sh_size (slabheaps a 3)
    /\ blk_len (blockmem a 0x200000) = blk_cap (blockmem a 0x200000) - 1.
Proof.
  assert (X : match kmem_alloc_n 1023 kmem_sample 64 with
              | Some (a, rs) =>
                  (sh_size (slabheaps a 0) = 8 /\ sh_size (slabheaps a 1) = 16
                   /\ sh_size (slabheaps a 2) = 32
                   /\ sh_size (slabheaps a 3) = 64)
                  /\ sh_usable (slabheaps a 3) = 0x200000
                  /\ blk_recycle (blockmem a 0x200000) = 0
                  /\ blk_cap (blockmem a 0x200000)
                     = SLABHEAP_BLOCK_SIZE / sh_size (slabheaps a 3)
                  /\ blk_len (blockmem a 0x200000)
                     = blk_cap (blockmem a 0x200000) - 1
              | None => False
              end)
    by (vm_compute; repeat split; reflexivity).
  destruct (kmem_alloc_n 1023 kmem_sample 64) as [[a rs]|]; [|contradiction].
  exists a, rs. split; [reflexivity|].
  destruct X as ((E0 & E1 & E2 & E3) & X). split; [|exact X].
  intros i Hi. unfold SLABHEAP_COUNT in Hi.
  destruct i as [|[|[|[|i]]]]; [exact E0|exact E1|exact E2|exact E3|lia].
Qed.

Lemma slabheap_alloc_last_chunk_outside_witness :
  exists a rs a' chunk,
    kmem_alloc_n 1023 kmem_sample 64 = Some (a, rs)
    /\ slabheap_alloc a 3 = Some (a', chunk)
    /\ 0x200000 + SLABHEAP_BLOCK_SIZE <= chunk
    /\ Z.land chunk SLABHEAP_BLOCK_MASK = 0x200000 + SLABHEAP_BLOCK_SIZE
    /\ sh_full (slabheaps a' 3) = 0x200000.
Proof.
  destruct kmem_sample_one_left as (a & rs & E & Hs & Hu & Hr & Hc & Hl).
  destruct (slabheap_alloc_last_chunk_outside a 3 0x200000 Hs
              ltac:(unfold SLABHEAP_COUNT; lia) Hu ltac:(lia)
              ltac:(reflexivity) ltac:(vm_compute; discriminate) Hr Hc Hl)
    as (a' & chunk & H).
  exists a, rs, a', chunk. split; [exact E|exact H].
Defined.

(** A chunk that lies on a block header.  The 64-byte class is filled from
    a fresh allocator: the last chunk of its block, at
    [0x200000 + SLABHEAP_BLOCK_SIZE], lies where the header of the next
    block would be.  Freeing it scrubs that header before it is read: the
    recycle field read is not NULL, no block moves to the usable list, and
    the next allocation grows the slab heap and returns another chunk. *)
Lemma slabheap_free_chunk_on_header :
  match kmem_alloc_n 1024 kmem_sample 64 with
  | Some (a, rs) =>
      let ptr := 0x200000 + SLABHEAP_BLOCK_SIZE in
      option_map r_start (nth_error rs 1023) = Some ptr
      /\ sh_usable (slabheaps a 3) = 0 /\ sh_full (slabheaps a 3) = 0x200000
      /\ match kmem_free a (mk_rmem2 ptr 64) with
         | Some a1 =>
             sh_usable (slabheaps a1 3) = 0
             /\ sh_full (slabheaps a1 3) = 0x200000
             /\ blk_recycle (blockmem a1 0x200000) = 0
             /\ match slabheap_alloc a1 3 with
                | Some (a2, chunk) => chunk <> ptr
                | None => False
                end
         | None => False
         end
  | None => False
  end.
Proof. vm_compute. repeat split; try reflexivity; discriminate. Qed.

(** ** kmem: the layout of a sub-heap *)

Lemma heap_init_loop_ends p size :
  0 <= p -> CHUNK_SIZE <= size -> p + size + size / 512 < 2^64 ->
  forall fuel cap sub,
  1 <= sub -> 1 <= cap -> size / CHUNK_SIZE - 1 - cap = sub - 1 ->
  size / CHUNK_SIZE - 1 < 512 * sub * 2 ^ Z.of_nat fuel ->
  exists c,
    heap_init_loop (S fuel) p (p + size) cap sub = Some c
    /\ 1 <= c <= cap
    /\ c * CHUNK_SIZE + c / 8 <= size
    /\ (c = cap \/ 256 * (size / CHUNK_SIZE - 1 - c + 1) < size / CHUNK_SIZE - 1).
Proof.
  unfold CHUNK_SIZE. intros Hp Hsize Hhi.
  assert (Hp64 : 2^64 = 18446744073709551616) by reflexivity.
  pose proof (Z.div_mod size 64 ltac:(lia)) as Hd64.
  pose proof (Z.mod_pos_bound size 64 ltac:(lia)) as Hm64.
  pose proof (Z.div_mod size 512 ltac:(lia)) as Hd512.
  pose proof (Z.mod_pos_bound size 512 ltac:(lia)) as Hm512.
  induction fuel as [|fuel IH]; intros cap sub Hsub Hcap Hrel Hfuel.
  - change (2 ^ Z.of_nat 0) with 1 in Hfuel.
    pose proof (Z.div_mod cap 8 ltac:(lia)) as Hd8.
    pose proof (Z.mod_pos_bound cap 8 ltac:(lia)) as Hm8.
    cbn [heap_init_loop]. cbv zeta. unfold CHUNK_SIZE.
    rewrite (wrap64_small (cap * 64)) by lia.
    rewrite (wrap64_small (p + cap * 64)) by lia.
    rewrite (wrap64_small (p + cap * 64 + cap / 8)) by lia.
    destruct (Z.ltb_spec (p + size) (p + cap * 64 + cap / 8)); [lia|].
    exists cap. split; [reflexivity|]. split; [lia|]. split; [lia|].
    left. reflexivity.
  - pose proof (Z.div_mod cap 8 ltac:(lia)) as Hd8.
    pose proof (Z.mod_pos_bound cap 8 ltac:(lia)) as Hm8.
    change (heap_init_loop (S (S fuel)) p (p + size) cap sub)
      with (let bitset_end :=
              wrap64 (wrap64 (p + wrap64 (cap * CHUNK_SIZE)) + cap / 8) in
            if p + size <? bitset_end then
              heap_init_loop (S fuel) p (p + size)
                (wrap64 (cap - sub)) (wrap64 (sub * 2))
            else Some cap).
    cbv zeta. unfold CHUNK_SIZE.
    rewrite (wrap64_small (cap * 64)) by lia.
    rewrite (wrap64_small (p + cap * 64)) by lia.
    rewrite (wrap64_small (p + cap * 64 + cap / 8)) by lia.
    destruct (Z.ltb_spec (p + size) (p + cap * 64 + cap / 8)) as [Hgo|Hstop].
    + assert (Hbig : 512 * sub + 8 <= cap) by lia.
      rewrite (wrap64_small (cap - sub)) by lia.
      rewrite (wrap64_small (sub * 2)) by lia.
      destruct (IH (cap - sub) (sub * 2)) as (c & Ec & Hc1 & Hc2 & Hc3).
      * lia.
      * lia.
      * lia.
      * rewrite Nat2Z.inj_succ, Z.pow_succ_r in Hfuel by lia. lia.
      * exists c. split; [exact Ec|]. split; [lia|]. split; [exact Hc2|].
        right. destruct Hc3 as [->|Hc3]; lia.
    + exists cap. split; [reflexivity|]. split; [lia|]. split; [lia|].
      left. reflexivity.
Qed.

(** X28.  [heap_init] over [size >= HEAP_MIN_SIZE] bytes at [p] (the
    region ending below [2^64]): the search for the number of chunks ends
    within 64 rounds with at least one chunk; the chunks and [chunk_cap/8]
    bytes of bitset fit in [size] bytes; and of the [size/CHUNK_SIZE - 1]
    chunks the search starts from, at most one in 256 is given up. *)
Theorem heap_init_chunk_cap_fits p size :
  0 <= p -> HEAP_MIN_SIZE <= size -> p + size + size / 512 < 2^64 ->
  exists chunk_cap,
    heap_init_chunk_cap 64 p size = Some chunk_cap
    /\ 1 <= chunk_cap <= size / CHUNK_SIZE - 1
    /\ chunk_cap * CHUNK_SIZE + chunk_cap / 8 <= size
    /\ 256 * (size / CHUNK_SIZE - 1 - chunk_cap) <= size / CHUNK_SIZE - 1.
Proof.
  unfold HEAP_MIN_SIZE. intros Hp Hsize Hhi.
  assert (Hp64 : 2^64 = 18446744073709551616) by reflexivity.
  assert (Hc0 : 1 <= size / CHUNK_SIZE - 1 < 2^58).
  { unfold CHUNK_SIZE in *.
    pose proof (Z.div_mod size 64 ltac:(lia)) as Hd64.
    pose proof (Z.mod_pos_bound size 64 ltac:(lia)) as Hm64.
    pose proof (Z.div_pos size 512 ltac:(lia) ltac:(lia)).
    change (2^58) with 288230376151711744. lia. }
  assert (H58 : 2^58 = 288230376151711744) by reflexivity.
  unfold heap_init_chunk_cap. cbv zeta.
  rewrite (wrap64_small (size / CHUNK_SIZE - 1)) by lia.
  rewrite (wrap64_small (p + size))
    by (unfold CHUNK_SIZE in *;
        pose proof (Z.div_pos size 512 ltac:(lia) ltac:(lia)); lia).
  destruct (heap_init_loop_ends p size Hp ltac:(unfold CHUNK_SIZE in *; lia)
              Hhi 63 (size / CHUNK_SIZE - 1) 1
              ltac:(lia) ltac:(lia) ltac:(lia))
    as (c & Ec & Hc1 & Hc2 & Hc3).
  { change (2 ^ Z.of_nat 63) with 9223372036854775808. lia. }
  exists c. split; [exact Ec|]. split; [lia|]. split; [exact Hc2|].
  destruct Hc3 as [->|Hc3]; lia.
Qed.

Lemma heap_init_chunk_cap_fits_witness :
  exists chunk_cap,
    heap_init_chunk_cap 64 0x200000 (2 * 2^20) = Some chunk_cap
    /\ 1 <= chunk_cap <= 2 * 2^20 / CHUNK_SIZE - 1
    /\ chunk_cap * CHUNK_SIZE + chunk_cap / 8 <= 2 * 2^20
    /\ 256 * (2 * 2^20 / CHUNK_SIZE - 1 - chunk_cap)
       <= 2 * 2^20 / CHUNK_SIZE - 1.
Proof.
  apply (heap_init_chunk_cap_fits 0x200000 (2 * 2^20)).
  - lia.
  - vm_compute. discriminate.
  - vm_compute. reflexivity.
Defined.
